(** * A shallow embedding of the JIT compiler core ([src/compile.cpp])

    The development follows the source file top-down: machine integers,
    the growable [Buffer], the [Code] record, frame accessors, the
    unwinder helpers, the [Assembler] and the [Compiler] templates, the
    call-site patcher, [ArgumentList] and the [invoke] bridge.  Bytes are
    integers in [0, 256); C++ [unsigned] arithmetic is written with its
    wrap-around; operations that the C++ code leaves undefined (a store
    outside an allocated block, a failed [assert], [abort]) return
    [None]. *)

From Stdlib Require Import Ascii String ZArith List Lia Bool Sorted.
Import ListNotations.
Local Open Scope Z_scope.

(** ** Target and machine integers *)

(** [BytesPerWord] is a compile-time constant of the build: 4 on x86 and
    8 on x86-64 (where [__x86_64__] is defined). *)
Inductive arch : Type := x86_32 | x86_64.

Definition BytesPerWord (a : arch) : Z :=
  match a with x86_32 => 4 | x86_64 => 8 end.

Definition uint8 (x : Z) : Z := x mod 2 ^ 8.
Definition uint16 (x : Z) : Z := x mod 2 ^ 16.
Definition uint32 (x : Z) : Z := x mod 2 ^ 32.
Definition uintptr (a : arch) (x : Z) : Z := x mod 2 ^ (8 * BytesPerWord a).
Definition int8 (x : Z) : Z := (x + 2 ^ 7) mod 2 ^ 8 - 2 ^ 7.
Definition int32 (x : Z) : Z := (x + 2 ^ 31) mod 2 ^ 32 - 2 ^ 31.

(** Little-endian byte images, as [memcpy] of an integer produces and
    consumes them on x86. *)
Fixpoint bytesLE (n : nat) (v : Z) : list Z :=
  match n with
  | O => []
  | S n' => v mod 256 :: bytesLE n' (v / 256)
  end.

Fixpoint valueLE (bs : list Z) : Z :=
  match bs with
  | [] => 0
  | b :: bs' => b + 256 * valueLE bs'
  end.

Definition len {A : Type} (l : list A) : Z := Z.of_nat (length l).

(** ** Raw memory blocks *)

(** [s->allocate(n)]: a fresh block of [n] bytes.  Its contents are
    unspecified in C++; the model fills it with zeros and nothing below
    depends on that choice. *)
Definition allocate (n : Z) : list Z := repeat 0 (Z.to_nat n).

(** [memcpy(dst + off, src, |src|)], undefined outside the block. *)
Definition memcpy (dst : list Z) (off : Z) (src : list Z) : option (list Z) :=
  if (0 <=? off) && (off + len src <=? len dst)
  then Some (firstn (Z.to_nat off) dst ++ src
             ++ skipn (Z.to_nat (off + len src)) dst)
  else None.

(** Reading [n] bytes at [block + off], undefined outside the block. *)
Definition readBytes (block : list Z) (off n : Z) : option (list Z) :=
  if (0 <=? off) && (0 <=? n) && (off + n <=? len block)
  then Some (firstn (Z.to_nat n) (skipn (Z.to_nat off) block))
  else None.

(** ** Buffer *)

Module Buffer.

Record t : Type := mk {
  data : option (list Z);      (* [None] is the null pointer *)
  position : Z;
  capacity : Z;
  minimumCapacity : Z
}.

Definition new (minimumCapacity : Z) : t := mk None 0 0 minimumCapacity.

Definition setData (b : t) (d : list Z) : t :=
  mk (Some d) (position b) (capacity b) (minimumCapacity b).

Definition setPosition (b : t) (p : Z) : t :=
  mk (data b) p (capacity b) (minimumCapacity b).

(** The size of the block the buffer currently owns. *)
Definition allocated (b : t) : Z :=
  match data b with Some d => len d | None => 0 end.

Definition ensure (space : Z) (b : t) : option t :=
  if uint32 (position b + space) >? capacity b then
    let newCapacity :=
      Z.max (uint32 (position b + space))
            (Z.max (minimumCapacity b) (uint32 (capacity b * 2))) in
    let newData := allocate newCapacity in
    match data b with
    | Some d =>
        match readBytes d 0 (position b) with
        | Some old =>
            match memcpy newData 0 old with
            | Some newData' => Some (setData b newData')
            | None => None
            end
        | None => None
        end
    | None => Some (setData b newData)
    end
  else Some b.

(** The shape shared by [append], [append2] and [append4]:
    [ensure(n); memcpy(data + position, &v, n); position += n]. *)
Definition appendBytes (bs : list Z) (b : t) : option t :=
  match ensure (len bs) b with
  | Some b1 =>
      match data b1 with
      | Some d =>
          match memcpy d (position b1) bs with
          | Some d' =>
              Some (setPosition (setData b1 d') (uint32 (position b1 + len bs)))
          | None => None
          end
      | None => None
      end
  | None => None
  end.

Definition append (v : Z) (b : t) : option t := appendBytes [uint8 v] b.
Definition append2 (v : Z) (b : t) : option t := appendBytes (bytesLE 2 (uint16 v)) b.
Definition append4 (v : Z) (b : t) : option t := appendBytes (bytesLE 4 (uint32 v)) b.

(** [assert(s, offset + n <= position); memcpy(data + offset, &v, n)]. *)
Definition setBytes (offset : Z) (bs : list Z) (b : t) : option t :=
  if uint32 (offset + len bs) <=? position b then
    match data b with
    | Some d =>
        match memcpy d offset bs with
        | Some d' => Some (setData b d')
        | None => None
        end
    | None => None
    end
  else None.

Definition set2 (offset v : Z) (b : t) : option t :=
  setBytes offset (bytesLE 2 (uint32 v)) b.
Definition set4 (offset v : Z) (b : t) : option t :=
  setBytes offset (bytesLE 4 (uint32 v)) b.

(** [assert(s, offset + n <= position); memcpy(&v, data + offset, n)]. *)
Definition getBytes (offset n : Z) (b : t) : option Z :=
  if uint32 (offset + n) <=? position b then
    match data b with
    | Some d =>
        match readBytes d offset n with
        | Some bs => Some (valueLE bs)
        | None => None
        end
    | None => None
    end
  else None.

Definition get2 (offset : Z) (b : t) : option Z := getBytes offset 2 b.
Definition get4 (offset : Z) (b : t) : option Z := getBytes offset 4 b.

Definition appendAddress (a : arch) (v : Z) (b : t) : option t :=
  match append4 v b with
  | Some b1 =>
      match a with
      | x86_64 => append4 (Z.shiftr (uintptr a v) 32) b1
      | x86_32 => Some b1
      end
  | None => None
  end.

Definition length (b : t) : Z := position b.

(** [copyTo(dst)]: the bytes written to [dst]; nothing when [data] is
    null. *)
Definition copyTo (b : t) : option (list Z) :=
  match data b with
  | Some d => readBytes d 0 (position b)
  | None => Some []
  end.

(** The bytes appended so far, and the invariant every buffer built
    from [new] by the operations above satisfies. *)
Definition contents (b : t) : list Z :=
  match data b with
  | Some d => firstn (Z.to_nat (position b)) d
  | None => []
  end.

Definition wf (b : t) : Prop :=
  0 <= position b <= allocated b /\ capacity b <= allocated b
  /\ allocated b < 2 ^ 32 /\ 0 <= minimumCapacity b < 2 ^ 32.

End Buffer.

(** ** Frame layout constants *)

Definition FrameThread (a : arch) : Z := uint32 (BytesPerWord a * 2).
Definition FrameMethod (a : arch) : Z := uint32 (FrameThread a + BytesPerWord a).

(** [const unsigned FrameNext = FrameNext + BytesPerWord;] The
    initializer mentions the object it initializes.  A namespace-scope
    object is zero-initialized before its dynamic initializer runs, so
    the right-hand side reads [self = 0]. *)
Definition FrameNext_initializer (a : arch) (self : Z) : Z :=
  uint32 (self + BytesPerWord a).
Definition FrameNext (a : arch) : Z := FrameNext_initializer a 0.

Definition FrameFootprint (a : arch) : Z := uint32 (BytesPerWord a * 3).

(** ** The parts of the VM this file only uses

    Declared in [machine.h], [common.h] and [constants.h]: the stack and
    heap as a word-addressed memory, the accessors of method objects,
    [instanceOf], and the allocator of exception objects. *)

Definition object : Type := Z.      (* [0] is the null reference *)

Definition ACC_STATIC : Z := 8.
Definition ACC_NATIVE : Z := 256.

(** Modelled from the spec: [pad] is declared in [common.h]; regions of
    a compiled method are "padded to machine-word alignment". *)
Definition pad (a : arch) (n : Z) : Z :=
  (n + (BytesPerWord a - 1)) / BytesPerWord a * BytesPerWord a.

(** ** Code *)

Module Code.

Record t : Type := mk {
  address : Z;                          (* where [body] lives *)
  codeLength_ : Z;
  lineNumberTableLength_ : Z;
  exceptionHandlerTableLength_ : Z;
  body : list Z
}.

(** [sizeof(NativeExceptionHandler)]: four 32-bit fields, written by
    [buildExceptionHandlerTable] with four [append4]. *)
Definition sizeofNativeExceptionHandler : Z := 16.
Definition sizeofNativeLineNumber : Z := 8.

(** The constructor copies the three buffers into [body], each region
    starting at a padded offset. *)
Definition placeRegion (block : list Z) (off : Z) (src : option (list Z))
  : option (list Z) :=
  match src with
  | Some bs => memcpy block off bs
  | None => None
  end.

Definition make (a : arch) (addr : Z) (code lineNumbers exceptionHandlers : Buffer.t)
  : option t :=
  let cl := Buffer.length code in
  let ll := Buffer.length lineNumbers in
  let el := Buffer.length exceptionHandlers in
  let footprint := pad a cl + pad a ll + pad a el in
  match placeRegion (allocate footprint) 0 (Buffer.copyTo code) with
  | Some b1 =>
      match placeRegion b1 (pad a cl) (Buffer.copyTo lineNumbers) with
      | Some b2 =>
          match placeRegion b2 (pad a cl + pad a ll)
                            (Buffer.copyTo exceptionHandlers) with
          | Some b3 => Some (mk addr cl ll el b3)
          | None => None
          end
      | None => None
      end
  | None => None
  end.

Definition code (c : t) : Z := address c.
Definition codeLength (c : t) : Z := codeLength_ c.

(** A [NativeExceptionHandler*] is the byte offset of the entry inside
    [body]. *)
Definition exceptionHandler (a : arch) (c : t) (index : Z) : Z :=
  pad a (codeLength_ c) + pad a (lineNumberTableLength_ c)
  + index * sizeofNativeExceptionHandler.

Definition exceptionHandlerTableLength (c : t) : Z :=
  exceptionHandlerTableLength_ c / sizeofNativeExceptionHandler.

Definition field (c : t) (handler : Z) (k : Z) : option Z :=
  match readBytes (body c) (handler + 4 * k) 4 with
  | Some bs => Some (valueLE bs)
  | None => None
  end.

Definition nativeExceptionHandlerStart (c : t) (h : Z) := field c h 0.
Definition nativeExceptionHandlerEnd (c : t) (h : Z) := field c h 1.
Definition nativeExceptionHandlerIp (c : t) (h : Z) := field c h 2.
Definition nativeExceptionHandlerCatchType (c : t) (h : Z) := field c h 3.

End Code.

(** ** Threads and the VM environment *)

Record MyThread : Type := mkThread {
  exception : object;
  frame : Z;
  reference : list Z        (* the chain of [Reference] nodes, head first *)
}.

Definition setException (t : MyThread) (e : object) : MyThread :=
  mkThread e (frame t) (reference t).
Definition setFrame (t : MyThread) (f : Z) : MyThread :=
  mkThread (exception t) f (reference t).
Definition setReference (t : MyThread) (r : list Z) : MyThread :=
  mkThread (exception t) (frame t) r.

Record VM : Type := mkVM {
  mem : Z -> Z;                               (* word at a byte address *)
  methodFlags : object -> Z;
  methodCompiled : object -> Code.t;
  methodCode : object -> list object;         (* body of the pool array *)
  instanceOf : object -> object -> bool;
  makeNew : object -> object;                 (* class to fresh instance *)
  makeNullPointerException : object
}.

(** [arrayBody(t, array, i)], undefined outside the array. *)
Definition arrayBody (array : list object) (i : Z) : option object :=
  if (0 <=? i) && (i <? len array) then nth_error array (Z.to_nat i) else None.

(** ** Frame accessors *)

(** [static_cast<void**>(p)[i]]; the subscript is taken in pointer-width
    arithmetic. *)
Definition wordAt (a : arch) (vm : VM) (p i : Z) : Z :=
  mem vm (uintptr a (p + i * BytesPerWord a)).

Definition frameValid (frame : Z) : bool := negb (frame =? 0).

(** [FrameFootprint] and [BytesPerWord] are [unsigned], so the subscripts
    of [frameBase] and [frameAddress] are computed in unsigned 32-bit
    arithmetic: [- (FrameFootprint / BytesPerWord) - 1] is [0xFFFFFFFC]
    and [- (FrameFootprint / BytesPerWord)] is [0xFFFFFFFD].  The pointer
    addition of [wordAt] wraps at pointer width: on x86-32 the words read
    are four and three words below [frame]; on x86-64 they lie
    [0xFFFFFFFC] and [0xFFFFFFFD] words above it. *)
Definition frameBase (a : arch) (vm : VM) (frame : Z) : Z :=
  wordAt a vm frame (uint32 (uint32 (- (FrameFootprint a / BytesPerWord a)) - 1)).

Definition frameNext (a : arch) (vm : VM) (frame : Z) : Z :=
  wordAt a vm (frameBase a vm frame) (FrameNext a / BytesPerWord a).

Definition frameMethod (a : arch) (vm : VM) (frame : Z) : object :=
  wordAt a vm (frameBase a vm frame) (FrameMethod a / BytesPerWord a).

Definition frameAddress (a : arch) (vm : VM) (frame : Z) : Z :=
  wordAt a vm frame (uint32 (- (FrameFootprint a / BytesPerWord a))).

Definition frameReturnAddress (a : arch) (vm : VM) (frame : Z) : Z :=
  wordAt a vm (frameBase a vm frame) 1.

Definition addressOffset (vm : VM) (method : object) (address : Z) : Z :=
  uint32 (address - Code.code (methodCompiled vm method)).

(** ** Exception dispatch *)

(** The loop of [findExceptionHandler], from index [i], over the
    [n] remaining entries.  [Some None] is the null result. *)
Fixpoint findExceptionHandlerFrom (a : arch) (vm : VM) (t : MyThread)
    (frame : Z) (n : nat) (i : Z) : option (option Z) :=
  match n with
  | O => Some None
  | S n' =>
      let method := frameMethod a vm frame in
      let code := methodCompiled vm method in
      let handler := Code.exceptionHandler a code i in
      let offset := addressOffset vm method (frameAddress a vm frame) in
      match Code.nativeExceptionHandlerStart code handler,
            Code.nativeExceptionHandlerEnd code handler with
      | Some start, Some end_ =>
          if (uint32 (offset - 1) >=? start) && (uint32 (offset - 1) <? end_)
          then
            match Code.nativeExceptionHandlerCatchType code handler with
            | Some ct =>
                let catchType :=
                  if ct =? 0 then Some 0
                  else arrayBody (methodCode vm method) (uint32 (ct - 1)) in
                match catchType with
                | Some c =>
                    if (c =? 0) || instanceOf vm c (exception t)
                    then Some (Some handler)
                    else findExceptionHandlerFrom a vm t frame n' (i + 1)
                | None => None
                end
            | None => None
            end
          else findExceptionHandlerFrom a vm t frame n' (i + 1)
      | _, _ => None
      end
  end.

Definition findExceptionHandler (a : arch) (vm : VM) (t : MyThread) (frame : Z)
  : option (option Z) :=
  let code := methodCompiled vm (frameMethod a vm frame) in
  findExceptionHandlerFrom a vm t frame
    (Z.to_nat (Code.exceptionHandlerTableLength code)) 0.

(** How a [NO_RETURN] routine ends: [vmJump(address)] with the thread
    as it is then, [abort], or undefined behaviour. *)
Inductive transfer : Type :=
| Jump (t : MyThread) (address : Z)
| Abort
| Undefined.

(** [unwind]: the walk over the frame chain; [fuel] bounds the number
    of frames visited. *)
Fixpoint unwindFrom (a : arch) (vm : VM) (t : MyThread) (fuel : nat) (frame : Z)
  : option transfer :=
  match fuel with
  | O => None
  | S fuel' =>
      if frameValid frame then
        let next := frameNext a vm frame in
        if negb (frameValid next)
           || negb (Z.land (methodFlags vm (frameMethod a vm next)) ACC_NATIVE =? 0)
        then Some (Jump (setFrame t next) (frameReturnAddress a vm frame))
        else if Z.land (methodFlags vm (frameMethod a vm frame)) ACC_NATIVE =? 0
        then
          match findExceptionHandler a vm t frame with
          | Some (Some eh) =>
              let code := methodCompiled vm (frameMethod a vm frame) in
              match Code.nativeExceptionHandlerIp code eh with
              | Some ip => Some (Jump (setFrame t frame) (Code.code code + ip))
              | None => Some Undefined
              end
          | Some None => unwindFrom a vm t fuel' (frameNext a vm frame)
          | None => Some Undefined
          end
        else unwindFrom a vm t fuel' (frameNext a vm frame)
      else Some Abort
  end.

Definition unwind (a : arch) (vm : VM) (fuel : nat) (t : MyThread) : option transfer :=
  unwindFrom a vm t fuel (frame t).

Definition throwNew (a : arch) (vm : VM) (fuel : nat) (t : MyThread) (class_ : object)
  : option transfer :=
  unwind a vm fuel (setException t (makeNew vm class_)).

Definition throw_ (a : arch) (vm : VM) (fuel : nat) (t : MyThread) (o : object)
  : option transfer :=
  let t' :=
    if negb (o =? 0)
    then setException t (makeNullPointerException vm)
    else setException t o in
  unwind a vm fuel t'.

(** ** Assembler *)

Notation "'do' x <- e ; k" :=
  (match e with Some x => k | None => None end)
  (at level 10, x pattern, e at level 100, k at level 200, only parsing).

Definition isByte (v : Z) : bool := int32 v =? int8 (int32 v).

Inductive Register : Type :=
| rax | rcx | rdx | rbx | rsp | rbp | rsi | rdi
| r8 | r9 | r10 | r11 | r12 | r13 | r14 | r15.

Definition regNum (r : Register) : Z :=
  match r with
  | rax => 0 | rcx => 1 | rdx => 2 | rbx => 3
  | rsp => 4 | rbp => 5 | rsi => 6 | rdi => 7
  | r8 => 8 | r9 => 9 | r10 => 10 | r11 => 11
  | r12 => 12 | r13 => 13 | r14 => 14 | r15 => 15
  end.

Module Assembler.

Record t : Type := mk {
  code : Buffer.t;
  jumps : Buffer.t
}.

Definition new : t := mk (Buffer.new 1024) (Buffer.new 32).

Definition onCode (f : Buffer.t -> option Buffer.t) (s : t) : option t :=
  do c <- f (code s); Some (mk c (jumps s)).

Definition onJumps (f : Buffer.t -> option Buffer.t) (s : t) : option t :=
  do j <- f (jumps s); Some (mk (code s) j).

(** *** Labels *)

Record Label : Type := mkLabel {
  unresolved : list Z;       (* the first [unresolvedCount] entries *)
  mark_ : Z
}.

Definition Capacity : Z := 8.

Definition newLabel : Label := mkLabel [] (-1).

Definition reference (l : Label) (s : t) : option (Label * t) :=
  if mark_ l =? -1 then
    if len (unresolved l) <? Capacity then
      let l' := mkLabel (unresolved l ++ [Buffer.length (code s)]) (mark_ l) in
      do s' <- onCode (Buffer.append4 0) s;
      Some (l', s')
    else None
  else
    do s' <- onCode (Buffer.append4 (mark_ l - (Buffer.length (code s) + 4))) s;
    Some (l, s').

Fixpoint patch (m : Z) (slots : list Z) (c : Buffer.t) : option Buffer.t :=
  match slots with
  | [] => Some c
  | u :: rest => do c' <- Buffer.set4 u (m - (u + 4)) c; patch m rest c'
  end.

Definition mark (l : Label) (s : t) : option (Label * t) :=
  let m := Buffer.length (code s) in
  do s' <- onCode (patch m (unresolved l)) s;
  Some (mkLabel (unresolved l) m, s').

(** *** Instructions *)

Definition byte (v : Z) : t -> option t := onCode (Buffer.append v).

Definition seq (f g : t -> option t) (s : t) : option t :=
  do s' <- f s; g s'.
Infix ">>" := seq (at level 60, right associativity).

Definition skip (s : t) : option t := Some s.

Definition rex (a : arch) : t -> option t :=
  match a with x86_64 => byte 72 | x86_32 => skip end.

(** [mov(Register src, Register dst)] *)
Definition mov_rr (a : arch) (src dst : Register) : t -> option t :=
  rex a >> byte 137
  >> byte (Z.lor (Z.lor 192 (Z.shiftl (regNum src) 3)) (regNum dst)).

Definition offsetInstruction (instruction zeroPrefix bytePrefix wordPrefix : Z)
    (ra rb : Z) (offset : Z) : t -> option t :=
  let prefix :=
    if (offset =? 0) && negb (rb =? regNum rbp) then zeroPrefix
    else if isByte offset then bytePrefix
    else wordPrefix in
  byte instruction
  >> byte (Z.lor (Z.lor prefix (Z.shiftl ra 3)) rb)
  >> (if rb =? regNum rsp then byte 36 else skip)
  >> (if (offset =? 0) && negb (rb =? regNum rbp) then skip
      else if isByte offset then byte offset
      else onCode (Buffer.append4 offset)).

(** [mov4(Register src, int32_t srcOffset, Register dst)] *)
Definition mov4_load (src : Register) (srcOffset : Z) (dst : Register) :=
  offsetInstruction 139 0 64 128 (regNum dst) (regNum src) srcOffset.

(** [mov4(Register src, Register dst, int32_t dstOffset)] *)
Definition mov4_store (src dst : Register) (dstOffset : Z) :=
  offsetInstruction 137 0 64 128 (regNum src) (regNum dst) dstOffset.

(** [mov(Register src, int32_t srcOffset, Register dst)] *)
Definition mov_load (a : arch) (src : Register) (srcOffset : Z) (dst : Register) :=
  rex a >> mov4_load src srcOffset dst.

(** [mov(Register src, Register dst, int32_t dstOffset)] *)
Definition mov_store (a : arch) (src dst : Register) (dstOffset : Z) :=
  rex a >> mov4_store src dst dstOffset.

(** [mov(uintptr_t v, Register dst)] *)
Definition mov_imm (a : arch) (v : Z) (dst : Register) : t -> option t :=
  rex a >> byte (Z.lor 184 (regNum dst)) >> onCode (Buffer.appendAddress a v).

Definition nop : t -> option t := byte 144.

(** The padding loop of [alignedMov]; each [nop] moves the length one
    byte closer to the next aligned position, so a word's worth of fuel
    is never exhausted. *)
Fixpoint alignPad (a : arch) (fuel : nat) (s : t) : option t :=
  if (uint32 (Buffer.length (code s)
              + (if BytesPerWord a =? 8 then 2 else 1))
      mod BytesPerWord a) =? 0
  then Some s
  else match fuel with
       | O => None
       | S fuel' => do s' <- nop s; alignPad a fuel' s'
       end.

Definition alignedMov (a : arch) (v : Z) (dst : Register) : t -> option t :=
  alignPad a (Z.to_nat (BytesPerWord a))
  >> rex a >> byte (Z.lor 184 (regNum dst)) >> onCode (Buffer.appendAddress a v).

(** [push(Register reg)] *)
Definition push_r (reg : Register) : t -> option t :=
  byte (Z.lor 80 (regNum reg)).

(** [push(Register reg, int32_t offset)] *)
Definition push_m (reg : Register) (offset : Z) : t -> option t :=
  offsetInstruction 255 48 112 176 (regNum rax) (regNum reg) offset.

(** [push(int32_t v)] *)
Definition push_i (v : Z) : t -> option t :=
  if isByte v then byte 106 >> byte v
  else byte 104 >> onCode (Buffer.append4 v).

Definition pushAddress (a : arch) (v : Z) : t -> option t :=
  if BytesPerWord a =? 8 then mov_imm a v rsi >> push_r rsi
  else push_i v.

(** [pop(Register dst)] *)
Definition pop_r (dst : Register) : t -> option t :=
  byte (Z.lor 88 (regNum dst)).

(** [add(int32_t v, Register dst)]; the assertion [isByte(v)] guards it. *)
Definition add_ir (a : arch) (v : Z) (dst : Register) : t -> option t :=
  if isByte v then
    rex a >> byte 131 >> byte (Z.lor 192 (regNum dst)) >> byte v
  else fun _ => None.

(** [sub(int32_t v, Register dst)] *)
Definition sub_ir (a : arch) (v : Z) (dst : Register) : t -> option t :=
  if isByte v then
    rex a >> byte 131 >> byte (Z.lor 232 (regNum dst)) >> byte v
  else fun _ => None.

Definition ret : t -> option t := byte 195.

(** [jmp(unsigned javaIP)] *)
Definition jmp_ip (javaIP : Z) (s : t) : option t :=
  do s1 <- byte 233 s;
  do s2 <- onJumps (Buffer.append4 javaIP) s1;
  do s3 <- onJumps (Buffer.append4 (Buffer.length (code s2))) s2;
  onCode (Buffer.append4 0) s3.

(** [conditional(Label& label, unsigned condition)] *)
Definition conditional (l : Label) (condition : Z) (s : t) : option (Label * t) :=
  do s1 <- byte 15 s;
  do s2 <- byte condition s1;
  reference l s2.

Definition je (l : Label) := conditional l 132.
Definition jne (l : Label) := conditional l 133.
Definition jg (l : Label) := conditional l 143.
Definition jge (l : Label) := conditional l 141.
Definition jl (l : Label) := conditional l 140.
Definition jle (l : Label) := conditional l 142.

(** [cmp(int v, Register reg)] *)
Definition cmp_ir (v : Z) (reg : Register) : t -> option t :=
  if isByte v then
    byte 131 >> byte (Z.lor 248 (regNum reg)) >> byte v
  else fun _ => None.

(** [call(Register reg)] *)
Definition call (reg : Register) : t -> option t :=
  byte 255 >> byte (Z.lor 208 (regNum reg)).

End Assembler.

(** ** Compiler *)

(** What the compiler takes from other translation units: field offsets
    and helper entry points (as addresses), the class of the exception
    thrown for a negative array length, and the resolver.  [resolveClass]
    yields [None] when it leaves an exception pending. *)
Record Externals : Type := mkExternals {
  MethodCode : Z;
  frameOffset : Z;
  throwNew_address : Z;
  throw__address : Z;
  makeBlankObjectArray_address : Z;
  makeBlankArray_address : Z;
  makeBooleanArray_address : Z;
  makeCharArray_address : Z;
  makeFloatArray_address : Z;
  makeDoubleArray_address : Z;
  makeByteArray_address : Z;
  makeShortArray_address : Z;
  makeIntArray_address : Z;
  makeLongArray_address : Z;
  NegativeArraySizeExceptionType : object;
  resolveClass : Z -> option object
}.

(** The method being compiled: its bytecode and tables. *)
Record ExceptionHandler : Type := mkExceptionHandler {
  exceptionHandlerStart : Z;
  exceptionHandlerEnd : Z;
  exceptionHandlerIp : Z;
  exceptionHandlerCatchType : Z
}.

Record Method : Type := mkMethod {
  codeBytes : list Z;
  codeMaxLocals : Z;
  methodParameterFootprint : Z;
  lineNumberTableLength : Z;
  lineNumberTableBody : Z -> Z * Z;     (* index to (ip, line); unchecked *)
  exceptionHandlerTable : list ExceptionHandler
}.

Definition codeLength (m : Method) : Z := len (codeBytes m).

(** [codeBody(t, code, ip)]: an unchecked read of the bytecode array. *)
Definition codeBody (m : Method) (ip : Z) : Z :=
  nth (Z.to_nat ip) (codeBytes m) 0.

(** [codeReadInt16(t, code, ip)] reads two bytes, high byte first, and
    advances [ip] past them. *)
Definition codeReadInt16 (m : Method) (ip : Z) : Z * Z :=
  (Z.lor (Z.shiftl (codeBody m ip) 8) (codeBody m (ip + 1)), ip + 2).

Definition T_BOOLEAN : Z := 4.
Definition T_CHAR : Z := 5.
Definition T_FLOAT : Z := 6.
Definition T_DOUBLE : Z := 7.
Definition T_BYTE : Z := 8.
Definition T_SHORT : Z := 9.
Definition T_INT : Z := 10.
Definition T_LONG : Z := 11.

Module Opcode.
Definition aconst_null : Z := 1.
Definition iconst_m1 : Z := 2.
Definition iconst_0 : Z := 3.
Definition iconst_1 : Z := 4.
Definition iconst_2 : Z := 5.
Definition iconst_3 : Z := 6.
Definition iconst_4 : Z := 7.
Definition iconst_5 : Z := 8.
Definition bipush : Z := 16.
Definition sipush : Z := 17.
Definition pop_ : Z := 87.
Definition dup : Z := 89.
Definition goto_ : Z := 167.
Definition ireturn : Z := 172.
Definition freturn : Z := 174.
Definition areturn : Z := 176.
Definition return_ : Z := 177.
Definition newarray : Z := 188.
Definition anewarray : Z := 189.
Definition arraylength : Z := 190.
Definition athrow : Z := 191.
End Opcode.

Definition localOffset (a : arch) (v parameterFootprint : Z) : Z :=
  let v := int32 (v * BytesPerWord a) in
  if v <? parameterFootprint then
    int32 ((parameterFootprint - v - BytesPerWord a) + (BytesPerWord a * 2)
           + FrameFootprint a)
  else int32 (- (v + BytesPerWord a - parameterFootprint)).

Module Compiler.

Record t : Type := mk {
  asm : Assembler.t;
  threadFrameOffset : Z;
  poolRegisterClobbered : bool;
  javaIPs : Buffer.t;
  machineIPs : Buffer.t;
  lineNumbers : Buffer.t;
  exceptionHandlers : Buffer.t;
  pool : Buffer.t
}.

Definition new (threadFrameOffset : Z) : t :=
  mk Assembler.new threadFrameOffset true
     (Buffer.new 1024) (Buffer.new 1024) (Buffer.new 256) (Buffer.new 256)
     (Buffer.new 256).

Definition code (c : t) : Buffer.t := Assembler.code (asm c).

Definition setAsm (c : t) (s : Assembler.t) : t :=
  mk s (threadFrameOffset c) (poolRegisterClobbered c) (javaIPs c)
     (machineIPs c) (lineNumbers c) (exceptionHandlers c) (pool c).
Definition setClobbered (c : t) (b : bool) : t :=
  mk (asm c) (threadFrameOffset c) b (javaIPs c)
     (machineIPs c) (lineNumbers c) (exceptionHandlers c) (pool c).
Definition setJavaIPs (c : t) (b : Buffer.t) : t :=
  mk (asm c) (threadFrameOffset c) (poolRegisterClobbered c) b
     (machineIPs c) (lineNumbers c) (exceptionHandlers c) (pool c).
Definition setMachineIPs (c : t) (b : Buffer.t) : t :=
  mk (asm c) (threadFrameOffset c) (poolRegisterClobbered c) (javaIPs c)
     b (lineNumbers c) (exceptionHandlers c) (pool c).
Definition setLineNumbers (c : t) (b : Buffer.t) : t :=
  mk (asm c) (threadFrameOffset c) (poolRegisterClobbered c) (javaIPs c)
     (machineIPs c) b (exceptionHandlers c) (pool c).
Definition setExceptionHandlers (c : t) (b : Buffer.t) : t :=
  mk (asm c) (threadFrameOffset c) (poolRegisterClobbered c) (javaIPs c)
     (machineIPs c) (lineNumbers c) b (pool c).
Definition setPool (c : t) (b : Buffer.t) : t :=
  mk (asm c) (threadFrameOffset c) (poolRegisterClobbered c) (javaIPs c)
     (machineIPs c) (lineNumbers c) (exceptionHandlers c) b.

(** An inherited [Assembler] method, run on the compiler. *)
Definition emit (f : Assembler.t -> option Assembler.t) (c : t) : option t :=
  do s <- f (asm c); Some (setAsm c s).

Definition seq (f g : t -> option t) (c : t) : option t :=
  do c' <- f c; g c'.
Infix ">>" := seq (at level 60, right associativity).

Definition skip (c : t) : option t := Some c.

Definition poolRegister : Register := rdi.

Definition poolReference (a : arch) (x : Externals) (o : object) (c : t)
  : option (Z * t) :=
  do c1 <-
    (if poolRegisterClobbered c then
       do c' <- (emit (Assembler.mov_load a rbp (FrameMethod a) rdi)
                 >> emit (Assembler.mov_load a rdi (MethodCode x) rdi)) c;
       Some (setClobbered c' false)
     else Some c);
  do p <- Buffer.appendAddress a o (pool c1);
  let c2 := setPool c1 p in
  Some (uint32 (Buffer.length (pool c2) + BytesPerWord a), c2).

Definition callAddress (a : arch) (function : Z) (c : t) : option t :=
  do c' <- (emit (Assembler.mov_imm a function rax) >> emit (Assembler.call rax)) c;
  Some (setClobbered c' true).

Definition callAlignedAddress (a : arch) (function : Z) (c : t) : option t :=
  do c' <- (emit (Assembler.alignedMov a function rax)
            >> emit (Assembler.call rax)) c;
  Some (setClobbered c' true).

(** The common tail of every [compileCall]: publish the frame in the
    thread, call, and on x86 pop [n] argument words. *)
Definition callTail (a : arch) (function : Z) (n : Z) (c : t) : option t :=
  (emit (Assembler.mov_load a rbp (FrameThread a) rax)
   >> emit (Assembler.mov_store a rbp rax (threadFrameOffset c))
   >> callAddress a function
   >> (if BytesPerWord a =? 4
       then emit (Assembler.add_ir a (BytesPerWord a * n) rsp)
       else skip)) c.

(** [compileCall(void* function, object arg1)] *)
Definition compileCall_o (a : arch) (x : Externals) (function : Z) (arg1 : object)
    (c : t) : option t :=
  do c1 <-
    (if BytesPerWord a =? 4 then
       do (off, c') <- poolReference a x arg1 c;
       (emit (Assembler.push_m poolRegister off)
        >> emit (Assembler.push_m rbp (FrameThread a))) c'
     else
       do (off, c') <- poolReference a x arg1 c;
       (emit (Assembler.mov_load a poolRegister off rsi)
        >> emit (Assembler.mov_load a rbp (FrameThread a) rdi)) c');
  callTail a function 2 c1.

(** [compileCall(void* function, Register arg1)] *)
Definition compileCall_r (a : arch) (function : Z) (arg1 : Register) (c : t)
  : option t :=
  do c1 <-
    (if BytesPerWord a =? 4 then
       (emit (Assembler.push_r arg1)
        >> emit (Assembler.push_m rbp (FrameThread a))) c
     else
       (emit (Assembler.mov_rr a arg1 rsi)
        >> emit (Assembler.mov_load a rbp (FrameThread a) rdi)) c);
  callTail a function 2 c1.

(** [compileCall(void* function, object arg1, Register arg2)] *)
Definition compileCall_or (a : arch) (x : Externals) (function : Z)
    (arg1 : object) (arg2 : Register) (c : t) : option t :=
  do c1 <-
    (if BytesPerWord a =? 4 then
       do c0 <- emit (Assembler.push_r arg2) c;
       do (off, c') <- poolReference a x arg1 c0;
       (emit (Assembler.push_m poolRegister off)
        >> emit (Assembler.push_m rbp (FrameThread a))) c'
     else
       do c0 <- emit (Assembler.mov_rr a arg2 rdx) c;
       do (off, c') <- poolReference a x arg1 c0;
       (emit (Assembler.mov_load a poolRegister off rsi)
        >> emit (Assembler.mov_load a rbp (FrameThread a) rdi)) c');
  callTail a function 3 c1.

(** [compileCall(void* function, void* arg1, Register arg2)] *)
Definition compileCall_pr (a : arch) (x : Externals) (function : Z)
    (arg1 : Z) (arg2 : Register) (c : t) : option t :=
  do c0 <- (emit (Assembler.mov_load a rbp (FrameThread a) rax)
            >> emit (Assembler.mov_store a rbp rax (frameOffset x))) c;
  do c1 <-
    (if BytesPerWord a =? 4 then
       (emit (Assembler.push_r arg2)
        >> emit (Assembler.pushAddress a arg1)
        >> emit (Assembler.push_m rbp (FrameThread a))) c0
     else
       (emit (Assembler.mov_rr a arg2 rdx)
        >> emit (Assembler.mov_imm a arg1 rsi)
        >> emit (Assembler.mov_load a rbp (FrameThread a) rdi)) c0);
  callTail a function 3 c1.

(** A label operation of the assembler, run on the compiler. *)
Definition emitL (f : Assembler.t -> option (Assembler.Label * Assembler.t))
    (c : t) : option (Assembler.Label * t) :=
  do (l, s) <- f (asm c); Some (l, setAsm c s).

(** The [anewarray] case of [compile]. *)
Definition anewarray (a : arch) (x : Externals) (m : Method) (ip : Z) (c : t)
  : option (t * Z) :=
  let (index, ip) := codeReadInt16 m ip in
  do class_ <- resolveClass x (index - 1);
  let nonnegative := Assembler.newLabel in
  do c1 <- (emit (Assembler.pop_r rax) >> emit (Assembler.cmp_ir 0 rax)) c;
  do (nonnegative, c2) <- emitL (Assembler.jle nonnegative) c1;
  do c3 <- compileCall_o a x (throwNew_address x)
                         (NegativeArraySizeExceptionType x) c2;
  do (nonnegative, c4) <- emitL (Assembler.mark nonnegative) c3;
  do c5 <- (compileCall_or a x (makeBlankObjectArray_address x) class_ rax
            >> emit (Assembler.push_r rax)) c4;
  Some (c5, ip).

(** The [newarray] case of [compile]. *)
Definition newarray (a : arch) (x : Externals) (m : Method) (ip : Z) (c : t)
  : option (t * Z) :=
  let type := codeBody m ip in
  let ip := ip + 1 in
  let nonnegative := Assembler.newLabel in
  do c1 <- (emit (Assembler.pop_r rax) >> emit (Assembler.cmp_ir 0 rax)) c;
  do (nonnegative, c2) <- emitL (Assembler.jge nonnegative) c1;
  do c3 <- compileCall_o a x (throwNew_address x)
                         (NegativeArraySizeExceptionType x) c2;
  do (nonnegative, c4) <- emitL (Assembler.mark nonnegative) c3;
  do constructor <-
    (if type =? T_BOOLEAN then Some (makeBooleanArray_address x)
     else if type =? T_CHAR then Some (makeCharArray_address x)
     else if type =? T_FLOAT then Some (makeFloatArray_address x)
     else if type =? T_DOUBLE then Some (makeDoubleArray_address x)
     else if type =? T_BYTE then Some (makeByteArray_address x)
     else if type =? T_SHORT then Some (makeShortArray_address x)
     else if type =? T_INT then Some (makeIntArray_address x)
     else if type =? T_LONG then Some (makeLongArray_address x)
     else None);
  do c5 <- (compileCall_pr a x (makeBlankArray_address x) constructor rax
            >> emit (Assembler.push_r rax)) c4;
  Some (c5, ip).

(** *** The per-opcode templates written out here

    The straight-line templates, the two array allocations, [athrow] and
    [goto].  Every other opcode of the [switch] is outside this
    development and yields [None], as [abort] does. *)

Definition straight (f : t -> option t) (ip : Z) (c : t) : option (t * Z) :=
  do c' <- f c; Some (c', ip).

Definition int16 (x : Z) : Z := (x + 2 ^ 15) mod 2 ^ 16 - 2 ^ 15.

Definition instruction (a : arch) (x : Externals) (m : Method)
    (parameterFootprint : Z) (op : Z) (ip : Z) (c : t) : option (t * Z) :=
  if op =? Opcode.aconst_null then straight (emit (Assembler.push_i 0)) ip c
  else if op =? Opcode.iconst_m1 then straight (emit (Assembler.push_i (-1))) ip c
  else if (Opcode.iconst_0 <=? op) && (op <=? Opcode.iconst_5) then
    straight (emit (Assembler.push_i (op - Opcode.iconst_0))) ip c
  else if op =? Opcode.bipush then
    straight (emit (Assembler.push_i (int8 (codeBody m ip)))) (ip + 1) c
  else if op =? Opcode.sipush then
    let (v, ip') := codeReadInt16 m ip in
    straight (emit (Assembler.push_i (int16 v))) ip' c
  else if op =? Opcode.pop_ then
    straight (emit (Assembler.add_ir a (BytesPerWord a) rsp)) ip c
  else if op =? Opcode.dup then
    straight (emit (Assembler.push_m rsp 0)) ip c
  else if op =? Opcode.goto_ then
    let (v, ip') := codeReadInt16 m ip in
    straight (emit (Assembler.jmp_ip (uint32 ((ip' - 3) + int16 v)))) ip' c
  else if (op =? Opcode.areturn) || (op =? Opcode.ireturn) || (op =? Opcode.freturn)
  then
    straight (emit (Assembler.pop_r rax) >> emit (Assembler.mov_rr a rbp rsp)
              >> emit (Assembler.pop_r rbp) >> emit Assembler.ret) ip c
  else if op =? Opcode.return_ then
    straight (emit (Assembler.mov_rr a rbp rsp)
              >> emit (Assembler.pop_r rbp) >> emit Assembler.ret) ip c
  else if op =? Opcode.arraylength then
    straight (emit (Assembler.pop_r rax)
              >> emit (Assembler.push_m rax (BytesPerWord a))) ip c
  else if op =? Opcode.athrow then
    straight (emit (Assembler.pop_r rax)
              >> compileCall_r a (throw__address x) rax) ip c
  else if op =? Opcode.newarray then newarray a x m ip c
  else if op =? Opcode.anewarray then anewarray a x m ip c
  else None.

(** *** The compilation loop

    [template] is the body of the [switch]: from the opcode and the
    bytecode index just after it to the compiler and the index of the
    next instruction. *)
Section Loop.

Variable template : Z -> Z -> t -> option (t * Z).

(** The line-number bookkeeping at the head of an iteration. *)
Definition recordLineNumber (m : Method) (lineNumberIndex ip : Z) (c : t)
  : option (t * Z) :=
  if lineNumberIndex >=? 0 then
    let ln := lineNumberTableBody m lineNumberIndex in
    if fst ln =? ip then
      do l1 <- Buffer.append4 (Buffer.length (code c)) (lineNumbers c);
      do l2 <- Buffer.append4 (snd ln) l1;
      Some (setLineNumbers c l2,
            if lineNumberIndex <? lineNumberTableLength m
            then lineNumberIndex + 1 else lineNumberIndex)
    else Some (c, lineNumberIndex)
  else Some (c, lineNumberIndex).

(** [for (unsigned ip = 0; ip < codeLength(t, code);) { ... }] *)
Fixpoint compileLoop (fuel : nat) (m : Method) (lineNumberIndex ip : Z) (c : t)
  : option t :=
  if ip <? codeLength m then
    match fuel with
    | O => None
    | S fuel' =>
        do j <- Buffer.append2 ip (javaIPs c);
        let c1 := setJavaIPs c j in
        do mi <- Buffer.append4 (Buffer.length (code c1)) (machineIPs c1);
        let c2 := setMachineIPs c1 mi in
        do (c3, lineNumberIndex') <- recordLineNumber m lineNumberIndex ip c2;
        let instr := codeBody m ip in
        do (c4, ip') <- template instr (uint32 (ip + 1)) c3;
        compileLoop fuel' m lineNumberIndex' ip' c4
    end
  else Some c.

(** The heads of the iterations of the same loop, in order: the
    bytecode index [ip] of each instruction the loop compiles, with
    [code.length()] as it is when the iteration begins.  These are the
    two values that the iteration hands to [javaIPs.append2] and
    [machineIPs.append4]. *)
Fixpoint instructionStarts (fuel : nat) (m : Method) (lineNumberIndex ip : Z)
    (c : t) : option (list (Z * Z)) :=
  if ip <? codeLength m then
    match fuel with
    | O => None
    | S fuel' =>
        do j <- Buffer.append2 ip (javaIPs c);
        let c1 := setJavaIPs c j in
        do mi <- Buffer.append4 (Buffer.length (code c1)) (machineIPs c1);
        let c2 := setMachineIPs c1 mi in
        do (c3, lineNumberIndex') <- recordLineNumber m lineNumberIndex ip c2;
        let instr := codeBody m ip in
        do (c4, ip') <- template instr (uint32 (ip + 1)) c3;
        do rest <- instructionStarts fuel' m lineNumberIndex' ip' c4;
        Some ((ip, Buffer.length (code c)) :: rest)
    end
  else Some [].

End Loop.

(** [machineIpForJavaIp]: the binary search over [javaIPs]. *)
Fixpoint search (fuel : nat) (c : t) (javaIP bottom top : Z) : option Z :=
  let span := uint32 (top - bottom) in
  if span =? 0 then None
  else
    match fuel with
    | O => None
    | S fuel' =>
        let middle := uint32 (bottom + span / 2) in
        do k <- Buffer.get2 (uint32 (middle * 2)) (javaIPs c);
        if javaIP <? k then search fuel' c javaIP bottom middle
        else if javaIP >? k then search fuel' c javaIP (uint32 (middle + 1)) top
        else Buffer.get4 (uint32 (middle * 4)) (machineIPs c)
    end.

Definition machineIpForJavaIp (c : t) (javaIP : Z) : option Z :=
  let top := Buffer.length (javaIPs c) / 2 in
  search (S (Z.to_nat top)) c (uint16 javaIP) 0 top.

(** [resolveJumps], from entry [i] of the jumps buffer. *)
Fixpoint resolveJumpsFrom (fuel : nat) (i : Z) (c : t) : option t :=
  if i <? Buffer.length (Assembler.jumps (asm c)) then
    match fuel with
    | O => None
    | S fuel' =>
        do ip <- Buffer.get4 i (Assembler.jumps (asm c));
        do offset <- Buffer.get4 (uint32 (i + 4)) (Assembler.jumps (asm c));
        do target <- machineIpForJavaIp c ip;
        do c' <- emit (Assembler.onCode (Buffer.set4 offset (target - (offset + 4)))) c;
        resolveJumpsFrom fuel' (uint32 (i + 8)) c'
    end
  else Some c.

Definition resolveJumps (c : t) : option t :=
  resolveJumpsFrom
    (S (Z.to_nat (Buffer.length (Assembler.jumps (asm c))))) 0 c.

Definition appendHandler (v : Z) (c : t) : option t :=
  do e <- Buffer.append4 v (exceptionHandlers c);
  Some (setExceptionHandlers c e).

(** [buildExceptionHandlerTable].  The result of [resolveClass] is used
    without a test of [t->exception]: when the class cannot be resolved
    the catch type is the null reference and the entry is written with
    catch type 0. *)
Fixpoint buildExceptionHandlerTable (a : arch) (x : Externals)
    (eht : list ExceptionHandler) (c : t) : option t :=
  match eht with
  | [] => Some c
  | eh :: rest =>
      do s <- machineIpForJavaIp c (exceptionHandlerStart eh);
      do c1 <- appendHandler s c;
      do e <- machineIpForJavaIp c1 (exceptionHandlerEnd eh);
      do c2 <- appendHandler e c1;
      do i <- machineIpForJavaIp c2 (exceptionHandlerIp eh);
      do c3 <- appendHandler i c2;
      let ct := exceptionHandlerCatchType eh in
      let catchType :=
        if negb (ct =? 0) then
          match resolveClass x (uint32 (ct - 1)) with
          | Some class_ => class_
          | None => 0
          end
        else 0 in
      do c4 <-
        (if negb (catchType =? 0) then
           do (off, c') <- poolReference a x catchType c3;
           appendHandler (off / BytesPerWord a - 1) c'
         else appendHandler 0 c3);
      buildExceptionHandlerTable a x rest c4
  end.

Definition finish (a : arch) (address : Z) (c : t) : option Code.t :=
  Code.make a address (code c) (lineNumbers c) (exceptionHandlers c).

(** [makePool]: the body of the pool array, or [None] for the null
    result. The outer option is the usual failure. *)
Definition makePool (c : t) : option (option (list Z)) :=
  if negb (Buffer.length (pool c) =? 0) then
    do bs <- Buffer.copyTo (pool c); Some (Some bs)
  else Some None.

(** [compile], with the [switch] limited to [instruction]. *)
Definition compile (a : arch) (x : Externals) (m : Method) (address : Z) (c : t)
  : option (Code.t * t) :=
  let parameterFootprint := uint32 (methodParameterFootprint m * BytesPerWord a) in
  let localFootprint := uint32 (codeMaxLocals m * BytesPerWord a) in
  do c1 <- (emit (Assembler.push_r rbp) >> emit (Assembler.mov_rr a rsp rbp)) c;
  do c2 <-
    (if localFootprint >? parameterFootprint
     then emit (Assembler.sub_ir a (localFootprint - parameterFootprint) rsp) c1
     else Some c1);
  let lineNumberIndex := 0 in
  do c3 <- compileLoop (instruction a x m parameterFootprint)
                       (Z.to_nat (codeLength m)) m lineNumberIndex 0 c2;
  do c4 <- resolveJumps c3;
  do c5 <- buildExceptionHandlerTable a x (exceptionHandlerTable m) c4;
  do cd <- finish a address c5;
  Some (cd, c5).

End Compiler.

(** ** Call-site patching *)

(** Machine code in memory, byte by byte. *)
Definition readMem (m : Z -> Z) (p : Z) (n : nat) : list Z :=
  map (fun i => m (p + Z.of_nat i)) (List.seq 0 n).

Fixpoint writeMem (m : Z -> Z) (p : Z) (bs : list Z) : Z -> Z :=
  match bs with
  | [] => m
  | b :: rest => writeMem (fun q => if q =? p then b else m q) (p + 1) rest
  end.

Fixpoint bytes_eqb (xs ys : list Z) : bool :=
  match xs, ys with
  | [], [] => true
  | x :: xs', y :: ys' => (x =? y) && bytes_eqb xs' ys'
  | _, _ => false
  end.

(** The reference sequence [mov stub, rax; call rax] that [updateCaller]
    assembles, with the offset of its address field. *)
Definition callSiteReference (a : arch) (stub : Z) : option (list Z * Z) :=
  do s1 <- Assembler.mov_imm a stub rax Assembler.new;
  let offset := uint32 (Buffer.length (Assembler.code s1) - BytesPerWord a) in
  do s2 <- Assembler.call rax s1;
  do bs <- Buffer.copyTo (Assembler.code s2);
  Some (bs, offset).

(** [updateCaller]: [stub] is the entry of the method stub, [entry] the
    entry of the freshly compiled method; the result is the code memory
    afterwards. *)
Definition updateCaller (a : arch) (vm : VM) (t : MyThread) (codeMem : Z -> Z)
    (stub entry : Z) : option (Z -> Z) :=
  do (bs, offset) <- callSiteReference a stub;
  let caller := wordAt a vm (frame t) 1 - len bs in
  if bytes_eqb bs (readMem codeMem caller (length bs)) then
    if (caller + offset) mod BytesPerWord a =? 0 then
      Some (writeMem codeMem (caller + offset)
                     (bytesLE (Z.to_nat (BytesPerWord a)) (uintptr a entry)))
    else None
  else Some codeMem.

(** ** ArgumentList *)

Module ArgumentList.

(** The two caller-provided arrays start uninitialised ([None]). *)
Record t : Type := mk {
  array : list (option Z);
  objectMask : list (option bool);
  position : Z
}.

Definition store {A : Type} (l : list (option A)) (i : Z) (v : A)
  : option (list (option A)) :=
  if (0 <=? i) && (i <? len l)
  then Some (firstn (Z.to_nat i) l ++ Some v :: skipn (Z.to_nat (i + 1)) l)
  else None.

Definition addObject (v : object) (l : t) : option t :=
  do ar <- store (array l) (position l) v;
  do om <- store (objectMask l) (position l) true;
  Some (mk ar om (uint32 (position l + 1))).

Definition addInt (v : Z) (l : t) : option t :=
  do ar <- store (array l) (position l) (uint32 v);
  do om <- store (objectMask l) (position l) false;
  Some (mk ar om (uint32 (position l + 1))).

(** [memcpy(array + position, &v, 8)] fills two words on x86 and one on
    x86-64; then the mask is written and [position] moves by two. *)
Definition addLong (a : arch) (v : Z) (l : t) : option t :=
  do ar <-
    (match a with
     | x86_32 =>
         do ar1 <- store (array l) (position l) (v mod 2 ^ 32);
         store ar1 (position l + 1) (v / 2 ^ 32 mod 2 ^ 32)
     | x86_64 => store (array l) (position l) (v mod 2 ^ 64)
     end);
  do om1 <- store (objectMask l) (position l) false;
  do om2 <- store om1 (position l) false;
  Some (mk ar om2 (uint32 (position l + 2))).

(** Walking the spec string; the end of the list is the terminating
    NUL, and stepping past it is undefined. *)
Fixpoint skipTo (stop : ascii) (s : list ascii) : list ascii :=
  match s with
  | [] => []
  | ch :: rest => if Ascii.eqb ch stop then s else skipTo stop rest
  end.

Fixpoint skipWhile (ch : ascii) (s : list ascii) : list ascii :=
  match s with
  | [] => []
  | c0 :: rest => if Ascii.eqb c0 ch then skipWhile ch rest else s
  end.

Definition advance (s : list ascii) : option (list ascii) :=
  match s with
  | [] => None
  | _ :: rest => Some rest
  end.

(** [va_arg(arguments, T)]: the next variadic argument. *)
Definition va_arg (arguments : list Z) : option (Z * list Z) :=
  match arguments with
  | [] => None
  | v :: rest => Some (v, rest)
  end.

Section Constructor.

Variable a : arch.
Variable indirectObjects : bool.
Variable deref : Z -> object.        (* the object an indirect argument points to *)

Definition addObjectArgument (arguments : list Z) (l : t)
  : option (list Z * t) :=
  do (v, rest) <- va_arg arguments;
  do l' <-
    (if indirectObjects
     then addObject (if negb (v =? 0) then deref v else 0) l
     else addObject v l);
  Some (rest, l').

(** The loop of the constructor over the characters of the spec, up to
    the closing parenthesis or the end of the string. *)
Fixpoint addArguments (fuel : nat) (s : list ascii) (arguments : list Z) (l : t)
  : option t :=
  match s with
  | [] => Some l
  | ch :: _ =>
      if Ascii.eqb ch ")"%char then Some l
      else
        match fuel with
        | O => None
        | S fuel' =>
            if Ascii.eqb ch "L"%char then
              do s' <- advance (skipTo ";"%char s);
              do (rest, l') <- addObjectArgument arguments l;
              addArguments fuel' s' rest l'
            else if Ascii.eqb ch "["%char then
              let s1 := skipWhile "["%char s in
              do s' <-
                (match s1 with
                 | c1 :: _ =>
                     if Ascii.eqb c1 "L"%char
                     then advance (skipTo ";"%char s1)
                     else advance s1
                 | [] => advance s1
                 end);
              do (rest, l') <- addObjectArgument arguments l;
              addArguments fuel' s' rest l'
            else if Ascii.eqb ch "J"%char || Ascii.eqb ch "D"%char then
              do s' <- advance s;
              do (v, rest) <- va_arg arguments;
              do l' <- addLong a v l;
              addArguments fuel' s' rest l'
            else
              do s' <- advance s;
              do (v, rest) <- va_arg arguments;
              do l' <- addInt v l;
              addArguments fuel' s' rest l'
        end
  end.

(** The [va_list] constructor, on arrays of [size] words. *)
Definition make (size : Z) (thread frame : Z) (this_ : object)
    (spec : string) (arguments : list Z) : option t :=
  let l0 := mk (repeat None (Z.to_nat size)) (repeat None (Z.to_nat size)) 0 in
  do l1 <- addInt thread l0;
  do l2 <- addObject 0 l1;
  do l3 <- addInt frame l2;
  do l4 <- (if negb (this_ =? 0) then addObject this_ l3 else Some l3);
  do s <- advance (list_ascii_of_string spec);
  addArguments (List.length s) s arguments l4.

End Constructor.

End ArgumentList.

(** ** The invoke bridge *)

Inductive Field : Type :=
| VoidField | ByteField | CharField | DoubleField | FloatField
| IntField | LongField | ShortField | ObjectField | BooleanField.

(** How [invoke] ends: with a result, in [abort], or in undefined
    behaviour. *)
Inductive invoked : Type :=
| Returned (r : object) (t : MyThread)
| Aborted (t : MyThread)
| Crashed.

(** [t->reference] as a pointer: the head node, or null. *)
Definition referenceHead (t : MyThread) : Z :=
  match reference t with
  | [] => 0
  | r :: _ => r
  end.

(** Modelled from the spec: [dispose] is defined in [machine.h]; it
    releases one local reference, unlinking its node from the chain.
    The loop [while (t->reference != reference) dispose(t, t->reference)]
    applies it to the head; disposing the null head is undefined. *)
Fixpoint disposeUntil (reference : Z) (chain : list Z) : option (list Z) :=
  match chain with
  | [] => if reference =? 0 then Some [] else None
  | r :: rest =>
      if r =? reference then Some chain else disposeUntil reference rest
  end.

Section Invoke.

Variable a : arch.
Variable vm : VM.
(** [vmInvoke] runs compiled code: from the entry point, the argument
    block, its size and the return type to the raw result and the
    thread as the callee leaves it. *)
Variable vmInvoke : Z -> list (option Z) -> Z -> Z -> MyThread -> Z * MyThread.
Variable methodReturnCode : object -> option Field.
Variable fieldType : option Field -> Z.
Variable compiledBody : Code.t -> Z.
Variable makeInt : Z -> object.
Variable makeLong : Z -> object.

Definition invoke (t : MyThread) (method : object) (arguments : ArgumentList.t)
  : invoked :=
  match ArgumentList.store (ArgumentList.array arguments) 1 method with
  | None => Crashed
  | Some array =>
      let returnCode := methodReturnCode method in
      let returnType := fieldType returnCode in
      let frame0 := frame t in
      let reference0 := referenceHead t in
      let (result, t1) :=
        vmInvoke (compiledBody (methodCompiled vm method)) array
                 (uint32 (ArgumentList.position arguments * BytesPerWord a))
                 returnType t in
      match disposeUntil reference0 (reference t1) with
      | None => Crashed
      | Some chain =>
          let t2 := setFrame (setReference t1 chain) frame0 in
          match returnCode with
          | Some ByteField | Some BooleanField | Some CharField
          | Some ShortField | Some FloatField | Some IntField =>
              Returned (makeInt result) t2
          | Some LongField | Some DoubleField =>
              Returned (makeLong result) t2
          | Some ObjectField =>
              Returned (if result =? 0 then 0 else mem vm (uintptr a result)) t2
          | Some VoidField => Returned 0 t2
          | None => Aborted t2
          end
      end
  end.

End Invoke.

(** ** The machine the emitted bytes run on

    The part of the x86 and x86-64 instruction sets that the templates
    above emit: decoding of the byte forms the assembler produces, and
    their effect on registers, a word-addressed memory and the operands
    of the last comparison (from which a conditional jump decides). *)

Module X86.

Inductive instr : Type :=
| Push (r : Z)
| Pop (r : Z)
| PushMem (base disp : Z)
| PushImm (v : Z)
| MovRR (dst src : Z)
| Load (dst base disp : Z)
| Store (base disp src : Z)
| MovImm (dst v : Z)
| CmpImm (r v : Z)
| AddImm (r v : Z)
| SubImm (r v : Z)
| Jcc (cond rel : Z)
| Jmp (rel : Z)
| CallReg (r : Z)
| Nop
| Ret.

Definition byteAt (code : list Z) (pc : Z) : option Z :=
  if 0 <=? pc then nth_error code (Z.to_nat pc) else None.

Definition immAt (code : list Z) (pc n : Z) : option Z :=
  do bs <- readBytes code pc n; Some (valueLE bs).

(** A ModRM byte with a memory operand [base + disp]: the register
    field, the base, the displacement and the size of the encoding.
    An [rsp] base carries the SIB byte [0x24]. *)
Definition memOperand (code : list Z) (pc : Z) : option (Z * Z * Z * Z) :=
  do m <- byteAt code pc;
  let md := Z.shiftr m 6 in
  let reg := Z.land (Z.shiftr m 3) 7 in
  let rm := Z.land m 7 in
  do sib <- (if rm =? 4
             then do s <- byteAt code (pc + 1);
                  if s =? 36 then Some 1 else None
             else Some 0);
  if md =? 0 then
    if rm =? 5 then None else Some (reg, rm, 0, 1 + sib)
  else if md =? 1 then
    do d <- immAt code (pc + 1 + sib) 1; Some (reg, rm, int8 d, 2 + sib)
  else if md =? 2 then
    do d <- immAt code (pc + 1 + sib) 4; Some (reg, rm, int32 d, 5 + sib)
  else None.

(** Decoding after the optional REX.W prefix; [wide] tells whether the
    operation is on full words. *)
Definition decodeOp (a : arch) (wide : bool) (code : list Z) (pc : Z)
  : option (instr * Z) :=
  do op <- byteAt code pc;
  if (80 <=? op) && (op <? 88) then Some (Push (op - 80), 1)
  else if (88 <=? op) && (op <? 96) then Some (Pop (op - 88), 1)
  else if op =? 106 then
    do v <- immAt code (pc + 1) 1; Some (PushImm (int8 v), 2)
  else if op =? 104 then
    do v <- immAt code (pc + 1) 4; Some (PushImm (int32 v), 5)
  else if op =? 144 then Some (Nop, 1)
  else if op =? 195 then Some (Ret, 1)
  else if op =? 233 then
    do v <- immAt code (pc + 1) 4; Some (Jmp (int32 v), 5)
  else if op =? 15 then
    do c <- byteAt code (pc + 1);
    do v <- immAt code (pc + 2) 4;
    if (128 <=? c) && (c <? 144) then Some (Jcc (c - 128) (int32 v), 6) else None
  else if (184 <=? op) && (op <? 192) then
    if wide then
      do v <- immAt code (pc + 1) (BytesPerWord a);
      Some (MovImm (op - 184) v, 1 + BytesPerWord a)
    else None
  else
    do m <- byteAt code (pc + 1);
    let md := Z.shiftr m 6 in
    let reg := Z.land (Z.shiftr m 3) 7 in
    let rm := Z.land m 7 in
    if op =? 131 then
      do v <- immAt code (pc + 2) 1;
      if md =? 3 then
        if reg =? 7 then Some (CmpImm rm (int8 v), 3)
        else if negb wide then None
        else if reg =? 0 then Some (AddImm rm (int8 v), 3)
        else if reg =? 5 then Some (SubImm rm (int8 v), 3)
        else None
      else None
    else if op =? 255 then
      if md =? 3 then
        if reg =? 2 then Some (CallReg rm, 2) else None
      else if reg =? 6 then
        do (_, base, disp, n) <- memOperand code (pc + 1);
        Some (PushMem base disp, 1 + n)
      else None
    else if negb wide then None
    else if op =? 137 then
      if md =? 3 then Some (MovRR rm reg, 2)
      else
        do (src, base, disp, n) <- memOperand code (pc + 1);
        Some (Store base disp src, 1 + n)
    else if op =? 139 then
      if md =? 3 then Some (MovRR reg rm, 2)
      else
        do (dst, base, disp, n) <- memOperand code (pc + 1);
        Some (Load dst base disp, 1 + n)
    else None.

Definition decode (a : arch) (code : list Z) (pc : Z) : option (instr * Z) :=
  match a with
  | x86_32 => decodeOp a true code pc
  | x86_64 =>
      do b <- byteAt code pc;
      if b =? 72 then
        do (i, n) <- decodeOp a true code (pc + 1); Some (i, n + 1)
      else decodeOp a false code pc
  end.

Record machine : Type := mkMachine {
  regs : Z -> Z;
  memory : Z -> Z;               (* the word at a byte address *)
  compared : Z * Z               (* operands of the last [cmp] *)
}.

Definition setReg (r v : Z) (st : machine) : machine :=
  mkMachine (fun q => if q =? r then v else regs st q) (memory st) (compared st).

Definition setMem (p v : Z) (st : machine) : machine :=
  mkMachine (regs st) (fun q => if q =? p then v else memory st q) (compared st).

Definition setCompared (x y : Z) (st : machine) : machine :=
  mkMachine (regs st) (memory st) (x, y).

Definition SP : Z := regNum rsp.

Definition push (a : arch) (v : Z) (st : machine) : machine :=
  let sp := uintptr a (regs st SP - BytesPerWord a) in
  setMem sp v (setReg SP sp st).

(** The condition of [0x0f 0x80+cond] after [cmp x, y]. *)
Definition holds (cond : Z) (st : machine) : option bool :=
  let (x, y) := compared st in
  if cond =? 4 then Some (x =? y)
  else if cond =? 5 then Some (negb (x =? y))
  else if cond =? 12 then Some (x <? y)
  else if cond =? 13 then Some (x >=? y)
  else if cond =? 14 then Some (x <=? y)
  else if cond =? 15 then Some (x >? y)
  else None.

(** The effect of an instruction that falls through. *)
Definition exec (a : arch) (i : instr) (st : machine) : option machine :=
  match i with
  | Push r => Some (push a (regs st r) st)
  | Pop r =>
      let v := memory st (regs st SP) in
      Some (setReg r v (setReg SP (uintptr a (regs st SP + BytesPerWord a)) st))
  | PushMem base disp =>
      Some (push a (memory st (uintptr a (regs st base + disp))) st)
  | PushImm v => Some (push a (uintptr a v) st)
  | MovRR dst src => Some (setReg dst (regs st src) st)
  | Load dst base disp =>
      Some (setReg dst (memory st (uintptr a (regs st base + disp))) st)
  | Store base disp src =>
      Some (setMem (uintptr a (regs st base + disp)) (regs st src) st)
  | MovImm dst v => Some (setReg dst v st)
  | CmpImm r v => Some (setCompared (int32 (regs st r)) v st)
  | AddImm r v => Some (setReg r (uintptr a (regs st r + v)) st)
  | SubImm r v => Some (setReg r (uintptr a (regs st r - v)) st)
  | Nop => Some st
  | Jcc _ _ | Jmp _ | CallReg _ | Ret => None
  end.

(** Running from [pc] to the first [call]: the address called and the
    machine at the call. *)
Fixpoint run (a : arch) (code : list Z) (fuel : nat) (pc : Z) (st : machine)
  : option (Z * machine) :=
  match fuel with
  | O => None
  | S fuel' =>
      do (i, n) <- decode a code pc;
      match i with
      | CallReg r => Some (regs st r, st)
      | Jmp rel => run a code fuel' (pc + n + rel) st
      | Jcc cond rel =>
          do taken <- holds cond st;
          run a code fuel' (if taken then pc + n + rel else pc + n) st
      | Ret => None
      | _ => do st' <- exec a i st; run a code fuel' (pc + n) st'
      end
  end.

End X86.

(** ** Vocabulary for what an assembler routine emits *)

(** [emits f bs]: on a well-formed code buffer with room below the
    32-bit limit, [f] succeeds, appends exactly [bs] to the code and
    leaves the jumps buffer alone. *)
Definition emits (f : Assembler.t -> option Assembler.t) (bs : list Z) : Prop :=
  forall s,
    Buffer.wf (Assembler.code s) ->
    Buffer.position (Assembler.code s) + len bs < 2 ^ 32 ->
    exists s',
      f s = Some s'
      /\ Buffer.wf (Assembler.code s')
      /\ Buffer.contents (Assembler.code s')
         = Buffer.contents (Assembler.code s) ++ bs
      /\ Buffer.position (Assembler.code s')
         = Buffer.position (Assembler.code s) + len bs
      /\ Assembler.jumps s' = Assembler.jumps s.

Definition rexBytes (a : arch) : list Z :=
  match a with x86_64 => [72] | x86_32 => [] end.

(** The bytes of [mov(v, dst)]: prefix, opcode, address field. *)
Definition movImmBytes (a : arch) (v : Z) (dst : Register) : list Z :=
  rexBytes a ++ [uint8 (Z.lor 184 (regNum dst))]
  ++ bytesLE (Z.to_nat (BytesPerWord a)) (uintptr a v).

Definition callBytes (reg : Register) : list Z :=
  [255; uint8 (Z.lor 208 (regNum reg))].

(** ** The bytecode-IP to machine-IP map

    The two parallel buffers hold fixed-width little-endian entries. *)
Definition encode (w : nat) (l : list Z) : list Z := flat_map (bytesLE w) l.

(** [mapOf c ips mips]: the compiler's map is the list of pairs
    [(ips[i], mips[i])]. *)
Definition mapOf (c : Compiler.t) (ips mips : list Z) : Prop :=
  Buffer.wf (Compiler.javaIPs c) /\ Buffer.wf (Compiler.machineIPs c)
  /\ Buffer.contents (Compiler.javaIPs c) = encode 2 ips
  /\ Buffer.contents (Compiler.machineIPs c) = encode 4 mips
  /\ List.length ips = List.length mips.

(** What the loop relies on in a template: it appends at least one
    byte to the code (and otherwise only patches it in place), moves
    forward in the bytecode and leaves the map alone. *)
Definition templateOk (template : Z -> Z -> Compiler.t -> option (Compiler.t * Z))
  : Prop :=
  forall op ip c c' ip',
    Buffer.wf (Compiler.code c) ->
    template op ip c = Some (c', ip') ->
    Buffer.wf (Compiler.code c')
    /\ Compiler.javaIPs c' = Compiler.javaIPs c
    /\ Compiler.machineIPs c' = Compiler.machineIPs c
    /\ ip <= ip'
    /\ Buffer.length (Compiler.code c) < Buffer.length (Compiler.code c').

(** [extends f n]: whenever [f] succeeds on a well-formed code buffer
    it leaves a well-formed one, at least [n] bytes longer. *)
Definition extends (f : Assembler.t -> option Assembler.t) (n : Z) : Prop :=
  forall s s',
    Buffer.wf (Assembler.code s) -> f s = Some s' ->
    Buffer.wf (Assembler.code s')
    /\ Buffer.position (Assembler.code s) + n
       <= Buffer.position (Assembler.code s').

(** The same for a step of the compiler, which moreover leaves the map
    alone. *)
Definition advances (f : Compiler.t -> option Compiler.t) (n : Z) : Prop :=
  forall c c',
    Buffer.wf (Compiler.code c) -> f c = Some c' ->
    Buffer.wf (Compiler.code c')
    /\ Compiler.javaIPs c' = Compiler.javaIPs c
    /\ Compiler.machineIPs c' = Compiler.machineIPs c
    /\ Buffer.length (Compiler.code c) + n <= Buffer.length (Compiler.code c').

(** ** What the handler search is specified to do

    An entry catches when the fault offset, biased by one, lies in
    [[start, end)] and the catch type is 0 or the pending exception is
    an instance of it.  [tableOk] says that the entries can be read and
    that a non-zero catch type names a class in the method's pool. *)

Definition handlerIndices (n : Z) : list Z :=
  map Z.of_nat (List.seq 0 (Z.to_nat n)).

Definition inRange (start end_ offset : Z) : bool :=
  (start <=? uint32 (offset - 1)) && (uint32 (offset - 1) <? end_).

Definition catches (a : arch) (vm : VM) (t : MyThread) (frame : Z) (i : Z) : bool :=
  let method := frameMethod a vm frame in
  let code := methodCompiled vm method in
  let h := Code.exceptionHandler a code i in
  let offset := addressOffset vm method (frameAddress a vm frame) in
  match Code.nativeExceptionHandlerStart code h,
        Code.nativeExceptionHandlerEnd code h,
        Code.nativeExceptionHandlerCatchType code h with
  | Some start, Some end_, Some ct =>
      inRange start end_ offset
      && (if ct =? 0 then true
          else match arrayBody (methodCode vm method) (uint32 (ct - 1)) with
               | Some class_ => instanceOf vm class_ (exception t)
               | None => false
               end)
  | _, _, _ => false
  end.

Definition entryOk (a : arch) (vm : VM) (frame : Z) (i : Z) : bool :=
  let method := frameMethod a vm frame in
  let code := methodCompiled vm method in
  let h := Code.exceptionHandler a code i in
  match Code.nativeExceptionHandlerStart code h,
        Code.nativeExceptionHandlerEnd code h,
        Code.nativeExceptionHandlerCatchType code h with
  | Some _, Some _, Some ct =>
      if ct =? 0 then true
      else match arrayBody (methodCode vm method) (uint32 (ct - 1)) with
           | Some class_ => negb (class_ =? 0)
           | None => false
           end
  | _, _, _ => false
  end.

Definition tableOk (a : arch) (vm : VM) (frame : Z) : bool :=
  forallb (entryOk a vm frame)
    (handlerIndices
       (Code.exceptionHandlerTableLength
          (methodCompiled vm (frameMethod a vm frame)))).

(** ** The realized constant pool *)

(** Modelled from the spec: [ArrayBody] is declared with the object
    layouts; an array object carries a class word and a length word
    before its body (the array templates read the length at one word
    and the elements from two words on). *)
Definition ArrayBody (a : arch) : Z := BytesPerWord a * 2.

(** The word that [mov(poolRegister(), offset, dst)] loads from an
    array object whose body holds the bytes [body]. *)
Definition fieldOfArray (a : arch) (body : list Z) (offset : Z) : option Z :=
  do bs <- readBytes body (offset - ArrayBody a) (BytesPerWord a);
  Some (valueLE bs).

(** ** Concrete inputs used by the evaluations below *)

Module Sample.

(** A stack with a single frame at [1000] whose base is [2000]; every
    other word is zero.  The base is stored in the word that [frameBase]
    reads, subscript [0xFFFFFFFC] from the frame. *)
Definition stack (a : arch) (p : Z) : Z :=
  if p =? uintptr a (1000 + uint32 (- 4) * BytesPerWord a) then 2000
  else if p =? 2000 + 1 * BytesPerWord a then 3001   (* return address *)
  else if p =? 2000 + 2 * BytesPerWord a then 3002   (* thread *)
  else if p =? 2000 + 3 * BytesPerWord a then 3003   (* method *)
  else if p =? 2000 + 4 * BytesPerWord a then 3004   (* previous frame *)
  else 0.

Definition noCode : Code.t := Code.mk 0 0 0 0 [].

Definition vm (a : arch) : VM :=
  mkVM (stack a) (fun _ => 0) (fun _ => noCode) (fun _ => [])
       (fun _ _ => false) (fun class_ => class_ + 1) 555.

Definition thread : MyThread := mkThread 0 1000 [].

(** Two and three bytes appended to a buffer of minimum capacity 2. *)
Definition two : option Buffer.t :=
  do b1 <- Buffer.append 1 (Buffer.new 2); Buffer.append 2 b1.

Definition three : option Buffer.t :=
  do b2 <- two; Buffer.append 3 b2.

(** The argument block of a call [m(long)] through the variadic
    constructor on x86, on arrays of five words: thread [100], frame
    [200], no receiver, one long argument. *)
Definition longCall : option ArgumentList.t :=
  ArgumentList.make x86_32 false (fun _ => 0) 5 100 200 0 "(J)V" [2 ^ 32 + 7].

(** Externals: helper entry points at distinct addresses, and a
    resolver that maps pool index [i] to the class [1000 + i]. *)
Definition externals : Externals :=
  mkExternals 16 24 4096 4112 4128 4144 4160 4176 4192 4208 4224 4240 4256
              4272 900 (fun i => Some (1000 + i)).

(** [aconst_null; pop; return] protected by two handlers over the first
    two instructions: one for the class at pool index 5, one catching
    everything. *)
Definition guarded : Method :=
  mkMethod [1; 87; 177] 0 0 0 (fun _ => (0, 0))
           [mkExceptionHandler 0 2 2 5; mkExceptionHandler 0 2 2 0].

Definition guardedCompiler (a : arch) : Compiler.t :=
  match Compiler.compile a externals guarded 5000 (Compiler.new 40) with
  | Some (_, c) => c
  | None => Compiler.new 40
  end.

Definition guardedCode (a : arch) : Code.t :=
  match Compiler.compile a externals guarded 5000 (Compiler.new 40) with
  | Some (cd, _) => cd
  | None => noCode
  end.

(** The frame of [stack] suspended at machine offset [fault] of the
    compiled method, the address being stored in the word that
    [frameAddress] reads, subscript [0xFFFFFFFD] from the frame; an
    object is an instance of the class just below it. *)
Definition faulting (a : arch) (fault : Z) : VM :=
  mkVM (fun p => if p =? uintptr a (1000 + uint32 (- 3) * BytesPerWord a)
                 then 5000 + fault
                 else stack a p)
       (fun _ => 0) (fun _ => guardedCode a) (fun _ => [1004])
       (fun class_ o => o =? class_ + 1) (fun class_ => class_ + 1) 555.

(** The code of the two array templates alone, on a fresh compiler:
    [anewarray] of the class at pool index 3 and [newarray] of [int]. *)
Definition templateCode (code : option (Compiler.t * Z)) : list Z :=
  match code with
  | Some (c, _) => Buffer.contents (Compiler.code c)
  | None => []
  end.

Definition anewarrayCode (a : arch) : list Z :=
  templateCode
    (Compiler.anewarray a externals
       (mkMethod [189; 0; 3] 0 0 0 (fun _ => (0, 0)) []) 1 (Compiler.new 40)).

Definition newarrayCode (a : arch) : list Z :=
  templateCode
    (Compiler.newarray a externals
       (mkMethod [188; 10] 0 0 0 (fun _ => (0, 0)) []) 1 (Compiler.new 40)).

(** A machine whose stack top, at [8000], holds [length]. *)
Definition machine (length : Z) : X86.machine :=
  X86.mkMachine (fun r => if r =? 4 then 8000 else if r =? 5 then 9000 else 0)
                (fun p => if p =? 8000 then length else 0) (0, 0).

(** The loop of [compile] over [guarded] on x86-64, from a fresh
    compiler. *)
Definition guardedTemplate : Z -> Z -> Compiler.t -> option (Compiler.t * Z) :=
  Compiler.instruction x86_64 externals guarded 0.

Definition guardedLoop : option Compiler.t :=
  Compiler.compileLoop guardedTemplate 3 guarded 0 0 (Compiler.new 40).

Definition afterLoop : Compiler.t :=
  match guardedLoop with Some c => c | None => Compiler.new 40 end.

(** A callee that returns [42], leaves the exception [9] pending,
    moves the frame and creates two local references. *)
Definition callee (entry : Z) (arguments : list (option Z)) (size returnType : Z)
    (t : MyThread) : Z * MyThread :=
  (42, mkThread 9 777 (11 :: 12 :: reference t)).

Definition caller : MyThread := mkThread 0 1000 [5; 6].

Definition block : ArgumentList.t :=
  ArgumentList.mk [Some 100; None; Some 1000] [Some false; None; Some false] 3.

End Sample.

(** ** Further vocabulary *)

(** [methodFlags(t, method) & ACC_NATIVE] as a test. *)
Definition isNative (vm : VM) (method : object) : bool :=
  negb (Z.land (methodFlags vm method) ACC_NATIVE =? 0).

(** The first test of the loop of [unwind] at [frame]: the frame after
    it is not valid, or is the frame of a native method. *)
Definition returnsOut (a : arch) (vm : VM) (frame : Z) : bool :=
  negb (frameValid (frameNext a vm frame))
  || isNative vm (frameMethod a vm (frameNext a vm frame)).

(** The frame the loop of [unwind] is at in its iteration [j], counted
    from 0, when it starts from [frame]. *)
Definition frameAt (a : arch) (vm : VM) (frame : Z) (j : nat) : Z :=
  Nat.iter j (frameNext a vm) frame.

(** The loop of [unwind] goes on from [frame] to the next frame: it is
    valid, the first test fails, and its method is native or has no
    handler for the pending exception. *)
Definition passedOver (a : arch) (vm : VM) (t : MyThread) (frame : Z) : Prop :=
  frameValid frame = true
  /\ returnsOut a vm frame = false
  /\ (isNative vm (frameMethod a vm frame) = true
      \/ findExceptionHandler a vm t frame = Some None).

(** The assertion of [set2], [set4], [get2] and [get4],
    [offset + n <= position]: the sum is an [unsigned] and wraps at
    2^32. *)
Definition withinPosition (offset n : Z) (b : Buffer.t) : bool :=
  uint32 (offset + n) <=? Buffer.position b.

(** One of the three appends of [Buffer], and the bytes it stores. *)
Inductive appendOp : Type :=
| Append1 (v : Z)
| Append2 (v : Z)
| Append4 (v : Z).

Definition applyAppend (op : appendOp) (b : Buffer.t) : option Buffer.t :=
  match op with
  | Append1 v => Buffer.append v b
  | Append2 v => Buffer.append2 v b
  | Append4 v => Buffer.append4 v b
  end.

Definition imageOf (op : appendOp) : list Z :=
  match op with
  | Append1 v => [uint8 v]
  | Append2 v => bytesLE 2 (uint16 v)
  | Append4 v => bytesLE 4 (uint32 v)
  end.

Fixpoint appendAll (ops : list appendOp) (b : Buffer.t) : option Buffer.t :=
  match ops with
  | [] => Some b
  | op :: rest => do b' <- applyAppend op b; appendAll rest b'
  end.

(** Slots of four bytes that do not overlap. *)
Definition separated (slots : list Z) : Prop :=
  ForallOrdPairs (fun u u' => u + 4 <= u' \/ u' + 4 <= u) slots.

(** The words of the jumps buffer: for every pending jump, the
    bytecode IP of its target (here the [k]-th recorded IP) and the
    offset of its displacement field in the code. *)
Definition jumpWords (ips : list Z) (pairs : list (nat * Z)) : list Z :=
  flat_map (fun p => [nth (fst p) ips 0; snd p]) pairs.

(** The bytes of [offsetInstruction]: opcode, ModRM byte, the SIB byte
    that an [rsp] base takes, and the displacement in the width that
    the prefix announces. *)
Definition offsetBytes (instruction zeroPrefix bytePrefix wordPrefix : Z)
    (ra rb offset : Z) : list Z :=
  let short := (offset =? 0) && negb (rb =? regNum rbp) in
  let prefix := if short then zeroPrefix
                else if isByte offset then bytePrefix else wordPrefix in
  [uint8 instruction; uint8 (Z.lor (Z.lor prefix (Z.shiftl ra 3)) rb)]
  ++ (if rb =? regNum rsp then [uint8 36] else [])
  ++ (if short then []
      else if isByte offset then [uint8 offset]
      else bytesLE 4 (uint32 offset)).

Definition loadBytes (a : arch) (base : Register) (offset : Z) (dst : Register)
  : list Z :=
  rexBytes a ++ offsetBytes 139 0 64 128 (regNum dst) (regNum base) offset.

Definition storeBytes (a : arch) (src base : Register) (offset : Z) : list Z :=
  rexBytes a ++ offsetBytes 137 0 64 128 (regNum src) (regNum base) offset.

Definition pushMemBytes (base : Register) (offset : Z) : list Z :=
  offsetBytes 255 48 112 176 (regNum rax) (regNum base) offset.

(** [encodes a f i]: the routine [f] emits a fixed sequence of at
    most fifteen bytes, and the decoder, started where that sequence
    begins in whatever code surrounds it, reads the instruction [i] of
    exactly that size. *)
Definition encodes (a : arch) (f : Assembler.t -> option Assembler.t)
    (i : X86.instr) : Prop :=
  exists bs,
    emits f bs
    /\ 0 < len bs <= 15
    /\ forall pre post,
        X86.decode a (pre ++ bs ++ post) (len pre) = Some (i, len bs).

(** The invariant [Buffer.wf] as a test. *)
Definition wfb (b : Buffer.t) : bool :=
  (0 <=? Buffer.position b) && (Buffer.position b <=? Buffer.allocated b)
  && (Buffer.capacity b <=? Buffer.allocated b)
  && (Buffer.allocated b <? 2 ^ 32)
  && (0 <=? Buffer.minimumCapacity b) && (Buffer.minimumCapacity b <? 2 ^ 32).

(** ** More concrete inputs *)

Module More.

(** A conditional jump to a fresh label, followed by a [nop]. *)
Definition jump : Assembler.Label * Assembler.t :=
  match Assembler.jl Assembler.newLabel Assembler.new with
  | Some (l, s) =>
      match Assembler.nop s with
      | Some s' => (l, s')
      | None => (l, s)
      end
  | None => (Assembler.newLabel, Assembler.new)
  end.

End More.

Module Layout.

(** A handler buffer holding one entry, as [buildExceptionHandlerTable]
    appends it: start, end, handler ip and catch type. *)
Definition table : Buffer.t :=
  match appendAll [Append4 0; Append4 6; Append4 2; Append4 0] (Buffer.new 256) with
  | Some b => b
  | None => Buffer.new 256
  end.

End Layout.

Module Patch.

(** A frame at [1000] whose saved return address is [4114], and code
    memory holding the reference call of the stub at [8192] in the
    twelve bytes before it; the address field starts at [4104]. *)
Definition vm : VM :=
  mkVM (fun p => if p =? 1008 then 4114 else 0) (fun _ => 0)
       (fun _ => Code.mk 0 0 0 0 []) (fun _ => [])
       (fun _ _ => false) (fun class_ => class_ + 1) 555.

Definition thread : MyThread := mkThread 0 1000 [].

Definition codeMem : Z -> Z :=
  writeMem (fun _ => 144) 4102 (movImmBytes x86_64 8192 rax ++ callBytes rax).

End Patch.

Module Jumps.

(** [goto +4; iconst_0; return]: the jump skips the constant. *)
Definition skipping : Method :=
  mkMethod [167; 0; 4; 3; 177] 0 0 0 (fun _ => (0, 0)) [].

(** The compiler after the loop of [compile] over [skipping] on
    x86-64, before the jumps are resolved. *)
Definition afterLoop : Compiler.t :=
  match Compiler.compileLoop
          (Compiler.instruction x86_64 Sample.externals skipping 0)
          5 skipping 0 0 (Compiler.new 40) with
  | Some c => c
  | None => Compiler.new 40
  end.

End Jumps.

(** ** The two stubs *)

Module Stubs.

Local Infix ">>" := Compiler.seq (at level 60, right associativity).

(** [gpRegister(t, index)]: the register of the [index]-th integer
    argument; [None] is the [abort]. *)
Definition gpRegister (index : Z) : option Register :=
  if index =? 0 then Some rdi
  else if index =? 1 then Some rsi
  else if index =? 2 then Some rdx
  else if index =? 3 then Some rcx
  else if index =? 4 then Some r8
  else if index =? 5 then Some r9
  else None.

(** [jmp(Register reg)] *)
Definition jmp_r (reg : Register) : Assembler.t -> option Assembler.t :=
  Assembler.seq (Assembler.byte 255) (Assembler.byte (Z.lor 224 (regNum reg))).

(** [compileNativeInvoker]; [invokeNative] is the address of the
    helper.  The result is the code object and the compiler that
    assembled it. *)
Definition compileNativeInvoker (a : arch) (invokeNative address : Z)
    (c : Compiler.t) : option (Code.t * Compiler.t) :=
  do c' <-
    (Compiler.emit (Assembler.push_r rbp)
     >> Compiler.emit (Assembler.mov_rr a rsp rbp)
     >> Compiler.emit (Assembler.mov_load a rbp (FrameThread a) rax)
     >> Compiler.emit (Assembler.mov_store a rbp rax (Compiler.threadFrameOffset c))
     >> (if BytesPerWord a =? 4 then
           Compiler.emit (Assembler.push_m rbp (FrameMethod a))
           >> Compiler.emit (Assembler.push_m rbp (FrameThread a))
         else
           Compiler.emit (Assembler.mov_load a rbp (FrameMethod a) rsi)
           >> Compiler.emit (Assembler.mov_load a rbp (FrameThread a) rdi))
     >> Compiler.emit (Assembler.mov_imm a invokeNative rax)
     >> Compiler.emit (Assembler.call rax)
     >> (if BytesPerWord a =? 4
         then Compiler.emit (Assembler.add_ir a (BytesPerWord a * 2) rsp)
         else Compiler.skip)
     >> Compiler.emit (Assembler.mov_rr a rbp rsp)
     >> Compiler.emit (Assembler.pop_r rbp)
     >> Compiler.emit Assembler.ret) c;
  do cd <- Compiler.finish a address c';
  Some (cd, c').

(** [compileStub]; [compileMethod] is the address of the helper,
    [MethodCompiled] and [CompiledBody] are the field offsets declared
    with the object layouts. *)
Definition compileStub (a : arch) (compileMethod MethodCompiled CompiledBody : Z)
    (address : Z) (c : Compiler.t) : option (Code.t * Compiler.t) :=
  do c' <-
    (Compiler.emit (Assembler.push_r rbp)
     >> Compiler.emit (Assembler.mov_rr a rsp rbp)
     >> Compiler.emit (Assembler.mov_load a rbp (FrameThread a) rax)
     >> Compiler.emit (Assembler.mov_store a rbp rax (Compiler.threadFrameOffset c))
     >> (if BytesPerWord a =? 4 then
           Compiler.emit (Assembler.push_m rbp (FrameMethod a))
           >> Compiler.emit (Assembler.push_m rbp (FrameThread a))
         else
           Compiler.emit (Assembler.mov_load a rbp (FrameMethod a) rsi)
           >> Compiler.emit (Assembler.mov_load a rbp (FrameThread a) rdi))
     >> Compiler.emit (Assembler.mov_imm a compileMethod rax)
     >> Compiler.emit (Assembler.call rax)
     >> (if BytesPerWord a =? 4
         then Compiler.emit (Assembler.add_ir a (BytesPerWord a * 2) rsp)
         else Compiler.skip)
     >> Compiler.emit (Assembler.mov_load a rbp (FrameMethod a) rax)
     >> Compiler.emit (Assembler.mov_load a rax MethodCompiled rax)
     >> Compiler.emit (Assembler.mov_rr a rbp rsp)
     >> Compiler.emit (Assembler.pop_r rbp)
     >> Compiler.emit (Assembler.add_ir a CompiledBody rax)
     >> Compiler.emit (jmp_r rax)) c;
  do cd <- Compiler.finish a address c';
  Some (cd, c').

(** The [k]-th word argument of a call, where the C calling convention
    of the target puts it: in the [gpRegister] on x86-64, on the stack
    on x86. *)
Definition argument (a : arch) (st : X86.machine) (k : Z) : option Z :=
  match a with
  | x86_64 =>
      do r <- gpRegister k; Some (X86.regs st (regNum r))
  | x86_32 =>
      Some (X86.memory st (uintptr a (X86.regs st X86.SP + k * BytesPerWord a)))
  end.

(** Straight-line execution. *)
Fixpoint execAll (a : arch) (prog : list X86.instr) (st : X86.machine)
  : option X86.machine :=
  match prog with
  | [] => Some st
  | i :: rest => do st' <- X86.exec a i st; execAll a rest st'
  end.

(** [cemits f bs]: the same as [emits] for a step of the compiler,
    which moreover leaves the frame offset and the two tables alone. *)
Definition cemits (f : Compiler.t -> option Compiler.t) (bs : list Z) : Prop :=
  forall c,
    Buffer.wf (Compiler.code c) ->
    Buffer.position (Compiler.code c) + len bs < 2 ^ 32 ->
    exists c',
      f c = Some c'
      /\ Buffer.wf (Compiler.code c')
      /\ Buffer.contents (Compiler.code c')
         = Buffer.contents (Compiler.code c) ++ bs
      /\ Buffer.position (Compiler.code c')
         = Buffer.position (Compiler.code c) + len bs
      /\ Compiler.threadFrameOffset c' = Compiler.threadFrameOffset c
      /\ Compiler.lineNumbers c' = Compiler.lineNumbers c
      /\ Compiler.exceptionHandlers c' = Compiler.exceptionHandlers c.

(** The instructions of the entry sequence of both stubs, up to the
    call. *)
Definition entry (a : arch) (threadFrameOffset function : Z) : list X86.instr :=
  [X86.Push 5; X86.MovRR 5 4; X86.Load 0 5 (int32 (FrameThread a));
   X86.Store 0 (int32 threadFrameOffset) 5]
  ++ match a with
     | x86_32 => [X86.PushMem 5 (int32 (FrameMethod a));
                  X86.PushMem 5 (int32 (FrameThread a))]
     | x86_64 => [X86.Load 6 5 (int32 (FrameMethod a));
                  X86.Load 7 5 (int32 (FrameThread a))]
     end
  ++ [X86.MovImm 0 (uintptr a function)].

(** What both stubs do on entry, for a stack pointer at the return
    address with the thread and the method above it: the code runs to
    a call of [function] with the frame pointer set up and stored in
    the frame field of the thread, and passes the thread and the method
    as the two arguments. *)
Definition entersHelper (a : arch) (threadFrameOffset function : Z)
    (code : list Z) (st : X86.machine) : Prop :=
  let base := uintptr a (X86.regs st X86.SP - BytesPerWord a) in
  let thread := X86.memory st (uintptr a (base + FrameThread a)) in
  let method := X86.memory st (uintptr a (base + FrameMethod a)) in
  exists st',
    X86.run a code 16 0 st = Some (uintptr a function, st')
    /\ X86.regs st' (regNum rbp) = base
    /\ X86.memory st' base = X86.regs st (regNum rbp)
    /\ X86.memory st' (uintptr a (thread + int32 threadFrameOffset)) = base
    /\ argument a st' 0 = Some thread
    /\ argument a st' 1 = Some method.

(** The frame field of the thread lies outside the words of the stack
    that the entry sequence reads and writes. *)
Definition apart (a : arch) (threadFrameOffset : Z) (st : X86.machine) : bool :=
  let base := uintptr a (X86.regs st X86.SP - BytesPerWord a) in
  let thread := X86.memory st (uintptr a (base + FrameThread a)) in
  forallb (fun k => negb (uintptr a (thread + int32 threadFrameOffset)
                          =? uintptr a (base + k * BytesPerWord a)))
          [-2; -1; 0; 1; 2; 3].

End Stubs.

(** ** Sizing the argument block *)

Module Processor.

(** The loop of [MyProcessor::parameterFootprint] over the characters
    of the spec, walking it as the [ArgumentList] constructors do. *)
Fixpoint footprintLoop (a : arch) (fuel : nat) (s : list ascii) (footprint : Z)
  : option Z :=
  match s with
  | [] => Some footprint
  | ch :: _ =>
      if Ascii.eqb ch ")"%char then Some footprint
      else
        match fuel with
        | O => None
        | S fuel' =>
            if Ascii.eqb ch "L"%char then
              do s' <- ArgumentList.advance (ArgumentList.skipTo ";"%char s);
              footprintLoop a fuel' s' (uint32 (footprint + 1))
            else if Ascii.eqb ch "["%char then
              let s1 := ArgumentList.skipWhile "["%char s in
              do s' <-
                (match s1 with
                 | c1 :: _ =>
                     if Ascii.eqb c1 "L"%char
                     then ArgumentList.advance (ArgumentList.skipTo ";"%char s1)
                     else ArgumentList.advance s1
                 | [] => ArgumentList.advance s1
                 end);
              footprintLoop a fuel' s' (uint32 (footprint + 1))
            else if Ascii.eqb ch "J"%char || Ascii.eqb ch "D"%char then
              do s' <- ArgumentList.advance s;
              footprintLoop a fuel' s'
                (uint32 ((if BytesPerWord a =? 4 then uint32 (footprint + 1)
                          else footprint) + 1))
            else
              do s' <- ArgumentList.advance s;
              footprintLoop a fuel' s' (uint32 (footprint + 1))
        end
  end.

(** [parameterFootprint(t, s, static_)] *)
Definition parameterFootprint (a : arch) (s : string) (static_ : bool)
  : option Z :=
  do s1 <- ArgumentList.advance (list_ascii_of_string s);
  do footprint <- footprintLoop a (List.length s1) s1 0;
  Some (if negb static_ then uint32 (footprint + 1) else footprint).

(** The size of the two arrays in [invokeList] by name:
    [parameterFootprint(t, methodSpec, false) + FrameFootprint]. *)
Definition invokeListSize (a : arch) (methodSpec : string) : option Z :=
  do footprint <- parameterFootprint a methodSpec false;
  Some (uint32 (footprint + FrameFootprint a)).

End Processor.

(** ** Calls of helpers from compiled code *)

Module Calls.

(** On x86 the two argument words are pushed before the frame is stored
    in the thread: neither the thread word of the frame nor the frame
    field of the thread may be one of the two pushed words. *)
Definition clear (a : arch) (threadFrameOffset : Z) (st : X86.machine) : bool :=
  match a with
  | x86_64 => true
  | x86_32 =>
      let frame := X86.regs st (regNum rbp) in
      let top := X86.regs st X86.SP in
      let slot := uintptr a (frame + FrameThread a) in
      let field := uintptr a (X86.memory st slot + int32 threadFrameOffset) in
      forallb (fun w => negb (slot =? w) && negb (field =? w))
              [uintptr a (top - 4); uintptr a (top - 8)]
  end.

(** What the code of a [compileCall] does from offset [pc] on: it runs
    to a call of [function] with the thread of the frame as first and
    [value] as second argument, and has stored the frame pointer in the
    frame field of the thread. *)
Definition callsHelper (a : arch) (threadFrameOffset function : Z)
    (code : list Z) (pc : Z) (st : X86.machine) (value : Z) : Prop :=
  let frame := X86.regs st (regNum rbp) in
  let thread := X86.memory st (uintptr a (frame + FrameThread a)) in
  exists st',
    X86.run a code 16 pc st = Some (uintptr a function, st')
    /\ X86.regs st' (regNum rbp) = frame
    /\ X86.memory st' (uintptr a (thread + int32 threadFrameOffset)) = frame
    /\ Stubs.argument a st' 0 = Some thread
    /\ Stubs.argument a st' 1 = Some value.

(** The instructions of [compileCall(function, arg1)] up to the call. *)
Definition sequence (a : arch) (threadFrameOffset function : Z) (arg1 : Register)
  : list X86.instr :=
  match a with
  | x86_32 => [X86.Push (regNum arg1); X86.PushMem 5 (int32 (FrameThread a))]
  | x86_64 => [X86.MovRR 6 (regNum arg1); X86.Load 7 5 (int32 (FrameThread a))]
  end
  ++ [X86.Load 0 5 (int32 (FrameThread a));
      X86.Store 0 (int32 threadFrameOffset) 5;
      X86.MovImm 0 (uintptr a function)].

End Calls.

(** * Properties *)

(** ** Frame constants *)

Lemma BytesPerWord_cases (a : arch) : BytesPerWord a = 4 \/ BytesPerWord a = 8.
Proof. destruct a; simpl; auto. Qed.

Lemma FrameNext_value (a : arch) : FrameNext a = BytesPerWord a.
Proof. destruct a; reflexivity. Qed.

Lemma FrameMethod_value (a : arch) : FrameMethod a = 3 * BytesPerWord a.
Proof. destruct a; reflexivity. Qed.

(** The subscripts of [frameBase] and [frameAddress], and the words
    they select: four and three words below the frame on x86-32, where
    the address wraps at 2^32, and [0xFFFFFFFC] and [0xFFFFFFFD] words
    above it on x86-64. *)
Lemma frame_subscripts (a : arch) :
  uint32 (uint32 (- (FrameFootprint a / BytesPerWord a)) - 1) = 2 ^ 32 - 4
  /\ uint32 (- (FrameFootprint a / BytesPerWord a)) = 2 ^ 32 - 3.
Proof. destruct a; split; reflexivity. Qed.

Lemma frame_reads_x86_32 vm frame :
  frameBase x86_32 vm frame = mem vm (uintptr x86_32 (frame - 4 * 4))
  /\ frameAddress x86_32 vm frame = mem vm (uintptr x86_32 (frame - 3 * 4)).
Proof.
  unfold frameBase, frameAddress, wordAt.
  destruct (frame_subscripts x86_32) as [-> ->].
  unfold uintptr. cbn [BytesPerWord].
  split; f_equal.
  - replace (frame + (2 ^ 32 - 4) * 4) with (frame - 4 * 4 + 4 * 2 ^ (8 * 4)) by lia.
    apply Z.mod_add. lia.
  - replace (frame + (2 ^ 32 - 3) * 4) with (frame - 3 * 4 + 4 * 2 ^ (8 * 4)) by lia.
    apply Z.mod_add. lia.
Qed.

Lemma frame_reads_x86_64 vm frame :
  0 <= frame < 2 ^ 63 ->
  frameBase x86_64 vm frame = mem vm (frame + (2 ^ 32 - 4) * 8)
  /\ frameAddress x86_64 vm frame = mem vm (frame + (2 ^ 32 - 3) * 8).
Proof.
  intros H. unfold frameBase, frameAddress, wordAt.
  destruct (frame_subscripts x86_64) as [-> ->].
  unfold uintptr. cbn [BytesPerWord].
  split; f_equal; apply Z.mod_small; lia.
Qed.

(** C2: the claim wants [FrameNext = FrameMethod + BytesPerWord], the
    slot of the previous frame.  The initializer refers to [FrameNext]
    itself, so the constant is one word: it differs from
    [FrameMethod + BytesPerWord] on both targets, [frameNext] reads the
    slot that [frameReturnAddress] reads, and on the sample stack it
    returns the return address [3001] instead of the previous frame
    [3004]. *)
Theorem FrameNext_misses_previous_frame_slot :
  forall a : arch,
    FrameNext a = BytesPerWord a
    /\ FrameNext a <> FrameMethod a + BytesPerWord a
    /\ (forall vm frame, frameNext a vm frame = frameReturnAddress a vm frame)
    /\ frameNext a (Sample.vm a) 1000 = 3001
    /\ wordAt a (Sample.vm a) (frameBase a (Sample.vm a) 1000)
              ((FrameMethod a + BytesPerWord a) / BytesPerWord a) = 3004.
Proof.
  intros a. split; [apply FrameNext_value|].
  split; [rewrite FrameNext_value, FrameMethod_value; destruct a; simpl; lia|].
  split.
  - intros vm frame. unfold frameNext, frameReturnAddress.
    rewrite FrameNext_value. destruct a; reflexivity.
  - destruct a; split; reflexivity.
Qed.

(** ** Throwing *)

Lemma unwindFrom_exception a vm t fuel :
  forall frame t' address,
    unwindFrom a vm t fuel frame = Some (Jump t' address) ->
    exception t' = exception t.
Proof.
  induction fuel as [|fuel IH]; intros frame t' address H; simpl in H.
  - discriminate.
  - destruct (frameValid frame); [|discriminate].
    destruct (negb (frameValid (frameNext a vm frame)) || _).
    + inversion H; subst; reflexivity.
    + destruct (Z.land _ ACC_NATIVE =? 0).
      * destruct (findExceptionHandler a vm t frame) as [[eh|]|].
        -- destruct (Code.nativeExceptionHandlerIp _ eh);
             inversion H; subst; reflexivity.
        -- eapply IH; eauto.
        -- discriminate.
      * eapply IH; eauto.
Qed.

(** What [throw_] makes pending, on every input: the branches are the
    other way round from [arg != null ? arg : newNullPointerException()]. *)
Lemma throw__pending a vm fuel t o t' address :
  throw_ a vm fuel t o = Some (Jump t' address) ->
  exception t' = if o =? 0 then 0 else makeNullPointerException vm.
Proof.
  unfold throw_, unwind. intros H.
  apply unwindFrom_exception in H. rewrite H.
  destruct (Z.eqb_spec o 0); subst; reflexivity.
Qed.

(** C1: the claim wants the thrown object itself pending when it is
    non-null and a fresh NullPointerException when it is null.  On the
    sample thread, throwing the non-null object [7] leaves the
    NullPointerException [555] pending, and throwing null leaves the
    null reference pending. *)
Theorem throw__swaps_its_branches :
  forall a : arch,
    throw_ a (Sample.vm a) 4 Sample.thread 7
    = Some (Jump (mkThread 555 0 []) 0)
    /\ throw_ a (Sample.vm a) 4 Sample.thread 0
       = Some (Jump (mkThread 0 0 []) 0).
Proof. intros a; destruct a; split; reflexivity. Qed.

(** ** Buffers *)

Module BufferFacts.

Import Buffer.

Lemma len_app {A} (xs ys : list A) : len (xs ++ ys) = len xs + len ys.
Proof. unfold len. rewrite length_app. lia. Qed.

Lemma len_nonneg {A} (xs : list A) : 0 <= len xs.
Proof. unfold len. lia. Qed.

Lemma len_firstn {A} (n : Z) (xs : list A) :
  0 <= n <= len xs -> len (firstn (Z.to_nat n) xs) = n.
Proof. unfold len. intros H. rewrite length_firstn. lia. Qed.

Lemma len_skipn {A} (n : Z) (xs : list A) :
  0 <= n <= len xs -> len (skipn (Z.to_nat n) xs) = len xs - n.
Proof. unfold len. intros H. rewrite length_skipn. lia. Qed.

Lemma len_allocate n : 0 <= n -> len (allocate n) = n.
Proof. unfold len, allocate. intros H. rewrite repeat_length. lia. Qed.

Lemma firstn_app_exact {A} (n : Z) (xs ys : list A) :
  len xs = n -> firstn (Z.to_nat n) (xs ++ ys) = xs.
Proof.
  unfold len. intros H. replace (Z.to_nat n) with (List.length xs + 0)%nat by lia.
  rewrite firstn_app_2. simpl. apply app_nil_r.
Qed.

Lemma memcpy_ok dst off src :
  0 <= off -> off + len src <= len dst ->
  memcpy dst off src
  = Some (firstn (Z.to_nat off) dst ++ src
          ++ skipn (Z.to_nat (off + len src)) dst).
Proof.
  intros H1 H2. unfold memcpy.
  destruct (Z.leb_spec 0 off); [|lia].
  destruct (Z.leb_spec (off + len src) (len dst)); [|lia]. reflexivity.
Qed.

Lemma len_memcpy dst off src d' :
  memcpy dst off src = Some d' -> len d' = len dst.
Proof.
  unfold memcpy.
  destruct (Z.leb_spec 0 off); [|discriminate].
  destruct (Z.leb_spec (off + len src) (len dst)); [|discriminate].
  simpl. intros E; inversion E; subst.
  pose proof (len_nonneg src).
  rewrite !len_app, len_firstn, len_skipn by lia. lia.
Qed.

Lemma readBytes_ok block off n :
  0 <= off -> 0 <= n -> off + n <= len block ->
  readBytes block off n
  = Some (firstn (Z.to_nat n) (skipn (Z.to_nat off) block)).
Proof.
  intros H1 H2 H3. unfold readBytes.
  destruct (Z.leb_spec 0 off); [|lia].
  destruct (Z.leb_spec 0 n); [|lia].
  destruct (Z.leb_spec (off + n) (len block)); [|lia]. reflexivity.
Qed.

Lemma uint32_small x : 0 <= x < 2 ^ 32 -> uint32 x = x.
Proof. intros H. unfold uint32. apply Z.mod_small. lia. Qed.

Lemma uint32_range x : 0 <= uint32 x < 2 ^ 32.
Proof. unfold uint32. apply Z.mod_pos_bound. lia. Qed.

(** [ensure] never writes the [capacity] field. *)
Lemma ensure_capacity space b b' :
  ensure space b = Some b' ->
  capacity b' = capacity b /\ position b' = position b
  /\ minimumCapacity b' = minimumCapacity b.
Proof.
  unfold ensure. destruct (_ >? _).
  - destruct (data b) as [d|].
    + destruct (readBytes d 0 (position b)); [|discriminate].
      destruct (memcpy _ 0 _); [|discriminate].
      intros H; inversion H; subst; auto.
    + intros H; inversion H; subst; auto.
  - intros H; inversion H; subst; auto.
Qed.

(** [ensure] succeeds on a well-formed buffer, keeps what was appended
    and leaves room for [space] more bytes. *)
Lemma ensure_spec space b :
  wf b -> 0 <= space -> position b + space < 2 ^ 32 ->
  exists b',
    ensure space b = Some b' /\ wf b' /\ contents b' = contents b
    /\ position b' = position b /\ capacity b' = capacity b
    /\ minimumCapacity b' = minimumCapacity b
    /\ position b + space <= allocated b'.
Proof.
  intros (Hp & Hc & Ha & Hm) Hs Hlt. unfold ensure.
  rewrite uint32_small by lia.
  destruct (Z.gtb_spec (position b + space) (capacity b)) as [Hgt|Hle].
  - pose proof (uint32_range (capacity b * 2)) as Hu.
    set (newCapacity := Z.max _ _).
    assert (Hn : position b + space <= newCapacity < 2 ^ 32)
      by (unfold newCapacity; lia).
    unfold wf, allocated, contents in *.
    destruct (data b) as [d|] eqn:Hd.
    + rewrite readBytes_ok by lia. simpl skipn.
      rewrite memcpy_ok; rewrite ?len_firstn, ?len_allocate by lia; try lia.
      eexists; split; [reflexivity|]. unfold setData; simpl.
      rewrite !len_app, len_firstn, len_skipn, len_allocate
        by (rewrite ?len_allocate; lia).
      rewrite firstn_app_exact by (apply len_firstn; lia).
      repeat split; try lia.
    + eexists; split; [reflexivity|]. unfold setData; simpl.
      rewrite len_allocate by lia.
      assert (position b = 0) by lia.
      replace (position b) with 0 by lia. simpl.
      repeat split; try lia.
  - exists b. unfold wf. repeat split; try lia.
Qed.

(** Appending [bs] succeeds and extends the contents by [bs]. *)
Lemma appendBytes_spec bs b :
  wf b -> 0 < len bs -> position b + len bs < 2 ^ 32 ->
  exists b',
    appendBytes bs b = Some b' /\ wf b' /\ contents b' = contents b ++ bs
    /\ position b' = position b + len bs /\ capacity b' = capacity b
    /\ minimumCapacity b' = minimumCapacity b.
Proof.
  intros Hwf Hbs Hlt.
  destruct (ensure_spec (len bs) b Hwf ltac:(lia) Hlt)
    as (b1 & He & (Hp1 & Hc1 & Ha1 & Hm1) & Hct & Hpos & Hcap & Hmin & Hroom).
  unfold appendBytes. rewrite He.
  unfold allocated, contents in *.
  destruct (data b1) as [d|] eqn:Hd; [|lia].
  rewrite memcpy_ok by lia.
  eexists; split; [reflexivity|].
  unfold wf, allocated, contents, setPosition, setData; simpl.
  rewrite uint32_small by lia.
  rewrite !len_app, len_firstn, len_skipn by lia.
  rewrite app_assoc, firstn_app_exact
    by (rewrite len_app, len_firstn by lia; lia).
  rewrite <- Hct.
  repeat split; try lia.
Qed.

(** A growth leaves a block below the 32-bit limit. *)
Lemma ensure_allocated space b b' :
  wf b -> ensure space b = Some b' ->
  allocated b' < 2 ^ 32 /\ position b' = position b.
Proof.
  intros (Hp & Hc & Ha & Hm). unfold ensure.
  pose proof (uint32_range (capacity b * 2)) as Hu.
  pose proof (uint32_range (position b + space)) as Hv.
  destruct (_ >? _).
  - set (newCapacity := Z.max _ _).
    assert (Hn : 0 <= newCapacity < 2 ^ 32) by (unfold newCapacity; lia).
    destruct (data b) as [d|].
    + destruct (readBytes d 0 (position b)); [|discriminate].
      destruct (memcpy _ 0 _) as [nd|] eqn:E; [|discriminate].
      intros H; injection H as <-. unfold allocated, setData; simpl.
      apply len_memcpy in E. rewrite E, len_allocate by lia. lia.
    + intros H; injection H as <-. unfold allocated, setData; simpl.
      rewrite len_allocate by lia. lia.
  - intros H; injection H as <-. auto.
Qed.

(** An append that succeeds did not wrap the position. *)
Lemma appendBytes_room bs b b' :
  wf b -> appendBytes bs b = Some b' -> position b + len bs < 2 ^ 32.
Proof.
  intros Hwf. unfold appendBytes.
  destruct (ensure (len bs) b) as [b1|] eqn:E; [|discriminate].
  destruct (ensure_allocated _ _ _ Hwf E) as [Ha Hp].
  unfold allocated in Ha. destruct (data b1) as [d|]; [|discriminate].
  unfold memcpy.
  destruct (Z.leb_spec 0 (position b1)); [|discriminate].
  destruct (Z.leb_spec (position b1 + len bs) (len d)); [|discriminate].
  intros _. lia.
Qed.

(** The success form of [appendBytes_spec]. *)
Lemma appendBytes_inv bs b b' :
  wf b -> 0 < len bs -> appendBytes bs b = Some b' ->
  wf b' /\ contents b' = contents b ++ bs
  /\ position b' = position b + len bs.
Proof.
  intros Hwf Hbs E.
  pose proof (appendBytes_room _ _ _ Hwf E) as Hlt.
  destruct (appendBytes_spec bs b Hwf Hbs Hlt) as (b'' & E' & H).
  rewrite E in E'. injection E' as <-. tauto.
Qed.

Lemma wf_new m : 0 <= m < 2 ^ 32 -> wf (new m).
Proof. unfold wf, new, allocated; simpl. lia. Qed.

Lemma contents_new m : contents (new m) = [].
Proof. reflexivity. Qed.

Lemma len_contents b : wf b -> len (contents b) = position b.
Proof.
  intros (Hp & _). unfold contents, allocated in *.
  destruct (data b) as [d|]; [apply len_firstn; lia|].
  change (len (@nil Z)) with 0. lia.
Qed.

End BufferFacts.

(** C5: the claim wants the recorded capacity updated on growth and the
    buffer at least doubled.  [ensure] computes the new capacity and
    allocates, but no path assigns [capacity]: it is the same after
    every [ensure].  With minimum capacity 2, after two appends the
    block has 2 bytes and after the third it has 3, not 4, while the
    recorded capacity is still 0; the appended bytes themselves are
    kept. *)
Theorem ensure_never_records_capacity :
  (forall space b,
      match Buffer.ensure space b with
      | Some b' => Buffer.capacity b' = Buffer.capacity b
      | None => True
      end)
  /\ (exists b2 b3,
        Sample.two = Some b2 /\ Sample.three = Some b3
        /\ Buffer.allocated b2 = 2 /\ Buffer.capacity b2 = 0
        /\ Buffer.allocated b3 = 3 /\ Buffer.capacity b3 = 0
        /\ Buffer.contents b3 = [1; 2; 3]
        /\ Buffer.copyTo b3 = Some [1; 2; 3]).
Proof.
  split.
  - intros space b. destruct (Buffer.ensure space b) as [b'|] eqn:E; [|exact I].
    apply BufferFacts.ensure_capacity in E. tauto.
  - do 2 eexists. split; [vm_compute; reflexivity|].
    split; [vm_compute; reflexivity|]. repeat split.
Qed.

(** ** Argument lists *)

Lemma store_other {A} (l l' : list (option A)) i (v : A) j :
  ArgumentList.store l i v = Some l' -> (j <> Z.to_nat i)%nat ->
  nth_error l' j = nth_error l j.
Proof.
  unfold ArgumentList.store.
  destruct ((0 <=? i) && (i <? len l)) eqn:E; [|discriminate].
  apply andb_true_iff in E. destruct E as [E1 E2].
  apply Z.leb_le in E1. apply Z.ltb_lt in E2. unfold len in E2.
  intros H Hj; injection H as <-.
  assert (Hf : List.length (firstn (Z.to_nat i) l) = Z.to_nat i)
    by (rewrite length_firstn; lia).
  destruct (Nat.lt_ge_cases j (Z.to_nat i)) as [Hlt|Hge].
  - rewrite nth_error_app1 by lia. rewrite nth_error_firstn.
    destruct (Nat.ltb_spec j (Z.to_nat i)); [reflexivity|lia].
  - rewrite nth_error_app2 by lia. rewrite Hf.
    destruct (j - Z.to_nat i)%nat as [|k] eqn:Ek; [lia|].
    simpl. rewrite nth_error_skipn. f_equal. lia.
Qed.

(** [addLong] leaves the mask entry of its second slot as it found it. *)
Lemma addLong_second_slot a v l l' :
  ArgumentList.addLong a v l = Some l' ->
  nth_error (ArgumentList.objectMask l')
            (Z.to_nat (ArgumentList.position l + 1))
  = nth_error (ArgumentList.objectMask l)
              (Z.to_nat (ArgumentList.position l + 1))
  /\ ArgumentList.position l' = uint32 (ArgumentList.position l + 2).
Proof.
  unfold ArgumentList.addLong.
  destruct (match a with x86_32 => _ | x86_64 => _ end) as [ar|]; [|discriminate].
  destruct (ArgumentList.store (ArgumentList.objectMask l) _ false)
    as [om1|] eqn:E1; [|discriminate].
  destruct (ArgumentList.store om1 _ false) as [om2|] eqn:E2; [|discriminate].
  intros H; injection H as <-.
  cbn [ArgumentList.objectMask ArgumentList.position]. split; [|reflexivity].
  assert (Hp : 0 <= ArgumentList.position l).
  { unfold ArgumentList.store in E1.
    destruct (Z.leb_spec 0 (ArgumentList.position l)); [lia|discriminate]. }
  rewrite (store_other _ _ _ _ _ E2) by lia.
  apply (store_other _ _ _ _ _ E1). lia.
Qed.

(** C6: the claim wants the mask written for both word slots of a long
    or double.  [addLong] writes the entry at [position] twice and the
    entry at [position + 1] never: in the block of [m(long)] on x86 the
    long fills slots 3 and 4, and the mask of slot 4 is still
    uninitialised. *)
Theorem addLong_skips_second_mask_entry :
  Sample.longCall
  = Some (ArgumentList.mk
            [Some 100; Some 0; Some 200; Some 7; Some 1]
            [Some false; Some true; Some false; Some false; None]
            5).
Proof. vm_compute. reflexivity. Qed.

(** ** Exception dispatch *)

Section FindExceptionHandler.

Variable a : arch.
Variable vm : VM.
Variable t : MyThread.
Variable frame : Z.

Let code := methodCompiled vm (frameMethod a vm frame).

(** One iteration of the loop agrees with [catches] on a readable
    entry. *)
Lemma findExceptionHandlerFrom_step n i :
  entryOk a vm frame i = true ->
  findExceptionHandlerFrom a vm t frame (S n) i
  = if catches a vm t frame i
    then Some (Some (Code.exceptionHandler a code i))
    else findExceptionHandlerFrom a vm t frame n (i + 1).
Proof.
  unfold entryOk, catches, inRange. cbn [findExceptionHandlerFrom]. fold code.
  destruct (Code.nativeExceptionHandlerStart code _) as [start|]; [|discriminate].
  destruct (Code.nativeExceptionHandlerEnd code _) as [end_|]; [|discriminate].
  destruct (Code.nativeExceptionHandlerCatchType code _) as [ct|]; [|discriminate].
  rewrite Z.geb_leb.
  destruct ((start <=? _) && (_ <? end_)); [|reflexivity]. cbn [andb].
  destruct (Z.eqb_spec ct 0) as [->|Hct]; [reflexivity|].
  destruct (arrayBody _ _) as [class_|]; [|discriminate].
  intros Hc. apply negb_true_iff in Hc. rewrite Hc. reflexivity.
Qed.

Lemma findExceptionHandlerFrom_find n :
  forall i0 : nat,
    forallb (entryOk a vm frame) (map Z.of_nat (List.seq i0 n)) = true ->
    findExceptionHandlerFrom a vm t frame n (Z.of_nat i0)
    = Some (option_map (Code.exceptionHandler a code)
              (find (catches a vm t frame) (map Z.of_nat (List.seq i0 n)))).
Proof.
  induction n as [|n IH]; intros i0 Hok.
  - reflexivity.
  - cbn [List.seq map forallb] in Hok. apply andb_true_iff in Hok.
    destruct Hok as [H0 Hrest].
    rewrite findExceptionHandlerFrom_step by exact H0.
    cbn [List.seq map find].
    destruct (catches a vm t frame (Z.of_nat i0)); [reflexivity|].
    replace (Z.of_nat i0 + 1) with (Z.of_nat (S i0)) by lia.
    apply IH. exact Hrest.
Qed.

End FindExceptionHandler.

Lemma inRange_at_end start end_ :
  0 <= start < end_ -> end_ < 2 ^ 32 -> inRange start end_ end_ = true.
Proof.
  intros H1 H2. unfold inRange.
  rewrite BufferFacts.uint32_small by lia.
  apply andb_true_iff. split; [apply Z.leb_le|apply Z.ltb_lt]; lia.
Qed.

Lemma find_some_iff {A} (f : A -> bool) (l : list A) :
  (exists x, find f l = Some x) <-> (exists x, In x l /\ f x = true).
Proof.
  split.
  - intros [x H]. exists x. apply find_some in H. exact H.
  - intros [x [Hin Hf]]. destruct (find f l) as [y|] eqn:E; [eauto|].
    exfalso. pose proof (find_none _ _ E x Hin). congruence.
Qed.

(** C7: on a readable handler table, [findExceptionHandler] returns the
    first entry, in table order, whose range contains the fault offset
    biased by one and whose catch type is 0 or a class the pending
    exception is an instance of; it returns a handler exactly when some
    entry is such, and null otherwise.  The bias makes a fault offset
    equal to [end] lie in the range. *)
Theorem findExceptionHandler_first_match :
  forall a vm t frame,
    tableOk a vm frame = true ->
    let code := methodCompiled vm (frameMethod a vm frame) in
    let entries := handlerIndices (Code.exceptionHandlerTableLength code) in
    findExceptionHandler a vm t frame
    = Some (option_map (Code.exceptionHandler a code)
              (find (catches a vm t frame) entries))
    /\ ((exists h, findExceptionHandler a vm t frame = Some (Some h))
        <-> (exists i, In i entries /\ catches a vm t frame i = true))
    /\ (findExceptionHandler a vm t frame = Some None
        <-> (forall i, In i entries -> catches a vm t frame i = false))
    /\ (forall start end_,
          0 <= start < end_ -> end_ < 2 ^ 32 ->
          inRange start end_ end_ = true).
Proof.
  intros a vm t frame Hok code entries.
  assert (E : findExceptionHandler a vm t frame
              = Some (option_map (Code.exceptionHandler a code)
                        (find (catches a vm t frame) entries))).
  { unfold findExceptionHandler.
    apply (findExceptionHandlerFrom_find a vm t frame _ 0%nat). exact Hok. }
  split; [exact E|]. rewrite E. split; [|split].
  - rewrite <- find_some_iff. split.
    + intros [h H]. destruct (find _ entries) as [i|]; [eauto|discriminate].
    + intros [i H]. rewrite H. simpl. eauto.
  - split.
    + intros H i Hin. destruct (find _ entries) as [j|] eqn:F; [discriminate|].
      apply (find_none _ _ F i Hin).
    + intros H. destruct (find _ entries) as [j|] eqn:F; [|reflexivity].
      apply find_some in F. destruct F as [Hin Hc].
      rewrite (H j Hin) in Hc. discriminate.
  - intros start end_ H1 H2. apply inRange_at_end; assumption.
Qed.

Lemma findExceptionHandler_first_match_witness :
  (tableOk x86_32 (Sample.faulting x86_32 8) 1000 = true
   /\ findExceptionHandler x86_32 (Sample.faulting x86_32 8)
        (mkThread 42 1000 []) 1000 = Some (Some 44))
  /\ (tableOk x86_64 (Sample.faulting x86_64 10) 1000 = true
      /\ findExceptionHandler x86_64 (Sample.faulting x86_64 10)
           (mkThread 42 1000 []) 1000 = Some (Some 48)).
Proof.
  assert (H : tableOk x86_32 (Sample.faulting x86_32 8) 1000 = true)
    by (vm_compute; reflexivity).
  assert (H' : tableOk x86_64 (Sample.faulting x86_64 10) 1000 = true)
    by (vm_compute; reflexivity).
  split; (split; [assumption|]).
  - destruct (findExceptionHandler_first_match
                x86_32 (Sample.faulting x86_32 8) (mkThread 42 1000 []) 1000 H)
      as [E _].
    rewrite E. vm_compute. reflexivity.
  - destruct (findExceptionHandler_first_match
                x86_64 (Sample.faulting x86_64 10) (mkThread 42 1000 []) 1000 H')
      as [E _].
    rewrite E. vm_compute. reflexivity.
Defined.

(** ** The invoke bridge *)

Lemma disposeUntil_created created :
  forall chain head,
    head = match chain with [] => 0 | r :: _ => r end ->
    ~ In head created ->
    disposeUntil head (created ++ chain) = Some chain.
Proof.
  induction created as [|r created IH]; intros chain head Hh Hn.
  - simpl. destruct chain as [|r rest]; simpl; subst.
    + reflexivity.
    + rewrite Z.eqb_refl. reflexivity.
  - simpl. destruct (Z.eqb_spec r head) as [->|Hne].
    + exfalso. apply Hn. left. reflexivity.
    + apply IH; [exact Hh|]. intros Hin. apply Hn. right. exact Hin.
Qed.

(** C9: when the callee leaves the entry chain below the references it
    created, [invoke] comes back (with a result, or in [abort] for an
    unknown return code) with [thread.frame] and the reference chain as
    they were at entry, whatever result and pending exception the
    callee left. *)
Theorem invoke_restores_frame_and_reference :
  forall a vm vmInvoke methodReturnCode fieldType compiledBody makeInt makeLong
         t method arguments array result t1 created,
    ArgumentList.store (ArgumentList.array arguments) 1 method = Some array ->
    vmInvoke (compiledBody (methodCompiled vm method)) array
             (uint32 (ArgumentList.position arguments * BytesPerWord a))
             (fieldType (methodReturnCode method)) t = (result, t1) ->
    reference t1 = created ++ reference t ->
    ~ In (referenceHead t) created ->
    match invoke a vm vmInvoke methodReturnCode fieldType compiledBody
                 makeInt makeLong t method arguments with
    | Returned _ t' | Aborted t' =>
        frame t' = frame t /\ reference t' = reference t
        /\ referenceHead t' = referenceHead t
        /\ exception t' = exception t1
    | Crashed => False
    end.
Proof.
  intros a vm vmInvoke methodReturnCode fieldType compiledBody makeInt makeLong
         t method arguments array result t1 created Hst Hvm Hch Hn.
  unfold invoke. rewrite Hst, Hvm, Hch.
  rewrite (disposeUntil_created created (reference t) (referenceHead t))
    by (auto; reflexivity).
  destruct (methodReturnCode method) as [[]|]; simpl; unfold referenceHead; simpl;
    auto.
Qed.

Lemma invoke_restores_frame_and_reference_witness :
  match invoke x86_64 (Sample.vm x86_64) Sample.callee
               (fun _ => Some IntField) (fun _ => 0) (fun _ => 5000)
               (fun v => v + 1) (fun v => v + 2)
               Sample.caller 3003 Sample.block with
  | Returned _ t' | Aborted t' =>
      frame t' = 1000 /\ reference t' = [5; 6]
      /\ referenceHead t' = 5 /\ exception t' = 9
  | Crashed => False
  end.
Proof.
  apply (invoke_restores_frame_and_reference
           x86_64 (Sample.vm x86_64) Sample.callee
           (fun _ => Some IntField) (fun _ => 0) (fun _ => 5000)
           (fun v => v + 1) (fun v => v + 2)
           Sample.caller 3003 Sample.block
           [Some 100; Some 3003; Some 1000] 42
           (mkThread 9 777 [11; 12; 5; 6]) [11; 12]).
  - reflexivity.
  - reflexivity.
  - reflexivity.
  - simpl. intros [H|[H|H]]; [discriminate H|discriminate H|exact H].
Defined.

(** ** Little-endian images *)

Lemma length_bytesLE n : forall v, List.length (bytesLE n v) = n.
Proof. induction n as [|n IH]; intros v; simpl; [|rewrite IH]; reflexivity. Qed.

Lemma len_bytesLE n v : len (bytesLE n v) = Z.of_nat n.
Proof. unfold len. rewrite length_bytesLE. reflexivity. Qed.

Lemma valueLE_bytesLE n :
  forall v, valueLE (bytesLE n v) = v mod 256 ^ Z.of_nat n.
Proof.
  induction n as [|n IH]; intros v.
  - simpl. rewrite Z.mod_1_r. reflexivity.
  - cbn [bytesLE valueLE]. rewrite IH.
    rewrite Nat2Z.inj_succ, Z.pow_succ_r by lia.
    rewrite Z.rem_mul_r by lia. lia.
Qed.

Lemma bytesLE_mod n :
  forall v, bytesLE n (v mod 256 ^ Z.of_nat n) = bytesLE n v.
Proof.
  induction n as [|n IH]; intros v.
  - reflexivity.
  - cbn [bytesLE]. rewrite Nat2Z.inj_succ, Z.pow_succ_r by lia.
    rewrite Z.rem_mul_r by lia.
    f_equal.
    + rewrite Z.mul_comm, Z.mod_add by lia. apply Z.mod_mod. lia.
    + rewrite <- (IH (v / 256)). f_equal.
      rewrite Z.mul_comm, Z.div_add by lia.
      rewrite Z.div_small by (apply Z.mod_pos_bound; lia). reflexivity.
Qed.

Lemma bytesLE_app n m :
  forall v, bytesLE (n + m) v = bytesLE n v ++ bytesLE m (v / 256 ^ Z.of_nat n).
Proof.
  induction n as [|n IH]; intros v.
  - simpl. rewrite Z.div_1_r. reflexivity.
  - cbn [Nat.add bytesLE app]. rewrite IH. do 2 f_equal.
    rewrite Nat2Z.inj_succ, Z.pow_succ_r by lia.
    rewrite Z.div_div by lia. reflexivity.
Qed.

(** The two halves that [appendAddress] appends on x86-64 are the
    eight-byte image of the address. *)
Lemma bytesLE_halves v :
  bytesLE 4 (uint32 v) ++ bytesLE 4 (uint32 (Z.shiftr (uintptr x86_64 v) 32))
  = bytesLE 8 (uintptr x86_64 v).
Proof.
  unfold uint32, uintptr. cbn [BytesPerWord].
  rewrite Z.shiftr_div_pow2 by lia.
  change 8%nat with (4 + 4)%nat. rewrite bytesLE_app.
  change (2 ^ 32) with (256 ^ Z.of_nat 4). rewrite !bytesLE_mod.
  f_equal.
  rewrite <- (bytesLE_mod 4 (v mod _)), <- (bytesLE_mod 4 v). f_equal.
  change (256 ^ Z.of_nat 4) with (2 ^ 32).
  change (2 ^ (8 * 8)) with (2 ^ 32 * 2 ^ 32).
  rewrite Z.rem_mul_r by lia.
  rewrite Z.mul_comm, Z.mod_add by lia. symmetry. apply Z.mod_mod. lia.
Qed.

(** ** What the assembler emits *)

Module AssemblerFacts.

Import Assembler.

Lemma emits_skip : emits skip [].
Proof.
  intros s Hwf _. exists s. rewrite app_nil_r.
  repeat split; try apply Hwf. change (len (@nil Z)) with 0. lia.
Qed.

Lemma emits_onCode f bs :
  0 < len bs ->
  (forall b, f b = Buffer.appendBytes bs b) ->
  emits (onCode f) bs.
Proof.
  intros Hbs Hf s Hwf Hlt.
  destruct (BufferFacts.appendBytes_spec bs (code s) Hwf Hbs Hlt)
    as (b' & E & Hwf' & Hc & Hp & _).
  unfold onCode. rewrite Hf, E. eexists; split; [reflexivity|].
  simpl. auto.
Qed.

Lemma emits_byte v : emits (byte v) [uint8 v].
Proof. apply emits_onCode; [reflexivity|reflexivity]. Qed.

Lemma emits_append4 v : emits (onCode (Buffer.append4 v)) (bytesLE 4 (uint32 v)).
Proof. apply emits_onCode; [reflexivity|reflexivity]. Qed.

Lemma emits_seq f g xs ys :
  emits f xs -> emits g ys -> emits (f >> g) (xs ++ ys).
Proof.
  intros Hf Hg s Hwf Hlt. rewrite BufferFacts.len_app in Hlt.
  pose proof (BufferFacts.len_nonneg xs). pose proof (BufferFacts.len_nonneg ys).
  destruct (Hf s Hwf) as (s1 & E1 & W1 & C1 & P1 & J1); [lia|].
  destruct (Hg s1 W1) as (s2 & E2 & W2 & C2 & P2 & J2); [lia|].
  exists s2. unfold seq. rewrite E1, E2.
  split; [reflexivity|]. split; [exact W2|].
  split; [rewrite C2, C1, app_assoc; reflexivity|].
  split; [rewrite P2, P1, BufferFacts.len_app; lia|].
  rewrite J2, J1. reflexivity.
Qed.

Lemma emits_ext f g bs : (forall s, f s = g s) -> emits g bs -> emits f bs.
Proof. intros H Hg s. rewrite H. apply Hg. Qed.

Lemma emits_rex a : emits (rex a) (rexBytes a).
Proof. destruct a; [apply emits_skip|apply emits_byte]. Qed.

Lemma emits_appendAddress a v :
  emits (onCode (Buffer.appendAddress a v))
        (bytesLE (Z.to_nat (BytesPerWord a)) (uintptr a v)).
Proof.
  destruct a.
  - apply emits_ext with (g := onCode (Buffer.append4 v)).
    + intros s. unfold onCode, Buffer.appendAddress.
      destruct (Buffer.append4 v (code s)); reflexivity.
    + change (bytesLE _ (uintptr x86_32 v)) with (bytesLE 4 (uint32 v)).
      apply emits_append4.
  - apply emits_ext
      with (g := onCode (Buffer.append4 v)
                 >> onCode (Buffer.append4 (Z.shiftr (uintptr x86_64 v) 32))).
    + intros s. unfold seq, onCode, Buffer.appendAddress.
      destruct (Buffer.append4 v (code s)); reflexivity.
    + change (Z.to_nat (BytesPerWord x86_64)) with 8%nat.
      rewrite <- bytesLE_halves. apply emits_seq; apply emits_append4.
Qed.

Lemma emits_mov_imm a v dst : emits (mov_imm a v dst) (movImmBytes a v dst).
Proof.
  unfold mov_imm, movImmBytes.
  apply emits_seq; [apply emits_rex|].
  apply (emits_seq _ _ [_]); [apply emits_byte|apply emits_appendAddress].
Qed.

Lemma emits_call reg : emits (call reg) (callBytes reg).
Proof.
  unfold call, callBytes.
  apply (emits_seq _ _ [255] [_]); apply emits_byte.
Qed.

Lemma len_movImmBytes a v dst :
  len (movImmBytes a v dst) = len (rexBytes a) + 1 + BytesPerWord a.
Proof.
  unfold movImmBytes. rewrite !BufferFacts.len_app, len_bytesLE.
  destruct a; reflexivity.
Qed.

(** The padding loop stops within a word, at a position where the
    address field of the load that follows is word-aligned. *)
Lemma alignPad_spec a fuel :
  forall s j,
    Buffer.wf (code s) ->
    Buffer.position (code s) + Z.of_nat fuel + 2 < 2 ^ 32 ->
    0 <= j <= Z.of_nat fuel ->
    (Buffer.position (code s) + j + (len (rexBytes a) + 1)) mod BytesPerWord a = 0 ->
    exists s' k,
      alignPad a fuel s = Some s'
      /\ 0 <= k <= j
      /\ Buffer.wf (code s')
      /\ Buffer.contents (code s')
         = Buffer.contents (code s) ++ repeat 144 (Z.to_nat k)
      /\ Buffer.position (code s') = Buffer.position (code s) + k
      /\ (Buffer.position (code s') + (len (rexBytes a) + 1)) mod BytesPerWord a = 0
      /\ jumps s' = jumps s.
Proof.
  induction fuel as [|fuel IH]; intros s j Hwf Hlt Hj Hal.
  - assert (j = 0) by lia. subst j. rewrite Z.add_0_r in Hal.
    exists s, 0. cbn [alignPad].
    assert (Hd : (if BytesPerWord a =? 8 then 2 else 1) = len (rexBytes a) + 1)
      by (destruct a; reflexivity).
    unfold Buffer.length. rewrite Hd.
    rewrite BufferFacts.uint32_small
      by (destruct Hwf as [[? ?] ?]; destruct a;
          cbn [rexBytes len List.length Z.of_nat] in *; lia).
    rewrite Hal. cbn [Z.eqb].
    rewrite app_nil_r, Z.add_0_r. repeat split; auto; try lia; apply Hwf.
  - assert (Hd : (if BytesPerWord a =? 8 then 2 else 1) = len (rexBytes a) + 1)
      by (destruct a; reflexivity).
    cbn [alignPad]. unfold Buffer.length. rewrite Hd.
    rewrite BufferFacts.uint32_small
      by (destruct Hwf as [[? ?] ?]; destruct a;
          cbn [rexBytes len List.length Z.of_nat] in *; lia).
    destruct (Z.eqb_spec
                ((Buffer.position (code s) + (len (rexBytes a) + 1))
                 mod BytesPerWord a) 0) as [E|E].
    + exists s, 0. rewrite app_nil_r, Z.add_0_r.
      repeat split; auto; try lia; apply Hwf.
    + assert (j <> 0) by (intros ->; rewrite Z.add_0_r in Hal; contradiction).
      destruct (emits_byte 144 s Hwf) as (s1 & E1 & W1 & C1 & P1 & J1).
      { change (len [uint8 144]) with 1. lia. }
      change (len [uint8 144]) with 1 in P1. change (uint8 144) with 144 in C1.
      destruct (IH s1 (j - 1) W1) as (s' & k & E' & Hk & W' & C' & P' & A' & J').
      { rewrite P1. lia. }
      { lia. }
      { rewrite P1. replace (Buffer.position (code s) + 1 + (j - 1))
          with (Buffer.position (code s) + j) by lia. exact Hal. }
      exists s', (k + 1). unfold nop. rewrite E1, E'.
      split; [reflexivity|]. split; [lia|]. split; [exact W'|].
      split.
      { rewrite C', C1, <- app_assoc.
        replace (Z.to_nat (k + 1)) with (S (Z.to_nat k)) by lia. reflexivity. }
      split; [rewrite P', P1; lia|].
      split; [exact A'|]. rewrite J', J1. reflexivity.
Qed.

End AssemblerFacts.

(** ** Aligned loads and call-site patching *)

Lemma copyTo_contents b :
  Buffer.wf b -> Buffer.copyTo b = Some (Buffer.contents b).
Proof.
  intros [[Hp Hq] _]. unfold Buffer.copyTo, Buffer.contents, Buffer.allocated in *.
  destruct (Buffer.data b) as [d|]; [|reflexivity].
  rewrite BufferFacts.readBytes_ok by lia. reflexivity.
Qed.

Lemma bytes_eqb_eq xs : forall ys, bytes_eqb xs ys = true <-> xs = ys.
Proof.
  induction xs as [|x xs IH]; intros [|y ys]; simpl; split; intros H;
    try reflexivity; try discriminate.
  - apply andb_true_iff in H. destruct H as [H1 H2].
    apply Z.eqb_eq in H1. apply IH in H2. congruence.
  - injection H as -> ->. rewrite Z.eqb_refl. apply IH. reflexivity.
Qed.

Lemma padding_exists a p :
  0 <= p ->
  exists j, 0 <= j < BytesPerWord a
            /\ (p + j + (len (rexBytes a) + 1)) mod BytesPerWord a = 0.
Proof.
  intros Hp.
  exists ((- (p + (len (rexBytes a) + 1))) mod BytesPerWord a).
  destruct a; cbn [BytesPerWord rexBytes len List.length Z.of_nat];
    split; try (apply Z.mod_pos_bound; lia);
    Z.div_mod_to_equations; lia.
Qed.

Lemma alignedMov_spec a v dst s :
  Buffer.wf (Assembler.code s) ->
  Buffer.position (Assembler.code s) + 2 * BytesPerWord a + 2 < 2 ^ 32 ->
  exists s' k,
    Assembler.alignedMov a v dst s = Some s'
    /\ 0 <= k < BytesPerWord a
    /\ Buffer.wf (Assembler.code s')
    /\ Buffer.contents (Assembler.code s')
       = Buffer.contents (Assembler.code s)
         ++ repeat 144 (Z.to_nat k) ++ movImmBytes a v dst
    /\ Buffer.length (Assembler.code s') - BytesPerWord a
       = Buffer.length (Assembler.code s) + k + len (rexBytes a) + 1
    /\ (Buffer.length (Assembler.code s') - BytesPerWord a) mod BytesPerWord a = 0
    /\ Assembler.jumps s' = Assembler.jumps s.
Proof.
  intros Hwf Hlt.
  assert (Hp : 0 <= Buffer.position (Assembler.code s)) by (destruct Hwf; lia).
  destruct (padding_exists a _ Hp) as (j & Hj & Hal).
  pose proof (BytesPerWord_cases a) as HW.
  destruct (AssemblerFacts.alignPad_spec a (Z.to_nat (BytesPerWord a)) s j Hwf)
    as (s1 & k & E1 & Hk & W1 & C1 & P1 & A1 & J1); [lia|lia|exact Hal|].
  destruct (AssemblerFacts.emits_mov_imm a v dst s1 W1)
    as (s2 & E2 & W2 & C2 & P2 & J2).
  { rewrite P1, AssemblerFacts.len_movImmBytes.
    destruct a; cbn [rexBytes len List.length Z.of_nat BytesPerWord] in *; lia. }
  exists s2, k.
  split.
  { unfold Assembler.alignedMov, Assembler.seq at 1. rewrite E1. exact E2. }
  rewrite AssemblerFacts.len_movImmBytes in P2.
  unfold Buffer.length.
  split; [lia|]. split; [exact W2|].
  split; [rewrite C2, C1, <- app_assoc; reflexivity|].
  split; [lia|].
  split; [|rewrite J2, J1; reflexivity].
  replace (Buffer.position (Assembler.code s2) - BytesPerWord a)
    with (Buffer.position (Assembler.code s1) + (len (rexBytes a) + 1)) by lia.
  exact A1.
Qed.

Lemma callSiteReference_spec a stub :
  callSiteReference a stub
  = Some (movImmBytes a stub rax ++ callBytes rax, len (rexBytes a) + 1).
Proof.
  unfold callSiteReference.
  assert (W0 : Buffer.wf (Assembler.code Assembler.new))
    by (apply BufferFacts.wf_new; lia).
  destruct (AssemblerFacts.emits_mov_imm a stub rax Assembler.new W0)
    as (s1 & E1 & W1 & C1 & P1 & J1).
  { rewrite AssemblerFacts.len_movImmBytes.
    destruct a; cbn; lia. }
  destruct (AssemblerFacts.emits_call rax s1 W1) as (s2 & E2 & W2 & C2 & P2 & J2).
  { rewrite P1, AssemblerFacts.len_movImmBytes. destruct a; cbn; lia. }
  rewrite E1, E2, (copyTo_contents _ W2), C2, C1.
  unfold Buffer.length. rewrite P1, AssemblerFacts.len_movImmBytes.
  f_equal. f_equal.
  destruct a; reflexivity.
Qed.

(** C10: [alignedMov] pads with at most a word of [nop] bytes and then
    emits the load, so that the offset of its address field is a
    multiple of the word size; [callAlignedAddress] therefore leaves
    the reference sequence [mov; call] with an aligned address field at
    a direct call site.  [updateCaller] leaves the code untouched unless
    the bytes before the saved return address equal that sequence, and
    then overwrites exactly the address field. *)
Theorem alignedMov_aligns_patched_field :
  forall a v dst s,
    Buffer.wf (Assembler.code s) ->
    Buffer.position (Assembler.code s) + 2 * BytesPerWord a + 4 < 2 ^ 32 ->
    (exists s' k,
        Assembler.alignedMov a v dst s = Some s'
        /\ 0 <= k < BytesPerWord a
        /\ Buffer.contents (Assembler.code s')
           = Buffer.contents (Assembler.code s)
             ++ repeat 144 (Z.to_nat k) ++ movImmBytes a v dst
        /\ Buffer.length (Assembler.code s') - BytesPerWord a
           = Buffer.length (Assembler.code s) + k + len (rexBytes a) + 1
        /\ (Buffer.length (Assembler.code s') - BytesPerWord a)
             mod BytesPerWord a = 0)
    /\ (forall c stub,
           Compiler.asm c = s ->
           exists c' k bs off,
             Compiler.callAlignedAddress a stub c = Some c'
             /\ callSiteReference a stub = Some (bs, off)
             /\ Buffer.contents (Compiler.code c')
                = Buffer.contents (Assembler.code s)
                  ++ repeat 144 (Z.to_nat k) ++ bs
             /\ (Buffer.length (Compiler.code c') - len bs + off)
                  mod BytesPerWord a = 0)
    /\ (forall vm t codeMem stub entry m',
           updateCaller a vm t codeMem stub entry = Some m' ->
           exists bs off,
             callSiteReference a stub = Some (bs, off)
             /\ let caller := wordAt a vm (frame t) 1 - len bs in
                (readMem codeMem caller (List.length bs) <> bs -> m' = codeMem)
                /\ (readMem codeMem caller (List.length bs) = bs ->
                    (caller + off) mod BytesPerWord a = 0
                    /\ m' = writeMem codeMem (caller + off)
                              (bytesLE (Z.to_nat (BytesPerWord a))
                                       (uintptr a entry)))).
Proof.
  intros a v dst s Hwf Hlt. split; [|split].
  - destruct (alignedMov_spec a v dst s Hwf) as (s' & k & E & Hk & _ & C & F & A & _);
      [lia|].
    exists s', k. auto.
  - intros c stub Hc.
    destruct (alignedMov_spec a stub rax s Hwf) as (s1 & k & E & Hk & W1 & C & F & A & _);
      [lia|].
    destruct (AssemblerFacts.emits_call rax s1 W1) as (s2 & E2 & W2 & C2 & P2 & _).
    { unfold Buffer.length in F. change (len (callBytes rax)) with 2.
      destruct a; cbn [rexBytes len List.length Z.of_nat BytesPerWord] in *; lia. }
    eexists _, k, _, _.
    split.
    { unfold Compiler.callAlignedAddress, Compiler.seq, Compiler.emit.
      rewrite Hc, E. cbn [Compiler.asm Compiler.setAsm]. rewrite E2. reflexivity. }
    split; [apply callSiteReference_spec|].
    unfold Compiler.code, Compiler.setClobbered, Compiler.setAsm.
    cbn [Compiler.asm].
    split; [rewrite C2, C, <- !app_assoc; reflexivity|].
    unfold Buffer.length in *. rewrite P2.
    rewrite BufferFacts.len_app, AssemblerFacts.len_movImmBytes.
    change (len (callBytes rax)) with 2.
    replace (_ + 2 - _ + _)
      with (Buffer.position (Assembler.code s1) - BytesPerWord a) by lia.
    exact A.
  - intros vm t codeMem stub entry m'. unfold updateCaller.
    rewrite callSiteReference_spec.
    set (bs := movImmBytes a stub rax ++ callBytes rax).
    set (off := len (rexBytes a) + 1).
    intros H. exists bs, off. split; [reflexivity|].
    cbv zeta. destruct (bytes_eqb bs _) eqn:Eb.
    + apply bytes_eqb_eq in Eb.
      destruct (Z.eqb_spec ((wordAt a vm (frame t) 1 - len bs + off)
                              mod BytesPerWord a) 0) as [Ea|Ea];
        [|discriminate].
      injection H as <-. split; [intros Hne; congruence|auto].
    + injection H as <-. split; [reflexivity|].
      intros Heq. rewrite Heq in Eb.
      assert (bytes_eqb bs bs = true) by (apply bytes_eqb_eq; reflexivity).
      congruence.
Qed.

Lemma alignedMov_aligns_patched_field_witness :
  Buffer.wf (Assembler.code Assembler.new)
  /\ Buffer.position (Assembler.code Assembler.new)
     + 2 * BytesPerWord x86_64 + 4 < 2 ^ 32
  /\ exists s' k,
       Assembler.alignedMov x86_64 4096 rax Assembler.new = Some s'
       /\ 0 <= k < BytesPerWord x86_64
       /\ Buffer.contents (Assembler.code s')
          = Buffer.contents (Assembler.code Assembler.new)
            ++ repeat 144 (Z.to_nat k) ++ movImmBytes x86_64 4096 rax
       /\ Buffer.length (Assembler.code s') - BytesPerWord x86_64
          = Buffer.length (Assembler.code Assembler.new) + k
            + len (rexBytes x86_64) + 1
       /\ (Buffer.length (Assembler.code s') - BytesPerWord x86_64)
            mod BytesPerWord x86_64 = 0.
Proof.
  assert (H1 : Buffer.wf (Assembler.code Assembler.new))
    by (apply (BufferFacts.wf_new 1024); lia).
  assert (H2 : Buffer.position (Assembler.code Assembler.new)
               + 2 * BytesPerWord x86_64 + 4 < 2 ^ 32)
    by (change (0 + 2 * 8 + 4 < 2 ^ 32); lia).
  split; [exact H1|]. split; [exact H2|].
  exact (proj1 (alignedMov_aligns_patched_field x86_64 4096 rax Assembler.new H1 H2)).
Defined.

(** ** The constant pool *)

Lemma emits_offsetInstruction i z b w ra rb offset :
  exists bs, len bs <= 7
             /\ emits (Assembler.offsetInstruction i z b w ra rb offset) bs.
Proof.
  unfold Assembler.offsetInstruction.
  set (prefix := if (offset =? 0) && negb (rb =? regNum rbp) then z
                 else if isByte offset then b else w).
  assert (Hsib : exists xs, len xs <= 1
                   /\ emits (if rb =? regNum rsp then Assembler.byte 36
                             else Assembler.skip) xs).
  { destruct (rb =? regNum rsp).
    - exists [uint8 36].
      split; [unfold len; cbn [List.length]; lia|apply AssemblerFacts.emits_byte].
    - exists []. split; [unfold len; cbn [List.length]; lia|apply AssemblerFacts.emits_skip]. }
  assert (Hdisp : exists ys, len ys <= 4
                    /\ emits (if (offset =? 0) && negb (rb =? regNum rbp)
                              then Assembler.skip
                              else if isByte offset then Assembler.byte offset
                              else Assembler.onCode (Buffer.append4 offset)) ys).
  { destruct ((offset =? 0) && negb (rb =? regNum rbp)).
    - exists []. split; [unfold len; cbn [List.length]; lia|apply AssemblerFacts.emits_skip].
    - destruct (isByte offset).
      + exists [uint8 offset].
        split; [unfold len; cbn [List.length]; lia|apply AssemblerFacts.emits_byte].
      + exists (bytesLE 4 (uint32 offset)).
        split; [rewrite len_bytesLE; lia|apply AssemblerFacts.emits_append4]. }
  destruct Hsib as (xs & Lx & Ex). destruct Hdisp as (ys & Ly & Ey).
  exists ([uint8 i] ++ [uint8 (Z.lor (Z.lor prefix (Z.shiftl ra 3)) rb)] ++ xs ++ ys).
  split.
  - rewrite !BufferFacts.len_app. change (len [_]) with 1. lia.
  - apply AssemblerFacts.emits_seq; [apply AssemblerFacts.emits_byte|].
    apply AssemblerFacts.emits_seq; [apply AssemblerFacts.emits_byte|].
    apply AssemblerFacts.emits_seq; assumption.
Qed.

Lemma emits_mov_load a src offset dst :
  exists bs, len bs <= 8 /\ emits (Assembler.mov_load a src offset dst) bs.
Proof.
  destruct (emits_offsetInstruction 139 0 64 128 (regNum dst) (regNum src) offset)
    as (bs & L & E).
  exists (rexBytes a ++ bs). split.
  - rewrite BufferFacts.len_app. destruct a; cbn [rexBytes len List.length Z.of_nat]; lia.
  - apply AssemblerFacts.emits_seq; [apply AssemblerFacts.emits_rex|exact E].
Qed.

(** The reload of the pool register and the append of [poolReference]. *)
Lemma poolReference_spec a x o c :
  Buffer.wf (Compiler.code c) -> Buffer.wf (Compiler.pool c) ->
  Buffer.position (Compiler.code c) + 16 < 2 ^ 32 ->
  Buffer.position (Compiler.pool c) + 2 * BytesPerWord a < 2 ^ 32 ->
  exists off c',
    Compiler.poolReference a x o c = Some (off, c')
    /\ off = Buffer.length (Compiler.pool c') + BytesPerWord a
    /\ Buffer.length (Compiler.pool c')
       = Buffer.length (Compiler.pool c) + BytesPerWord a
    /\ Buffer.contents (Compiler.pool c')
       = Buffer.contents (Compiler.pool c)
         ++ bytesLE (Z.to_nat (BytesPerWord a)) (uintptr a o)
    /\ Buffer.wf (Compiler.pool c') /\ Buffer.wf (Compiler.code c')
    /\ Buffer.position (Compiler.code c')
       <= Buffer.position (Compiler.code c) + 16
    /\ Compiler.poolRegisterClobbered c' = false.
Proof.
  intros Wc Wp Hc Hp. unfold Compiler.poolReference.
  assert (H1 : exists c1,
             (if Compiler.poolRegisterClobbered c
              then do c' <- (Compiler.seq
                               (Compiler.emit (Assembler.mov_load a rbp (FrameMethod a) rdi))
                               (Compiler.emit (Assembler.mov_load a rdi (MethodCode x) rdi))) c;
                   Some (Compiler.setClobbered c' false)
              else Some c) = Some c1
             /\ Compiler.pool c1 = Compiler.pool c
             /\ Buffer.wf (Compiler.code c1)
             /\ Buffer.position (Compiler.code c1)
                <= Buffer.position (Compiler.code c) + 16
             /\ (Compiler.poolRegisterClobbered c = true
                 -> Compiler.poolRegisterClobbered c1 = false)
             /\ (Compiler.poolRegisterClobbered c = false -> c1 = c)).
  { destruct (Compiler.poolRegisterClobbered c) eqn:Ecl.
    - destruct (emits_mov_load a rbp (FrameMethod a) rdi) as (xs & Lx & Ex).
      destruct (emits_mov_load a rdi (MethodCode x) rdi) as (ys & Ly & Ey).
      destruct (Ex (Compiler.asm c) Wc) as (s1 & E1 & W1 & _ & P1 & _);
        [unfold Compiler.code in Hc; lia|].
      destruct (Ey s1 W1) as (s2 & E2 & W2 & _ & P2 & _);
        [unfold Compiler.code in Hc; lia|].
      unfold Compiler.seq, Compiler.emit. rewrite E1.
      cbn [Compiler.asm Compiler.setAsm]. rewrite E2.
      eexists; split; [reflexivity|].
      unfold Compiler.code, Compiler.setClobbered, Compiler.setAsm in *.
      cbn [Compiler.asm Compiler.pool Compiler.poolRegisterClobbered].
      split; [reflexivity|]. split; [exact W2|]. split; [lia|].
      split; [reflexivity|discriminate].
    - exists c. split; [reflexivity|]. split; [reflexivity|].
      split; [exact Wc|]. split; [lia|]. split; [discriminate|reflexivity]. }
  destruct H1 as (c1 & E1 & Hpool & W1 & P1 & Hcl1 & Hcl2). rewrite E1.
  destruct (AssemblerFacts.emits_appendAddress a o
              (Assembler.mk (Compiler.pool c1) (Buffer.new 0)))
    as (s' & E & W' & C' & P' & _).
  { cbn [Assembler.code]. rewrite Hpool. exact Wp. }
  { cbn [Assembler.code]. rewrite Hpool, len_bytesLE.
    pose proof (BytesPerWord_cases a). lia. }
  unfold Assembler.onCode in E. cbn [Assembler.code Assembler.jumps] in *.
  destruct (Buffer.appendAddress a o (Compiler.pool c1)) as [p|]; [|discriminate].
  injection E as <-. cbn [Assembler.code] in *.
  rewrite len_bytesLE in P'.
  assert (HW : Z.of_nat (Z.to_nat (BytesPerWord a)) = BytesPerWord a)
    by (pose proof (BytesPerWord_cases a); lia).
  rewrite HW in P'. rewrite Hpool in *.
  eexists _, _. split; [reflexivity|].
  unfold Compiler.code, Compiler.setPool, Buffer.length in *. cbn.
  split.
  { apply BufferFacts.uint32_small.
    pose proof (BytesPerWord_cases a). destruct Wp as [[? ?] ?]. lia. }
  split; [exact P'|]. split; [exact C'|]. split; [exact W'|].
  split; [exact W1|]. split; [exact P1|].
  destruct (Compiler.poolRegisterClobbered c) eqn:Ecl;
    [apply Hcl1; reflexivity|].
  rewrite (Hcl2 eq_refl). exact Ecl.
Qed.

Lemma skipn_app_exact {A} (n : Z) (xs ys : list A) :
  len xs = n -> skipn (Z.to_nat n) (xs ++ ys) = ys.
Proof.
  unfold len. intros H. replace (Z.to_nat n) with (List.length xs) by lia.
  rewrite skipn_app, skipn_all, Nat.sub_diag. reflexivity.
Qed.

Lemma uintptr_bytes a v :
  valueLE (bytesLE (Z.to_nat (BytesPerWord a)) (uintptr a v)) = uintptr a v.
Proof.
  rewrite valueLE_bytesLE. unfold uintptr.
  destruct a; cbn [BytesPerWord Z.to_nat Pos.to_nat Pos.iter_op Nat.add Z.mul Pos.mul];
    [change (256 ^ Z.of_nat 4) with (2 ^ 32)|change (256 ^ Z.of_nat 8) with (2 ^ 64)];
    apply Z.mod_mod; lia.
Qed.

(** The slot of the realized pool array at the returned offset holds
    the object, whatever is appended later. *)
Lemma fieldOfArray_appended a pre v more :
  fieldOfArray a (pre ++ bytesLE (Z.to_nat (BytesPerWord a)) (uintptr a v) ++ more)
               (len pre + 2 * BytesPerWord a)
  = Some (uintptr a v).
Proof.
  unfold fieldOfArray, ArrayBody.
  pose proof (BytesPerWord_cases a) as HW.
  pose proof (BufferFacts.len_nonneg pre).
  pose proof (BufferFacts.len_nonneg more).
  replace (len pre + 2 * BytesPerWord a - BytesPerWord a * 2) with (len pre) by lia.
  rewrite BufferFacts.readBytes_ok.
  - rewrite skipn_app_exact by reflexivity.
    rewrite BufferFacts.firstn_app_exact by (rewrite len_bytesLE; lia).
    rewrite uintptr_bytes. reflexivity.
  - lia.
  - lia.
  - rewrite !BufferFacts.len_app, len_bytesLE. lia.
Qed.

(** C4, as the code has it: [poolReference] returns the length of the
    pool buffer after the append plus one word, which is the length
    before the append plus two words: the offset of the object's slot
    in the realized array, whose body starts two words in.  Two
    adjacent calls return offsets one word apart, and each offset keeps
    naming its object as the pool grows. *)
Theorem poolReference_offset :
  forall a x o1 o2 c,
    Buffer.wf (Compiler.code c) -> Buffer.wf (Compiler.pool c) ->
    Buffer.position (Compiler.code c) + 32 < 2 ^ 32 ->
    Buffer.position (Compiler.pool c) + 3 * BytesPerWord a < 2 ^ 32 ->
    exists off1 c1 off2 c2,
      Compiler.poolReference a x o1 c = Some (off1, c1)
      /\ Compiler.poolReference a x o2 c1 = Some (off2, c2)
      /\ off1 = Buffer.length (Compiler.pool c1) + BytesPerWord a
      /\ off1 = Buffer.length (Compiler.pool c) + 2 * BytesPerWord a
      /\ off2 = off1 + BytesPerWord a
      /\ off1 mod BytesPerWord a = Buffer.length (Compiler.pool c) mod BytesPerWord a
      /\ (forall more,
             fieldOfArray a (Buffer.contents (Compiler.pool c1) ++ more) off1
             = Some (uintptr a o1))
      /\ fieldOfArray a (Buffer.contents (Compiler.pool c2)) off1
         = Some (uintptr a o1)
      /\ fieldOfArray a (Buffer.contents (Compiler.pool c2)) off2
         = Some (uintptr a o2).
Proof.
  intros a x o1 o2 c Wc Wp Hc Hp.
  pose proof (BytesPerWord_cases a) as HW.
  destruct (poolReference_spec a x o1 c Wc Wp)
    as (off1 & c1 & E1 & O1 & L1 & C1 & Wp1 & Wc1 & P1 & _); [lia|lia|].
  destruct (poolReference_spec a x o2 c1 Wc1 Wp1)
    as (off2 & c2 & E2 & O2 & L2 & C2 & Wp2 & Wc2 & P2 & _).
  { lia. }
  { unfold Buffer.length in L1. lia. }
  exists off1, c1, off2, c2.
  assert (Hlen : len (Buffer.contents (Compiler.pool c))
                 = Buffer.length (Compiler.pool c))
    by (apply BufferFacts.len_contents; exact Wp).
  assert (Hlen1 : len (Buffer.contents (Compiler.pool c1))
                  = Buffer.length (Compiler.pool c1))
    by (apply BufferFacts.len_contents; exact Wp1).
  split; [exact E1|]. split; [exact E2|]. split; [exact O1|].
  split; [lia|]. split; [lia|].
  split.
  { rewrite O1, L1.
    replace (Buffer.length (Compiler.pool c) + BytesPerWord a + BytesPerWord a)
      with (Buffer.length (Compiler.pool c) + 2 * BytesPerWord a) by lia.
    apply Z.mod_add. lia. }
  split; [|split].
  - intros more. rewrite C1, <- app_assoc.
    replace off1 with (len (Buffer.contents (Compiler.pool c)) + 2 * BytesPerWord a)
      by lia.
    apply fieldOfArray_appended.
  - rewrite C2, C1, <- app_assoc.
    replace off1 with (len (Buffer.contents (Compiler.pool c)) + 2 * BytesPerWord a)
      by lia.
    apply fieldOfArray_appended.
  - rewrite C2.
    replace off2 with (len (Buffer.contents (Compiler.pool c1)) + 2 * BytesPerWord a)
      by lia.
    rewrite <- (app_nil_r (bytesLE _ (uintptr a o2))).
    apply fieldOfArray_appended.
Qed.

Lemma poolReference_offset_witness :
  exists off1 c1 off2 c2,
    Compiler.poolReference x86_64 Sample.externals 900 (Compiler.new 40)
    = Some (off1, c1)
    /\ Compiler.poolReference x86_64 Sample.externals 901 c1 = Some (off2, c2)
    /\ off1 = 16 /\ off2 = 24
    /\ fieldOfArray x86_64 (Buffer.contents (Compiler.pool c2)) off1 = Some 900
    /\ fieldOfArray x86_64 (Buffer.contents (Compiler.pool c2)) off2 = Some 901.
Proof.
  assert (Wc : Buffer.wf (Compiler.code (Compiler.new 40)))
    by (apply (BufferFacts.wf_new 1024); lia).
  assert (Wp : Buffer.wf (Compiler.pool (Compiler.new 40)))
    by (apply (BufferFacts.wf_new 256); lia).
  assert (Hc : Buffer.position (Compiler.code (Compiler.new 40)) + 32 < 2 ^ 32)
    by (change (0 + 32 < 2 ^ 32); lia).
  assert (Hp : Buffer.position (Compiler.pool (Compiler.new 40))
               + 3 * BytesPerWord x86_64 < 2 ^ 32)
    by (change (0 + 3 * 8 < 2 ^ 32); lia).
  destruct (poolReference_offset x86_64 Sample.externals 900 901
              (Compiler.new 40) Wc Wp Hc Hp)
    as (off1 & c1 & off2 & c2 & E1 & E2 & O1 & O1' & O2 & _ & _ & F1 & F2).
  exists off1, c1, off2, c2.
  split; [exact E1|]. split; [exact E2|].
  split; [rewrite O1'; reflexivity|].
  split; [rewrite O2, O1'; reflexivity|].
  split; [exact F1|exact F2].
Defined.

(** The claim as stated fails on a fresh compiler: the pool is empty
    before the append, and the offset returned on x86 is 8, two words,
    not the length before plus one word. *)
Lemma poolReference_not_length_before_plus_word :
  exists off c',
    Compiler.poolReference x86_32 Sample.externals 900 (Compiler.new 40)
    = Some (off, c')
    /\ off = 8
    /\ off <> Buffer.length (Compiler.pool (Compiler.new 40))
              + BytesPerWord x86_32.
Proof.
  eexists _, _. split; [vm_compute; reflexivity|].
  split; [reflexivity|]. vm_compute. discriminate.
Qed.

(** ** The bytecode-IP to machine-IP map *)

Module MapFacts.

Lemma len_encode w l : len (encode w l) = Z.of_nat w * len l.
Proof.
  induction l as [|x l IH]; unfold encode in *; cbn [flat_map].
  - unfold len; simpl; lia.
  - rewrite BufferFacts.len_app, IH, len_bytesLE. unfold len. cbn [List.length]. lia.
Qed.

Lemma encode_app w xs ys : encode w (xs ++ ys) = encode w xs ++ encode w ys.
Proof. unfold encode. apply flat_map_app. Qed.

(** Entry [k] of an encoded list. *)
Lemma encode_nth w l :
  forall k : nat,
    (k < List.length l)%nat ->
    firstn w (skipn (w * k) (encode w l)) = bytesLE w (nth k l 0).
Proof.
  induction l as [|x l IH]; intros k Hk; [simpl in Hk; lia|].
  unfold encode in *. cbn [flat_map]. destruct k as [|k].
  - rewrite Nat.mul_0_r. cbn [skipn nth].
    rewrite firstn_app, length_bytesLE, Nat.sub_diag.
    rewrite firstn_all2 by (rewrite length_bytesLE; lia).
    cbn [firstn]. apply app_nil_r.
  - cbn [nth]. rewrite <- (IH k) by (simpl in Hk; lia). f_equal.
    replace (w * S k)%nat with (List.length (bytesLE w x) + w * k)%nat
      by (rewrite length_bytesLE; lia).
    rewrite skipn_app, skipn_all2 by lia.
    replace (List.length (bytesLE w x) + w * k - List.length (bytesLE w x))%nat
      with (w * k)%nat by lia.
    reflexivity.
Qed.

(** Reading inside the appended region reads the contents. *)
Lemma getBytes_contents b off n :
  Buffer.wf b -> 0 <= off -> 0 < n -> off + n <= Buffer.position b ->
  Buffer.getBytes off n b
  = Some (valueLE (firstn (Z.to_nat n) (skipn (Z.to_nat off) (Buffer.contents b)))).
Proof.
  intros (Hp & Hc & Ha & Hm) Hoff Hn Hle.
  unfold Buffer.getBytes, Buffer.contents, Buffer.allocated in *.
  rewrite BufferFacts.uint32_small by lia.
  destruct (Z.leb_spec (off + n) (Buffer.position b)); [|lia].
  destruct (Buffer.data b) as [d|]; [|lia].
  rewrite BufferFacts.readBytes_ok by lia.
  do 2 f_equal.
  rewrite skipn_firstn_comm, firstn_firstn.
  f_equal. lia.
Qed.

Lemma get2_entry b ips (k : nat) :
  Buffer.wf b -> Buffer.contents b = encode 2 ips ->
  (k < List.length ips)%nat ->
  Buffer.get2 (uint32 (Z.of_nat k * 2)) b = Some (nth k ips 0 mod 2 ^ 16).
Proof.
  intros Hwf Hc Hk.
  pose proof (BufferFacts.len_contents b Hwf) as Hl.
  rewrite Hc, len_encode in Hl. unfold len in Hl.
  assert (Hb : Buffer.position b < 2 ^ 32)
    by (destruct Hwf as (? & ? & ? & ?); lia).
  unfold Buffer.get2. rewrite BufferFacts.uint32_small by lia.
  rewrite getBytes_contents by (try exact Hwf; lia).
  rewrite Hc. replace (Z.to_nat (Z.of_nat k * 2)) with (2 * k)%nat by lia.
  change (Z.to_nat 2) with 2%nat. rewrite encode_nth by exact Hk.
  rewrite valueLE_bytesLE. reflexivity.
Qed.

Lemma get4_entry b mips (k : nat) :
  Buffer.wf b -> Buffer.contents b = encode 4 mips ->
  (k < List.length mips)%nat ->
  Buffer.get4 (uint32 (Z.of_nat k * 4)) b = Some (nth k mips 0 mod 2 ^ 32).
Proof.
  intros Hwf Hc Hk.
  pose proof (BufferFacts.len_contents b Hwf) as Hl.
  rewrite Hc, len_encode in Hl. unfold len in Hl.
  assert (Hb : Buffer.position b < 2 ^ 32)
    by (destruct Hwf as (? & ? & ? & ?); lia).
  unfold Buffer.get4. rewrite BufferFacts.uint32_small by lia.
  rewrite getBytes_contents by (try exact Hwf; lia).
  rewrite Hc. replace (Z.to_nat (Z.of_nat k * 4)) with (4 * k)%nat by lia.
  change (Z.to_nat 4) with 4%nat. rewrite encode_nth by exact Hk.
  rewrite valueLE_bytesLE. reflexivity.
Qed.

(** In a strictly increasing list, positions and entries are ordered
    alike. *)
Lemma sorted_nth ips :
  StronglySorted Z.lt ips ->
  forall i j : nat,
    (i < j)%nat -> (j < List.length ips)%nat -> nth i ips 0 < nth j ips 0.
Proof.
  induction 1 as [|x l Hs IH Hall]; intros i j Hij Hj; [simpl in Hj; lia|].
  destruct j as [|j]; [lia|]. cbn [nth]. destruct i as [|i].
  - rewrite Forall_forall in Hall. apply Hall. apply nth_In. simpl in Hj. lia.
  - apply IH; simpl in Hj; lia.
Qed.

Lemma sorted_snoc ips ip :
  StronglySorted Z.lt ips -> Forall (fun i => i < ip) ips ->
  StronglySorted Z.lt (ips ++ [ip]).
Proof.
  induction 1 as [|x l Hs IH Hall]; intros Hlt; cbn [app].
  - constructor; constructor.
  - inversion Hlt; subst. constructor; [apply IH; assumption|].
    apply Forall_app. split; [exact Hall|]. constructor; [assumption|constructor].
Qed.

End MapFacts.

Section Search.

Variable c : Compiler.t.
Variables ips mips : list Z.
Hypothesis Hmap : mapOf c ips mips.
Hypothesis Hsorted : StronglySorted Z.lt ips.
Hypothesis Hips : Forall (fun i => 0 <= i < 2 ^ 16) ips.
Hypothesis Hmips : Forall (fun m => 0 <= m < 2 ^ 32) mips.

Lemma map_size : 2 * len ips = Buffer.position (Compiler.javaIPs c)
                 /\ len ips < 2 ^ 31.
Proof.
  destruct Hmap as (Wj & _ & Cj & _ & _).
  pose proof (BufferFacts.len_contents _ Wj) as Hl.
  rewrite Cj, MapFacts.len_encode in Hl.
  destruct Wj as (? & ? & ? & ?). split; lia.
Qed.

Lemma ip_entry (k : nat) :
  (k < List.length ips)%nat -> 0 <= nth k ips 0 < 2 ^ 16.
Proof.
  intros Hk. rewrite Forall_forall in Hips. apply Hips. apply nth_In. exact Hk.
Qed.

Lemma mip_entry (k : nat) :
  (k < List.length mips)%nat -> 0 <= nth k mips 0 < 2 ^ 32.
Proof.
  intros Hk. rewrite Forall_forall in Hmips. apply Hmips. apply nth_In. exact Hk.
Qed.

(** The binary search narrows [bottom, top) around the position of the
    bytecode IP and ends on it. *)
Lemma search_found (k : nat) :
  (k < List.length ips)%nat ->
  forall fuel bottom top,
    0 <= bottom <= Z.of_nat k -> Z.of_nat k < top <= len ips ->
    top - bottom <= Z.of_nat fuel ->
    Compiler.search fuel c (nth k ips 0) bottom top = Some (nth k mips 0).
Proof.
  intros Hk. destruct map_size as [_ Hn]. unfold len in *.
  destruct Hmap as (Wj & Wm & Cj & Cm & Hlen).
  induction fuel as [|fuel IH]; intros bottom top Hb Ht Hf; [lia|].
  cbn [Compiler.search].
  rewrite (BufferFacts.uint32_small (top - bottom)) by lia.
  destruct (Z.eqb_spec (top - bottom) 0) as [E|_]; [lia|].
  set (mid := bottom + (top - bottom) / 2).
  assert (Hmid : bottom <= mid < top).
  { unfold mid. pose proof (Z.div_pos (top - bottom) 2).
    assert ((top - bottom) / 2 < top - bottom)
      by (apply Z.div_lt_upper_bound; lia). lia. }
  rewrite (BufferFacts.uint32_small mid) by lia.
  replace mid with (Z.of_nat (Z.to_nat mid)) at 1 by lia.
  rewrite (MapFacts.get2_entry _ ips) by (auto; lia).
  pose proof (ip_entry (Z.to_nat mid) ltac:(lia)) as Hr.
  rewrite Z.mod_small by lia.
  destruct (Z.ltb_spec (nth k ips 0) (nth (Z.to_nat mid) ips 0)) as [Hlt|Hge].
  - apply IH; try lia.
    destruct (Nat.lt_ge_cases k (Z.to_nat mid)) as [?|Hle]; [lia|].
    destruct (Nat.eq_dec k (Z.to_nat mid)) as [->|Hne]; [lia|].
    pose proof (MapFacts.sorted_nth ips Hsorted (Z.to_nat mid) k ltac:(lia) Hk).
    lia.
  - destruct (Z.gtb_spec (nth k ips 0) (nth (Z.to_nat mid) ips 0)) as [Hgt|Hle].
    + rewrite (BufferFacts.uint32_small (mid + 1)) by lia.
      apply IH; try lia.
      destruct (Nat.lt_ge_cases (Z.to_nat mid) k) as [?|Hle]; [lia|].
      destruct (Nat.eq_dec k (Z.to_nat mid)) as [->|Hne]; [lia|].
      pose proof (MapFacts.sorted_nth ips Hsorted k (Z.to_nat mid) ltac:(lia)
                    ltac:(lia)).
      lia.
    + assert (Hkm : k = Z.to_nat mid).
      { destruct (Nat.lt_trichotomy k (Z.to_nat mid)) as [Hc|[Hc|Hc]]; [|exact Hc|].
        - pose proof (MapFacts.sorted_nth ips Hsorted k (Z.to_nat mid) Hc
                        ltac:(lia)). lia.
        - pose proof (MapFacts.sorted_nth ips Hsorted (Z.to_nat mid) k Hc Hk).
          lia. }
      replace mid with (Z.of_nat k) by lia.
      rewrite (MapFacts.get4_entry _ mips) by (auto; lia).
      rewrite Z.mod_small by (apply mip_entry; lia). reflexivity.
Qed.

Lemma machineIpForJavaIp_found (k : nat) :
  (k < List.length ips)%nat ->
  Compiler.machineIpForJavaIp c (nth k ips 0) = Some (nth k mips 0).
Proof.
  intros Hk. unfold Compiler.machineIpForJavaIp.
  destruct map_size as [Hs Hn]. unfold Buffer.length. rewrite <- Hs.
  replace (2 * len ips / 2) with (len ips)
    by (rewrite Z.mul_comm, Z.div_mul; lia).
  unfold uint16. rewrite Z.mod_small by (apply ip_entry; exact Hk).
  apply search_found; unfold len in *; try lia; exact Hk.
Qed.

End Search.

Section LoopFacts.

Variable template : Z -> Z -> Compiler.t -> option (Compiler.t * Z).
Hypothesis Htemplate : templateOk template.

Lemma recordLineNumber_frame m lni ip c c' lni' :
  Compiler.recordLineNumber m lni ip c = Some (c', lni') ->
  Compiler.asm c' = Compiler.asm c
  /\ Compiler.javaIPs c' = Compiler.javaIPs c
  /\ Compiler.machineIPs c' = Compiler.machineIPs c.
Proof.
  unfold Compiler.recordLineNumber.
  destruct (lni >=? 0); [|intros H; injection H as <- <-; auto].
  destruct (fst _ =? ip); [|intros H; injection H as <- <-; auto].
  destruct (Buffer.append4 _ (Compiler.lineNumbers c)) as [l1|]; [|discriminate].
  destruct (Buffer.append4 _ l1) as [l2|]; [|discriminate].
  intros H; injection H as <- <-. auto.
Qed.

(** One iteration of the loop, as [compileLoop] and as
    [instructionStarts] take it. *)
Lemma compileLoop_iteration fuel m lni ip c c' :
  ip < codeLength m ->
  Compiler.compileLoop template (S fuel) m lni ip c = Some c' ->
  exists j mi c3 lni' c4 ip',
    Buffer.append2 ip (Compiler.javaIPs c) = Some j
    /\ Buffer.append4 (Buffer.length (Compiler.code c)) (Compiler.machineIPs c)
       = Some mi
    /\ Compiler.recordLineNumber m lni ip
         (Compiler.setMachineIPs (Compiler.setJavaIPs c j) mi) = Some (c3, lni')
    /\ template (codeBody m ip) (uint32 (ip + 1)) c3 = Some (c4, ip')
    /\ Compiler.compileLoop template fuel m lni' ip' c4 = Some c'
    /\ Compiler.instructionStarts template (S fuel) m lni ip c
       = match Compiler.instructionStarts template fuel m lni' ip' c4 with
         | Some rest => Some ((ip, Buffer.length (Compiler.code c)) :: rest)
         | None => None
         end.
Proof.
  intros Hin Hloop.
  cbn [Compiler.compileLoop Compiler.instructionStarts] in *.
  destruct (Z.ltb_spec ip (codeLength m)) as [_|Hout]; [|lia].
  destruct (Buffer.append2 ip (Compiler.javaIPs c)) as [j|]; [|discriminate].
  change (Buffer.append4 (Buffer.length (Compiler.code (Compiler.setJavaIPs c j)))
            (Compiler.machineIPs (Compiler.setJavaIPs c j)))
    with (Buffer.append4 (Buffer.length (Compiler.code c)) (Compiler.machineIPs c))
    in *.
  destruct (Buffer.append4 _ (Compiler.machineIPs c)) as [mi|]; [|discriminate].
  destruct (Compiler.recordLineNumber m lni ip _) as [[c3 lni']|] eqn:El;
    [|discriminate].
  destruct (template _ _ c3) as [[c4 ip']|] eqn:Et; [|discriminate].
  exists j, mi, c3, lni', c4, ip'.
  do 2 (split; [reflexivity|]). split; [exact El|]. split; [exact Et|].
  split; [exact Hloop|reflexivity].
Qed.

(** The invariant of the loop: the map holds strictly increasing
    bytecode IPs below the current one, each with a machine offset
    below the current end of the code; and the map after the loop is
    the map before it followed by the instruction starts the loop went
    through, each with the length of the code at the head of its
    iteration. *)
Lemma compileLoop_starts m :
  codeLength m <= 2 ^ 16 ->
  forall fuel lni ip c c' ips mips,
    0 <= ip ->
    Buffer.wf (Compiler.code c) -> mapOf c ips mips ->
    StronglySorted Z.lt ips ->
    StronglySorted Z.lt mips ->
    Forall (fun i => i < ip) ips ->
    Forall (fun i => 0 <= i < 2 ^ 16) ips ->
    Forall (fun mi => 0 <= mi < Buffer.length (Compiler.code c)) mips ->
    Compiler.compileLoop template fuel m lni ip c = Some c' ->
    exists starts,
      Compiler.instructionStarts template fuel m lni ip c = Some starts
      /\ Buffer.wf (Compiler.code c')
      /\ mapOf c' (ips ++ map fst starts) (mips ++ map snd starts)
      /\ StronglySorted Z.lt (ips ++ map fst starts)
      /\ StronglySorted Z.lt (mips ++ map snd starts)
      /\ Forall (fun i => 0 <= i < 2 ^ 16) (ips ++ map fst starts)
      /\ Forall (fun mi => 0 <= mi < 2 ^ 32) (mips ++ map snd starts)
      /\ Forall (fun mi => 0 <= mi < Buffer.length (Compiler.code c'))
                (mips ++ map snd starts).
Proof.
  intros Hlen.
  assert (Hdone : forall fuel lni ip c c' ips mips,
             codeLength m <= ip ->
             Buffer.wf (Compiler.code c) -> mapOf c ips mips ->
             StronglySorted Z.lt ips -> StronglySorted Z.lt mips ->
             Forall (fun i => 0 <= i < 2 ^ 16) ips ->
             Forall (fun mi => 0 <= mi < Buffer.length (Compiler.code c)) mips ->
             Compiler.compileLoop template fuel m lni ip c = Some c' ->
             exists starts,
               Compiler.instructionStarts template fuel m lni ip c = Some starts
               /\ Buffer.wf (Compiler.code c')
               /\ mapOf c' (ips ++ map fst starts) (mips ++ map snd starts)
               /\ StronglySorted Z.lt (ips ++ map fst starts)
               /\ StronglySorted Z.lt (mips ++ map snd starts)
               /\ Forall (fun i => 0 <= i < 2 ^ 16) (ips ++ map fst starts)
               /\ Forall (fun mi => 0 <= mi < 2 ^ 32) (mips ++ map snd starts)
               /\ Forall (fun mi => 0 <= mi < Buffer.length (Compiler.code c'))
                         (mips ++ map snd starts)).
  { intros fuel lni ip c c' ips mips Hout Wc Hmap Hs Hsm Hr Hm Hloop.
    assert (Hc : c' = c /\ Compiler.instructionStarts template fuel m lni ip c
                           = Some []).
    { destruct fuel; cbn [Compiler.compileLoop Compiler.instructionStarts] in *;
        destruct (Z.ltb_spec ip (codeLength m)); try lia;
        injection Hloop as <-; auto. }
    destruct Hc as (-> & Hst). exists []. cbn [map]. rewrite !app_nil_r.
    split; [exact Hst|]. split; [exact Wc|]. split; [exact Hmap|].
    split; [exact Hs|]. split; [exact Hsm|]. split; [exact Hr|].
    split; [|exact Hm].
    eapply Forall_impl; [|exact Hm]. cbv beta. intros mi Hmi.
    destruct Wc as (? & ? & ? & ?). unfold Buffer.length in *. lia. }
  induction fuel as [|fuel IH];
    intros lni ip c c' ips mips Hip Wc Hmap Hs Hsm Hlt Hr Hm Hloop;
    destruct (Z.lt_ge_cases ip (codeLength m)) as [Hin|Hout];
    try (eapply Hdone; eassumption).
  - cbn [Compiler.compileLoop] in Hloop.
    destruct (Z.ltb_spec ip (codeLength m)); [discriminate|lia].
  - destruct (compileLoop_iteration _ _ _ _ _ _ Hin Hloop)
      as (j & mi & c3 & lni' & c4 & ip' & Ej & Em & El & Et & Hrest & Hst).
    destruct Hmap as (Wj & Wm & Cj & Cm & Hl).
    apply BufferFacts.appendBytes_inv in Ej; [|exact Wj|reflexivity].
    destruct Ej as (Wj' & Cj' & _).
    apply BufferFacts.appendBytes_inv in Em; [|exact Wm|reflexivity].
    destruct Em as (Wm' & Cm' & _).
    apply recordLineNumber_frame in El. destruct El as (Ea & Ejv & Emv).
    cbn [Compiler.asm Compiler.javaIPs Compiler.machineIPs
         Compiler.setMachineIPs Compiler.setJavaIPs] in Ea, Ejv, Emv.
    assert (Wc3 : Buffer.wf (Compiler.code c3))
      by (unfold Compiler.code; rewrite Ea; exact Wc).
    destruct (Htemplate _ _ _ _ _ Wc3 Et) as (Wc4 & Ej4 & Em4 & Hip' & Hgrow).
    rewrite BufferFacts.uint32_small in Hip' by lia.
    assert (Hpos : 0 <= Buffer.length (Compiler.code c) < 2 ^ 32)
      by (destruct Wc as (? & ? & ? & ?); unfold Buffer.length; lia).
    assert (Hc3 : Buffer.length (Compiler.code c3) = Buffer.length (Compiler.code c))
      by (unfold Compiler.code; rewrite Ea; reflexivity).
    destruct (IH lni' ip' c4 c' (ips ++ [ip])
                 (mips ++ [Buffer.length (Compiler.code c)]))
      as (rest & Hr' & W' & M' & S1 & S2 & R1 & R2 & R3); try assumption.
    + lia.
    + unfold mapOf. rewrite Ej4, Em4, Ejv, Emv.
      split; [exact Wj'|]. split; [exact Wm'|].
      rewrite Cj', Cm', Cj, Cm, !MapFacts.encode_app.
      unfold uint16.
      rewrite Z.mod_small by lia. rewrite BufferFacts.uint32_small by exact Hpos.
      unfold encode at 3 6. cbn [flat_map]. rewrite !app_nil_r.
      split; [reflexivity|]. split; [reflexivity|].
      rewrite !length_app. cbn [List.length]. lia.
    + apply MapFacts.sorted_snoc; assumption.
    + apply MapFacts.sorted_snoc; [assumption|].
      eapply Forall_impl; [|exact Hm]. cbv beta. intros; lia.
    + apply Forall_app. split.
      * eapply Forall_impl; [|exact Hlt]. cbv beta. intros; lia.
      * constructor; [lia|constructor].
    + apply Forall_app. split; [exact Hr|]. constructor; [lia|constructor].
    + apply Forall_app. split.
      * eapply Forall_impl; [|exact Hm]. cbv beta. intros; lia.
      * constructor; [lia|constructor].
    + exists ((ip, Buffer.length (Compiler.code c)) :: rest).
      cbn [map fst snd].
      repeat rewrite <- app_assoc in M'. repeat rewrite <- app_assoc in S1.
      repeat rewrite <- app_assoc in S2. repeat rewrite <- app_assoc in R1.
      repeat rewrite <- app_assoc in R2. repeat rewrite <- app_assoc in R3.
      cbn [app] in M', S1, S2, R1, R2, R3.
      split; [rewrite Hst, Hr'; reflexivity|]. split; [exact W'|].
      split; [exact M'|].
      split; [exact S1|]. split; [exact S2|]. split; [exact R1|].
      split; [exact R2|exact R3].
Qed.

End LoopFacts.

(** ** The templates written out here satisfy [templateOk] *)

Module TemplateFacts.

Import Assembler.

Lemma extends_onCode_append bs f :
  0 < len bs -> (forall b, f b = Buffer.appendBytes bs b) ->
  extends (onCode f) (len bs).
Proof.
  intros Hbs Hf s s' Hwf. unfold onCode. rewrite Hf.
  destruct (Buffer.appendBytes bs (code s)) as [b|] eqn:E; [|discriminate].
  intros H; injection H as <-. cbn [code].
  apply BufferFacts.appendBytes_inv in E; [|exact Hwf|exact Hbs].
  destruct E as (W & _ & P). split; [exact W|lia].
Qed.

Lemma extends_weaken f n k : extends f n -> k <= n -> extends f k.
Proof.
  intros Hf Hk s s' Hwf E. destruct (Hf s s' Hwf E) as [W P]. split; [exact W|lia].
Qed.

Lemma extends_byte v : extends (byte v) 1.
Proof. apply (extends_onCode_append [uint8 v]); reflexivity. Qed.

Lemma extends_append4 v : extends (onCode (Buffer.append4 v)) 1.
Proof.
  apply extends_weaken with (n := len (bytesLE 4 (uint32 v))).
  - apply extends_onCode_append; reflexivity.
  - rewrite len_bytesLE. lia.
Qed.

Lemma extends_seq f g n k :
  extends f n -> extends g k -> extends (f >> g) (n + k).
Proof.
  intros Hf Hg s s' Hwf. unfold seq.
  destruct (f s) as [s1|] eqn:E1; [|discriminate]. intros E2.
  destruct (Hf s s1 Hwf E1) as [W1 P1].
  destruct (Hg s1 s' W1 E2) as [W2 P2]. split; [exact W2|lia].
Qed.

Lemma extends_skip : extends skip 0.
Proof. intros s s' Hwf H. injection H as <-. split; [exact Hwf|lia]. Qed.

Lemma extends_fail n : extends (fun _ => None) n.
Proof. intros s s' _ H. discriminate. Qed.

Lemma extends_appendAddress a v : extends (onCode (Buffer.appendAddress a v)) 1.
Proof.
  intros s s' Hwf. unfold onCode, Buffer.appendAddress.
  destruct (Buffer.append4 v (code s)) as [b1|] eqn:E1; [|discriminate].
  apply BufferFacts.appendBytes_inv in E1; [|exact Hwf|reflexivity].
  destruct E1 as (W1 & _ & P1). rewrite len_bytesLE in P1.
  destruct a.
  - intros H; injection H as <-. cbn [code]. split; [exact W1|lia].
  - destruct (Buffer.append4 _ b1) as [b2|] eqn:E2; [|discriminate].
    apply BufferFacts.appendBytes_inv in E2; [|exact W1|reflexivity].
    destruct E2 as (W2 & _ & P2). rewrite len_bytesLE in P2.
    intros H; injection H as <-. cbn [code]. split; [exact W2|lia].
Qed.

Lemma extends_onJumps f : extends (onJumps f) 0.
Proof.
  intros s s' Hwf. unfold onJumps.
  destruct (f (jumps s)); [|discriminate].
  intros H; injection H as <-. cbn [code]. split; [exact Hwf|lia].
Qed.

Lemma extends_rex a : extends (rex a) 0.
Proof.
  destruct a; [apply extends_skip|].
  apply extends_weaken with (n := 1); [apply extends_byte|lia].
Qed.

Lemma extends_seq0 f g : extends f 0 -> extends g 0 -> extends (f >> g) 0.
Proof. intros Hf Hg. apply (extends_seq f g 0 0); assumption. Qed.

Lemma extends_seq1 f g : extends f 1 -> extends g 0 -> extends (f >> g) 1.
Proof. intros Hf Hg. apply (extends_seq f g 1 0); assumption. Qed.

Lemma extends_seq01 f g : extends f 0 -> extends g 1 -> extends (f >> g) 1.
Proof. intros Hf Hg. apply (extends_seq f g 0 1); assumption. Qed.

Lemma extends_zero f n : extends f n -> 0 <= n -> extends f 0.
Proof. intros Hf Hn. eapply extends_weaken; [exact Hf|exact Hn]. Qed.

(** Routines built from the primitives never shrink the code. *)
Ltac ext0 :=
  lazymatch goal with
  | |- extends (_ >> _) 0 => apply extends_seq0; ext0
  | |- extends (byte _) 0 => apply (extends_zero _ 1); [apply extends_byte|lia]
  | |- extends (rex _) 0 => apply extends_rex
  | |- extends skip 0 => apply extends_skip
  | |- extends (fun _ => None) 0 => apply extends_fail
  | |- extends (onCode (Buffer.append4 _)) 0 =>
      apply (extends_zero _ 1); [apply extends_append4|lia]
  | |- extends (onCode (Buffer.appendAddress _ _)) 0 =>
      apply (extends_zero _ 1); [apply extends_appendAddress|lia]
  | |- extends (onJumps _) 0 => apply extends_onJumps
  | |- extends (if ?b then _ else _) 0 => destruct b; ext0
  | |- _ => idtac
  end.

Lemma extends_offsetInstruction i z b w ra rb offset :
  extends (offsetInstruction i z b w ra rb offset) 1.
Proof.
  unfold offsetInstruction. apply extends_seq1; [apply extends_byte|ext0].
Qed.

Lemma extends_mov_rr a src dst : extends (mov_rr a src dst) 1.
Proof.
  unfold mov_rr. apply extends_seq01; [apply extends_rex|].
  apply extends_seq1; [apply extends_byte|ext0].
Qed.

Lemma extends_mov_load a src o dst : extends (mov_load a src o dst) 1.
Proof.
  unfold mov_load, mov4_load.
  apply extends_seq01; [apply extends_rex|apply extends_offsetInstruction].
Qed.

Lemma extends_mov_store a src dst o : extends (mov_store a src dst o) 1.
Proof.
  unfold mov_store, mov4_store.
  apply extends_seq01; [apply extends_rex|apply extends_offsetInstruction].
Qed.

Lemma extends_mov_imm a v dst : extends (mov_imm a v dst) 1.
Proof.
  unfold mov_imm. apply extends_seq01; [apply extends_rex|].
  apply extends_seq1; [apply extends_byte|ext0].
Qed.

Lemma extends_push_r r : extends (push_r r) 1.
Proof. apply extends_byte. Qed.

Lemma extends_pop_r r : extends (pop_r r) 1.
Proof. apply extends_byte. Qed.

Lemma extends_push_m r o : extends (push_m r o) 1.
Proof. apply extends_offsetInstruction. Qed.

Lemma extends_push_i v : extends (push_i v) 1.
Proof.
  unfold push_i. destruct (isByte v); apply extends_seq1;
    try apply extends_byte; ext0.
Qed.

Lemma extends_pushAddress a v : extends (pushAddress a v) 1.
Proof.
  unfold pushAddress. destruct (BytesPerWord a =? 8).
  - apply extends_seq1; [apply extends_mov_imm|].
    apply (extends_zero _ 1); [apply extends_push_r|lia].
  - apply extends_push_i.
Qed.

Lemma extends_add_ir a v dst : extends (add_ir a v dst) 1.
Proof.
  unfold add_ir. destruct (isByte v); [|apply extends_fail].
  apply extends_seq01; [apply extends_rex|].
  apply extends_seq1; [apply extends_byte|ext0].
Qed.

Lemma extends_sub_ir a v dst : extends (sub_ir a v dst) 1.
Proof.
  unfold sub_ir. destruct (isByte v); [|apply extends_fail].
  apply extends_seq01; [apply extends_rex|].
  apply extends_seq1; [apply extends_byte|ext0].
Qed.

Lemma extends_cmp_ir v r : extends (cmp_ir v r) 1.
Proof.
  unfold cmp_ir. destruct (isByte v); [|apply extends_fail].
  apply extends_seq1; [apply extends_byte|ext0].
Qed.

Lemma extends_ret : extends ret 1.
Proof. apply extends_byte. Qed.

Lemma extends_call r : extends (call r) 1.
Proof. unfold call. apply extends_seq1; [apply extends_byte|ext0]. Qed.

Lemma extends_jmp_ip ip : extends (jmp_ip ip) 1.
Proof.
  apply extends_weaken with (n := 1 + (0 + (0 + 1))); [|lia].
  intros s s' Hwf E.
  apply (extends_seq (byte 233)
           (fun s1 => do s2 <- onJumps (Buffer.append4 ip) s1;
                      do s3 <- onJumps (Buffer.append4 (Buffer.length (code s2))) s2;
                      onCode (Buffer.append4 0) s3) 1 (0 + (0 + 1)));
    [apply extends_byte| |exact Hwf|exact E].
  clear. intros s s' Hwf.
  destruct (onJumps (Buffer.append4 ip) s) as [s2|] eqn:E2; [|discriminate].
  destruct (onJumps (Buffer.append4 (Buffer.length (code s2))) s2) as [s3|] eqn:E3;
    [|discriminate].
  intros E4.
  destruct (extends_onJumps _ _ _ Hwf E2) as [W2 P2].
  destruct (extends_onJumps _ _ _ W2 E3) as [W3 P3].
  destruct (extends_append4 _ _ _ W3 E4) as [W4 P4].
  split; [exact W4|lia].
Qed.

End TemplateFacts.

Module CompilerFacts.

Import TemplateFacts.

Lemma setBytes_inv off bs b b' :
  Buffer.wf b -> Buffer.setBytes off bs b = Some b' ->
  Buffer.wf b' /\ Buffer.position b' = Buffer.position b.
Proof.
  intros Hwf. unfold Buffer.setBytes.
  destruct (_ <=? _); [|discriminate].
  destruct (Buffer.data b) as [d|] eqn:Hd; [|discriminate].
  destruct (memcpy d off bs) as [d'|] eqn:E; [|discriminate].
  intros H; injection H as <-. apply BufferFacts.len_memcpy in E.
  unfold Buffer.wf, Buffer.allocated, Buffer.setData in *. cbn.
  rewrite Hd in Hwf. rewrite E. split; [exact Hwf|reflexivity].
Qed.

Lemma patch_inv m slots :
  forall b b',
    Buffer.wf b -> Assembler.patch m slots b = Some b' ->
    Buffer.wf b' /\ Buffer.position b' = Buffer.position b.
Proof.
  induction slots as [|u rest IH]; intros b b' Hwf; cbn [Assembler.patch].
  - intros H; injection H as <-. auto.
  - destruct (Buffer.set4 u _ b) as [b1|] eqn:E; [|discriminate].
    intros H. apply setBytes_inv in E; [|exact Hwf]. destruct E as [W1 P1].
    destruct (IH b1 b' W1 H) as [W2 P2]. split; [exact W2|congruence].
Qed.

Lemma reference_inv l s l' s' :
  Buffer.wf (Assembler.code s) -> Assembler.reference l s = Some (l', s') ->
  Buffer.wf (Assembler.code s')
  /\ Buffer.position (Assembler.code s) <= Buffer.position (Assembler.code s').
Proof.
  intros Hwf. unfold Assembler.reference.
  destruct (Assembler.mark_ l =? -1).
  - destruct (_ <? Assembler.Capacity); [|discriminate].
    destruct (Assembler.onCode _ s) as [s1|] eqn:E; [|discriminate].
    intros H; injection H as <- <-.
    destruct (extends_append4 _ _ _ Hwf E). split; [assumption|lia].
  - destruct (Assembler.onCode _ s) as [s1|] eqn:E; [|discriminate].
    intros H; injection H as <- <-.
    destruct (extends_append4 _ _ _ Hwf E). split; [assumption|lia].
Qed.

Lemma mark_inv l s l' s' :
  Buffer.wf (Assembler.code s) -> Assembler.mark l s = Some (l', s') ->
  Buffer.wf (Assembler.code s')
  /\ Buffer.position (Assembler.code s) <= Buffer.position (Assembler.code s').
Proof.
  intros Hwf. unfold Assembler.mark, Assembler.onCode.
  destruct (Assembler.patch _ _ (Assembler.code s)) as [b|] eqn:E; [|discriminate].
  intros H; injection H as <- <-. cbn [Assembler.code].
  destruct (patch_inv _ _ _ _ Hwf E). split; [assumption|lia].
Qed.

Lemma conditional_inv l cond s l' s' :
  Buffer.wf (Assembler.code s) -> Assembler.conditional l cond s = Some (l', s') ->
  Buffer.wf (Assembler.code s')
  /\ Buffer.position (Assembler.code s) + 1 <= Buffer.position (Assembler.code s').
Proof.
  intros Hwf. unfold Assembler.conditional.
  destruct (Assembler.byte 15 s) as [s1|] eqn:E1; [|discriminate].
  destruct (Assembler.byte cond s1) as [s2|] eqn:E2; [|discriminate].
  intros E3.
  destruct (extends_byte _ _ _ Hwf E1) as [W1 P1].
  destruct (extends_byte _ _ _ W1 E2) as [W2 P2].
  destruct (reference_inv _ _ _ _ W2 E3) as [W3 P3]. split; [assumption|lia].
Qed.

Lemma advances_emit f n : extends f n -> advances (Compiler.emit f) n.
Proof.
  intros Hf c c' Hwf. unfold Compiler.emit, Compiler.code in *.
  destruct (f (Compiler.asm c)) as [s|] eqn:E; [|discriminate].
  intros H; injection H as <-. cbn.
  destruct (Hf _ _ Hwf E) as [W P]. unfold Buffer.length. auto.
Qed.

Lemma advances_seq f g n k :
  advances f n -> advances g k -> advances (Compiler.seq f g) (n + k).
Proof.
  intros Hf Hg c c' Hwf. unfold Compiler.seq.
  destruct (f c) as [c1|] eqn:E1; [|discriminate]. intros E2.
  destruct (Hf _ _ Hwf E1) as (W1 & J1 & M1 & P1).
  destruct (Hg _ _ W1 E2) as (W2 & J2 & M2 & P2).
  split; [exact W2|]. split; [congruence|]. split; [congruence|lia].
Qed.

Lemma advances_weaken f n k : advances f n -> k <= n -> advances f k.
Proof.
  intros Hf Hk c c' Hwf E. destruct (Hf _ _ Hwf E) as (W & J & M & P).
  split; [exact W|]. split; [exact J|]. split; [exact M|lia].
Qed.

Lemma advances_skip : advances Compiler.skip 0.
Proof.
  intros c c' Hwf H. injection H as <-.
  split; [exact Hwf|]. split; [reflexivity|]. split; [reflexivity|lia].
Qed.

Lemma advances_seq1 f g : advances f 1 -> advances g 0 -> advances (Compiler.seq f g) 1.
Proof. intros Hf Hg. apply (advances_seq f g 1 0); assumption. Qed.

Lemma advances_seq01 f g : advances f 0 -> advances g 1 -> advances (Compiler.seq f g) 1.
Proof. intros Hf Hg. apply (advances_seq f g 0 1); assumption. Qed.

Lemma advances_zero f : advances f 1 -> advances f 0.
Proof. intros Hf. apply (advances_weaken f 1); [exact Hf|lia]. Qed.

Lemma setClobbered_frame c b :
  Compiler.code (Compiler.setClobbered c b) = Compiler.code c
  /\ Compiler.javaIPs (Compiler.setClobbered c b) = Compiler.javaIPs c
  /\ Compiler.machineIPs (Compiler.setClobbered c b) = Compiler.machineIPs c.
Proof. repeat split. Qed.

Lemma poolReference_inv a x o c off c' :
  Buffer.wf (Compiler.code c) ->
  Compiler.poolReference a x o c = Some (off, c') ->
  Buffer.wf (Compiler.code c')
  /\ Compiler.javaIPs c' = Compiler.javaIPs c
  /\ Compiler.machineIPs c' = Compiler.machineIPs c
  /\ Buffer.length (Compiler.code c) <= Buffer.length (Compiler.code c').
Proof.
  intros Hwf. unfold Compiler.poolReference.
  assert (Hr : advances
                 (Compiler.seq
                    (Compiler.emit (Assembler.mov_load a rbp (FrameMethod a) rdi))
                    (Compiler.emit (Assembler.mov_load a rdi (MethodCode x) rdi))) 0).
  { apply advances_zero. apply advances_seq1;
      [|apply advances_zero]; apply advances_emit; apply extends_mov_load. }
  destruct (Compiler.poolRegisterClobbered c).
  - destruct (Compiler.seq _ _ c) as [c1|] eqn:E1; [|discriminate].
    destruct (Hr _ _ Hwf E1) as (W1 & J1 & M1 & P1).
    destruct (Buffer.appendAddress a o _) as [p|]; [|discriminate].
    intros H; injection H as <- <-.
    unfold Compiler.code, Compiler.setPool, Compiler.setClobbered in *. cbn.
    split; [exact W1|]. split; [exact J1|]. split; [exact M1|lia].
  - destruct (Buffer.appendAddress a o _) as [p|]; [|discriminate].
    intros H; injection H as <- <-.
    unfold Compiler.code, Compiler.setPool in *. cbn.
    split; [exact Hwf|]. split; [reflexivity|]. split; [reflexivity|lia].
Qed.

Lemma advances_callAddress a f : advances (Compiler.callAddress a f) 1.
Proof.
  intros c c' Hwf. unfold Compiler.callAddress.
  destruct (Compiler.seq _ _ c) as [c1|] eqn:E; [|discriminate].
  intros H; injection H as <-.
  assert (Hs : advances
                 (Compiler.seq (Compiler.emit (Assembler.mov_imm a f rax))
                               (Compiler.emit (Assembler.call rax))) 1).
  { apply advances_seq1; [|apply advances_zero]; apply advances_emit;
      [apply extends_mov_imm|apply extends_call]. }
  destruct (Hs _ _ Hwf E) as (W & J & M & P).
  unfold Compiler.code, Compiler.setClobbered in *. cbn.
  split; [exact W|]. split; [exact J|]. split; [exact M|exact P].
Qed.

Lemma advances_callTail a f n : advances (Compiler.callTail a f n) 1.
Proof.
  intros c c' Hwf. unfold Compiler.callTail.
  apply (advances_seq1
           (Compiler.emit (Assembler.mov_load a rbp (FrameThread a) rax))); auto.
  - apply advances_emit, extends_mov_load.
  - apply advances_zero. apply advances_seq1.
    + apply advances_emit, extends_mov_store.
    + apply advances_zero. apply advances_seq1; [apply advances_callAddress|].
      destruct (BytesPerWord a =? 4); [|apply advances_skip].
      apply advances_zero, advances_emit, extends_add_ir.
Qed.

(** A step that ends in [callTail] after a prefix that does not shrink
    the code. *)
Lemma advances_then_callTail a f n (pre : Compiler.t -> option Compiler.t) :
  advances pre 0 ->
  advances (fun c => do c1 <- pre c; Compiler.callTail a f n c1) 1.
Proof.
  intros Hpre.
  apply (advances_seq01 pre (Compiler.callTail a f n));
    [exact Hpre|apply advances_callTail].
Qed.

Lemma advances_poolPush a x o (k : Z -> Compiler.t -> option Compiler.t) :
  (forall off, advances (k off) 0) ->
  advances (fun c => do (off, c') <- Compiler.poolReference a x o c; k off c') 0.
Proof.
  intros Hk c c' Hwf.
  destruct (Compiler.poolReference a x o c) as [[off c1]|] eqn:E; [|discriminate].
  intros E2. destruct (poolReference_inv _ _ _ _ _ _ Hwf E) as (W1 & J1 & M1 & P1).
  destruct (Hk off _ _ W1 E2) as (W2 & J2 & M2 & P2).
  split; [exact W2|]. split; [congruence|]. split; [congruence|lia].
Qed.

Ltac adv0 :=
  lazymatch goal with
  | |- advances (Compiler.seq _ _) 0 =>
      apply (advances_seq _ _ 0 0); adv0
  | |- advances (Compiler.emit (Assembler.push_m _ _)) 0 =>
      apply advances_zero, advances_emit, extends_push_m
  | |- advances (Compiler.emit (Assembler.push_r _)) 0 =>
      apply advances_zero, advances_emit, extends_push_r
  | |- advances (Compiler.emit (Assembler.mov_load _ _ _ _)) 0 =>
      apply advances_zero, advances_emit, extends_mov_load
  | |- advances (Compiler.emit (Assembler.mov_store _ _ _ _)) 0 =>
      apply advances_zero, advances_emit, extends_mov_store
  | |- advances (Compiler.emit (Assembler.mov_rr _ _ _)) 0 =>
      apply advances_zero, advances_emit, extends_mov_rr
  | |- advances (Compiler.emit (Assembler.mov_imm _ _ _)) 0 =>
      apply advances_zero, advances_emit, extends_mov_imm
  | |- advances (Compiler.emit (Assembler.pushAddress _ _)) 0 =>
      apply advances_zero, advances_emit, extends_pushAddress
  | |- advances (Compiler.emit (Assembler.pop_r _)) 0 =>
      apply advances_zero, advances_emit, extends_pop_r
  | |- advances (Compiler.emit (Assembler.cmp_ir _ _)) 0 =>
      apply advances_zero, advances_emit, extends_cmp_ir
  | |- _ => first [apply (advances_seq _ _ 0 0); adv0 | idtac]
  end.

Lemma advances_compileCall_o a x f o : advances (Compiler.compileCall_o a x f o) 1.
Proof.
  unfold Compiler.compileCall_o. apply advances_then_callTail.
  destruct (BytesPerWord a =? 4); apply advances_poolPush; intros off; adv0.
Qed.

Lemma advances_compileCall_r a f r : advances (Compiler.compileCall_r a f r) 1.
Proof.
  unfold Compiler.compileCall_r. apply advances_then_callTail.
  destruct (BytesPerWord a =? 4); adv0.
Qed.

Lemma advances_compileCall_or a x f o r :
  advances (Compiler.compileCall_or a x f o r) 1.
Proof.
  unfold Compiler.compileCall_or. apply advances_then_callTail.
  destruct (BytesPerWord a =? 4).
  - apply (advances_seq (Compiler.emit (Assembler.push_r r)) _ 0 0); [adv0|].
    apply advances_poolPush; intros off; adv0.
  - apply (advances_seq (Compiler.emit (Assembler.mov_rr a r rdx)) _ 0 0); [adv0|].
    apply advances_poolPush; intros off; adv0.
Qed.

Lemma advances_compileCall_pr a x f p r :
  advances (Compiler.compileCall_pr a x f p r) 1.
Proof.
  unfold Compiler.compileCall_pr.
  apply (advances_seq01
           (Compiler.seq (Compiler.emit (Assembler.mov_load a rbp (FrameThread a) rax))
                         (Compiler.emit (Assembler.mov_store a rbp rax (frameOffset x))))
           _).
  - adv0.
  - apply advances_then_callTail. destruct (BytesPerWord a =? 4); adv0.
Qed.

End CompilerFacts.

Module InstructionFacts.

Import TemplateFacts CompilerFacts.

Ltac ext :=
  first [ apply extends_push_i | apply extends_push_r | apply extends_push_m
        | apply extends_pop_r | apply extends_mov_rr | apply extends_mov_load
        | apply extends_mov_store | apply extends_mov_imm | apply extends_add_ir
        | apply extends_sub_ir | apply extends_cmp_ir | apply extends_ret
        | apply extends_call | apply extends_jmp_ip | apply extends_pushAddress ].

Ltac adv1 :=
  first [ apply advances_emit; ext
        | apply advances_compileCall_r
        | apply advances_compileCall_o
        | apply advances_compileCall_or
        | apply advances_compileCall_pr
        | apply advances_seq1; [adv1 | advz] ]
with advz :=
  first [ apply advances_skip | apply advances_zero; adv1 ].

Lemma emitL_inv f n c l' c' :
  (forall s l s',
      Buffer.wf (Assembler.code s) -> f s = Some (l, s') ->
      Buffer.wf (Assembler.code s')
      /\ Buffer.position (Assembler.code s) + n
         <= Buffer.position (Assembler.code s')) ->
  Buffer.wf (Compiler.code c) ->
  Compiler.emitL f c = Some (l', c') ->
  Buffer.wf (Compiler.code c')
  /\ Compiler.javaIPs c' = Compiler.javaIPs c
  /\ Compiler.machineIPs c' = Compiler.machineIPs c
  /\ Buffer.length (Compiler.code c) + n <= Buffer.length (Compiler.code c').
Proof.
  intros Hf Hwf. unfold Compiler.emitL, Compiler.code in *.
  destruct (f (Compiler.asm c)) as [[l s]|] eqn:E; [|discriminate].
  intros H; injection H as <- <-. cbn.
  destruct (Hf _ _ _ Hwf E) as [W P].
  split; [exact W|]. split; [reflexivity|]. split; [reflexivity|exact P].
Qed.

(** The shape shared by the two array templates: pop and compare, a
    conditional jump over the throwing call, the mark, the allocating
    call. *)
Lemma arrayTemplate_ok a x cond (alloc : Compiler.t -> option Compiler.t) c c' :
  advances alloc 1 ->
  Buffer.wf (Compiler.code c) ->
  (do c1 <- (Compiler.seq (Compiler.emit (Assembler.pop_r rax))
                          (Compiler.emit (Assembler.cmp_ir 0 rax))) c;
   do (nonnegative, c2) <-
     Compiler.emitL (Assembler.conditional Assembler.newLabel cond) c1;
   do c3 <- Compiler.compileCall_o a x (throwNew_address x)
                                   (NegativeArraySizeExceptionType x) c2;
   do (nonnegative', c4) <- Compiler.emitL (Assembler.mark nonnegative) c3;
   alloc c4) = Some c' ->
  Buffer.wf (Compiler.code c')
  /\ Compiler.javaIPs c' = Compiler.javaIPs c
  /\ Compiler.machineIPs c' = Compiler.machineIPs c
  /\ Buffer.length (Compiler.code c) < Buffer.length (Compiler.code c').
Proof.
  intros Halloc Hwf.
  destruct (Compiler.seq _ _ c) as [c1|] eqn:E1; [|discriminate].
  assert (A1 : advances (Compiler.seq (Compiler.emit (Assembler.pop_r rax))
                                      (Compiler.emit (Assembler.cmp_ir 0 rax))) 1)
    by adv1.
  destruct (A1 _ _ Hwf E1) as (W1 & J1 & M1 & P1).
  destruct (Compiler.emitL _ c1) as [[l2 c2]|] eqn:E2; [|discriminate].
  destruct (emitL_inv _ 1 _ _ _ (fun s l s' => conditional_inv _ _ s l s') W1 E2)
    as (W2 & J2 & M2 & P2).
  destruct (Compiler.compileCall_o a x _ _ c2) as [c3|] eqn:E3; [|discriminate].
  destruct (advances_compileCall_o _ _ _ _ _ _ W2 E3) as (W3 & J3 & M3 & P3).
  destruct (Compiler.emitL _ c3) as [[l4 c4]|] eqn:E4; [|discriminate].
  destruct (emitL_inv _ 0 _ _ _
              (fun s l s' W E =>
                 match mark_inv _ _ _ _ W E with
                 | conj W' P' => conj W' (eq_ind_r (fun z => z <= _) P' (Z.add_0_r _))
                 end) W3 E4)
    as (W4 & J4 & M4 & P4).
  intros E5. destruct (Halloc _ _ W4 E5) as (W5 & J5 & M5 & P5).
  split; [exact W5|]. split; [congruence|]. split; [congruence|lia].
Qed.

Lemma anewarray_ok a x m ip c c' ip' :
  Buffer.wf (Compiler.code c) ->
  Compiler.anewarray a x m ip c = Some (c', ip') ->
  Buffer.wf (Compiler.code c')
  /\ Compiler.javaIPs c' = Compiler.javaIPs c
  /\ Compiler.machineIPs c' = Compiler.machineIPs c
  /\ ip <= ip'
  /\ Buffer.length (Compiler.code c) < Buffer.length (Compiler.code c').
Proof.
  intros Hwf. unfold Compiler.anewarray, codeReadInt16, Assembler.jle.
  destruct (resolveClass x _) as [class_|]; [|discriminate].
  intros H.
  destruct (arrayTemplate_ok a x 142
              (Compiler.seq (Compiler.compileCall_or a x
                               (makeBlankObjectArray_address x) class_ rax)
                            (Compiler.emit (Assembler.push_r rax)))
              c c') as (W & J & M & P); [adv1|exact Hwf| |].
  - destruct (Compiler.seq _ _ c) as [c1|]; [|discriminate].
    destruct (Compiler.emitL _ c1) as [[l2 c2]|]; [|discriminate].
    destruct (Compiler.compileCall_o a x _ _ c2) as [c3|]; [|discriminate].
    destruct (Compiler.emitL _ c3) as [[l4 c4]|]; [|discriminate].
    destruct (Compiler.seq _ _ c4) as [c5|]; [|discriminate].
    injection H as <- _. reflexivity.
  - split; [exact W|]. split; [exact J|]. split; [exact M|]. split; [|exact P].
    destruct (Compiler.seq _ _ c) as [c1|]; [|discriminate].
    destruct (Compiler.emitL _ c1) as [[l2 c2]|]; [|discriminate].
    destruct (Compiler.compileCall_o a x _ _ c2) as [c3|]; [|discriminate].
    destruct (Compiler.emitL _ c3) as [[l4 c4]|]; [|discriminate].
    destruct (Compiler.seq _ _ c4) as [c5|]; [|discriminate].
    injection H as _ <-. lia.
Qed.

Lemma newarray_ok a x m ip c c' ip' :
  Buffer.wf (Compiler.code c) ->
  Compiler.newarray a x m ip c = Some (c', ip') ->
  Buffer.wf (Compiler.code c')
  /\ Compiler.javaIPs c' = Compiler.javaIPs c
  /\ Compiler.machineIPs c' = Compiler.machineIPs c
  /\ ip <= ip'
  /\ Buffer.length (Compiler.code c) < Buffer.length (Compiler.code c').
Proof.
  intros Hwf. unfold Compiler.newarray, Assembler.jge. cbv zeta.
  set (choice := if codeBody m ip =? T_BOOLEAN then _ else _).
  intros H.
  destruct choice as [constructor|] eqn:Ec.
  - destruct (arrayTemplate_ok a x 141
                (Compiler.seq (Compiler.compileCall_pr a x
                                 (makeBlankArray_address x) constructor rax)
                              (Compiler.emit (Assembler.push_r rax)))
                c c') as (W & J & M & P); [adv1|exact Hwf| |].
    + destruct (Compiler.seq _ _ c) as [c1|]; [|discriminate].
      destruct (Compiler.emitL _ c1) as [[l2 c2]|]; [|discriminate].
      destruct (Compiler.compileCall_o a x _ _ c2) as [c3|]; [|discriminate].
      destruct (Compiler.emitL _ c3) as [[l4 c4]|]; [|discriminate].
      destruct (Compiler.seq _ _ c4) as [c5|]; [|discriminate].
      injection H as <- _. reflexivity.
    + split; [exact W|]. split; [exact J|]. split; [exact M|]. split; [|exact P].
      destruct (Compiler.seq _ _ c) as [c1|]; [|discriminate].
      destruct (Compiler.emitL _ c1) as [[l2 c2]|]; [|discriminate].
      destruct (Compiler.compileCall_o a x _ _ c2) as [c3|]; [|discriminate].
      destruct (Compiler.emitL _ c3) as [[l4 c4]|]; [|discriminate].
      destruct (Compiler.seq _ _ c4) as [c5|]; [|discriminate].
      injection H as _ <-. lia.
  - exfalso.
    destruct (Compiler.seq _ _ c) as [c1|]; [|discriminate].
    destruct (Compiler.emitL _ c1) as [[l2 c2]|]; [|discriminate].
    destruct (Compiler.compileCall_o a x _ _ c2) as [c3|]; [|discriminate].
    destruct (Compiler.emitL _ c3) as [[l4 c4]|]; discriminate.
Qed.

Lemma straight_ok f ip0 c c' ip' :
  advances f 1 -> Buffer.wf (Compiler.code c) ->
  Compiler.straight f ip0 c = Some (c', ip') ->
  Buffer.wf (Compiler.code c')
  /\ Compiler.javaIPs c' = Compiler.javaIPs c
  /\ Compiler.machineIPs c' = Compiler.machineIPs c
  /\ ip' = ip0
  /\ Buffer.length (Compiler.code c) < Buffer.length (Compiler.code c').
Proof.
  intros Hf Hwf. unfold Compiler.straight.
  destruct (f c) as [c1|] eqn:E; [|discriminate].
  intros H; injection H as <- <-.
  destruct (Hf _ _ Hwf E) as (W & J & M & P).
  split; [exact W|]. split; [exact J|]. split; [exact M|].
  split; [reflexivity|lia].
Qed.

Ltac straightCase Hwf :=
  let H := fresh "H" in
  intros H;
  eapply straight_ok in H; [|adv1|exact Hwf];
  destruct H as (?W & ?J & ?M & ?I & ?P);
  split; [assumption|]; split; [assumption|]; split; [assumption|];
  split; [lia|assumption].

(** Every template written out in [instruction] satisfies what the
    loop relies on. *)
Lemma instruction_ok a x m parameterFootprint :
  templateOk (Compiler.instruction a x m parameterFootprint).
Proof.
  intros op ip c c' ip' Hwf. unfold Compiler.instruction, codeReadInt16.
  repeat lazymatch goal with
         | |- (if ?b then _ else _) = _ -> _ =>
             destruct b; [try (straightCase Hwf)|]
         end.
  - intros H. destruct (newarray_ok _ _ _ _ _ _ _ Hwf H) as (W & J & M & I & P).
    auto.
  - intros H. destruct (anewarray_ok _ _ _ _ _ _ _ Hwf H) as (W & J & M & I & P).
    auto.
  - discriminate.
Qed.

End InstructionFacts.

(** C8: when the loop of [compile] succeeds on a method of at most
    65536 bytes of bytecode, the map it built holds exactly the
    instruction starts the loop went through, in order, each recorded
    with the length the code had at the head of its iteration (the
    first is bytecode IP 0 with the length of the code before the loop,
    when the method has any bytecode).  The bytecode IPs and the
    machine offsets are strictly increasing, and for every recorded
    pair the binary search of [machineIpForJavaIp] returns the machine
    offset recorded with the bytecode IP, an offset inside the emitted
    code. *)
Theorem machineIpForJavaIp_returns_recorded_offset :
  forall template fuel m lineNumberIndex c0 c,
    templateOk template ->
    codeLength m <= 2 ^ 16 ->
    Buffer.wf (Compiler.code c0) ->
    mapOf c0 [] [] ->
    Compiler.compileLoop template fuel m lineNumberIndex 0 c0 = Some c ->
    exists starts,
      Compiler.instructionStarts template fuel m lineNumberIndex 0 c0
      = Some starts
      /\ (0 < codeLength m ->
          exists rest, starts = (0, Buffer.length (Compiler.code c0)) :: rest)
      /\ mapOf c (map fst starts) (map snd starts)
      /\ StronglySorted Z.lt (map fst starts)
      /\ StronglySorted Z.lt (map snd starts)
      /\ forall ip offset,
          In (ip, offset) starts ->
          Compiler.machineIpForJavaIp c ip = Some offset
          /\ 0 <= offset < Buffer.length (Compiler.code c).
Proof.
  intros template fuel m lni c0 c Ht Hlen Wc Hmap Hloop.
  destruct (compileLoop_starts template Ht m Hlen fuel lni 0 c0 c [] [])
    as (starts & Hst & W & Hm & Hs & Hsm & Hr & Hb & Hin);
    auto; try constructor; try lia.
  cbn [app] in Hm, Hs, Hsm, Hr, Hb, Hin.
  exists starts. split; [exact Hst|]. split.
  - intros Hpos. destruct fuel as [|fuel].
    + cbn [Compiler.compileLoop] in Hloop.
      destruct (Z.ltb_spec 0 (codeLength m)); [discriminate|lia].
    + destruct (compileLoop_iteration template fuel m lni 0 c0 c Hpos Hloop)
        as (j & mi & c3 & lni' & c4 & ip' & _ & _ & _ & Et & Hrest & Hcons).
      rewrite Hcons in Hst.
      destruct (Compiler.instructionStarts template fuel m lni' ip' c4)
        as [rest|]; [|discriminate].
      exists rest. injection Hst as <-. reflexivity.
  - split; [exact Hm|]. split; [exact Hs|]. split; [exact Hsm|].
    intros ip offset Hi.
    destruct (In_nth _ _ (0, 0) Hi) as (k & Hk & Ek).
    assert (Ei : nth k (map fst starts) 0 = ip)
      by (change 0 with (fst (0, 0)) at 1; rewrite map_nth, Ek; reflexivity).
    assert (Eo : nth k (map snd starts) 0 = offset)
      by (change 0 with (snd (0, 0)) at 1; rewrite map_nth, Ek; reflexivity).
    split.
    + rewrite <- Ei, <- Eo.
      apply (machineIpForJavaIp_found c _ _ Hm Hs Hr Hb k).
      rewrite length_map. exact Hk.
    + rewrite Forall_forall in Hin. apply Hin. rewrite <- Eo. apply nth_In.
      rewrite length_map. exact Hk.
Qed.

Lemma machineIpForJavaIp_returns_recorded_offset_witness :
  Compiler.instructionStarts Sample.guardedTemplate 3 Sample.guarded 0 0
    (Compiler.new 40) = Some [(0, 0); (1, 2); (2, 6)]
  /\ exists starts,
      Compiler.instructionStarts Sample.guardedTemplate 3 Sample.guarded 0 0
        (Compiler.new 40) = Some starts
      /\ (0 < codeLength Sample.guarded ->
          exists rest,
            starts = (0, Buffer.length (Compiler.code (Compiler.new 40))) :: rest)
      /\ mapOf Sample.afterLoop (map fst starts) (map snd starts)
      /\ StronglySorted Z.lt (map fst starts)
      /\ StronglySorted Z.lt (map snd starts)
      /\ forall ip offset,
          In (ip, offset) starts ->
          Compiler.machineIpForJavaIp Sample.afterLoop ip = Some offset
          /\ 0 <= offset < Buffer.length (Compiler.code Sample.afterLoop).
Proof.
  split; [vm_compute; reflexivity|].
  apply (machineIpForJavaIp_returns_recorded_offset
           Sample.guardedTemplate 3 Sample.guarded 0 (Compiler.new 40)).
  - apply InstructionFacts.instruction_ok.
  - vm_compute. discriminate.
  - apply (BufferFacts.wf_new 1024). lia.
  - unfold mapOf.
    split; [apply (BufferFacts.wf_new 1024); lia|].
    split; [apply (BufferFacts.wf_new 1024); lia|].
    repeat split.
  - vm_compute. reflexivity.
Defined.

(** ** Running the array templates *)

Module RunFacts.

Lemma run_unfold a code f pc st :
  X86.run a code (S f) pc st
  = match X86.decode a code pc with
    | Some (i, n) =>
        match i with
        | X86.CallReg r => Some (X86.regs st r, st)
        | X86.Jmp rel => X86.run a code f (pc + n + rel) st
        | X86.Jcc cond rel =>
            match X86.holds cond st with
            | Some taken =>
                X86.run a code f (if taken then pc + n + rel else pc + n) st
            | None => None
            end
        | X86.Ret => None
        | _ =>
            match X86.exec a i st with
            | Some st' => X86.run a code f (pc + n) st'
            | None => None
            end
        end
    | None => None
    end.
Proof. reflexivity. Qed.

(** One instruction: the decoding is computed, the effect is kept
    symbolic. *)
Ltac step code :=
  lazymatch goal with
  | |- context [X86.run ?a code (S ?f) ?pc ?st] =>
      let d := eval vm_compute in (X86.decode a code pc) in
      let E := fresh in
      assert (E : X86.decode a code pc = d) by (vm_compute; reflexivity);
      rewrite (run_unfold a code f pc st), E; clear E;
      cbv beta iota; cbn [X86.exec]; cbv beta iota
  end.

Ltac look :=
  cbn [option_map fst X86.holds X86.compared X86.regs X86.setReg X86.setMem
       X86.push X86.setCompared X86.SP regNum Z.eqb Pos.eqb].

(** The template up to its conditional jump, the case split on the
    comparison, and both paths up to their first call. *)
Ltac runTemplate code :=
  repeat (step code); look;
  lazymatch goal with
  | |- context [X86.run _ code _ (if ?b then _ else _) _] =>
      destruct b eqn:?; repeat (step code); look
  end.

Lemma anewarray_calls a st :
  option_map fst (X86.run a (Sample.anewarrayCode a) 40 0 st)
  = Some (if int32 (X86.memory st (X86.regs st X86.SP)) <=? 0
          then makeBlankObjectArray_address Sample.externals
          else throwNew_address Sample.externals).
Proof.
  destruct a.
  - set (code := Sample.anewarrayCode x86_32). runTemplate code; reflexivity.
  - set (code := Sample.anewarrayCode x86_64). runTemplate code; reflexivity.
Qed.

Lemma newarray_calls a st :
  option_map fst (X86.run a (Sample.newarrayCode a) 40 0 st)
  = Some (if int32 (X86.memory st (X86.regs st X86.SP)) >=? 0
          then makeBlankArray_address Sample.externals
          else throwNew_address Sample.externals).
Proof.
  destruct a.
  - set (code := Sample.newarrayCode x86_32). runTemplate code; reflexivity.
  - set (code := Sample.newarrayCode x86_64). runTemplate code; reflexivity.
Qed.

End RunFacts.

(** C3: the claim wants both array templates to call [throwNew] exactly
    for a negative length.  The [newarray] template jumps over the
    throwing call with [jge] and does so.  The [anewarray] template
    jumps with [jle]: for whatever machine state, its code calls
    [throwNew] exactly when the popped length is positive and the
    allocation helper exactly when it is zero or negative; with length
    1 it throws, with length -1 it allocates. *)
Theorem anewarray_throws_on_positive_length :
  forall a st,
    let length := int32 (X86.memory st (X86.regs st X86.SP)) in
    option_map fst (X86.run a (Sample.anewarrayCode a) 40 0 st)
    = Some (if 0 <? length then throwNew_address Sample.externals
            else makeBlankObjectArray_address Sample.externals)
    /\ option_map fst (X86.run a (Sample.newarrayCode a) 40 0 st)
       = Some (if length <? 0 then throwNew_address Sample.externals
               else makeBlankArray_address Sample.externals)
    /\ option_map fst (X86.run a (Sample.anewarrayCode a) 40 0 (Sample.machine 1))
       = Some (throwNew_address Sample.externals)
    /\ option_map fst (X86.run a (Sample.anewarrayCode a) 40 0 (Sample.machine (-1)))
       = Some (makeBlankObjectArray_address Sample.externals).
Proof.
  intros a st length. split; [|split; [|split]].
  - rewrite RunFacts.anewarray_calls. fold length.
    destruct (Z.leb_spec length 0), (Z.ltb_spec 0 length); try reflexivity; lia.
  - rewrite RunFacts.newarray_calls. fold length. rewrite Z.geb_leb.
    destruct (Z.leb_spec 0 length), (Z.ltb_spec length 0); try reflexivity; lia.
  - rewrite RunFacts.anewarray_calls. reflexivity.
  - rewrite RunFacts.anewarray_calls. reflexivity.
Qed.

(** * Further properties of the code *)

(** ** The unwinder *)

(** One iteration of the loop of [unwind], with its tests named. *)
Lemma unwindFrom_step a vm t fuel frame0 :
  unwindFrom a vm t (S fuel) frame0
  = if frameValid frame0 then
      if returnsOut a vm frame0
      then Some (Jump (setFrame t (frameNext a vm frame0))
                      (frameReturnAddress a vm frame0))
      else if isNative vm (frameMethod a vm frame0)
      then unwindFrom a vm t fuel (frameNext a vm frame0)
      else
        match findExceptionHandler a vm t frame0 with
        | Some (Some eh) =>
            let code := methodCompiled vm (frameMethod a vm frame0) in
            match Code.nativeExceptionHandlerIp code eh with
            | Some ip => Some (Jump (setFrame t frame0) (Code.code code + ip))
            | None => Some Undefined
            end
        | Some None => unwindFrom a vm t fuel (frameNext a vm frame0)
        | None => Some Undefined
        end
    else Some Abort.
Proof.
  cbn [unwindFrom]. unfold returnsOut, isNative.
  destruct (frameValid frame0); [|reflexivity].
  destruct (negb (frameValid _) || _); [reflexivity|].
  destruct (Z.land _ ACC_NATIVE =? 0); reflexivity.
Qed.

Lemma frameAt_next a vm frame0 j :
  frameAt a vm (frameNext a vm frame0) j = frameAt a vm frame0 (S j).
Proof. unfold frameAt. rewrite Nat.iter_succ_r. reflexivity. Qed.

Lemma unwindFrom_reference a vm t fuel :
  forall frame0 t' address,
    unwindFrom a vm t fuel frame0 = Some (Jump t' address) ->
    reference t' = reference t.
Proof.
  induction fuel as [|fuel IH]; intros frame0 t' address H.
  - discriminate.
  - rewrite unwindFrom_step in H.
    destruct (frameValid frame0); [|discriminate].
    destruct (returnsOut a vm frame0).
    + inversion H; subst; reflexivity.
    + destruct (isNative vm _); [eapply IH; exact H|].
      destruct (findExceptionHandler a vm t frame0) as [[eh|]|].
      * cbv zeta in H.
        destruct (Code.nativeExceptionHandlerIp _ eh);
          inversion H; subst; reflexivity.
      * eapply IH; exact H.
      * discriminate.
Qed.

(** Where the walk stops and how it leaves. *)
Lemma unwindFrom_transfer a vm t fuel :
  forall frame0 t' address,
    unwindFrom a vm t fuel frame0 = Some (Jump t' address) ->
    exists j : nat,
      let f := frameAt a vm frame0 j in
      let code := methodCompiled vm (frameMethod a vm f) in
      (forall i : nat, (i < j)%nat -> passedOver a vm t (frameAt a vm frame0 i))
      /\ frameValid f = true
      /\ (returnsOut a vm f = true
          /\ frame t' = frameNext a vm f
          /\ address = frameReturnAddress a vm f
          \/ returnsOut a vm f = false
             /\ isNative vm (frameMethod a vm f) = false
             /\ exists eh ip,
                 findExceptionHandler a vm t f = Some (Some eh)
                 /\ Code.nativeExceptionHandlerIp code eh = Some ip
                 /\ frame t' = f
                 /\ address = Code.code code + ip).
Proof.
  induction fuel as [|fuel IH]; intros frame0 t' address H.
  - discriminate.
  - rewrite unwindFrom_step in H.
    destruct (frameValid frame0) eqn:V; [|discriminate].
    destruct (returnsOut a vm frame0) eqn:R.
    + inversion H; subst. exists 0%nat. cbv zeta. cbn [frameAt Nat.iter].
      split; [intros i Hi; lia|]. split; [exact V|]. left. auto.
    + assert (Hrec : (isNative vm (frameMethod a vm frame0) = true
                      \/ findExceptionHandler a vm t frame0 = Some None) ->
                     unwindFrom a vm t fuel (frameNext a vm frame0)
                     = Some (Jump t' address) ->
                     exists j : nat,
                       let f := frameAt a vm frame0 j in
                       let code := methodCompiled vm (frameMethod a vm f) in
                       (forall i : nat,
                          (i < j)%nat -> passedOver a vm t (frameAt a vm frame0 i))
                       /\ frameValid f = true
                       /\ (returnsOut a vm f = true
                           /\ frame t' = frameNext a vm f
                           /\ address = frameReturnAddress a vm f
                           \/ returnsOut a vm f = false
                              /\ isNative vm (frameMethod a vm f) = false
                              /\ exists eh ip,
                                  findExceptionHandler a vm t f = Some (Some eh)
                                  /\ Code.nativeExceptionHandlerIp code eh = Some ip
                                  /\ frame t' = f
                                  /\ address = Code.code code + ip)).
      { intros Hp H'. destruct (IH _ _ _ H') as (j & Hbefore & Hrest).
        exists (S j). cbv zeta in *. rewrite <- frameAt_next.
        split; [|exact Hrest].
        intros [|i] Hi.
        - cbn [frameAt Nat.iter]. split; [exact V|]. split; [exact R|exact Hp].
        - rewrite <- frameAt_next. apply Hbefore. lia. }
      destruct (isNative vm (frameMethod a vm frame0)) eqn:N;
        [apply Hrec; [left; reflexivity|exact H]|].
      destruct (findExceptionHandler a vm t frame0) as [[eh|]|] eqn:F.
      * cbv zeta in H.
        destruct (Code.nativeExceptionHandlerIp _ eh) as [ip|] eqn:I;
          inversion H; subst.
        exists 0%nat. cbv zeta. cbn [frameAt Nat.iter].
        split; [intros i Hi; lia|]. split; [exact V|]. right.
        split; [exact R|]. split; [exact N|]. exists eh, ip. auto.
      * apply Hrec; [right; reflexivity|exact H].
      * discriminate.
Qed.

(** X1: when [unwind] transfers control, the thread differs from the
    one it was given in [frame] only.  The transfer is made at the
    first frame of the chain, the [j]-th from [t->frame] along
    [frameNext], that the loop does not pass over, and that frame is
    valid.  If the frame after it is not valid or belongs to a native
    method, the new [t->frame] is that next frame and control goes to
    the return address of the frame.  Otherwise the method of the frame
    is not native, [findExceptionHandler] has found a handler in it,
    the new [t->frame] is the frame itself and control goes to the
    handler's ip in the code of its method. *)
Theorem unwind_changes_only_frame :
  forall a vm fuel t t' address,
    unwind a vm fuel t = Some (Jump t' address) ->
    exception t' = exception t
    /\ reference t' = reference t
    /\ exists j : nat,
         let f := frameAt a vm (frame t) j in
         let code := methodCompiled vm (frameMethod a vm f) in
         (forall i : nat,
            (i < j)%nat -> passedOver a vm t (frameAt a vm (frame t) i))
         /\ frameValid f = true
         /\ (returnsOut a vm f = true
             /\ frame t' = frameNext a vm f
             /\ address = frameReturnAddress a vm f
             \/ returnsOut a vm f = false
                /\ isNative vm (frameMethod a vm f) = false
                /\ exists eh ip,
                    findExceptionHandler a vm t f = Some (Some eh)
                    /\ Code.nativeExceptionHandlerIp code eh = Some ip
                    /\ frame t' = f
                    /\ address = Code.code code + ip).
Proof.
  intros a vm fuel t t' address H. unfold unwind in H.
  split; [eapply unwindFrom_exception; exact H|].
  split; [eapply unwindFrom_reference; exact H|].
  eapply unwindFrom_transfer; exact H.
Qed.

Lemma unwind_changes_only_frame_witness :
  unwind x86_32 (Sample.vm x86_32) 4 (mkThread 7 1000 [])
  = Some (Jump (mkThread 7 0 []) 0)
  /\ unwind x86_64 (Sample.faulting x86_64 10) 4 (mkThread 42 1000 [])
     = Some (Jump (mkThread 42 1000 []) 5010)
  /\ (exception (mkThread 7 0 []) = exception (mkThread 7 1000 [])
      /\ reference (mkThread 7 0 []) = reference (mkThread 7 1000 [])
      /\ exists j : nat,
           let vm := Sample.vm x86_32 in
           let t := mkThread 7 1000 [] in
           let f := frameAt x86_32 vm (frame t) j in
           let code := methodCompiled vm (frameMethod x86_32 vm f) in
           (forall i : nat,
              (i < j)%nat -> passedOver x86_32 vm t (frameAt x86_32 vm (frame t) i))
           /\ frameValid f = true
           /\ (returnsOut x86_32 vm f = true
               /\ frame (mkThread 7 0 []) = frameNext x86_32 vm f
               /\ 0 = frameReturnAddress x86_32 vm f
               \/ returnsOut x86_32 vm f = false
                  /\ isNative vm (frameMethod x86_32 vm f) = false
                  /\ exists eh ip,
                      findExceptionHandler x86_32 vm t f = Some (Some eh)
                      /\ Code.nativeExceptionHandlerIp code eh = Some ip
                      /\ frame (mkThread 7 0 []) = f
                      /\ 0 = Code.code code + ip))
  /\ (exception (mkThread 42 1000 []) = exception (mkThread 42 1000 [])
      /\ reference (mkThread 42 1000 []) = reference (mkThread 42 1000 [])
      /\ exists j : nat,
           let vm := Sample.faulting x86_64 10 in
           let t := mkThread 42 1000 [] in
           let f := frameAt x86_64 vm (frame t) j in
           let code := methodCompiled vm (frameMethod x86_64 vm f) in
           (forall i : nat,
              (i < j)%nat -> passedOver x86_64 vm t (frameAt x86_64 vm (frame t) i))
           /\ frameValid f = true
           /\ (returnsOut x86_64 vm f = true
               /\ frame (mkThread 42 1000 []) = frameNext x86_64 vm f
               /\ 5010 = frameReturnAddress x86_64 vm f
               \/ returnsOut x86_64 vm f = false
                  /\ isNative vm (frameMethod x86_64 vm f) = false
                  /\ exists eh ip,
                      findExceptionHandler x86_64 vm t f = Some (Some eh)
                      /\ Code.nativeExceptionHandlerIp code eh = Some ip
                      /\ frame (mkThread 42 1000 []) = f
                      /\ 5010 = Code.code code + ip)).
Proof.
  split; [vm_compute; reflexivity|]. split; [vm_compute; reflexivity|]. split.
  - apply (unwind_changes_only_frame x86_32 (Sample.vm x86_32) 4
             (mkThread 7 1000 []) (mkThread 7 0 []) 0).
    vm_compute. reflexivity.
  - apply (unwind_changes_only_frame x86_64 (Sample.faulting x86_64 10) 4
             (mkThread 42 1000 []) (mkThread 42 1000 []) 5010).
    vm_compute. reflexivity.
Defined.

(** X2: whenever [throwNew] transfers control, the pending exception is
    the fresh instance of the class it was given. *)
Theorem throwNew_pending :
  forall a vm fuel t class_ t' address,
    throwNew a vm fuel t class_ = Some (Jump t' address) ->
    exception t' = makeNew vm class_ /\ reference t' = reference t.
Proof.
  intros a vm fuel t class_ t' address H. unfold throwNew, unwind in H.
  split.
  - apply unwindFrom_exception in H. exact H.
  - apply unwindFrom_reference in H. exact H.
Qed.

Lemma throwNew_pending_witness :
  exception (mkThread 901 0 []) = makeNew (Sample.vm x86_32) 900
  /\ reference (mkThread 901 0 []) = reference Sample.thread.
Proof.
  apply (throwNew_pending x86_32 (Sample.vm x86_32) 4 Sample.thread 900
           (mkThread 901 0 []) 0).
  vm_compute. reflexivity.
Defined.

(** ** Looking up a bytecode IP that was never recorded *)

Lemma search_absent c ips mips x :
  mapOf c ips mips ->
  Forall (fun i => 0 <= i < 2 ^ 16) ips ->
  ~ In x ips ->
  forall fuel bottom top,
    0 <= bottom <= top -> top <= len ips ->
    Compiler.search fuel c x bottom top = None.
Proof.
  intros Hmap Hips Hx.
  destruct (map_size c ips mips Hmap) as [_ Hn]. unfold len in *.
  destruct Hmap as (Wj & Wm & Cj & Cm & Hlen).
  induction fuel as [|fuel IH]; intros bottom top Hb Ht; cbn [Compiler.search].
  - destruct (_ =? 0); reflexivity.
  - rewrite (BufferFacts.uint32_small (top - bottom)) by lia.
    destruct (Z.eqb_spec (top - bottom) 0) as [E|E]; [reflexivity|].
    set (mid := bottom + (top - bottom) / 2).
    assert (Hmid : bottom <= mid < top).
    { unfold mid. pose proof (Z.div_pos (top - bottom) 2).
      assert ((top - bottom) / 2 < top - bottom)
        by (apply Z.div_lt_upper_bound; lia). lia. }
    rewrite (BufferFacts.uint32_small mid) by lia.
    replace mid with (Z.of_nat (Z.to_nat mid)) at 1 by lia.
    rewrite (MapFacts.get2_entry _ ips) by (auto; lia).
    assert (Hin : In (nth (Z.to_nat mid) ips 0) ips) by (apply nth_In; lia).
    rewrite Forall_forall in Hips. pose proof (Hips _ Hin) as Hr.
    rewrite Z.mod_small by lia.
    destruct (Z.ltb_spec x (nth (Z.to_nat mid) ips 0)).
    + apply IH; lia.
    + destruct (Z.gtb_spec x (nth (Z.to_nat mid) ips 0)).
      * rewrite (BufferFacts.uint32_small (mid + 1)) by lia. apply IH; lia.
      * exfalso. apply Hx. replace x with (nth (Z.to_nat mid) ips 0) by lia.
        exact Hin.
Qed.

Lemma machineIpForJavaIp_none :
  forall c ips mips javaIP,
    mapOf c ips mips ->
    Forall (fun i => 0 <= i < 2 ^ 16) ips ->
    ~ In (uint16 javaIP) ips ->
    Compiler.machineIpForJavaIp c javaIP = None.
Proof.
  intros c ips mips javaIP Hmap Hips Hx. unfold Compiler.machineIpForJavaIp.
  destruct (map_size c ips mips Hmap) as [Hs Hn]. unfold Buffer.length.
  rewrite <- Hs.
  replace (2 * len ips / 2) with (len ips)
    by (rewrite Z.mul_comm, Z.div_mul; lia).
  apply (search_absent c ips mips); auto; unfold len; lia.
Qed.

(** X3: for a bytecode IP that is not in the map (one that is not the
    start of an instruction, such as the end of the bytecode),
    [machineIpForJavaIp] does not return: the search ends in [abort]. *)
Theorem machineIpForJavaIp_absent :
  forall c ips mips javaIP,
    mapOf c ips mips ->
    Forall (fun i => 0 <= i < 2 ^ 16) ips ->
    ~ In (uint16 javaIP) ips ->
    Compiler.machineIpForJavaIp c javaIP = None.
Proof. exact machineIpForJavaIp_none. Qed.

Lemma mapOf_afterLoop : mapOf Sample.afterLoop [0; 1; 2] [0; 2; 6].
Proof.
  unfold mapOf.
  assert (Hwf : forall b, Buffer.wf b <->
                  (0 <=? Buffer.position b) && (Buffer.position b <=? Buffer.allocated b)
                  && (Buffer.capacity b <=? Buffer.allocated b)
                  && (Buffer.allocated b <? 2 ^ 32)
                  && (0 <=? Buffer.minimumCapacity b)
                  && (Buffer.minimumCapacity b <? 2 ^ 32) = true).
  { intros b. unfold Buffer.wf.
    rewrite !andb_true_iff, !Z.leb_le, !Z.ltb_lt. tauto. }
  split; [apply Hwf; vm_compute; reflexivity|].
  split; [apply Hwf; vm_compute; reflexivity|].
  split; [vm_compute; reflexivity|].
  split; [vm_compute; reflexivity|reflexivity].
Qed.

Lemma machineIpForJavaIp_absent_witness :
  Compiler.machineIpForJavaIp Sample.afterLoop 3 = None.
Proof.
  apply (machineIpForJavaIp_absent Sample.afterLoop [0; 1; 2] [0; 2; 6] 3).
  - exact mapOf_afterLoop.
  - repeat constructor; lia.
  - vm_compute. intros [H|[H|[H|H]]]; try discriminate H; exact H.
Defined.

Lemma appendHandler_map v c c' ips mips :
  Compiler.appendHandler v c = Some c' -> mapOf c ips mips -> mapOf c' ips mips.
Proof.
  unfold Compiler.appendHandler.
  destruct (Buffer.append4 v _) as [e|]; [|discriminate].
  intros H; injection H as <-. exact (fun H => H).
Qed.

(** X4: [buildExceptionHandlerTable] aborts on a handler entry whose
    start, end or handler IP is not in the map; a protected range that
    runs to the end of the bytecode is such an entry. *)
Theorem buildExceptionHandlerTable_needs_instruction_starts :
  forall a x eh rest c ips mips,
    mapOf c ips mips ->
    Forall (fun i => 0 <= i < 2 ^ 16) ips ->
    ~ In (uint16 (exceptionHandlerStart eh)) ips
    \/ ~ In (uint16 (exceptionHandlerEnd eh)) ips
    \/ ~ In (uint16 (exceptionHandlerIp eh)) ips ->
    Compiler.buildExceptionHandlerTable a x (eh :: rest) c = None.
Proof.
  intros a x eh rest c ips mips Hmap Hips Hbad.
  cbn [Compiler.buildExceptionHandlerTable].
  destruct (Compiler.machineIpForJavaIp c (exceptionHandlerStart eh)) as [s|] eqn:Es;
    [|reflexivity].
  destruct Hbad as [Hbad|Hbad].
  { rewrite (machineIpForJavaIp_none c ips mips _ Hmap Hips Hbad) in Es.
    discriminate. }
  destruct (Compiler.appendHandler s c) as [c1|] eqn:E1; [|reflexivity].
  pose proof (appendHandler_map _ _ _ _ _ E1 Hmap) as Hmap1.
  destruct (Compiler.machineIpForJavaIp c1 (exceptionHandlerEnd eh)) as [e|] eqn:Ee;
    [|reflexivity].
  destruct Hbad as [Hbad|Hbad].
  { rewrite (machineIpForJavaIp_none c1 ips mips _ Hmap1 Hips Hbad) in Ee.
    discriminate. }
  destruct (Compiler.appendHandler e c1) as [c2|] eqn:E2; [|reflexivity].
  pose proof (appendHandler_map _ _ _ _ _ E2 Hmap1) as Hmap2.
  rewrite (machineIpForJavaIp_none c2 ips mips _ Hmap2 Hips Hbad).
  reflexivity.
Qed.

Lemma buildExceptionHandlerTable_needs_instruction_starts_witness :
  Compiler.buildExceptionHandlerTable x86_64 Sample.externals
    [mkExceptionHandler 0 3 2 0] Sample.afterLoop = None.
Proof.
  apply (buildExceptionHandlerTable_needs_instruction_starts
           x86_64 Sample.externals (mkExceptionHandler 0 3 2 0) []
           Sample.afterLoop [0; 1; 2] [0; 2; 6]).
  - exact mapOf_afterLoop.
  - repeat constructor; lia.
  - right. left. vm_compute. intros [H|[H|[H|H]]]; try discriminate H; exact H.
Defined.

(** A catch type that [resolveClass] cannot resolve is written as catch
    type 0: the entry is the one of a handler that catches everything. *)
Lemma buildExceptionHandlerTable_unresolved a x start end_ ip ct rest c :
  resolveClass x (uint32 (ct - 1)) = None ->
  Compiler.buildExceptionHandlerTable a x
    (mkExceptionHandler start end_ ip ct :: rest) c
  = Compiler.buildExceptionHandlerTable a x
      (mkExceptionHandler start end_ ip 0 :: rest) c.
Proof.
  intros H. cbn [Compiler.buildExceptionHandlerTable exceptionHandlerStart
                 exceptionHandlerEnd exceptionHandlerIp exceptionHandlerCatchType].
  rewrite H. destruct (ct =? 0); reflexivity.
Qed.

(** ** Overwriting inside a block *)

Module SliceFacts.

(** [C' = firstn off C ++ bs ++ skipn (off + |bs|) C] is [C] with [bs]
    written at [off]; these lemmas read slices of it. *)
Lemma slice_inside (C bs : list Z) off j n :
  0 <= off -> off + len bs <= len C -> 0 <= j -> 0 <= n -> j + n <= len bs ->
  firstn (Z.to_nat n)
    (skipn (Z.to_nat (off + j))
       (firstn (Z.to_nat off) C ++ bs ++ skipn (Z.to_nat (off + len bs)) C))
  = firstn (Z.to_nat n) (skipn (Z.to_nat j) bs).
Proof.
  intros Ho Hl Hj Hn Hjn. pose proof (BufferFacts.len_nonneg bs).
  replace (Z.to_nat (off + j)) with (Z.to_nat j + Z.to_nat off)%nat by lia.
  rewrite <- skipn_skipn.
  rewrite (skipn_app_exact off) by (apply BufferFacts.len_firstn; lia).
  rewrite skipn_app.
  replace (Z.to_nat j - List.length bs)%nat with 0%nat by (unfold len in *; lia).
  cbn [skipn]. rewrite firstn_app.
  replace (Z.to_nat n - List.length (skipn (Z.to_nat j) bs))%nat with 0%nat
    by (rewrite length_skipn; unfold len in *; lia).
  cbn [firstn]. apply app_nil_r.
Qed.

Lemma slice_before (C bs : list Z) off u n :
  0 <= off -> off + len bs <= len C -> 0 <= u -> 0 <= n -> u + n <= off ->
  firstn (Z.to_nat n)
    (skipn (Z.to_nat u)
       (firstn (Z.to_nat off) C ++ bs ++ skipn (Z.to_nat (off + len bs)) C))
  = firstn (Z.to_nat n) (skipn (Z.to_nat u) C).
Proof.
  intros Ho Hl Hu Hn Hun. pose proof (BufferFacts.len_nonneg bs).
  assert (HA : List.length (firstn (Z.to_nat off) C) = Z.to_nat off)
    by (rewrite length_firstn; unfold len in *; lia).
  assert (Hcut : forall R,
             firstn (Z.to_nat n) (skipn (Z.to_nat u) (firstn (Z.to_nat off) C ++ R))
             = firstn (Z.to_nat n) (skipn (Z.to_nat u) (firstn (Z.to_nat off) C))).
  { intros R. rewrite skipn_app, firstn_app.
    replace (Z.to_nat u - List.length (firstn (Z.to_nat off) C))%nat with 0%nat
      by lia.
    replace (Z.to_nat n - List.length (skipn (Z.to_nat u) (firstn (Z.to_nat off) C)))%nat
      with 0%nat by (rewrite length_skipn; lia).
    cbn [skipn firstn]. apply app_nil_r. }
  rewrite Hcut.
  rewrite <- (firstn_skipn (Z.to_nat off) C) at 2.
  rewrite Hcut. reflexivity.
Qed.

Lemma slice_after (C bs : list Z) off u n :
  0 <= off -> off + len bs <= len C -> off + len bs <= u ->
  firstn n
    (skipn (Z.to_nat u)
       (firstn (Z.to_nat off) C ++ bs ++ skipn (Z.to_nat (off + len bs)) C))
  = firstn n (skipn (Z.to_nat u) C).
Proof.
  intros Ho Hl Hu. pose proof (BufferFacts.len_nonneg bs). f_equal.
  rewrite app_assoc.
  replace (Z.to_nat u)
    with ((Z.to_nat u - Z.to_nat (off + len bs)) + Z.to_nat (off + len bs))%nat
    by lia.
  rewrite <- !skipn_skipn. f_equal.
  apply skipn_app_exact.
  rewrite BufferFacts.len_app, BufferFacts.len_firstn by lia. reflexivity.
Qed.

Lemma len_written (C bs : list Z) off :
  0 <= off -> off + len bs <= len C ->
  len (firstn (Z.to_nat off) C ++ bs ++ skipn (Z.to_nat (off + len bs)) C) = len C.
Proof.
  intros Ho Hl. pose proof (BufferFacts.len_nonneg bs).
  rewrite !BufferFacts.len_app, BufferFacts.len_firstn, BufferFacts.len_skipn by lia.
  lia.
Qed.

End SliceFacts.

(** Patching [bs] into the appended region: the buffer keeps its
    length and its contents are the old ones with [bs] at [off]. *)
Lemma setBytes_spec off bs b :
  Buffer.wf b -> 0 <= off -> 0 < len bs -> off + len bs <= Buffer.position b ->
  exists b',
    Buffer.setBytes off bs b = Some b'
    /\ Buffer.wf b' /\ Buffer.position b' = Buffer.position b
    /\ Buffer.contents b'
       = firstn (Z.to_nat off) (Buffer.contents b) ++ bs
         ++ skipn (Z.to_nat (off + len bs)) (Buffer.contents b).
Proof.
  intros Hwf Ho Hbs Hle.
  pose proof Hwf as (Hp & Hc & Ha & Hm).
  unfold Buffer.setBytes.
  rewrite BufferFacts.uint32_small by (unfold Buffer.allocated in *; lia).
  destruct (Z.leb_spec (off + len bs) (Buffer.position b)); [|lia].
  unfold Buffer.allocated, Buffer.contents in *.
  destruct (Buffer.data b) as [d|] eqn:Hd; [|lia].
  rewrite BufferFacts.memcpy_ok by lia.
  eexists; split; [reflexivity|].
  assert (Hl := SliceFacts.len_written d bs off ltac:(lia) ltac:(lia)).
  unfold Buffer.wf, Buffer.allocated, Buffer.setData; cbn.
  rewrite Hl.
  split; [tauto|]. split; [reflexivity|].
  (* the first [position] bytes of the patched block *)
  rewrite <- (firstn_skipn (Z.to_nat (Buffer.position b)) d) at 1 2.
  set (P := firstn (Z.to_nat (Buffer.position b)) d).
  set (Q := skipn (Z.to_nat (Buffer.position b)) d).
  assert (HP : len P = Buffer.position b) by (apply BufferFacts.len_firstn; lia).
  assert (E1 : firstn (Z.to_nat off) (P ++ Q) = firstn (Z.to_nat off) P).
  { rewrite firstn_app.
    replace (Z.to_nat off - List.length P)%nat with 0%nat by (unfold len in *; lia).
    cbn [firstn]. apply app_nil_r. }
  assert (E2 : skipn (Z.to_nat (off + len bs)) (P ++ Q)
               = skipn (Z.to_nat (off + len bs)) P ++ Q).
  { rewrite skipn_app.
    replace (Z.to_nat (off + len bs) - List.length P)%nat with 0%nat
      by (unfold len in *; lia).
    reflexivity. }
  rewrite E1, E2, !app_assoc. apply BufferFacts.firstn_app_exact.
  rewrite !BufferFacts.len_app, BufferFacts.len_firstn, BufferFacts.len_skipn by lia.
  lia.
Qed.

Lemma set4_spec :
  forall b offset v,
    Buffer.wf b -> 0 <= offset -> offset + 4 < 2 ^ 32 ->
    (offset + 4 <= Buffer.length b ->
     exists b',
       Buffer.set4 offset v b = Some b'
       /\ Buffer.wf b'
       /\ Buffer.length b' = Buffer.length b
       /\ Buffer.get4 offset b' = Some (uint32 v)
       /\ Buffer.contents b'
          = firstn (Z.to_nat offset) (Buffer.contents b) ++ bytesLE 4 (uint32 v)
            ++ skipn (Z.to_nat (offset + 4)) (Buffer.contents b))
    /\ (Buffer.length b < offset + 4 ->
        Buffer.set4 offset v b = None /\ Buffer.get4 offset b = None).
Proof.
  intros b offset v Hwf Ho Hlt. unfold Buffer.length. split.
  - intros Hle.
    destruct (setBytes_spec offset (bytesLE 4 (uint32 v)) b Hwf Ho)
      as (b' & E & W & P & C); [reflexivity|rewrite len_bytesLE; lia|].
    rewrite len_bytesLE in C. change (offset + Z.of_nat 4) with (offset + 4) in C.
    exists b'. split; [exact E|]. split; [exact W|]. split; [exact P|].
    split; [|exact C].
    unfold Buffer.get4. rewrite MapFacts.getBytes_contents by (auto; lia).
    rewrite C.
    pose proof (BufferFacts.len_contents b Hwf) as Hl.
    replace (Z.to_nat offset) with (Z.to_nat (offset + 0)) at 1 by lia.
    replace (offset + 4) with (offset + len (bytesLE 4 (uint32 v)))
      by (rewrite len_bytesLE; lia).
    rewrite SliceFacts.slice_inside by (rewrite ?len_bytesLE; lia).
    cbn [Z.to_nat skipn]. rewrite firstn_all2 by (rewrite length_bytesLE; simpl; lia).
    rewrite valueLE_bytesLE. f_equal.
    change (256 ^ Z.of_nat 4) with (2 ^ 32). apply Z.mod_mod. lia.
  - intros Hgt. unfold Buffer.set4, Buffer.get4, Buffer.setBytes, Buffer.getBytes.
    rewrite len_bytesLE. change (offset + Z.of_nat 4) with (offset + 4).
    rewrite BufferFacts.uint32_small by lia.
    destruct (Z.leb_spec (offset + 4) (Buffer.position b)); [lia|]. auto.
Qed.

(** X5: on a well-formed buffer, for an offset below 2^32 (it is an
    [unsigned]).  When the four bytes at the offset lie inside the
    appended region, [set4] succeeds, keeps the length, makes [get4]
    there return the value (as 32 bits) and leaves every other byte as
    it was.  When [offset + 4] is past the appended region and below
    2^32, the assertion of [set4] and [get4] fails.  When [offset + 4]
    reaches 2^32 the sum wraps: the assertion compares
    [offset + 4 - 2^32] with the length, so it holds as soon as that
    many bytes are appended, although the four bytes at the offset lie
    outside the block the buffer owns; the access is then undefined,
    and [set4] and [get4] have no result here either. *)
Theorem set4_get4 :
  forall b offset v,
    Buffer.wf b -> 0 <= offset < 2 ^ 32 ->
    (offset + 4 <= Buffer.length b ->
     exists b',
       withinPosition offset 4 b = true
       /\ Buffer.set4 offset v b = Some b'
       /\ Buffer.wf b'
       /\ Buffer.length b' = Buffer.length b
       /\ Buffer.get4 offset b' = Some (uint32 v)
       /\ Buffer.contents b'
          = firstn (Z.to_nat offset) (Buffer.contents b) ++ bytesLE 4 (uint32 v)
            ++ skipn (Z.to_nat (offset + 4)) (Buffer.contents b))
    /\ (Buffer.length b < offset + 4 < 2 ^ 32 ->
        withinPosition offset 4 b = false
        /\ Buffer.set4 offset v b = None /\ Buffer.get4 offset b = None)
    /\ (2 ^ 32 <= offset + 4 ->
        withinPosition offset 4 b = (offset + 4 - 2 ^ 32 <=? Buffer.length b)
        /\ (forall d,
              Buffer.data b = Some d ->
              memcpy d offset (bytesLE 4 (uint32 v)) = None
              /\ readBytes d offset 4 = None)
        /\ Buffer.set4 offset v b = None /\ Buffer.get4 offset b = None).
Proof.
  intros b offset v Hwf Ho.
  assert (Hpos : 0 <= Buffer.position b <= Buffer.allocated b
                 /\ Buffer.allocated b < 2 ^ 32)
    by (destruct Hwf as (? & ? & ? & ?); lia).
  unfold withinPosition, Buffer.length. split; [|split].
  - intros Hle.
    destruct (proj1 (set4_spec b offset v Hwf (proj1 Ho) ltac:(lia)) Hle)
      as (b' & E & W & P & G & C).
    exists b'. split; [|auto].
    rewrite BufferFacts.uint32_small by lia. apply Z.leb_le. exact Hle.
  - intros Hgt. split.
    + rewrite BufferFacts.uint32_small by lia. apply Z.leb_gt. lia.
    + apply (proj2 (set4_spec b offset v Hwf (proj1 Ho) (proj2 Hgt))).
      unfold Buffer.length. lia.
  - intros Hwrap.
    assert (Hout : forall d,
               Buffer.data b = Some d ->
               memcpy d offset (bytesLE 4 (uint32 v)) = None
               /\ readBytes d offset 4 = None).
    { intros d Hd. unfold Buffer.allocated in Hpos. rewrite Hd in Hpos.
      unfold memcpy, readBytes. rewrite len_bytesLE.
      change (Z.of_nat 4) with 4.
      destruct (Z.leb_spec (offset + 4) (len d)); [lia|].
      rewrite !andb_false_r. auto. }
    split.
    + unfold uint32.
      replace (offset + 4) with (offset + 4 - 2 ^ 32 + 1 * 2 ^ 32) at 1 by lia.
      rewrite Z.mod_add by lia. rewrite Z.mod_small by lia. reflexivity.
    + split; [exact Hout|].
      unfold Buffer.set4, Buffer.get4, Buffer.setBytes, Buffer.getBytes.
      destruct (Buffer.data b) as [d|] eqn:Hd.
      * destruct (Hout d eq_refl) as [-> ->].
        split; destruct (_ <=? _); reflexivity.
      * split; destruct (_ <=? _); reflexivity.
Qed.

Lemma set4_get4_witness :
  (exists b',
     withinPosition 0 4 (Compiler.machineIPs Sample.afterLoop) = true
     /\ Buffer.set4 0 258 (Compiler.machineIPs Sample.afterLoop) = Some b'
     /\ Buffer.wf b'
     /\ Buffer.length b' = Buffer.length (Compiler.machineIPs Sample.afterLoop)
     /\ Buffer.get4 0 b' = Some (uint32 258)
     /\ Buffer.contents b'
        = firstn (Z.to_nat 0) (Buffer.contents (Compiler.machineIPs Sample.afterLoop))
          ++ bytesLE 4 (uint32 258)
          ++ skipn (Z.to_nat (0 + 4))
               (Buffer.contents (Compiler.machineIPs Sample.afterLoop)))
  /\ (withinPosition (2 ^ 32 - 2) 4 (Compiler.machineIPs Sample.afterLoop)
      = (2 ^ 32 - 2 + 4 - 2 ^ 32 <=? Buffer.length (Compiler.machineIPs Sample.afterLoop))
      /\ (forall d,
            Buffer.data (Compiler.machineIPs Sample.afterLoop) = Some d ->
            memcpy d (2 ^ 32 - 2) (bytesLE 4 (uint32 258)) = None
            /\ readBytes d (2 ^ 32 - 2) 4 = None)
      /\ Buffer.set4 (2 ^ 32 - 2) 258 (Compiler.machineIPs Sample.afterLoop) = None
      /\ Buffer.get4 (2 ^ 32 - 2) (Compiler.machineIPs Sample.afterLoop) = None)
  /\ withinPosition (2 ^ 32 - 2) 4 (Compiler.machineIPs Sample.afterLoop) = true.
Proof.
  destruct mapOf_afterLoop as (_ & Wm & _).
  split; [|split].
  - apply (proj1 (set4_get4 (Compiler.machineIPs Sample.afterLoop) 0 258 Wm
                    ltac:(lia))).
    vm_compute. discriminate.
  - apply (proj2 (proj2 (set4_get4 (Compiler.machineIPs Sample.afterLoop)
                           (2 ^ 32 - 2) 258 Wm ltac:(lia)))).
    lia.
  - vm_compute. reflexivity.
Defined.

(** ** Sequences of appends *)

Lemma applyAppend_bytes op b : applyAppend op b = Buffer.appendBytes (imageOf op) b.
Proof. destruct op; reflexivity. Qed.

Lemma len_imageOf op : 0 < len (imageOf op) <= 4.
Proof. destruct op; cbn [imageOf]; rewrite ?len_bytesLE; unfold len; simpl; lia. Qed.

(** X6: on a well-formed buffer, a sequence of [append], [append2] and
    [append4] succeeds exactly when the total length stays below 2^32;
    then [length] has grown by the number of bytes and [copyTo] yields
    the old contents followed by the little-endian images of the
    values, in order, whatever reallocations happened on the way. *)
Theorem appendAll_copyTo :
  forall ops b,
    Buffer.wf b ->
    let image := flat_map imageOf ops in
    (Buffer.length b + len image < 2 ^ 32 ->
     exists b',
       appendAll ops b = Some b'
       /\ Buffer.wf b'
       /\ Buffer.length b' = Buffer.length b + len image
       /\ Buffer.copyTo b' = Some (Buffer.contents b ++ image))
    /\ (2 ^ 32 <= Buffer.length b + len image -> appendAll ops b = None).
Proof.
  induction ops as [|op rest IH]; intros b Hwf image; unfold Buffer.length in *.
  - subst image. cbn [appendAll flat_map]. change (len (@nil Z)) with 0. split.
    + intros _. exists b. rewrite app_nil_r, Z.add_0_r.
      split; [reflexivity|]. split; [exact Hwf|]. split; [reflexivity|].
      apply copyTo_contents. exact Hwf.
    + intros H. destruct Hwf as ((? & ?) & ? & ? & ?). exfalso. lia.
  - subst image. cbn [appendAll flat_map]. rewrite BufferFacts.len_app.
    pose proof (len_imageOf op) as Hop.
    pose proof (BufferFacts.len_nonneg (flat_map imageOf rest)) as Hrest.
    rewrite applyAppend_bytes. split.
    + intros Hlt.
      destruct (BufferFacts.appendBytes_spec (imageOf op) b Hwf)
        as (b1 & E1 & W1 & C1 & P1 & _); [lia|lia|].
      rewrite E1. destruct (IH b1 W1) as [Hok _].
      destruct Hok as (b' & E' & W' & P' & C'); [rewrite P1; lia|].
      exists b'. split; [exact E'|]. split; [exact W'|].
      split; [rewrite P', P1; lia|].
      rewrite C', C1, <- app_assoc. reflexivity.
    + intros Hge.
      destruct (Buffer.appendBytes (imageOf op) b) as [b1|] eqn:E1; [|reflexivity].
      pose proof (BufferFacts.appendBytes_inv _ _ _ Hwf (proj1 Hop) E1)
        as (W1 & C1 & P1).
      destruct (IH b1 W1) as [_ Hfail]. apply Hfail. rewrite P1. lia.
Qed.

Lemma appendAll_copyTo_witness :
  exists b',
    appendAll [Append1 1; Append2 515; Append4 67438087] (Buffer.new 2) = Some b'
    /\ Buffer.wf b'
    /\ Buffer.length b'
       = Buffer.length (Buffer.new 2)
         + len (flat_map imageOf [Append1 1; Append2 515; Append4 67438087])
    /\ Buffer.copyTo b'
       = Some (Buffer.contents (Buffer.new 2)
               ++ flat_map imageOf [Append1 1; Append2 515; Append4 67438087]).
Proof.
  apply (proj1 (appendAll_copyTo [Append1 1; Append2 515; Append4 67438087]
                  (Buffer.new 2) (BufferFacts.wf_new 2 ltac:(lia)))).
  vm_compute. reflexivity.
Defined.

(** ** Labels *)

(** X7: [reference] on a label that is not marked yet records the
    current code length as a slot and appends a four-byte placeholder,
    and it refuses a ninth unresolved reference; on a marked label it
    appends the displacement from the end of the new field back to the
    mark and leaves the label alone. *)
Theorem label_reference :
  forall l s,
    Buffer.wf (Assembler.code s) ->
    Buffer.length (Assembler.code s) + 4 < 2 ^ 32 ->
    (Assembler.mark_ l = -1 -> len (Assembler.unresolved l) < 8 ->
     exists s',
       Assembler.reference l s
       = Some (Assembler.mkLabel
                 (Assembler.unresolved l ++ [Buffer.length (Assembler.code s)])
                 (-1), s')
       /\ Buffer.wf (Assembler.code s')
       /\ Buffer.contents (Assembler.code s')
          = Buffer.contents (Assembler.code s) ++ [0; 0; 0; 0])
    /\ (Assembler.mark_ l = -1 -> 8 <= len (Assembler.unresolved l) ->
        Assembler.reference l s = None)
    /\ (Assembler.mark_ l <> -1 ->
        exists s',
          Assembler.reference l s = Some (l, s')
          /\ Buffer.wf (Assembler.code s')
          /\ Buffer.contents (Assembler.code s')
             = Buffer.contents (Assembler.code s)
               ++ bytesLE 4 (uint32 (Assembler.mark_ l
                                     - (Buffer.length (Assembler.code s) + 4)))).
Proof.
  intros l s Hwf Hlt. unfold Assembler.reference, Assembler.Capacity.
  split; [|split].
  - intros Hm Hc. rewrite Hm. cbn [Z.eqb Pos.eqb].
    destruct (Z.ltb_spec (len (Assembler.unresolved l)) 8); [|lia].
    destruct (AssemblerFacts.emits_append4 0 s Hwf) as (s' & E & W & C & _).
    { rewrite len_bytesLE. unfold Buffer.length in Hlt. lia. }
    rewrite E. exists s'. split; [reflexivity|]. split; [exact W|exact C].
  - intros Hm Hc. rewrite Hm. cbn [Z.eqb Pos.eqb].
    destruct (Z.ltb_spec (len (Assembler.unresolved l)) 8); [lia|reflexivity].
  - intros Hm. destruct (Z.eqb_spec (Assembler.mark_ l) (-1)); [contradiction|].
    destruct (AssemblerFacts.emits_append4
                (Assembler.mark_ l - (Buffer.length (Assembler.code s) + 4)) s Hwf)
      as (s' & E & W & C & _).
    { rewrite len_bytesLE. unfold Buffer.length in Hlt. lia. }
    rewrite E. exists s'. split; [reflexivity|]. split; [exact W|exact C].
Qed.

Lemma label_reference_witness :
  exists s',
    Assembler.reference Assembler.newLabel Assembler.new
    = Some (Assembler.mkLabel
              (Assembler.unresolved Assembler.newLabel
               ++ [Buffer.length (Assembler.code Assembler.new)]) (-1), s')
    /\ Buffer.wf (Assembler.code s')
    /\ Buffer.contents (Assembler.code s')
       = Buffer.contents (Assembler.code Assembler.new) ++ [0; 0; 0; 0].
Proof.
  apply (proj1 (label_reference Assembler.newLabel Assembler.new
                  (BufferFacts.wf_new 1024 ltac:(lia)) ltac:(vm_compute; reflexivity))).
  - reflexivity.
  - vm_compute. reflexivity.
Defined.

Lemma get4_contents b u :
  Buffer.wf b -> 0 <= u -> u + 4 <= Buffer.position b ->
  Buffer.get4 u b
  = Some (valueLE (firstn 4 (skipn (Z.to_nat u) (Buffer.contents b)))).
Proof.
  intros Hwf Hu Hle. unfold Buffer.get4.
  rewrite MapFacts.getBytes_contents by (auto; lia). reflexivity.
Qed.

(** Patching one slot does not disturb a slot that does not overlap
    it. *)
Lemma set4_other b b' u v u' :
  Buffer.wf b -> 0 <= u -> u + 4 <= Buffer.position b ->
  0 <= u' -> u' + 4 <= Buffer.position b ->
  u + 4 <= u' \/ u' + 4 <= u ->
  Buffer.set4 u v b = Some b' ->
  Buffer.get4 u' b' = Buffer.get4 u' b.
Proof.
  intros Hwf Hu Hle Hu' Hle' Hsep E.
  assert (Hb : Buffer.position b < 2 ^ 32)
    by (destruct Hwf as ((? & ?) & ? & ? & ?); lia).
  destruct (proj1 (set4_spec b u v Hwf Hu ltac:(lia)) Hle)
    as (b1 & E1 & W1 & P1 & _ & C1).
  rewrite E in E1. injection E1 as <-. unfold Buffer.length in P1.
  rewrite !get4_contents by (auto; lia). rewrite C1. do 2 f_equal.
  pose proof (BufferFacts.len_contents b Hwf) as Hl.
  change 4%nat with (Z.to_nat 4).
  replace (u + 4) with (u + len (bytesLE 4 (uint32 v)))
    by (rewrite len_bytesLE; lia).
  destruct Hsep as [Hs|Hs].
  - apply SliceFacts.slice_after; rewrite ?len_bytesLE; lia.
  - apply SliceFacts.slice_before; rewrite ?len_bytesLE; lia.
Qed.

Lemma patch_other m slots :
  forall b b' u',
    Buffer.wf b -> 0 <= u' -> u' + 4 <= Buffer.position b ->
    Forall (fun u => 0 <= u /\ u + 4 <= Buffer.position b
                     /\ (u + 4 <= u' \/ u' + 4 <= u)) slots ->
    Assembler.patch m slots b = Some b' ->
    Buffer.get4 u' b' = Buffer.get4 u' b.
Proof.
  induction slots as [|u rest IH]; intros b b' u' Hwf Hu' Hle' Hall;
    cbn [Assembler.patch].
  - intros H; injection H as <-. reflexivity.
  - inversion Hall as [|? ? (Hu & Hle & Hsep) Hrest]; subst.
    destruct (Buffer.set4 u _ b) as [b1|] eqn:E; [|discriminate].
    intros H.
    destruct (CompilerFacts.setBytes_inv _ _ _ _ Hwf E) as [W1 P1].
    rewrite (IH b1 b' u' W1 Hu') by (rewrite ?P1; auto).
    eapply set4_other; eauto.
Qed.

Lemma patch_spec m slots :
  forall b,
    Buffer.wf b ->
    Forall (fun u => 0 <= u /\ u + 4 <= Buffer.position b) slots ->
    separated slots ->
    exists b',
      Assembler.patch m slots b = Some b'
      /\ Buffer.wf b' /\ Buffer.position b' = Buffer.position b
      /\ forall u, In u slots -> Buffer.get4 u b' = Some (uint32 (m - (u + 4))).
Proof.
  induction slots as [|u rest IH]; intros b Hwf Hall Hsep; cbn [Assembler.patch].
  - exists b. split; [reflexivity|]. split; [exact Hwf|]. split; [reflexivity|].
    intros u [].
  - inversion Hall as [|? ? (Hu & Hle) Hrest]; subst.
    inversion Hsep as [|? ? Hhead Htail]; subst.
    assert (Hb : Buffer.position b < 2 ^ 32)
      by (destruct Hwf as ((? & ?) & ? & ? & ?); lia).
    destruct (proj1 (set4_spec b u (m - (u + 4)) Hwf Hu ltac:(lia)) Hle)
      as (b1 & E1 & W1 & P1 & G1 & _).
    unfold Buffer.length in P1. rewrite E1.
    destruct (IH b1 W1) as (b' & E' & W' & P' & G'); [|exact Htail|].
    { rewrite P1. exact Hrest. }
    exists b'. split; [exact E'|]. split; [exact W'|]. split; [congruence|].
    intros u0 [<-|Hin]; [|apply G'; exact Hin].
    rewrite <- G1. apply (patch_other m rest b1 b' u W1 Hu); [lia| |exact E'].
    rewrite Forall_forall in Hrest, Hhead. apply Forall_forall.
    intros x Hx. destruct (Hrest x Hx) as [H1 H2]. rewrite P1.
    split; [exact H1|]. split; [exact H2|].
    destruct (Hhead x Hx); [right|left]; assumption.
Qed.

(** X8: [mark] on a label whose recorded slots lie inside the code and
    do not overlap sets the mark to the current code length, leaves the
    length of the code unchanged, and stores in every slot the
    displacement from the end of the slot to the mark. *)
Theorem label_mark :
  forall l s,
    Buffer.wf (Assembler.code s) ->
    Forall (fun u => 0 <= u /\ u + 4 <= Buffer.length (Assembler.code s))
           (Assembler.unresolved l) ->
    separated (Assembler.unresolved l) ->
    exists l' s',
      Assembler.mark l s = Some (l', s')
      /\ Assembler.mark_ l' = Buffer.length (Assembler.code s)
      /\ Buffer.length (Assembler.code s') = Buffer.length (Assembler.code s)
      /\ Assembler.jumps s' = Assembler.jumps s
      /\ forall u,
          In u (Assembler.unresolved l) ->
          Buffer.get4 u (Assembler.code s')
          = Some (uint32 (Buffer.length (Assembler.code s) - (u + 4))).
Proof.
  intros l s Hwf Hall Hsep. unfold Assembler.mark, Assembler.onCode.
  destruct (patch_spec (Buffer.length (Assembler.code s)) (Assembler.unresolved l)
              (Assembler.code s) Hwf Hall Hsep) as (b' & E & W & P & G).
  rewrite E. eexists _, _. split; [reflexivity|]. cbn.
  split; [reflexivity|]. split; [exact P|]. split; [reflexivity|exact G].
Qed.

Lemma wfb_wf b : wfb b = true -> Buffer.wf b.
Proof.
  unfold wfb, Buffer.wf.
  rewrite !andb_true_iff, !Z.leb_le, !Z.ltb_lt. tauto.
Qed.

Lemma label_mark_witness :
  exists l' s',
    Assembler.mark (fst More.jump) (snd More.jump) = Some (l', s')
    /\ Assembler.mark_ l' = Buffer.length (Assembler.code (snd More.jump))
    /\ Buffer.length (Assembler.code s')
       = Buffer.length (Assembler.code (snd More.jump))
    /\ Assembler.jumps s' = Assembler.jumps (snd More.jump)
    /\ forall u,
        In u (Assembler.unresolved (fst More.jump)) ->
        Buffer.get4 u (Assembler.code s')
        = Some (uint32 (Buffer.length (Assembler.code (snd More.jump)) - (u + 4))).
Proof.
  apply (label_mark (fst More.jump) (snd More.jump)).
  - apply wfb_wf. vm_compute. reflexivity.
  - repeat constructor; vm_compute; discriminate.
  - repeat constructor.
Defined.

(** ** The layout of a compiled method *)

Lemma pad_bounds a n :
  0 <= n -> n <= pad a n < n + BytesPerWord a /\ pad a n mod BytesPerWord a = 0.
Proof.
  intros Hn. unfold pad. destruct a; cbn [BytesPerWord];
    split; try (apply Z.mod_mul; lia); Z.div_mod_to_equations; lia.
Qed.

Lemma readBytes_written (C bs : list Z) off j n :
  0 <= off -> off + len bs <= len C -> 0 <= j -> 0 <= n -> j + n <= len bs ->
  readBytes (firstn (Z.to_nat off) C ++ bs ++ skipn (Z.to_nat (off + len bs)) C)
            (off + j) n
  = Some (firstn (Z.to_nat n) (skipn (Z.to_nat j) bs)).
Proof.
  intros Ho Hl Hj Hn Hjn.
  rewrite BufferFacts.readBytes_ok;
    rewrite ?SliceFacts.len_written by lia; try lia.
  rewrite SliceFacts.slice_inside by lia. reflexivity.
Qed.

Lemma readBytes_untouched (C bs : list Z) off u n :
  0 <= off -> off + len bs <= len C -> 0 <= u -> 0 <= n -> u + n <= off ->
  readBytes (firstn (Z.to_nat off) C ++ bs ++ skipn (Z.to_nat (off + len bs)) C) u n
  = readBytes C u n.
Proof.
  intros Ho Hl Hu Hn Hun. pose proof (BufferFacts.len_nonneg bs).
  rewrite !BufferFacts.readBytes_ok;
    rewrite ?SliceFacts.len_written by lia; try lia.
  rewrite SliceFacts.slice_before by lia. reflexivity.
Qed.

Lemma Code_make_spec :
  forall a address code lineNumbers handlers,
    Buffer.wf code -> Buffer.wf lineNumbers -> Buffer.wf handlers ->
    exists c,
      Code.make a address code lineNumbers handlers = Some c
      /\ Code.code c = address
      /\ Code.codeLength c = Buffer.length code
      /\ readBytes (Code.body c) 0 (Code.codeLength c)
         = Some (Buffer.contents code)
      /\ readBytes (Code.body c) (pad a (Code.codeLength c))
                   (Code.lineNumberTableLength_ c)
         = Some (Buffer.contents lineNumbers)
      /\ readBytes (Code.body c) (Code.exceptionHandler a c 0)
                   (Code.exceptionHandlerTableLength_ c)
         = Some (Buffer.contents handlers)
      /\ forall words i k,
          Buffer.contents handlers = encode 4 words ->
          0 <= i -> 0 <= k < 4 -> 4 * i + 4 <= len words ->
          Code.field c (Code.exceptionHandler a c i) k
          = Some (nth (Z.to_nat (4 * i + k)) words 0 mod 2 ^ 32)
          /\ i < Code.exceptionHandlerTableLength c.
Proof.
  intros a address code ln eh Wc Wl We.
  unfold Code.make, Code.placeRegion, Buffer.length.
  rewrite !copyTo_contents by assumption.
  pose proof (BufferFacts.len_contents _ Wc) as Lc.
  pose proof (BufferFacts.len_contents _ Wl) as Ll.
  pose proof (BufferFacts.len_contents _ We) as Le.
  set (C := Buffer.contents code) in *. set (L := Buffer.contents ln) in *.
  set (E := Buffer.contents eh) in *.
  assert (Hc0 : 0 <= Buffer.position code) by (destruct Wc as ((? & ?) & _); lia).
  assert (Hl0 : 0 <= Buffer.position ln) by (destruct Wl as ((? & ?) & _); lia).
  assert (He0 : 0 <= Buffer.position eh) by (destruct We as ((? & ?) & _); lia).
  destruct (pad_bounds a _ Hc0) as [Pc _].
  destruct (pad_bounds a _ Hl0) as [Pl _].
  destruct (pad_bounds a _ He0) as [Pe _].
  set (o2 := pad a (Buffer.position code)) in *.
  set (p2 := pad a (Buffer.position ln)) in *.
  set (p3 := pad a (Buffer.position eh)) in *.
  set (B0 := allocate (o2 + p2 + p3)).
  assert (L0 : len B0 = o2 + p2 + p3) by (apply BufferFacts.len_allocate; lia).
  rewrite BufferFacts.memcpy_ok by lia.
  set (B1 := firstn (Z.to_nat 0) B0 ++ C ++ skipn (Z.to_nat (0 + len C)) B0).
  assert (L1 : len B1 = len B0) by (apply SliceFacts.len_written; lia).
  rewrite BufferFacts.memcpy_ok by lia.
  set (B2 := firstn (Z.to_nat o2) B1 ++ L ++ skipn (Z.to_nat (o2 + len L)) B1).
  assert (L2 : len B2 = len B1) by (apply SliceFacts.len_written; lia).
  rewrite BufferFacts.memcpy_ok by lia.
  set (B3 := firstn (Z.to_nat (o2 + p2)) B2 ++ E
             ++ skipn (Z.to_nat (o2 + p2 + len E)) B2).
  eexists. split; [reflexivity|].
  cbn [Code.code Code.codeLength Code.address Code.codeLength_ Code.body
       Code.lineNumberTableLength_ Code.exceptionHandlerTableLength_].
  unfold Code.exceptionHandler, Code.exceptionHandlerTableLength,
    Code.sizeofNativeExceptionHandler.
  cbn [Code.codeLength_ Code.lineNumberTableLength_
       Code.exceptionHandlerTableLength_ Code.body].
  fold o2 p2.
  assert (RE : forall j n, 0 <= j -> 0 <= n -> j + n <= len E ->
                 readBytes B3 (o2 + p2 + j) n
                 = Some (firstn (Z.to_nat n) (skipn (Z.to_nat j) E))).
  { intros j n Hj Hn Hjn. unfold B3. apply readBytes_written; lia. }
  split; [reflexivity|]. split; [reflexivity|].
  split.
  { unfold B3. rewrite readBytes_untouched by lia.
    unfold B2. rewrite readBytes_untouched by lia.
    pose proof (readBytes_written B0 C 0 0 (len C)) as R.
    fold B1 in R. change (0 + 0) with 0 in R. cbn [Z.to_nat skipn] in R.
    rewrite <- Lc, R by lia. unfold len.
    rewrite Nat2Z.id, firstn_all. reflexivity. }
  split.
  { unfold B3. rewrite readBytes_untouched by lia.
    pose proof (readBytes_written B1 L o2 0 (len L)) as R.
    fold B2 in R. rewrite Z.add_0_r in R. cbn [Z.to_nat skipn] in R.
    rewrite <- Ll, R by lia. unfold len.
    rewrite Nat2Z.id, firstn_all. reflexivity. }
  split.
  { replace (o2 + p2 + 0 * 16) with (o2 + p2 + 0) by lia.
    rewrite RE by lia. cbn [Z.to_nat skipn]. rewrite <- Le. unfold len.
    rewrite Nat2Z.id, firstn_all. reflexivity. }
  intros words i k Hw Hi Hk Hik.
  assert (Hlw : len E = 4 * len words)
    by (rewrite Hw, MapFacts.len_encode; lia).
  split.
  - unfold Code.field. cbn [Code.body].
    replace (o2 + p2 + i * 16 + 4 * k) with (o2 + p2 + (4 * (4 * i + k))) by lia.
    rewrite RE by lia. rewrite Hw.
    replace (Z.to_nat (4 * (4 * i + k))) with (4 * Z.to_nat (4 * i + k))%nat by lia.
    change (Z.to_nat 4) with 4%nat.
    rewrite MapFacts.encode_nth by (unfold len in *; lia).
    rewrite valueLE_bytesLE. reflexivity.
  - rewrite <- Le, Hlw. Z.div_mod_to_equations. lia.
Qed.

(** X9: the constructor of [Code] lays the three buffers out without
    overlap: the code bytes, the line-number entries and the handler
    entries can each be read back from [body] at their padded offsets,
    the recorded lengths are the buffer lengths, and field [k] of
    handler [i] is the [k]-th 32-bit word of the [i]-th complete group
    of four words appended to the handler buffer, and [i] is below the
    table length. *)
Theorem Code_make_layout :
  forall a address code lineNumbers handlers,
    Buffer.wf code -> Buffer.wf lineNumbers -> Buffer.wf handlers ->
    exists c,
      Code.make a address code lineNumbers handlers = Some c
      /\ Code.code c = address
      /\ Code.codeLength c = Buffer.length code
      /\ readBytes (Code.body c) 0 (Code.codeLength c)
         = Some (Buffer.contents code)
      /\ readBytes (Code.body c) (pad a (Code.codeLength c))
                   (Code.lineNumberTableLength_ c)
         = Some (Buffer.contents lineNumbers)
      /\ readBytes (Code.body c) (Code.exceptionHandler a c 0)
                   (Code.exceptionHandlerTableLength_ c)
         = Some (Buffer.contents handlers)
      /\ forall words i k,
          Buffer.contents handlers = encode 4 words ->
          0 <= i -> 0 <= k < 4 -> 4 * i + 4 <= len words ->
          Code.field c (Code.exceptionHandler a c i) k
          = Some (nth (Z.to_nat (4 * i + k)) words 0 mod 2 ^ 32)
          /\ i < Code.exceptionHandlerTableLength c.
Proof. exact Code_make_spec. Qed.

Lemma Code_make_layout_witness :
  exists c,
    Code.make x86_64 4096 (Compiler.code Sample.afterLoop)
              (Compiler.lineNumbers Sample.afterLoop) Layout.table = Some c
    /\ Code.codeLength c = Buffer.length (Compiler.code Sample.afterLoop)
    /\ readBytes (Code.body c) 0 (Code.codeLength c)
       = Some (Buffer.contents (Compiler.code Sample.afterLoop))
    /\ Code.field c (Code.exceptionHandler x86_64 c 0) 1 = Some 6.
Proof.
  destruct (Code_make_layout x86_64 4096 (Compiler.code Sample.afterLoop)
              (Compiler.lineNumbers Sample.afterLoop) Layout.table)
    as (c & H1 & _ & H2 & H3 & _ & _ & HF).
  - apply wfb_wf. vm_compute. reflexivity.
  - apply wfb_wf. vm_compute. reflexivity.
  - apply wfb_wf. vm_compute. reflexivity.
  - exists c. split; [exact H1|]. split; [exact H2|]. split; [exact H3|].
    apply (HF [0; 6; 2; 0] 0 1).
    + vm_compute. reflexivity.
    + lia.
    + lia.
    + vm_compute. discriminate.
Defined.

(** ** Patching a call site *)

Module MemFacts.

Lemma writeMem_outside bs :
  forall m p q, q < p \/ p + len bs <= q -> writeMem m p bs q = m q.
Proof.
  induction bs as [|b bs IH]; intros m p q H; cbn [writeMem]; [reflexivity|].
  unfold len in *. cbn [List.length] in H.
  rewrite IH by lia. destruct (Z.eqb_spec q p); [lia|reflexivity].
Qed.

Lemma writeMem_inside bs :
  forall m p (i : nat),
    (i < List.length bs)%nat -> writeMem m p bs (p + Z.of_nat i) = nth i bs 0.
Proof.
  induction bs as [|b bs IH]; intros m p i H; cbn [List.length] in H; [lia|].
  cbn [writeMem]. destruct i as [|i].
  - rewrite writeMem_outside by lia. cbn [nth].
    rewrite Z.add_0_r, Z.eqb_refl. reflexivity.
  - replace (p + Z.of_nat (S i)) with (p + 1 + Z.of_nat i) by lia.
    rewrite IH by lia. reflexivity.
Qed.

Lemma len_readMem m p n : List.length (readMem m p n) = n.
Proof. unfold readMem. rewrite length_map, length_seq. reflexivity. Qed.

Lemma readMem_ext m m' p n :
  (forall q, p <= q < p + Z.of_nat n -> m q = m' q) ->
  readMem m p n = readMem m' p n.
Proof.
  intros H. unfold readMem. apply map_ext_in. intros i Hi.
  apply in_seq in Hi. apply H. lia.
Qed.

Lemma map_seq_shift {A} (f : nat -> A) k n :
  forall s, map f (List.seq (k + s) n) = map (fun i => f (k + i)%nat) (List.seq s n).
Proof.
  induction n as [|n IH]; intros s; cbn [List.seq map]; [reflexivity|].
  f_equal. rewrite <- IH. f_equal. f_equal. lia.
Qed.

Lemma readMem_app m p n1 n2 :
  readMem m p (n1 + n2)
  = readMem m p n1 ++ readMem m (p + Z.of_nat n1) n2.
Proof.
  unfold readMem. rewrite seq_app, map_app. f_equal.
  cbn [Nat.add]. rewrite <- (Nat.add_0_r n1) at 1. rewrite map_seq_shift.
  apply map_ext. intros i. f_equal. lia.
Qed.

Lemma readMem_writeMem bs :
  forall m p, readMem (writeMem m p bs) p (List.length bs) = bs.
Proof.
  induction bs as [|b bs IH]; intros m p; [reflexivity|].
  cbn [List.length]. change (S (List.length bs)) with (1 + List.length bs)%nat.
  rewrite readMem_app. cbn [writeMem]. change (Z.of_nat 1) with 1.
  rewrite IH. unfold readMem. cbn [List.seq map app Z.of_nat].
  rewrite writeMem_outside by lia.
  rewrite Z.add_0_r, Z.eqb_refl. reflexivity.
Qed.

Lemma app_inj_length {A} (l1 l1' l2 l2' : list A) :
  List.length l1 = List.length l1' -> l1 ++ l2 = l1' ++ l2' ->
  l1 = l1' /\ l2 = l2'.
Proof.
  revert l1'. induction l1 as [|x l1 IH]; intros [|y l1'] HL H;
    cbn in *; try discriminate; [auto|].
  injection H as -> H. destruct (IH l1' ltac:(lia) H) as [-> ->]. auto.
Qed.

End MemFacts.

Lemma site_parts a v :
  movImmBytes a v rax ++ callBytes rax
  = (rexBytes a ++ [uint8 (Z.lor 184 (regNum rax))])
    ++ bytesLE (Z.to_nat (BytesPerWord a)) (uintptr a v) ++ callBytes rax.
Proof. unfold movImmBytes. rewrite <- !app_assoc. reflexivity. Qed.

Lemma site_length a v :
  List.length (movImmBytes a v rax ++ callBytes rax)
  = (List.length (rexBytes a ++ [uint8 (Z.lor 184 (regNum rax))])
     + (Z.to_nat (BytesPerWord a) + 2))%nat.
Proof.
  rewrite site_parts, !length_app, length_bytesLE. reflexivity.
Qed.

Lemma site_read a v m p :
  readMem m p (List.length (movImmBytes a v rax ++ callBytes rax))
  = movImmBytes a v rax ++ callBytes rax
  <-> readMem m p (List.length (rexBytes a ++ [uint8 (Z.lor 184 (regNum rax))]))
      = rexBytes a ++ [uint8 (Z.lor 184 (regNum rax))]
      /\ readMem m (p + (len (rexBytes a) + 1)) (Z.to_nat (BytesPerWord a))
         = bytesLE (Z.to_nat (BytesPerWord a)) (uintptr a v)
      /\ readMem m (p + (len (rexBytes a) + 1) + BytesPerWord a) 2
         = callBytes rax.
Proof.
  rewrite site_length, site_parts, !MemFacts.readMem_app.
  replace (Z.of_nat (List.length (rexBytes a ++ [uint8 (Z.lor 184 (regNum rax))])))
    with (len (rexBytes a) + 1)
    by (unfold len; rewrite length_app; cbn [List.length]; lia).
  replace (Z.of_nat (Z.to_nat (BytesPerWord a))) with (BytesPerWord a)
    by (destruct a; reflexivity).
  split.
  - intros H.
    apply MemFacts.app_inj_length in H; [|apply MemFacts.len_readMem].
    destruct H as [H1 H].
    apply MemFacts.app_inj_length in H;
      [|rewrite MemFacts.len_readMem, length_bytesLE; reflexivity].
    tauto.
  - intros (-> & -> & ->). reflexivity.
Qed.

(** X10: when the bytes before the saved return address are the
    reference call of the stub, [updateCaller] fails if the address
    field is not word-aligned; otherwise the call site afterwards reads
    as the same call with the entry of the compiled method, no byte
    outside the address field changes, and, the new entry differing from
    the stub, a later [updateCaller] at this site changes nothing. *)
Theorem updateCaller_redirects_call_site :
  forall a vm t codeMem stub entry,
    let caller :=
      wordAt a vm (frame t) 1 - len (movImmBytes a stub rax ++ callBytes rax) in
    let field := caller + (len (rexBytes a) + 1) in
    readMem codeMem caller
            (List.length (movImmBytes a stub rax ++ callBytes rax))
    = movImmBytes a stub rax ++ callBytes rax ->
    (field mod BytesPerWord a <> 0 ->
     updateCaller a vm t codeMem stub entry = None)
    /\ (field mod BytesPerWord a = 0 ->
        exists m',
          updateCaller a vm t codeMem stub entry = Some m'
          /\ readMem m' caller
                     (List.length (movImmBytes a entry rax ++ callBytes rax))
             = movImmBytes a entry rax ++ callBytes rax
          /\ (forall q, q < field \/ field + BytesPerWord a <= q ->
                        m' q = codeMem q)
          /\ (uintptr a entry <> uintptr a stub ->
              forall entry', updateCaller a vm t m' stub entry' = Some m')).
Proof.
  intros a vm t codeMem stub entry caller field Hsite.
  assert (Heq : bytes_eqb (movImmBytes a stub rax ++ callBytes rax)
                  (readMem codeMem caller
                     (List.length (movImmBytes a stub rax ++ callBytes rax)))
                = true)
    by (apply bytes_eqb_eq; symmetry; exact Hsite).
  assert (HW : Z.of_nat (Z.to_nat (BytesPerWord a)) = BytesPerWord a)
    by (destruct a; reflexivity).
  split.
  - intros Hal. unfold updateCaller. rewrite callSiteReference_spec.
    cbv zeta. fold caller. rewrite Heq. fold field.
    destruct (Z.eqb_spec (field mod BytesPerWord a) 0); [contradiction|reflexivity].
  - intros Hal.
    set (m' := writeMem codeMem field
                 (bytesLE (Z.to_nat (BytesPerWord a)) (uintptr a entry))).
    assert (Hout : forall q, q < field \/ field + BytesPerWord a <= q ->
                             m' q = codeMem q).
    { intros q Hq. unfold m'. apply MemFacts.writeMem_outside.
      rewrite len_bytesLE, HW. exact Hq. }
    assert (Hnew : readMem m' caller
                     (List.length (movImmBytes a entry rax ++ callBytes rax))
                   = movImmBytes a entry rax ++ callBytes rax).
    { apply site_read. apply site_read in Hsite.
      destruct Hsite as (H1 & _ & H3). fold field.
      split; [|split].
      - etransitivity; [|exact H1].
        apply MemFacts.readMem_ext. intros q Hq. apply Hout.
        unfold field. unfold len in *. rewrite length_app in Hq.
        cbn [List.length] in Hq. lia.
      - unfold m'.
        rewrite <- (length_bytesLE (Z.to_nat (BytesPerWord a)) (uintptr a entry)) at 2.
        apply MemFacts.readMem_writeMem.
      - fold field in H3. etransitivity; [|exact H3].
        apply MemFacts.readMem_ext.
        intros q Hq. apply Hout. lia. }
    exists m'. split; [|split; [exact Hnew|split; [exact Hout|]]].
    + unfold updateCaller. rewrite callSiteReference_spec.
      cbv zeta. fold caller. rewrite Heq. fold field.
      destruct (Z.eqb_spec (field mod BytesPerWord a) 0); [reflexivity|contradiction].
    + intros Hne entry'. unfold updateCaller. rewrite callSiteReference_spec.
      cbv zeta. fold caller.
      destruct (bytes_eqb _ (readMem m' caller _)) eqn:Eb; [|reflexivity].
      exfalso. apply bytes_eqb_eq in Eb.
      rewrite site_length, <- (site_length a entry), Hnew in Eb.
      rewrite !site_parts in Eb.
      apply MemFacts.app_inj_length in Eb; [|reflexivity].
      destruct Eb as [_ Eb].
      apply MemFacts.app_inj_length in Eb; [|rewrite !length_bytesLE; reflexivity].
      destruct Eb as [Eb _].
      apply (f_equal valueLE) in Eb. rewrite !uintptr_bytes in Eb.
      congruence.
Qed.

Lemma updateCaller_redirects_call_site_witness :
  exists m',
    updateCaller x86_64 Patch.vm Patch.thread Patch.codeMem 8192 12288 = Some m'
    /\ readMem m' 4102 12 = movImmBytes x86_64 12288 rax ++ callBytes rax
    /\ forall entry',
        updateCaller x86_64 Patch.vm Patch.thread m' 8192 entry' = Some m'.
Proof.
  destruct (updateCaller_redirects_call_site
              x86_64 Patch.vm Patch.thread Patch.codeMem 8192 12288) as [_ H].
  - vm_compute. reflexivity.
  - destruct H as (m' & H1 & H2 & _ & H3); [vm_compute; reflexivity|].
    exists m'. split; [exact H1|]. split; [exact H2|].
    apply H3. vm_compute. discriminate.
Defined.

(** ** Local variable slots *)

Lemma int32_small x : - 2 ^ 31 <= x < 2 ^ 31 -> int32 x = x.
Proof. intros H. unfold int32. rewrite Z.mod_small; lia. Qed.

Lemma localOffset_parameter a n v :
  0 <= v < n -> n * BytesPerWord a + 8 * BytesPerWord a < 2 ^ 31 ->
  localOffset a v (n * BytesPerWord a)
  = FrameFootprint a + 2 * BytesPerWord a + (n - 1 - v) * BytesPerWord a.
Proof.
  intros Hv Hn. unfold localOffset. destruct a; cbn [BytesPerWord] in *.
  - change (FrameFootprint x86_32) with 12.
    rewrite (int32_small (v * 4)) by lia.
    destruct (Z.ltb_spec (v * 4) (n * 4)); [|lia].
    rewrite int32_small by lia. lia.
  - change (FrameFootprint x86_64) with 24.
    rewrite (int32_small (v * 8)) by lia.
    destruct (Z.ltb_spec (v * 8) (n * 8)); [|lia].
    rewrite int32_small by lia. lia.
Qed.

Lemma localOffset_local a n v :
  0 <= n <= v -> v * BytesPerWord a + 8 * BytesPerWord a < 2 ^ 31 ->
  localOffset a v (n * BytesPerWord a) = - ((v - n + 1) * BytesPerWord a).
Proof.
  intros Hv Hn. unfold localOffset. destruct a; cbn [BytesPerWord] in *.
  - rewrite (int32_small (v * 4)) by lia.
    destruct (Z.ltb_spec (v * 4) (n * 4)); [lia|].
    rewrite int32_small by lia. lia.
  - rewrite (int32_small (v * 8)) by lia.
    destruct (Z.ltb_spec (v * 8) (n * 8)); [lia|].
    rewrite int32_small by lia. lia.
Qed.

(** X11: with [n] parameter words and [maxLocals] local slots,
    [localOffset] puts slot [v < n] among the caller's arguments, above
    the saved frame words, and slot [v >= n] inside the area that the
    prologue reserves below [rbp]; two different slots are at least a
    word apart. *)
Theorem localOffset_slots :
  forall a n maxLocals v v',
    0 <= n -> 0 <= v < maxLocals -> 0 <= v' < maxLocals ->
    (n + maxLocals + 8) * BytesPerWord a < 2 ^ 31 ->
    let pf := n * BytesPerWord a in
    (v < n ->
     localOffset a v pf
     = FrameFootprint a + 2 * BytesPerWord a + (n - 1 - v) * BytesPerWord a
     /\ FrameFootprint a + 2 * BytesPerWord a <= localOffset a v pf)
    /\ (n <= v ->
        localOffset a v pf = - ((v - n + 1) * BytesPerWord a)
        /\ - (maxLocals * BytesPerWord a - pf) <= localOffset a v pf
        /\ localOffset a v pf + BytesPerWord a <= 0)
    /\ (v <> v' ->
        BytesPerWord a <= Z.abs (localOffset a v pf - localOffset a v' pf)).
Proof.
  intros a n maxLocals v v' Hn Hv Hv' Hb pf. unfold pf.
  assert (P : forall u, 0 <= u < n ->
                localOffset a u (n * BytesPerWord a)
                = FrameFootprint a + 2 * BytesPerWord a
                  + (n - 1 - u) * BytesPerWord a)
    by (intros u Hu; apply localOffset_parameter;
        destruct a; cbn [BytesPerWord] in *; lia).
  assert (L : forall u, n <= u < maxLocals ->
                localOffset a u (n * BytesPerWord a)
                = - ((u - n + 1) * BytesPerWord a))
    by (intros u Hu; apply localOffset_local;
        destruct a; cbn [BytesPerWord] in *; lia).
  split; [|split].
  - intros H. rewrite P by lia. split; [reflexivity|].
    destruct a; cbn [BytesPerWord] in *; lia.
  - intros H. rewrite L by lia. split; [reflexivity|].
    destruct a; cbn [BytesPerWord] in *; lia.
  - intros Hne.
    assert (HF : FrameFootprint a = 3 * BytesPerWord a)
      by (destruct a; reflexivity).
    destruct (Z.lt_ge_cases v n), (Z.lt_ge_cases v' n);
      [rewrite (P v), (P v') by lia|rewrite (P v), (L v') by lia
      |rewrite (L v), (P v') by lia|rewrite (L v), (L v') by lia];
      rewrite ?HF; destruct a; cbn [BytesPerWord] in *; lia.
Qed.

Lemma localOffset_slots_witness :
  localOffset x86_64 1 (2 * 8) = 40 /\ localOffset x86_64 2 (2 * 8) = -8.
Proof.
  destruct (localOffset_slots x86_64 2 4 1 2) as (H1 & _ & _); try lia.
  - vm_compute. reflexivity.
  - destruct (localOffset_slots x86_64 2 4 2 1) as (_ & H2 & _); try lia.
    + vm_compute. reflexivity.
    + split.
      * exact (proj1 (H1 ltac:(lia))).
      * exact (proj1 (H2 ltac:(lia))).
Defined.

(** ** The prologue *)

Lemma isByte_large v : 128 <= v < 2 ^ 31 -> isByte v = false.
Proof.
  intros H. unfold isByte. rewrite int32_small by lia.
  apply Z.eqb_neq. unfold int8.
  pose proof (Z.mod_pos_bound (v + 2 ^ 7) (2 ^ 8) ltac:(lia)). lia.
Qed.

(** X12: the prologue reserves the locals beyond the parameters with
    one [sub] whose immediate must fit a signed byte; a method with 128
    or more bytes of such locals is not compiled, whatever the state of
    the compiler. *)
Theorem compile_rejects_large_local_area :
  forall a x m address c,
    0 <= methodParameterFootprint m ->
    codeMaxLocals m * BytesPerWord a < 2 ^ 31 ->
    128 <= (codeMaxLocals m - methodParameterFootprint m) * BytesPerWord a ->
    Compiler.compile a x m address c = None.
Proof.
  intros a x m address c Hn Hl Hd.
  pose proof (BytesPerWord_cases a) as HW.
  unfold Compiler.compile.
  destruct ((Compiler.seq _ _) c) as [c1|]; [|reflexivity].
  cbv zeta.
  rewrite (BufferFacts.uint32_small (methodParameterFootprint m * BytesPerWord a))
    by (destruct a; cbn [BytesPerWord] in *; lia).
  rewrite (BufferFacts.uint32_small (codeMaxLocals m * BytesPerWord a))
    by (destruct a; cbn [BytesPerWord] in *; lia).
  destruct (Z.gtb_spec (codeMaxLocals m * BytesPerWord a)
                       (methodParameterFootprint m * BytesPerWord a));
    [|destruct a; cbn [BytesPerWord] in *; lia].
  unfold Compiler.emit, Assembler.sub_ir.
  rewrite isByte_large by (destruct a; cbn [BytesPerWord] in *; lia).
  reflexivity.
Qed.

Lemma compile_rejects_large_local_area_witness :
  Compiler.compile x86_64 Sample.externals
    (mkMethod [177] 16 0 0 (fun _ => (0, 0)) []) 5000 (Compiler.new 40) = None.
Proof.
  apply compile_rejects_large_local_area; cbn; lia.
Defined.

(** ** Resolving jumps *)

Lemma length_jumpWords ips pairs :
  List.length (jumpWords ips pairs) = (2 * List.length pairs)%nat.
Proof.
  induction pairs as [|p pairs IH]; [reflexivity|].
  unfold jumpWords in *. cbn [flat_map app List.length]. rewrite IH. lia.
Qed.

Lemma jumpWords_nth ips done p rest :
  nth (2 * List.length done) (jumpWords ips (done ++ p :: rest)) 0
  = nth (fst p) ips 0
  /\ nth (2 * List.length done + 1) (jumpWords ips (done ++ p :: rest)) 0
     = snd p.
Proof.
  unfold jumpWords. rewrite flat_map_app. fold (jumpWords ips done).
  cbn [flat_map app].
  rewrite !app_nth2 by (rewrite length_jumpWords; lia).
  rewrite length_jumpWords.
  replace (2 * List.length done - 2 * List.length done)%nat with 0%nat by lia.
  replace (2 * List.length done + 1 - 2 * List.length done)%nat with 1%nat by lia.
  split; reflexivity.
Qed.

Section ResolveJumps.

Variables ips mips : list Z.
Hypothesis Hsorted : StronglySorted Z.lt ips.
Hypothesis Hips : Forall (fun i => 0 <= i < 2 ^ 16) ips.
Hypothesis Hmips : Forall (fun m => 0 <= m < 2 ^ 32) mips.

Lemma resolveJumpsFrom_spec :
  forall rest done fuel c,
    mapOf c ips mips ->
    Buffer.wf (Compiler.code c) ->
    Buffer.wf (Assembler.jumps (Compiler.asm c)) ->
    Buffer.contents (Assembler.jumps (Compiler.asm c))
    = encode 4 (jumpWords ips (done ++ rest)) ->
    Forall (fun p => (fst p < List.length ips)%nat
                     /\ 0 <= snd p
                     /\ snd p + 4 <= Buffer.length (Compiler.code c)) rest ->
    separated (map snd rest) ->
    (List.length rest < fuel)%nat ->
    exists c',
      Compiler.resolveJumpsFrom fuel (8 * len done) c = Some c'
      /\ Buffer.wf (Compiler.code c')
      /\ Buffer.length (Compiler.code c') = Buffer.length (Compiler.code c)
      /\ Compiler.javaIPs c' = Compiler.javaIPs c
      /\ Compiler.machineIPs c' = Compiler.machineIPs c
      /\ (forall p, In p rest ->
            Buffer.get4 (snd p) (Compiler.code c')
            = Some (uint32 (nth (fst p) mips 0 - (snd p + 4))))
      /\ (forall u, 0 <= u -> u + 4 <= Buffer.length (Compiler.code c) ->
            Forall (fun p => snd p + 4 <= u \/ u + 4 <= snd p) rest ->
            Buffer.get4 u (Compiler.code c') = Buffer.get4 u (Compiler.code c)).
Proof.
  induction rest as [|[k off] rest IH];
    intros done fuel c Hmap Wc Wj Cj Hall Hsep Hfuel.
  - destruct fuel as [|fuel]; [cbn in Hfuel; lia|].
    pose proof (BufferFacts.len_contents _ Wj) as Lj.
    rewrite Cj, MapFacts.len_encode, app_nil_r in Lj.
    unfold len in Lj. rewrite length_jumpWords in Lj.
    cbn [Compiler.resolveJumpsFrom]. unfold Buffer.length.
    destruct (Z.ltb_spec (8 * len done) (Buffer.position
                (Assembler.jumps (Compiler.asm c)))); [unfold len in *; lia|].
    exists c. split; [reflexivity|]. split; [exact Wc|].
    split; [reflexivity|]. split; [reflexivity|]. split; [reflexivity|].
    split; [intros p []|reflexivity].
  - destruct fuel as [|fuel]; [cbn in Hfuel; lia|].
    cbn [List.length] in Hfuel.
    pose proof (BufferFacts.len_contents _ Wj) as Lj.
    rewrite Cj, MapFacts.len_encode in Lj.
    unfold len in Lj. rewrite length_jumpWords, length_app in Lj.
    cbn [List.length] in Lj.
    assert (Bj : Buffer.position (Assembler.jumps (Compiler.asm c)) < 2 ^ 32)
      by (destruct Wj as ((? & ?) & ? & ? & ?); lia).
    assert (Bc : Buffer.position (Compiler.code c) < 2 ^ 32)
      by (destruct Wc as ((? & ?) & ? & ? & ?); lia).
    inversion Hall as [|? ? (Hk & Ho & Hle) Hrest]; subst.
    inversion Hsep as [|? ? Hhead Htail]; subst.
    cbn [fst snd] in *.
    destruct (jumpWords_nth ips done (k, off) rest) as [N0 N1].
    cbn [fst snd] in N0, N1.
    cbn [Compiler.resolveJumpsFrom]. unfold Buffer.length in *.
    destruct (Z.ltb_spec (8 * len done) (Buffer.position
                (Assembler.jumps (Compiler.asm c)))); [|unfold len in *; lia].
    (* the two words of the entry *)
    pose proof (ip_entry ips Hips k Hk) as Rk.
    assert (G0 : Buffer.get4 (8 * len done) (Assembler.jumps (Compiler.asm c))
                 = Some (nth k ips 0)).
    { replace (8 * len done)
        with (uint32 (Z.of_nat (2 * List.length done) * 4))
        by (rewrite BufferFacts.uint32_small; unfold len in *; lia).
      rewrite (MapFacts.get4_entry _ _ _ Wj Cj)
        by (rewrite length_jumpWords, length_app; cbn [List.length]; lia).
      rewrite N0, Z.mod_small by lia. reflexivity. }
    assert (G4 : Buffer.get4 (uint32 (8 * len done + 4))
                   (Assembler.jumps (Compiler.asm c)) = Some off).
    { replace (8 * len done + 4)
        with (Z.of_nat (2 * List.length done + 1) * 4)
        by (unfold len; lia).
      rewrite (MapFacts.get4_entry _ _ _ Wj Cj)
        by (rewrite length_jumpWords, length_app; cbn [List.length]; lia).
      rewrite N1, Z.mod_small by lia. reflexivity. }
    rewrite G0, G4.
    rewrite (machineIpForJavaIp_found c ips mips Hmap Hsorted Hips Hmips k Hk).
    (* the patch *)
    destruct (proj1 (set4_spec (Compiler.code c) off
                       (nth k mips 0 - (off + 4)) Wc Ho ltac:(lia)) Hle)
      as (b1 & E1 & W1 & P1 & G1 & _).
    unfold Compiler.emit, Assembler.onCode. unfold Compiler.code in E1.
    rewrite E1.
    set (c1 := Compiler.setAsm c _).
    assert (Hmap1 : mapOf c1 ips mips) by exact Hmap.
    replace (uint32 (8 * len done + 8)) with (8 * len (done ++ [(k, off)]))
      by (rewrite BufferFacts.uint32_small;
          unfold len in *; rewrite ?length_app; cbn [List.length]; lia).
    destruct (IH (done ++ [(k, off)]) fuel c1 Hmap1 W1 Wj) as
      (c' & E' & W' & P' & J' & M' & G' & O').
    { rewrite <- app_assoc. exact Cj. }
    { unfold Buffer.length in P1. rewrite Forall_forall in Hrest.
      apply Forall_forall. intros p Hp. unfold c1, Compiler.code. cbn.
      unfold Compiler.code in P1. rewrite P1. apply Hrest. exact Hp. }
    { exact Htail. }
    { lia. }
    exists c'. split; [exact E'|]. split; [exact W'|].
    unfold Buffer.length in *.
    split; [rewrite P'; exact P1|]. split; [exact J'|]. split; [exact M'|].
    split.
    + intros p [<-|Hp]; [|apply G'; exact Hp].
      cbn [fst snd]. rewrite O'.
      * exact G1.
      * exact Ho.
      * unfold c1, Compiler.code in *. cbn. rewrite P1. exact Hle.
      * rewrite Forall_forall in Hhead. apply Forall_forall. intros q Hq.
        destruct (Hhead (snd q) (in_map snd _ _ Hq)); [right|left]; assumption.
    + intros u Hu Hule Hall'.
      inversion Hall' as [|? ? Hq Hrest']; subst. cbn [snd] in Hq.
      rewrite O'; [|exact Hu| |exact Hrest'].
      * eapply set4_other; [exact Wc|exact Ho|exact Hle|exact Hu|exact Hule| |exact E1].
        destruct Hq; [left|right]; assumption.
      * unfold c1, Compiler.code in *. cbn. rewrite P1. exact Hule.
Qed.

End ResolveJumps.

(** X13: when every pending jump targets a recorded bytecode IP and the
    displacement fields lie inside the code without overlapping,
    [resolveJumps] succeeds, keeps the code length and the IP map, and
    leaves in every field the distance from the end of the field to the
    machine offset of the target; a four-byte field that overlaps none
    of them reads as before. *)
Theorem resolveJumps_patches_displacements :
  forall c ips mips pairs,
    mapOf c ips mips ->
    StronglySorted Z.lt ips ->
    Forall (fun i => 0 <= i < 2 ^ 16) ips ->
    Forall (fun m => 0 <= m < 2 ^ 32) mips ->
    Buffer.wf (Compiler.code c) ->
    Buffer.wf (Assembler.jumps (Compiler.asm c)) ->
    Buffer.contents (Assembler.jumps (Compiler.asm c))
    = encode 4 (jumpWords ips pairs) ->
    Forall (fun p => (fst p < List.length ips)%nat
                     /\ 0 <= snd p
                     /\ snd p + 4 <= Buffer.length (Compiler.code c)) pairs ->
    separated (map snd pairs) ->
    exists c',
      Compiler.resolveJumps c = Some c'
      /\ Buffer.length (Compiler.code c') = Buffer.length (Compiler.code c)
      /\ mapOf c' ips mips
      /\ (forall p, In p pairs ->
            Buffer.get4 (snd p) (Compiler.code c')
            = Some (uint32 (nth (fst p) mips 0 - (snd p + 4))))
      /\ (forall u, 0 <= u -> u + 4 <= Buffer.length (Compiler.code c) ->
            Forall (fun p => snd p + 4 <= u \/ u + 4 <= snd p) pairs ->
            Buffer.get4 u (Compiler.code c') = Buffer.get4 u (Compiler.code c)).
Proof.
  intros c ips mips pairs Hmap Hsorted Hips Hmips Wc Wj Cj Hall Hsep.
  pose proof (BufferFacts.len_contents _ Wj) as Lj.
  rewrite Cj, MapFacts.len_encode in Lj.
  unfold len in Lj. rewrite length_jumpWords in Lj.
  destruct (resolveJumpsFrom_spec ips mips Hsorted Hips Hmips pairs []
              (S (Z.to_nat (Buffer.length (Assembler.jumps (Compiler.asm c)))))
              c Hmap Wc Wj Cj Hall Hsep)
    as (c' & E & W & P & J & M & G & O).
  { unfold Buffer.length. lia. }
  exists c'. split; [exact E|]. split; [exact P|].
  split; [|split; [exact G|exact O]].
  unfold mapOf in *. rewrite J, M. exact Hmap.
Qed.

Lemma mapOf_skipping : mapOf Jumps.afterLoop [0; 3; 4] [0; 5; 7].
Proof.
  unfold mapOf.
  split; [apply wfb_wf; vm_compute; reflexivity|].
  split; [apply wfb_wf; vm_compute; reflexivity|].
  split; [vm_compute; reflexivity|].
  split; [vm_compute; reflexivity|reflexivity].
Qed.

Lemma resolveJumps_patches_displacements_witness :
  exists c',
    Compiler.resolveJumps Jumps.afterLoop = Some c'
    /\ Buffer.get4 1 (Compiler.code c') = Some 2.
Proof.
  destruct (resolveJumps_patches_displacements
              Jumps.afterLoop [0; 3; 4] [0; 5; 7] [(2%nat, 1)])
    as (c' & E & _ & _ & G & _).
  - exact mapOf_skipping.
  - repeat constructor.
  - repeat constructor; lia.
  - repeat constructor; lia.
  - apply wfb_wf. vm_compute. reflexivity.
  - apply wfb_wf. vm_compute. reflexivity.
  - vm_compute. reflexivity.
  - constructor; [|constructor]. cbn [fst snd List.length].
    split; [lia|]. split; [lia|]. vm_compute. discriminate.
  - repeat constructor.
  - exists c'. split; [exact E|].
    exact (G (2%nat, 1) (or_introl eq_refl)).
Defined.

(** ** Decoding what the assembler emits *)

Module DecodeFacts.

Lemma emits_offsetBytes i z b w ra rb offset :
  emits (Assembler.offsetInstruction i z b w ra rb offset)
        (offsetBytes i z b w ra rb offset).
Proof.
  unfold Assembler.offsetInstruction, offsetBytes. cbv zeta.
  apply (AssemblerFacts.emits_seq _ _ [_] _); [apply AssemblerFacts.emits_byte|].
  apply (AssemblerFacts.emits_seq _ _ [_] _); [apply AssemblerFacts.emits_byte|].
  apply AssemblerFacts.emits_seq.
  - destruct (rb =? regNum rsp);
      [apply AssemblerFacts.emits_byte|apply AssemblerFacts.emits_skip].
  - destruct ((offset =? 0) && negb (rb =? regNum rbp));
      [apply AssemblerFacts.emits_skip|].
    destruct (isByte offset);
      [apply AssemblerFacts.emits_byte|apply AssemblerFacts.emits_append4].
Qed.

Lemma emits_loadBytes a base offset dst :
  emits (Assembler.mov_load a base offset dst) (loadBytes a base offset dst).
Proof.
  apply AssemblerFacts.emits_seq;
    [apply AssemblerFacts.emits_rex|apply emits_offsetBytes].
Qed.

Lemma emits_storeBytes a src base offset :
  emits (Assembler.mov_store a src base offset) (storeBytes a src base offset).
Proof.
  apply AssemblerFacts.emits_seq;
    [apply AssemblerFacts.emits_rex|apply emits_offsetBytes].
Qed.

Lemma emits_pushMemBytes base offset :
  emits (Assembler.push_m base offset) (pushMemBytes base offset).
Proof. apply emits_offsetBytes. Qed.

(** Reading inside a list given by its parts. *)
Lemma byteAt_at code pre x post pc :
  code = pre ++ x :: post -> pc = len pre -> X86.byteAt code pc = Some x.
Proof.
  intros -> ->. unfold X86.byteAt, len.
  destruct (Z.leb_spec 0 (Z.of_nat (List.length pre))); [|lia].
  rewrite Nat2Z.id, nth_error_app2, Nat.sub_diag by lia. reflexivity.
Qed.

Lemma immAt_at code pre bs post pc n :
  code = pre ++ bs ++ post -> pc = len pre -> n = len bs ->
  X86.immAt code pc n = Some (valueLE bs).
Proof.
  intros -> -> ->. unfold X86.immAt.
  pose proof (BufferFacts.len_nonneg pre). pose proof (BufferFacts.len_nonneg bs).
  pose proof (BufferFacts.len_nonneg post).
  rewrite BufferFacts.readBytes_ok by (rewrite ?BufferFacts.len_app; lia).
  unfold len. rewrite !Nat2Z.id.
  rewrite skipn_app, skipn_all, Nat.sub_diag. cbn [skipn app].
  rewrite firstn_app, firstn_all, Nat.sub_diag. cbn [firstn].
  rewrite app_nil_r. reflexivity.
Qed.

Ltac enum x :=
  match goal with
  | H : 0 <= x < 8 |- _ =>
      let E := fresh in
      assert (E : x = 0 \/ x = 1 \/ x = 2 \/ x = 3
                  \/ x = 4 \/ x = 5 \/ x = 6 \/ x = 7) by lia;
      clear H;
      destruct E as [E|[E|[E|[E|[E|[E|[E|E]]]]]]]; subst x
  | H : 0 <= x < 4 |- _ =>
      let E := fresh in
      assert (E : x = 0 \/ x = 1 \/ x = 2 \/ x = 3) by lia;
      clear H;
      destruct E as [E|[E|[E|E]]]; subst x
  end.

(** The three fields of the ModRM byte that the assembler composes
    with [|]. *)
Lemma modrm_fields md ra rb :
  0 <= md < 4 -> 0 <= ra < 8 -> 0 <= rb < 8 ->
  let m := uint8 (Z.lor (Z.lor (64 * md) (Z.shiftl ra 3)) rb) in
  Z.shiftr m 6 = md /\ Z.land (Z.shiftr m 3) 7 = ra /\ Z.land m 7 = rb.
Proof.
  intros Hmd Hra Hrb. enum md; enum ra; enum rb; vm_compute; auto.
Qed.

Lemma modrm_fields_push md rb :
  0 <= md < 4 -> 0 <= rb < 8 ->
  let m := uint8 (Z.lor (Z.lor (48 + 64 * md) (Z.shiftl 0 3)) rb) in
  Z.shiftr m 6 = md /\ Z.land (Z.shiftr m 3) 7 = 6 /\ Z.land m 7 = rb.
Proof.
  intros Hmd Hrb. enum md; enum rb; vm_compute; auto.
Qed.

Lemma int8_of_byte offset :
  isByte offset = true -> int8 (valueLE [uint8 offset]) = int32 offset.
Proof.
  unfold isByte. intros H. apply Z.eqb_eq in H. rewrite H.
  unfold int8, int32, uint8, valueLE.
  change (2 ^ 7) with 128. change (2 ^ 8) with 256.
  change (2 ^ 31) with 2147483648. change (2 ^ 32) with 4294967296.
  Z.div_mod_to_equations. lia.
Qed.

Lemma int32_of_word offset :
  int32 (valueLE (bytesLE 4 (uint32 offset))) = int32 offset.
Proof.
  rewrite valueLE_bytesLE. unfold int32, uint32.
  change (256 ^ Z.of_nat 4) with 4294967296.
  change (2 ^ 31) with 2147483648. change (2 ^ 32) with 4294967296.
  Z.div_mod_to_equations. lia.
Qed.

Lemma isByte_0 : isByte 0 = true.
Proof. reflexivity. Qed.

(** A ModRM byte with a memory operand, an optional SIB byte and a
    displacement, read back. *)
Lemma memOperand_parts code pre i m sib disp post pc md reg rb value :
  code = pre ++ ([i; m] ++ sib ++ disp) ++ post -> pc = len pre + 1 ->
  Z.shiftr m 6 = md -> Z.land (Z.shiftr m 3) 7 = reg -> Z.land m 7 = rb ->
  sib = (if rb =? 4 then [uint8 36] else []) ->
  (md = 0 /\ rb <> 5 /\ disp = [] /\ value = 0)
  \/ (md = 1 /\ len disp = 1 /\ value = int8 (valueLE disp))
  \/ (md = 2 /\ len disp = 4 /\ value = int32 (valueLE disp)) ->
  X86.memOperand code pc = Some (reg, rb, value, 1 + len sib + len disp).
Proof.
  intros -> -> F1 F2 F3 Hsib Hcase.
  unfold X86.memOperand.
  rewrite (byteAt_at _ (pre ++ [i]) m (sib ++ disp ++ post))
    by (rewrite ?BufferFacts.len_app, <- ?app_assoc; cbn [app]; auto).
  rewrite F1, F2, F3.
  assert (Es : (if rb =? 4
                then match X86.byteAt (pre ++ ([i; m] ++ sib ++ disp) ++ post)
                                      (len pre + 1 + 1) with
                     | Some s => if s =? 36 then Some 1 else None
                     | None => None
                     end
                else Some 0) = Some (len sib)).
  { rewrite Hsib. destruct (rb =? 4); [|reflexivity].
    rewrite (byteAt_at _ (pre ++ [i; m]) (uint8 36) (disp ++ post)).
    - reflexivity.
    - rewrite <- ?app_assoc. reflexivity.
    - rewrite BufferFacts.len_app. change (len [_; _]) with 2. lia. }
  rewrite Es. clear Es.
  assert (Hd : X86.immAt (pre ++ ([i; m] ++ sib ++ disp) ++ post)
                         (len pre + 1 + 1 + len sib) (len disp)
               = Some (valueLE disp)).
  { apply (immAt_at _ (pre ++ [i; m] ++ sib) disp post).
    - rewrite <- ?app_assoc. reflexivity.
    - rewrite !BufferFacts.len_app. change (len [_; _]) with 2. lia.
    - reflexivity. }
  destruct Hcase as [(-> & N5 & -> & ->)|[(-> & L & ->)|(-> & L & ->)]].
  - cbn [Z.eqb]. destruct (Z.eqb_spec rb 5); [contradiction|].
    change (len []) with 0. do 2 f_equal. lia.
  - cbn [Z.eqb Pos.eqb]. rewrite L in *. rewrite Hd. do 2 f_equal. lia.
  - cbn [Z.eqb Pos.eqb]. rewrite L in *. rewrite Hd. do 2 f_equal. lia.
Qed.

(** The memory operand of [offsetInstruction], read back: the register
    field, the base and the displacement. *)
Lemma memOperand_offsetBytes i z b w ra rb reg offset :
  (forall md p,
      (md = 0 /\ p = z) \/ (md = 1 /\ p = b) \/ (md = 2 /\ p = w) ->
      let m := uint8 (Z.lor (Z.lor p (Z.shiftl ra 3)) rb) in
      Z.shiftr m 6 = md /\ Z.land (Z.shiftr m 3) 7 = reg /\ Z.land m 7 = rb) ->
  forall code pre post pc,
    code = pre ++ offsetBytes i z b w ra rb offset ++ post ->
    pc = len pre + 1 ->
    X86.memOperand code pc
    = Some (reg, rb, int32 offset, len (offsetBytes i z b w ra rb offset) - 1).
Proof.
  intros Hf code pre post pc -> ->.
  unfold offsetBytes. cbv zeta. change (regNum rbp) with 5.
  change (regNum rsp) with 4.
  set (sib := if rb =? 4 then [uint8 36] else []).
  assert (Ll : forall m disp,
             len ([uint8 i; m] ++ sib ++ disp) - 1 = 1 + len sib + len disp).
  { intros. rewrite !BufferFacts.len_app. change (len [_; _]) with 2. lia. }
  destruct ((offset =? 0) && negb (rb =? 5)) eqn:Hs.
  - apply andb_true_iff in Hs. destruct Hs as [H0 H5].
    apply Z.eqb_eq in H0. apply negb_true_iff, Z.eqb_neq in H5. subst offset.
    destruct (Hf 0 z) as (F1 & F2 & F3); [auto|].
    rewrite Ll.
    eapply memOperand_parts with (pre := pre) (sib := sib) (disp := []) (md := 0);
      [reflexivity|reflexivity|exact F1|exact F2|exact F3|reflexivity|].
    left. auto.
  - destruct (isByte offset) eqn:B.
    + destruct (Hf 1 b) as (F1 & F2 & F3); [auto|].
      rewrite Ll.
      eapply memOperand_parts
        with (pre := pre) (sib := sib) (disp := [uint8 offset]) (md := 1);
        [reflexivity|reflexivity|exact F1|exact F2|exact F3|reflexivity|].
      right; left. split; [reflexivity|]. split; [reflexivity|].
      symmetry. apply int8_of_byte. exact B.
    + destruct (Hf 2 w) as (F1 & F2 & F3); [auto|].
      rewrite Ll.
      eapply memOperand_parts
        with (pre := pre) (sib := sib) (disp := bytesLE 4 (uint32 offset))
             (md := 2);
        [reflexivity|reflexivity|exact F1|exact F2|exact F3|reflexivity|].
      right; right. split; [reflexivity|]. split; [apply len_bytesLE|].
      symmetry. apply int32_of_word.
Qed.

Lemma len_offsetBytes i z b w ra rb offset :
  2 <= len (offsetBytes i z b w ra rb offset) <= 7.
Proof.
  unfold offsetBytes. cbv zeta. rewrite !BufferFacts.len_app.
  change (len [_; _]) with 2.
  destruct (rb =? regNum rsp);
    destruct ((offset =? 0) && negb (rb =? regNum rbp));
    try destruct (isByte offset);
    rewrite ?len_bytesLE; cbn [len List.length Z.of_nat Pos.of_succ_nat Pos.succ];
    lia.
Qed.

Lemma offsetBytes_head i z b w ra rb offset :
  exists md p tail,
    ((md = 0 /\ p = z) \/ (md = 1 /\ p = b) \/ (md = 2 /\ p = w))
    /\ offsetBytes i z b w ra rb offset
       = uint8 i :: uint8 (Z.lor (Z.lor p (Z.shiftl ra 3)) rb) :: tail.
Proof.
  unfold offsetBytes. cbv zeta.
  destruct ((offset =? 0) && negb (rb =? regNum rbp)).
  - exists 0, z. eexists. split; [auto|]. cbn [app]. reflexivity.
  - destruct (isByte offset).
    + exists 1, b. eexists. split; [auto|]. cbn [app]. reflexivity.
    + exists 2, w. eexists. split; [auto|]. cbn [app]. reflexivity.
Qed.

Lemma mov_fields ra rb :
  0 <= ra < 8 -> 0 <= rb < 8 ->
  forall md p,
    (md = 0 /\ p = 0) \/ (md = 1 /\ p = 64) \/ (md = 2 /\ p = 128) ->
    let m := uint8 (Z.lor (Z.lor p (Z.shiftl ra 3)) rb) in
    Z.shiftr m 6 = md /\ Z.land (Z.shiftr m 3) 7 = ra /\ Z.land m 7 = rb.
Proof.
  intros Hra Hrb md p [[-> ->]|[[-> ->]|[-> ->]]].
  - exact (modrm_fields 0 ra rb ltac:(lia) Hra Hrb).
  - exact (modrm_fields 1 ra rb ltac:(lia) Hra Hrb).
  - exact (modrm_fields 2 ra rb ltac:(lia) Hra Hrb).
Qed.

Lemma push_fields rb :
  0 <= rb < 8 ->
  forall md p,
    (md = 0 /\ p = 48) \/ (md = 1 /\ p = 112) \/ (md = 2 /\ p = 176) ->
    let m := uint8 (Z.lor (Z.lor p (Z.shiftl 0 3)) rb) in
    Z.shiftr m 6 = md /\ Z.land (Z.shiftr m 3) 7 = 6 /\ Z.land m 7 = rb.
Proof.
  intros Hrb md p [[-> ->]|[[-> ->]|[-> ->]]].
  - exact (modrm_fields_push 0 rb ltac:(lia) Hrb).
  - exact (modrm_fields_push 1 rb ltac:(lia) Hrb).
  - exact (modrm_fields_push 2 rb ltac:(lia) Hrb).
Qed.

Ltac closedTests :=
  cbv beta iota;
  cbn [Z.leb Z.ltb Z.eqb Z.compare Pos.compare Pos.compare_cont Pos.eqb
       andb negb].

Ltac closedTests_in H :=
  cbv beta iota in H;
  cbn [Z.leb Z.ltb Z.eqb Z.compare Pos.compare Pos.compare_cont Pos.eqb
       andb negb] in H.

(** The opcode and the ModRM byte are read, the latter announces a
    memory operand. *)
Lemma memoryForm i z b w ra rb reg offset :
  (forall md p,
      (md = 0 /\ p = z) \/ (md = 1 /\ p = b) \/ (md = 2 /\ p = w) ->
      let m := uint8 (Z.lor (Z.lor p (Z.shiftl ra 3)) rb) in
      Z.shiftr m 6 = md /\ Z.land (Z.shiftr m 3) 7 = reg /\ Z.land m 7 = rb) ->
  forall code pre post pc,
    code = pre ++ offsetBytes i z b w ra rb offset ++ post ->
    pc = len pre ->
    exists m md,
      (md = 0 \/ md = 1 \/ md = 2)
      /\ X86.byteAt code pc = Some (uint8 i)
      /\ X86.byteAt code (pc + 1) = Some m
      /\ Z.shiftr m 6 = md
      /\ Z.land (Z.shiftr m 3) 7 = reg
      /\ X86.memOperand code (pc + 1)
         = Some (reg, rb, int32 offset,
                 len (offsetBytes i z b w ra rb offset) - 1).
Proof.
  intros Hf code pre post pc -> ->.
  destruct (offsetBytes_head i z b w ra rb offset) as (md & p & tail & Hc & E).
  destruct (Hf md p Hc) as (F1 & F2 & F3).
  exists (uint8 (Z.lor (Z.lor p (Z.shiftl ra 3)) rb)), md.
  split; [tauto|].
  split.
  { apply (byteAt_at _ pre _ (uint8 (Z.lor (Z.lor p (Z.shiftl ra 3)) rb)
                              :: tail ++ post));
      [rewrite E; reflexivity|reflexivity]. }
  split.
  { apply (byteAt_at _ (pre ++ [uint8 i]) _ (tail ++ post));
      [rewrite E, <- app_assoc; reflexivity
      |rewrite BufferFacts.len_app; reflexivity]. }
  split; [exact F1|]. split; [exact F2|].
  apply (memOperand_offsetBytes i z b w ra rb reg offset Hf _ pre post);
    reflexivity.
Qed.

Lemma decodeOp_load a ra rb offset code pre post pc :
  0 <= ra < 8 -> 0 <= rb < 8 ->
  code = pre ++ offsetBytes 139 0 64 128 ra rb offset ++ post ->
  pc = len pre ->
  X86.decodeOp a true code pc
  = Some (X86.Load ra rb (int32 offset),
          len (offsetBytes 139 0 64 128 ra rb offset)).
Proof.
  intros Hra Hrb Hcode Hpc.
  destruct (memoryForm 139 0 64 128 ra rb ra offset (mov_fields ra rb Hra Hrb)
              code pre post pc Hcode Hpc) as (m & md & Hmd & B0 & B1 & F1 & F2 & HM).
  unfold X86.decodeOp. rewrite B0. change (uint8 139) with 139.
  closedTests. rewrite B1. cbv zeta. closedTests. rewrite F1, HM.
  destruct Hmd as [-> | [-> | ->]]; closedTests; do 2 f_equal; lia.
Qed.

Lemma decodeOp_store a ra rb offset code pre post pc :
  0 <= ra < 8 -> 0 <= rb < 8 ->
  code = pre ++ offsetBytes 137 0 64 128 ra rb offset ++ post ->
  pc = len pre ->
  X86.decodeOp a true code pc
  = Some (X86.Store rb (int32 offset) ra,
          len (offsetBytes 137 0 64 128 ra rb offset)).
Proof.
  intros Hra Hrb Hcode Hpc.
  destruct (memoryForm 137 0 64 128 ra rb ra offset (mov_fields ra rb Hra Hrb)
              code pre post pc Hcode Hpc) as (m & md & Hmd & B0 & B1 & F1 & F2 & HM).
  unfold X86.decodeOp. rewrite B0. change (uint8 137) with 137.
  closedTests. rewrite B1. cbv zeta. closedTests. rewrite F1, HM.
  destruct Hmd as [-> | [-> | ->]]; closedTests; do 2 f_equal; lia.
Qed.

Lemma decodeOp_pushMem a wide rb offset code pre post pc :
  0 <= rb < 8 ->
  code = pre ++ offsetBytes 255 48 112 176 0 rb offset ++ post ->
  pc = len pre ->
  X86.decodeOp a wide code pc
  = Some (X86.PushMem rb (int32 offset),
          len (offsetBytes 255 48 112 176 0 rb offset)).
Proof.
  intros Hrb Hcode Hpc.
  destruct (memoryForm 255 48 112 176 0 rb 6 offset (push_fields rb Hrb)
              code pre post pc Hcode Hpc) as (m & md & Hmd & B0 & B1 & F1 & F2 & HM).
  unfold X86.decodeOp. rewrite B0. change (uint8 255) with 255.
  closedTests. rewrite B1. cbv zeta. closedTests. rewrite F1, F2, HM.
  destruct Hmd as [-> | [-> | ->]]; closedTests; do 2 f_equal; lia.
Qed.

(** The optional REX.W prefix before an instruction that [decodeOp]
    reads on full words. *)
Lemma decode_rex a body code pre post pc i :
  code = pre ++ (rexBytes a ++ body) ++ post -> pc = len pre ->
  X86.decodeOp a true code (pc + len (rexBytes a)) = Some (i, len body) ->
  X86.decode a code pc = Some (i, len (rexBytes a ++ body)).
Proof.
  intros -> -> H. rewrite BufferFacts.len_app. unfold X86.decode.
  destruct a; cbn [rexBytes] in *.
  - change (len []) with 0 in *. rewrite Z.add_0_r in H. rewrite H. reflexivity.
  - change (len [72]) with 1 in *.
    rewrite (byteAt_at _ pre 72 (body ++ post)) by (rewrite <- ?app_assoc; reflexivity).
    cbn [Z.eqb Pos.eqb]. rewrite H. do 2 f_equal. lia.
Qed.

End DecodeFacts.

Lemma regNum_nonneg r : 0 <= regNum r.
Proof. destruct r; cbn; lia. Qed.

(** X14: for the eight registers that need no extension bit, a load, a
    store and a push with a memory operand are emitted as bytes that
    the decoder, started where the instruction begins, reads back as
    that instruction with the same registers and the displacement as a
    signed 32-bit number; this covers a zero, a byte and a word
    displacement and the bases [rsp] and [rbp]. *)
Theorem memory_operand_round_trip :
  forall a base reg offset pre post,
    regNum base < 8 -> regNum reg < 8 ->
    (emits (Assembler.mov_load a base offset reg) (loadBytes a base offset reg)
     /\ X86.decode a (pre ++ loadBytes a base offset reg ++ post) (len pre)
        = Some (X86.Load (regNum reg) (regNum base) (int32 offset),
                len (loadBytes a base offset reg)))
    /\ (emits (Assembler.mov_store a reg base offset)
              (storeBytes a reg base offset)
        /\ X86.decode a (pre ++ storeBytes a reg base offset ++ post) (len pre)
           = Some (X86.Store (regNum base) (int32 offset) (regNum reg),
                   len (storeBytes a reg base offset)))
    /\ (emits (Assembler.push_m base offset) (pushMemBytes base offset)
        /\ X86.decode a (pre ++ pushMemBytes base offset ++ post) (len pre)
           = Some (X86.PushMem (regNum base) (int32 offset),
                   len (pushMemBytes base offset))).
Proof.
  intros a base reg offset pre post Hb Hr.
  pose proof (regNum_nonneg base). pose proof (regNum_nonneg reg).
  assert (Lr : len (pre ++ rexBytes a) = len pre + len (rexBytes a))
    by apply BufferFacts.len_app.
  split; [|split].
  - split; [apply DecodeFacts.emits_loadBytes|].
    unfold loadBytes. eapply DecodeFacts.decode_rex; [reflexivity|reflexivity|].
    apply (DecodeFacts.decodeOp_load a _ _ _ _ (pre ++ rexBytes a) post);
      [lia|lia|rewrite <- !app_assoc; reflexivity|symmetry; exact Lr].
  - split; [apply DecodeFacts.emits_storeBytes|].
    unfold storeBytes. eapply DecodeFacts.decode_rex; [reflexivity|reflexivity|].
    apply (DecodeFacts.decodeOp_store a _ _ _ _ (pre ++ rexBytes a) post);
      [lia|lia|rewrite <- !app_assoc; reflexivity|symmetry; exact Lr].
  - split; [apply DecodeFacts.emits_pushMemBytes|].
    unfold pushMemBytes. change (regNum rax) with 0.
    assert (B : X86.byteAt (pre ++ offsetBytes 255 48 112 176 0 (regNum base) offset
                                ++ post) (len pre) = Some 255).
    { destruct (DecodeFacts.offsetBytes_head 255 48 112 176 0 (regNum base) offset)
        as (md & p & tail & _ & E).
      eapply DecodeFacts.byteAt_at; [rewrite E; reflexivity|reflexivity]. }
    unfold X86.decode. destruct a.
    + apply (DecodeFacts.decodeOp_pushMem _ _ _ _ _ pre post); [lia|reflexivity|reflexivity].
    + rewrite B. cbn [Z.eqb Pos.eqb].
      apply (DecodeFacts.decodeOp_pushMem _ _ _ _ _ pre post); [lia|reflexivity|reflexivity].
Qed.

Lemma memory_operand_round_trip_witness :
  X86.decode x86_64 ([144] ++ loadBytes x86_64 rsp 300 rdi ++ [195]) 1
  = Some (X86.Load 7 4 300, 8)
  /\ X86.decode x86_64 ([144] ++ pushMemBytes rbp 0 ++ [195]) 1
     = Some (X86.PushMem 5 0, 3).
Proof.
  destruct (memory_operand_round_trip x86_64 rsp rdi 300 [144] [195])
    as ((_ & H1) & _ & _); [cbn; lia|cbn; lia|].
  destruct (memory_operand_round_trip x86_64 rbp rdi 0 [144] [195])
    as (_ & _ & (_ & H2)); [cbn; lia|cbn; lia|].
  split; [exact H1|exact H2].
Defined.

Module EncodeFacts.

Import Assembler.

Ltac sized :=
  rewrite ?BufferFacts.len_app, ?len_bytesLE;
  try match goal with a : arch |- _ => destruct a end;
  cbn [rexBytes callBytes BytesPerWord len List.length Z.of_nat
       Pos.of_succ_nat Pos.succ] in *;
  lia.

Lemma byteAt_in pre bs post pc (k : nat) x :
  pc = len pre + Z.of_nat k -> nth_error bs k = Some x ->
  X86.byteAt (pre ++ bs ++ post) pc = Some x.
Proof.
  intros -> H. unfold X86.byteAt, len.
  destruct (Z.leb_spec 0 (Z.of_nat (List.length pre) + Z.of_nat k)); [|lia].
  replace (Z.to_nat (Z.of_nat (List.length pre) + Z.of_nat k))
    with (List.length pre + k)%nat by lia.
  rewrite nth_error_app2 by lia.
  replace (List.length pre + k - List.length pre)%nat with k by lia.
  rewrite nth_error_app1 by (apply nth_error_Some; congruence). exact H.
Qed.

Lemma immAt_in pre hd imm tl post pc n :
  pc = len pre + len hd -> n = len imm ->
  X86.immAt (pre ++ (hd ++ imm ++ tl) ++ post) pc n = Some (valueLE imm).
Proof.
  intros -> ->.
  apply (DecodeFacts.immAt_at _ (pre ++ hd) imm (tl ++ post)).
  - rewrite <- !app_assoc. reflexivity.
  - rewrite BufferFacts.len_app. reflexivity.
  - reflexivity.
Qed.

(** A byte of the emitted sequence, at whichever of the first
    positions the decoder asks for. *)
Ltac readByte :=
  match goal with
  | |- context [X86.byteAt (?pre ++ ?bs ++ ?post) ?pc] =>
      first
        [ erewrite (byteAt_in pre bs post pc 0); [|cbn; lia|reflexivity]
        | erewrite (byteAt_in pre bs post pc 1); [|cbn; lia|reflexivity]
        | erewrite (byteAt_in pre bs post pc 2); [|cbn; lia|reflexivity]
        | erewrite (byteAt_in pre bs post pc 3); [|cbn; lia|reflexivity] ]
  end.

(** Bytes that do not depend on an immediate are computed. *)
Ltac evalBytes :=
  repeat match goal with
         | |- context [uint8 ?e] =>
             let v := eval vm_compute in (uint8 e) in
             lazymatch v with
             | Z0 => idtac
             | Zpos _ => idtac
             end;
             progress change (uint8 e) with v
         end.

Ltac low r H := destruct r; cbn [regNum] in H; try lia; clear H.

(** Tests on bytes that are known are decided. *)
Ltac evalTests :=
  repeat match goal with
         | |- context [if ?b then _ else _] =>
             let v := eval vm_compute in b in
             lazymatch v with
             | true => idtac
             | false => idtac
             end;
             progress change b with v; cbv iota
         end.

Lemma immAt_byte code pre hd x post pc :
  code = pre ++ (hd ++ [x]) ++ post -> pc = len pre + len hd ->
  X86.immAt code pc 1 = Some (valueLE [x]).
Proof.
  intros -> ->. rewrite <- (app_nil_r [x]) at 1. apply immAt_in; reflexivity.
Qed.

(** The byte immediate that ends the sequence. *)
Ltac readLast :=
  match goal with
  | |- context [X86.immAt (?pre ++ ?bs ++ ?post) ?pc 1] =>
      let bs' := eval cbn [app] in bs in
      lazymatch bs' with
      | [?a; ?x] =>
          rewrite (immAt_byte (pre ++ bs ++ post) pre [a] x post pc eq_refl)
            by (cbn; lia)
      | [?a; ?b; ?x] =>
          rewrite (immAt_byte (pre ++ bs ++ post) pre [a; b] x post pc eq_refl)
            by (cbn; lia)
      | [?r; ?a; ?b; ?x] =>
          rewrite (immAt_byte (pre ++ bs ++ post) pre [r; a; b] x post pc eq_refl)
            by (cbn; lia)
      end
  end.

Ltac decoding :=
  repeat first [ readByte | readLast | progress evalTests
               | progress cbv beta iota zeta ].

Lemma encodes_one a op i :
  (forall code pc wide,
      X86.byteAt code pc = Some (uint8 op) ->
      X86.decodeOp a wide code pc = Some (i, 1)) ->
  encodes a (byte op) i.
Proof.
  intros H. exists [uint8 op]. split; [apply AssemblerFacts.emits_byte|].
  split; [sized|]. intros pre post.
  assert (B : X86.byteAt (pre ++ [uint8 op] ++ post) (len pre) = Some (uint8 op))
    by (apply (byteAt_in _ _ _ _ 0); [cbn; lia|reflexivity]).
  unfold X86.decode. destruct a; [apply H; exact B|].
  rewrite B. destruct (Z.eqb_spec (uint8 op) 72) as [E|_]; [|apply H; exact B].
  exfalso. specialize (H _ _ false B). unfold X86.decodeOp in H.
  rewrite B, E in H. DecodeFacts.closedTests_in H.
  destruct (X86.byteAt _ (len pre + 1)); discriminate.
Qed.

Lemma encodes_push_r a r : regNum r < 8 -> encodes a (push_r r) (X86.Push (regNum r)).
Proof.
  intros H. unfold push_r. apply encodes_one. intros code pc wide B.
  unfold X86.decodeOp. rewrite B. low r H; reflexivity.
Qed.

Lemma encodes_pop_r a r : regNum r < 8 -> encodes a (pop_r r) (X86.Pop (regNum r)).
Proof.
  intros H. unfold pop_r. apply encodes_one. intros code pc wide B.
  unfold X86.decodeOp. rewrite B. low r H; reflexivity.
Qed.

Lemma encodes_ret a : encodes a ret X86.Ret.
Proof.
  unfold ret. apply encodes_one. intros code pc wide B.
  unfold X86.decodeOp. rewrite B. reflexivity.
Qed.

Lemma encodes_nop a : encodes a nop X86.Nop.
Proof.
  unfold nop. apply encodes_one. intros code pc wide B.
  unfold X86.decodeOp. rewrite B. reflexivity.
Qed.

Lemma encodes_call a r : regNum r < 8 -> encodes a (call r) (X86.CallReg (regNum r)).
Proof.
  intros H. exists (callBytes r). split; [apply AssemblerFacts.emits_call|].
  split; [sized|]. intros pre post. unfold callBytes, X86.decode.
  low r H; evalBytes; destruct a; unfold X86.decodeOp; decoding; reflexivity.
Qed.

Lemma encodes_mov_rr a src dst :
  regNum src < 8 -> regNum dst < 8 ->
  encodes a (mov_rr a src dst) (X86.MovRR (regNum dst) (regNum src)).
Proof.
  intros Hs Hd.
  exists (rexBytes a
          ++ [uint8 137;
              uint8 (Z.lor (Z.lor 192 (Z.shiftl (regNum src) 3)) (regNum dst))]).
  split.
  { unfold mov_rr. apply AssemblerFacts.emits_seq; [apply AssemblerFacts.emits_rex|].
    apply (AssemblerFacts.emits_seq _ _ [_] [_]); apply AssemblerFacts.emits_byte. }
  split; [sized|]. intros pre post. unfold X86.decode.
  low src Hs; low dst Hd; evalBytes; destruct a; cbn [rexBytes];
    unfold X86.decodeOp; decoding; reflexivity.
Qed.

Lemma immAt_address a pre hd v post pc :
  pc = len pre + len hd ->
  X86.immAt (pre ++ (hd ++ bytesLE (Z.to_nat (BytesPerWord a)) (uintptr a v))
                 ++ post) pc (BytesPerWord a)
  = Some (uintptr a v).
Proof.
  intros ->.
  rewrite <- (app_nil_r (bytesLE _ _)) at 1.
  rewrite immAt_in with (hd := hd)
    by (rewrite ?len_bytesLE; destruct a; reflexivity).
  rewrite uintptr_bytes. reflexivity.
Qed.

Lemma encodes_mov_imm a v dst :
  regNum dst < 8 ->
  encodes a (mov_imm a v dst) (X86.MovImm (regNum dst) (uintptr a v)).
Proof.
  intros Hd. exists (movImmBytes a v dst).
  split; [apply AssemblerFacts.emits_mov_imm|].
  split; [rewrite AssemblerFacts.len_movImmBytes; sized|]. intros pre post. rewrite AssemblerFacts.len_movImmBytes.
  unfold movImmBytes, X86.decode.
  low dst Hd; evalBytes; destruct a; cbn [rexBytes];
    unfold X86.decodeOp; decoding;
    match goal with
    | |- context [X86.immAt (pre ++ ([] ++ [?op] ++ ?imm) ++ post) ?pc _] =>
        change ([] ++ [op] ++ imm) with ([op] ++ imm);
        rewrite (immAt_address x86_32 pre [op] v post pc) by (cbn; lia)
    | |- context [X86.immAt (pre ++ ([72] ++ [?op] ++ ?imm) ++ post) ?pc _] =>
        change ([72] ++ [op] ++ imm) with ([72; op] ++ imm);
        rewrite (immAt_address x86_64 pre [72; op] v post pc) by (cbn; lia)
    end; reflexivity.
Qed.

Lemma immediate_byte v : isByte v = true -> int8 (valueLE [uint8 v]) = int32 v.
Proof. apply DecodeFacts.int8_of_byte. Qed.

Lemma encodes_add_ir a v dst :
  regNum dst < 8 -> isByte v = true ->
  encodes a (add_ir a v dst) (X86.AddImm (regNum dst) (int32 v)).
Proof.
  intros Hd Hv.
  exists (rexBytes a ++ [uint8 131; uint8 (Z.lor 192 (regNum dst)); uint8 v]).
  split.
  { unfold add_ir. rewrite Hv.
    apply AssemblerFacts.emits_seq; [apply AssemblerFacts.emits_rex|].
    apply (AssemblerFacts.emits_seq _ _ [_] [_; _]); [apply AssemblerFacts.emits_byte|].
    apply (AssemblerFacts.emits_seq _ _ [_] [_]); apply AssemblerFacts.emits_byte. }
  split; [sized|]. intros pre post. unfold X86.decode. rewrite <- (immediate_byte v Hv).
  low dst Hd; evalBytes; destruct a; cbn [rexBytes];
    unfold X86.decodeOp; decoding; reflexivity.
Qed.

Lemma encodes_sub_ir a v dst :
  regNum dst < 8 -> isByte v = true ->
  encodes a (sub_ir a v dst) (X86.SubImm (regNum dst) (int32 v)).
Proof.
  intros Hd Hv.
  exists (rexBytes a ++ [uint8 131; uint8 (Z.lor 232 (regNum dst)); uint8 v]).
  split.
  { unfold sub_ir. rewrite Hv.
    apply AssemblerFacts.emits_seq; [apply AssemblerFacts.emits_rex|].
    apply (AssemblerFacts.emits_seq _ _ [_] [_; _]); [apply AssemblerFacts.emits_byte|].
    apply (AssemblerFacts.emits_seq _ _ [_] [_]); apply AssemblerFacts.emits_byte. }
  split; [sized|]. intros pre post. unfold X86.decode. rewrite <- (immediate_byte v Hv).
  low dst Hd; evalBytes; destruct a; cbn [rexBytes];
    unfold X86.decodeOp; decoding; reflexivity.
Qed.

Lemma encodes_cmp_ir a v r :
  regNum r < 8 -> isByte v = true ->
  encodes a (cmp_ir v r) (X86.CmpImm (regNum r) (int32 v)).
Proof.
  intros Hd Hv.
  exists [uint8 131; uint8 (Z.lor 248 (regNum r)); uint8 v].
  split.
  { unfold cmp_ir. rewrite Hv.
    apply (AssemblerFacts.emits_seq _ _ [_] [_; _]); [apply AssemblerFacts.emits_byte|].
    apply (AssemblerFacts.emits_seq _ _ [_] [_]); apply AssemblerFacts.emits_byte. }
  split; [sized|]. intros pre post. unfold X86.decode. rewrite <- (immediate_byte v Hv).
  low r Hd; evalBytes; destruct a;
    unfold X86.decodeOp; decoding; reflexivity.
Qed.

Lemma encodes_push_i a v : encodes a (push_i v) (X86.PushImm (int32 v)).
Proof.
  unfold push_i. destruct (isByte v) eqn:Hv.
  - exists [uint8 106; uint8 v]. split.
    { apply (AssemblerFacts.emits_seq _ _ [_] [_]); apply AssemblerFacts.emits_byte. }
    split; [sized|]. intros pre post. unfold X86.decode. rewrite <- (immediate_byte v Hv).
    evalBytes; destruct a; unfold X86.decodeOp; decoding; reflexivity.
  - exists ([uint8 104] ++ bytesLE 4 (uint32 v)). split.
    { apply (AssemblerFacts.emits_seq _ _ [_]);
        [apply AssemblerFacts.emits_byte|apply AssemblerFacts.emits_append4]. }
    split; [sized|]. intros pre post. unfold X86.decode.
    assert (I : X86.immAt (pre ++ ([104] ++ bytesLE 4 (uint32 v)) ++ post)
                          (len pre + 1) 4
                = Some (valueLE (bytesLE 4 (uint32 v)))).
    { rewrite <- (app_nil_r (bytesLE 4 (uint32 v))) at 1.
      apply immAt_in; reflexivity. }
    rewrite <- (DecodeFacts.int32_of_word v).
    evalBytes; destruct a; unfold X86.decodeOp; decoding; rewrite I;
      reflexivity.
Qed.

Lemma encodes_mov_load a base offset dst :
  regNum base < 8 -> regNum dst < 8 ->
  encodes a (mov_load a base offset dst)
          (X86.Load (regNum dst) (regNum base) (int32 offset)).
Proof.
  intros Hb Hd. exists (loadBytes a base offset dst).
  split; [apply DecodeFacts.emits_loadBytes|].
  split; [unfold loadBytes; pose proof (DecodeFacts.len_offsetBytes 139 0 64 128
                                          (regNum dst) (regNum base) offset);
          sized|].
  intros pre post.
  pose proof (regNum_nonneg base). pose proof (regNum_nonneg dst).
  unfold loadBytes. eapply DecodeFacts.decode_rex; [reflexivity|reflexivity|].
  apply (DecodeFacts.decodeOp_load a _ _ _ _ (pre ++ rexBytes a) post);
    [lia|lia|rewrite <- !app_assoc; reflexivity
    |symmetry; apply BufferFacts.len_app].
Qed.

Lemma encodes_mov_store a src base offset :
  regNum base < 8 -> regNum src < 8 ->
  encodes a (mov_store a src base offset)
          (X86.Store (regNum base) (int32 offset) (regNum src)).
Proof.
  intros Hb Hd. exists (storeBytes a src base offset).
  split; [apply DecodeFacts.emits_storeBytes|].
  split; [unfold storeBytes; pose proof (DecodeFacts.len_offsetBytes 137 0 64 128
                                           (regNum src) (regNum base) offset);
          sized|].
  intros pre post.
  pose proof (regNum_nonneg base). pose proof (regNum_nonneg src).
  unfold storeBytes. eapply DecodeFacts.decode_rex; [reflexivity|reflexivity|].
  apply (DecodeFacts.decodeOp_store a _ _ _ _ (pre ++ rexBytes a) post);
    [lia|lia|rewrite <- !app_assoc; reflexivity
    |symmetry; apply BufferFacts.len_app].
Qed.

Lemma encodes_push_m a base offset :
  regNum base < 8 ->
  encodes a (push_m base offset) (X86.PushMem (regNum base) (int32 offset)).
Proof.
  intros Hb. exists (pushMemBytes base offset).
  split; [apply DecodeFacts.emits_pushMemBytes|].
  split; [unfold pushMemBytes; pose proof (DecodeFacts.len_offsetBytes 255 48 112 176
                                             (regNum rax) (regNum base) offset);
          sized|].
  intros pre post. pose proof (regNum_nonneg base).
  unfold pushMemBytes. change (regNum rax) with 0.
  assert (B : X86.byteAt (pre ++ offsetBytes 255 48 112 176 0 (regNum base) offset
                              ++ post) (len pre) = Some 255).
  { destruct (DecodeFacts.offsetBytes_head 255 48 112 176 0 (regNum base) offset)
      as (md & p & tail & _ & E).
    eapply DecodeFacts.byteAt_at; [rewrite E; reflexivity|reflexivity]. }
  unfold X86.decode. destruct a.
  - apply (DecodeFacts.decodeOp_pushMem _ _ _ _ _ pre post);
      [lia|reflexivity|reflexivity].
  - rewrite B. cbn [Z.eqb Pos.eqb].
    apply (DecodeFacts.decodeOp_pushMem _ _ _ _ _ pre post);
      [lia|reflexivity|reflexivity].
Qed.

End EncodeFacts.

(** X15: for the eight registers that need no extension bit, the
    register and immediate forms of the assembler ([mov] between
    registers and of an address, [push], [pop], [call], [ret], and
    [add], [sub], [cmp] with a byte immediate) are emitted as bytes
    that the decoder reads back, wherever they stand in the code, as
    that instruction with the same operands. *)
Theorem register_forms_round_trip :
  forall a src dst v,
    regNum src < 8 -> regNum dst < 8 ->
    encodes a (Assembler.mov_rr a src dst) (X86.MovRR (regNum dst) (regNum src))
    /\ encodes a (Assembler.mov_imm a v dst) (X86.MovImm (regNum dst) (uintptr a v))
    /\ encodes a (Assembler.push_r src) (X86.Push (regNum src))
    /\ encodes a (Assembler.pop_r dst) (X86.Pop (regNum dst))
    /\ encodes a (Assembler.push_i v) (X86.PushImm (int32 v))
    /\ encodes a (Assembler.call src) (X86.CallReg (regNum src))
    /\ encodes a Assembler.ret X86.Ret
    /\ (isByte v = true ->
        encodes a (Assembler.add_ir a v dst) (X86.AddImm (regNum dst) (int32 v))
        /\ encodes a (Assembler.sub_ir a v dst) (X86.SubImm (regNum dst) (int32 v))
        /\ encodes a (Assembler.cmp_ir v dst) (X86.CmpImm (regNum dst) (int32 v))).
Proof.
  intros a src dst v Hs Hd.
  split; [apply EncodeFacts.encodes_mov_rr; assumption|].
  split; [apply EncodeFacts.encodes_mov_imm; assumption|].
  split; [apply EncodeFacts.encodes_push_r; assumption|].
  split; [apply EncodeFacts.encodes_pop_r; assumption|].
  split; [apply EncodeFacts.encodes_push_i|].
  split; [apply EncodeFacts.encodes_call; assumption|].
  split; [apply EncodeFacts.encodes_ret|].
  intros Hv.
  split; [apply EncodeFacts.encodes_add_ir; assumption|].
  split; [apply EncodeFacts.encodes_sub_ir; assumption
         |apply EncodeFacts.encodes_cmp_ir; assumption].
Qed.

Lemma register_forms_round_trip_witness :
  encodes x86_64 (Assembler.mov_rr x86_64 rsp rbp) (X86.MovRR 5 4)
  /\ encodes x86_64 (Assembler.mov_imm x86_64 4096 rbp) (X86.MovImm 5 4096).
Proof.
  destruct (register_forms_round_trip x86_64 rsp rbp 4096) as (H1 & H2 & _);
    [cbn; lia|cbn; lia|].
  split; [exact H1|exact H2].
Defined.

(** ** The stubs *)

Module StubFacts.

Import Stubs.

Lemma cemits_emit f bs : emits f bs -> cemits (Compiler.emit f) bs.
Proof.
  intros Hf c Hwf Hlt. unfold Compiler.code in *.
  destruct (Hf (Compiler.asm c) Hwf Hlt) as (s' & E & W & C & P & _).
  exists (Compiler.setAsm c s'). unfold Compiler.emit. rewrite E.
  split; [reflexivity|]. unfold Compiler.setAsm.
  cbn [Compiler.asm Compiler.threadFrameOffset Compiler.lineNumbers
       Compiler.exceptionHandlers].
  split; [exact W|]. split; [exact C|]. split; [exact P|].
  split; [reflexivity|]. split; reflexivity.
Qed.

Lemma cemits_skip : cemits Compiler.skip [].
Proof.
  intros c Hwf _. exists c. rewrite app_nil_r. change (len (@nil Z)) with 0.
  split; [reflexivity|]. split; [exact Hwf|]. split; [reflexivity|].
  split; [lia|]. auto.
Qed.

Lemma cemits_seq f g xs ys :
  cemits f xs -> cemits g ys -> cemits (Compiler.seq f g) (xs ++ ys).
Proof.
  intros Hf Hg c Hwf Hlt. rewrite BufferFacts.len_app in Hlt.
  pose proof (BufferFacts.len_nonneg xs). pose proof (BufferFacts.len_nonneg ys).
  destruct (Hf c Hwf) as (c1 & E1 & W1 & C1 & P1 & T1 & L1 & X1); [lia|].
  destruct (Hg c1 W1) as (c2 & E2 & W2 & C2 & P2 & T2 & L2 & X2); [lia|].
  exists c2. unfold Compiler.seq. rewrite E1, E2.
  split; [reflexivity|]. split; [exact W2|].
  split; [rewrite C2, C1, app_assoc; reflexivity|].
  split; [rewrite P2, P1, BufferFacts.len_app; lia|].
  split; [congruence|]. split; congruence.
Qed.

(** Straight-line code that ends in a call runs to that call. *)
Lemma run_straight a r callBytes :
  (forall pre post,
      X86.decode a (pre ++ callBytes ++ post) (len pre)
      = Some (X86.CallReg r, len callBytes)) ->
  forall (prog : list (list Z * X86.instr)) pre post code st st' fuel,
    code = pre ++ concat (map fst prog) ++ callBytes ++ post ->
    Forall (fun p => forall pre post,
                X86.decode a (pre ++ fst p ++ post) (len pre)
                = Some (snd p, len (fst p))) prog ->
    execAll a (map snd prog) st = Some st' ->
    (List.length prog < fuel)%nat ->
    X86.run a code fuel (len pre) st = Some (X86.regs st' r, st').
Proof.
  intros Hcall. induction prog as [|[bs i] prog IH];
    intros pre post code st st' fuel Hcode Hall Hexec Hfuel;
    (destruct fuel as [|fuel]; [cbn in Hfuel; lia|]).
  - cbn in Hexec. injection Hexec as <-. cbn [map concat app] in Hcode.
    rewrite RunFacts.run_unfold, Hcode, Hcall. reflexivity.
  - inversion Hall as [|? ? Hd Hrest]; subst. cbn [fst snd] in Hd.
    cbn [map fst snd concat] in *. cbn [execAll] in Hexec.
    destruct (X86.exec a i st) as [st1|] eqn:E1; [|discriminate].
    rewrite RunFacts.run_unfold.
    rewrite <- app_assoc, Hd.
    assert (Hnext : X86.run a (pre ++ bs ++ concat (map fst prog)
                                    ++ callBytes ++ post) fuel
                            (len pre + len bs) st1
                    = Some (X86.regs st' r, st')).
    { rewrite <- BufferFacts.len_app.
      apply (IH (pre ++ bs) post); [|exact Hrest|exact Hexec|cbn in Hfuel; lia].
      rewrite <- app_assoc. reflexivity. }
    destruct i; try (cbn [X86.exec] in E1; discriminate);
      cbv beta iota; rewrite E1; exact Hnext.
Qed.

Lemma uintptr_idem a x c : uintptr a (uintptr a x + c) = uintptr a (x + c).
Proof. unfold uintptr. apply Zplus_mod_idemp_l. Qed.

Lemma uintptr_idem_sub a x c : uintptr a (uintptr a x - c) = uintptr a (x - c).
Proof. unfold uintptr. apply Zminus_mod_idemp_l. Qed.

Lemma uintptr_neq a x y :
  x <> y -> Z.abs (x - y) < 2 ^ 32 -> uintptr a x <> uintptr a y.
Proof.
  unfold uintptr. intros Hne Hlt.
  destruct a; cbn [BytesPerWord Z.mul Pos.mul];
    [change (2 ^ 32) with 4294967296 in *
    |change (2 ^ 32) with 4294967296 in *;
     change (2 ^ 64) with 18446744073709551616];
    Z.div_mod_to_equations; lia.
Qed.

Ltac modular :=
  repeat match goal with x := _ |- _ => clearbody x end;
  unfold uintptr; cbn [BytesPerWord Z.mul Pos.mul];
  change (2 ^ 32) with 4294967296;
  change (2 ^ 64) with 18446744073709551616;
  Z.div_mod_to_equations; lia.

Lemma apart_spec a tfo st :
  apart a tfo st = true ->
  forall k x, -2 <= k <= 3 ->
    x = uintptr a (X86.regs st 4 - BytesPerWord a + k * BytesPerWord a) ->
    uintptr a (X86.memory st (uintptr a (X86.regs st 4 - BytesPerWord a
                                          + FrameThread a))
               + int32 tfo)
    <> x.
Proof.
  unfold apart. cbv zeta. cbn [forallb].
  rewrite !andb_true_iff, !negb_true_iff, !Z.eqb_neq, !uintptr_idem.
  change X86.SP with 4.
  intros (A1 & A2 & A3 & A4 & A5 & A6 & _) k e Hk ->.
  assert (E : k = -2 \/ k = -1 \/ k = 0 \/ k = 1 \/ k = 2 \/ k = 3) by lia.
  destruct E as [-> | [-> | [-> | [-> | [-> | ->]]]]]; assumption.
Qed.

(** An address test between words of the stack, or between the frame
    field of the thread and such a word, is decided. *)
Ltac away A :=
  first [ apply (A (-2)); [lia|modular] | apply (A (-1)); [lia|modular]
        | apply (A 0); [lia|modular] | apply (A 1); [lia|modular]
        | apply (A 2); [lia|modular] | apply (A 3); [lia|modular] ].

Ltac settle A :=
  repeat match goal with
         | |- context [if ?q =? ?p then _ else _] =>
             first
               [ rewrite (proj2 (Z.eqb_eq q p)) by modular
               | rewrite (proj2 (Z.eqb_neq q p)) by modular
               | rewrite (proj2 (Z.eqb_neq q p))
                   by (first [ away A | apply not_eq_sym; away A ]) ]
         end.

Ltac reading :=
  cbn [X86.regs X86.memory X86.setReg X86.setMem X86.push X86.SP regNum
       BytesPerWord Z.eqb Pos.eqb];
  rewrite ?uintptr_idem, ?uintptr_idem_sub.

Lemma entry_effect a tfo function st :
  apart a tfo st = true ->
  let base := uintptr a (X86.regs st X86.SP - BytesPerWord a) in
  let thread := X86.memory st (uintptr a (base + FrameThread a)) in
  let method := X86.memory st (uintptr a (base + FrameMethod a)) in
  exists st',
    execAll a (entry a tfo function) st = Some st'
    /\ X86.regs st' 0 = uintptr a function
    /\ X86.regs st' (regNum rbp) = base
    /\ X86.memory st' base = X86.regs st (regNum rbp)
    /\ X86.memory st' (uintptr a (thread + int32 tfo)) = base
    /\ argument a st' 0 = Some thread
    /\ argument a st' 1 = Some method.
Proof.
  intros Hap. pose proof (apart_spec a tfo st Hap) as A. clear Hap.
  cbv zeta. change X86.SP with 4. rewrite !uintptr_idem.
  destruct a.
  - change (FrameThread x86_32) with 8 in *.
    change (FrameMethod x86_32) with 12 in *.
    change (BytesPerWord x86_32) with 4 in *.
    change (int32 8) with 8. change (int32 12) with 12.
    set (thread := X86.memory st (uintptr x86_32 (X86.regs st 4 - 4 + 8))) in *.
    set (method := X86.memory st (uintptr x86_32 (X86.regs st 4 - 4 + 12))).
    set (F := uintptr x86_32 (thread + int32 tfo)) in *.
    set (base := uintptr x86_32 (X86.regs st 4 - 4)).
    set (S1 := X86.push x86_32 (X86.regs st 5) st).
    set (S2 := X86.setReg 5 base S1).
    set (S3 := X86.setReg 0 thread S2).
    set (S4 := X86.setMem F base S3).
    set (S5 := X86.push x86_32 method S4).
    set (S6 := X86.push x86_32 thread S5).
    exists (X86.setReg 0 (uintptr x86_32 function) S6).
    split.
    { unfold entry. cbn [app execAll].
      change (X86.exec x86_32 (X86.Push 5) st) with (Some S1). cbv beta iota.
      change (X86.exec x86_32 (X86.MovRR 5 4) S1) with (Some S2). cbv beta iota.
      assert (E3 : X86.exec x86_32 (X86.Load 0 5 (int32 8)) S2 = Some S3).
      { unfold X86.exec, S3. do 2 f_equal. unfold S2, S1, base, thread.
        reading. change (int32 8) with 8. settle A. reflexivity. }
      change (int32 (FrameThread x86_32)) with (int32 8). rewrite E3.
      assert (E4 : X86.exec x86_32 (X86.Store 0 (int32 tfo) 5) S3 = Some S4).
      { unfold X86.exec, S4. do 2 f_equal. }
      rewrite E4.
      assert (E5 : X86.exec x86_32 (X86.PushMem 5 (int32 12)) S4 = Some S5).
      { unfold X86.exec, S5. do 2 f_equal. unfold S4, S3, S2, S1, base, method.
        reading. change (int32 12) with 12. settle A. reflexivity. }
      change (int32 (FrameMethod x86_32)) with (int32 12). rewrite E5.
      assert (E6 : X86.exec x86_32 (X86.PushMem 5 (int32 8)) S5 = Some S6).
      { unfold X86.exec, S6. do 2 f_equal. unfold S5, S4, S3, S2, S1, base, thread.
        reading. change (int32 8) with 8. settle A. reflexivity. }
      rewrite E6. reflexivity. }
    unfold argument, S6, S5, S4, S3, S2, S1, base.
    split; [reflexivity|]. split; [reflexivity|].
    split; [reading; settle A; reflexivity|].
    split; [reading; settle A; reflexivity|].
    split; [f_equal; reading; settle A; reflexivity|].
    f_equal; reading; settle A; reflexivity.
  - change (FrameThread x86_64) with 16 in *.
    change (FrameMethod x86_64) with 24 in *.
    change (BytesPerWord x86_64) with 8 in *.
    change (int32 16) with 16. change (int32 24) with 24.
    set (thread := X86.memory st (uintptr x86_64 (X86.regs st 4 - 8 + 16))) in *.
    set (method := X86.memory st (uintptr x86_64 (X86.regs st 4 - 8 + 24))).
    set (F := uintptr x86_64 (thread + int32 tfo)) in *.
    set (base := uintptr x86_64 (X86.regs st 4 - 8)).
    set (S1 := X86.push x86_64 (X86.regs st 5) st).
    set (S2 := X86.setReg 5 base S1).
    set (S3 := X86.setReg 0 thread S2).
    set (S4 := X86.setMem F base S3).
    set (S5 := X86.setReg 6 method S4).
    set (S6 := X86.setReg 7 thread S5).
    exists (X86.setReg 0 (uintptr x86_64 function) S6).
    split.
    { unfold entry. cbn [app execAll].
      change (X86.exec x86_64 (X86.Push 5) st) with (Some S1). cbv beta iota.
      change (X86.exec x86_64 (X86.MovRR 5 4) S1) with (Some S2). cbv beta iota.
      assert (E3 : X86.exec x86_64 (X86.Load 0 5 (int32 16)) S2 = Some S3).
      { unfold X86.exec, S3. do 2 f_equal. unfold S2, S1, base, thread.
        reading. change (int32 16) with 16. settle A. reflexivity. }
      change (int32 (FrameThread x86_64)) with (int32 16). rewrite E3.
      assert (E4 : X86.exec x86_64 (X86.Store 0 (int32 tfo) 5) S3 = Some S4).
      { unfold X86.exec, S4. do 2 f_equal. }
      rewrite E4.
      assert (E5 : X86.exec x86_64 (X86.Load 6 5 (int32 24)) S4 = Some S5).
      { unfold X86.exec, S5. do 2 f_equal. unfold S4, S3, S2, S1, base, method.
        reading. change (int32 24) with 24. settle A. reflexivity. }
      change (int32 (FrameMethod x86_64)) with (int32 24). rewrite E5.
      assert (E6 : X86.exec x86_64 (X86.Load 7 5 (int32 16)) S5 = Some S6).
      { unfold X86.exec, S6. do 2 f_equal. unfold S5, S4, S3, S2, S1, base, thread.
        reading. change (int32 16) with 16. settle A. reflexivity. }
      rewrite E6. reflexivity. }
    unfold argument, gpRegister, S6, S5, S4, S3, S2, S1, base.
    split; [reflexivity|]. split; [reflexivity|].
    split; [reading; settle A; reflexivity|].
    split; [reading; settle A; reflexivity|].
    split; reflexivity.
Qed.

(** Composition of emitting steps, with a bound on what they emit. *)
Lemma bounded_emit a f i :
  encodes a f i ->
  exists bs, cemits (Compiler.emit f) bs /\ len bs <= 15.
Proof.
  intros (bs & E & L & _). exists bs. split; [apply cemits_emit; exact E|lia].
Qed.

Lemma bounded_seq f g n m :
  (exists bs, cemits f bs /\ len bs <= n) ->
  (exists bs, cemits g bs /\ len bs <= m) ->
  exists bs, cemits (Compiler.seq f g) bs /\ len bs <= n + m.
Proof.
  intros (xs & Hf & Lx) (ys & Hg & Ly). exists (xs ++ ys).
  split; [apply cemits_seq; assumption|rewrite BufferFacts.len_app; lia].
Qed.

Lemma bounded_skip : exists bs, cemits Compiler.skip bs /\ len bs <= 0.
Proof. exists []. split; [apply cemits_skip|reflexivity]. Qed.

Lemma emits_jmp_r r :
  exists bs, cemits (Compiler.emit (jmp_r r)) bs /\ len bs <= 15.
Proof.
  exists [uint8 255; uint8 (Z.lor 224 (regNum r))]. split.
  - apply cemits_emit. unfold jmp_r.
    apply (AssemblerFacts.emits_seq _ _ [_] [_]); apply AssemblerFacts.emits_byte.
  - cbn. lia.
Qed.

Ltac low8 := cbn [regNum]; lia.

(** The entry sequence followed by any emitting steps: the code is the
    encoding of [entry], the call, and what the steps emit. *)
Lemma entry_code a function rest n c :
  (exists bs, cemits rest bs /\ len bs <= n) -> n <= 1000 ->
  Buffer.wf (Compiler.code c) ->
  Buffer.contents (Compiler.code c) = [] ->
  Buffer.position (Compiler.code c) = 0 ->
  exists c' prog callBytes bsT,
    Compiler.seq (Compiler.emit (Assembler.push_r rbp))
      (Compiler.seq (Compiler.emit (Assembler.mov_rr a rsp rbp))
      (Compiler.seq (Compiler.emit (Assembler.mov_load a rbp (FrameThread a) rax))
      (Compiler.seq (Compiler.emit (Assembler.mov_store a rbp rax
                                      (Compiler.threadFrameOffset c)))
      (Compiler.seq
         (if BytesPerWord a =? 4 then
            Compiler.seq (Compiler.emit (Assembler.push_m rbp (FrameMethod a)))
                         (Compiler.emit (Assembler.push_m rbp (FrameThread a)))
          else
            Compiler.seq (Compiler.emit (Assembler.mov_load a rbp (FrameMethod a) rsi))
                         (Compiler.emit (Assembler.mov_load a rbp (FrameThread a) rdi)))
      (Compiler.seq (Compiler.emit (Assembler.mov_imm a function rax))
      (Compiler.seq (Compiler.emit (Assembler.call rax)) rest)))))) c
    = Some c'
    /\ Buffer.wf (Compiler.code c')
    /\ Compiler.lineNumbers c' = Compiler.lineNumbers c
    /\ Compiler.exceptionHandlers c' = Compiler.exceptionHandlers c
    /\ Buffer.contents (Compiler.code c')
       = [] ++ concat (map fst prog) ++ callBytes ++ bsT
    /\ map snd prog = entry a (Compiler.threadFrameOffset c) function
    /\ Forall (fun p => forall pre post,
                   X86.decode a (pre ++ fst p ++ post) (len pre)
                   = Some (snd p, len (fst p))) prog
    /\ (forall pre post,
           X86.decode a (pre ++ callBytes ++ post) (len pre)
           = Some (X86.CallReg 0, len callBytes)).
Proof.
  intros (bsT & HT & LT) Hn Hwf Hc Hp.
  destruct (EncodeFacts.encodes_push_r a rbp ltac:(low8)) as (b1 & E1 & L1 & D1).
  destruct (EncodeFacts.encodes_mov_rr a rsp rbp ltac:(low8) ltac:(low8))
    as (b2 & E2 & L2 & D2).
  destruct (EncodeFacts.encodes_mov_load a rbp (FrameThread a) rax
              ltac:(low8) ltac:(low8)) as (b3 & E3 & L3 & D3).
  destruct (EncodeFacts.encodes_mov_store a rbp rax (Compiler.threadFrameOffset c)
              ltac:(low8) ltac:(low8)) as (b4 & E4 & L4 & D4).
  destruct (EncodeFacts.encodes_mov_imm a function rax ltac:(low8))
    as (b7 & E7 & L7 & D7).
  destruct (EncodeFacts.encodes_call a rax ltac:(low8)) as (b8 & E8 & L8 & D8).
  assert (Hmid : exists b5 b6 i5 i6 f5 f6,
             (if BytesPerWord a =? 4 then
                Compiler.seq (Compiler.emit (Assembler.push_m rbp (FrameMethod a)))
                             (Compiler.emit (Assembler.push_m rbp (FrameThread a)))
              else
                Compiler.seq (Compiler.emit (Assembler.mov_load a rbp (FrameMethod a) rsi))
                             (Compiler.emit (Assembler.mov_load a rbp (FrameThread a) rdi)))
             = Compiler.seq (Compiler.emit f5) (Compiler.emit f6)
             /\ match a with
                | x86_32 => [X86.PushMem 5 (int32 (FrameMethod a));
                             X86.PushMem 5 (int32 (FrameThread a))]
                | x86_64 => [X86.Load 6 5 (int32 (FrameMethod a));
                             X86.Load 7 5 (int32 (FrameThread a))]
                end = [i5; i6]
             /\ emits f5 b5 /\ len b5 <= 15
             /\ (forall pre post, X86.decode a (pre ++ b5 ++ post) (len pre)
                                  = Some (i5, len b5))
             /\ emits f6 b6 /\ len b6 <= 15
             /\ (forall pre post, X86.decode a (pre ++ b6 ++ post) (len pre)
                                  = Some (i6, len b6))).
  { destruct a.
    - destruct (EncodeFacts.encodes_push_m x86_32 rbp (FrameMethod x86_32)
                  ltac:(low8)) as (b5 & E5 & L5 & D5).
      destruct (EncodeFacts.encodes_push_m x86_32 rbp (FrameThread x86_32)
                  ltac:(low8)) as (b6 & E6 & L6 & D6).
      exists b5, b6. do 4 eexists. split; [reflexivity|]. split; [reflexivity|].
      split; [exact E5|]. split; [lia|]. split; [exact D5|].
      split; [exact E6|]. split; [lia|exact D6].
    - destruct (EncodeFacts.encodes_mov_load x86_64 rbp (FrameMethod x86_64) rsi
                  ltac:(low8) ltac:(low8)) as (b5 & E5 & L5 & D5).
      destruct (EncodeFacts.encodes_mov_load x86_64 rbp (FrameThread x86_64) rdi
                  ltac:(low8) ltac:(low8)) as (b6 & E6 & L6 & D6).
      exists b5, b6. do 4 eexists. split; [reflexivity|]. split; [reflexivity|].
      split; [exact E5|]. split; [lia|]. split; [exact D5|].
      split; [exact E6|]. split; [lia|exact D6]. }
  destruct Hmid as (b5 & b6 & i5 & i6 & f5 & f6 & -> & Hi & E5 & L5 & D5
                    & E6 & L6 & D6).
  pose proof (BufferFacts.len_nonneg bsT) as L0.
  assert (Hall : cemits
                   (Compiler.seq (Compiler.emit (Assembler.push_r rbp))
                   (Compiler.seq (Compiler.emit (Assembler.mov_rr a rsp rbp))
                   (Compiler.seq (Compiler.emit (Assembler.mov_load a rbp
                                                   (FrameThread a) rax))
                   (Compiler.seq (Compiler.emit (Assembler.mov_store a rbp rax
                                                   (Compiler.threadFrameOffset c)))
                   (Compiler.seq (Compiler.seq (Compiler.emit f5) (Compiler.emit f6))
                   (Compiler.seq (Compiler.emit (Assembler.mov_imm a function rax))
                   (Compiler.seq (Compiler.emit (Assembler.call rax)) rest)))))))
                   (b1 ++ b2 ++ b3 ++ b4 ++ (b5 ++ b6) ++ b7 ++ b8 ++ bsT)).
  { repeat first [ apply cemits_seq | apply cemits_emit; assumption | exact HT ]. }
  destruct (Hall c Hwf) as (c' & Ec & Wc & Cc & Pc & Tc & Lc & Xc).
  { rewrite Hp, !BufferFacts.len_app. lia. }
  exists c', [(b1, X86.Push 5); (b2, X86.MovRR 5 4);
              (b3, X86.Load 0 5 (int32 (FrameThread a)));
              (b4, X86.Store 0 (int32 (Compiler.threadFrameOffset c)) 5);
              (b5, i5); (b6, i6); (b7, X86.MovImm 0 (uintptr a function))],
         b8, bsT.
  split; [exact Ec|]. split; [exact Wc|]. split; [exact Lc|]. split; [exact Xc|].
  split.
  { rewrite Cc, Hc. cbn [map fst concat]. rewrite <- !app_assoc. reflexivity. }
  split.
  { cbn [map snd]. unfold entry. rewrite Hi. reflexivity. }
  split; [|exact D8].
  repeat (constructor; [cbn [fst snd]; assumption|]). constructor.
Qed.

End StubFacts.

Lemma seq_fails f g :
  (forall c, g c = None) -> forall c, Compiler.seq f g c = None.
Proof.
  intros H c. unfold Compiler.seq. destruct (f c); [apply H|reflexivity].
Qed.

Lemma stub_enters a function tfo address st rest n :
  (exists bs, Stubs.cemits rest bs /\ len bs <= n) -> n <= 1000 ->
  Stubs.apart a tfo st = true ->
  exists c' cd code,
    Compiler.seq (Compiler.emit (Assembler.push_r rbp))
      (Compiler.seq (Compiler.emit (Assembler.mov_rr a rsp rbp))
      (Compiler.seq (Compiler.emit (Assembler.mov_load a rbp (FrameThread a) rax))
      (Compiler.seq (Compiler.emit (Assembler.mov_store a rbp rax
                                      (Compiler.threadFrameOffset (Compiler.new tfo))))
      (Compiler.seq
         (if BytesPerWord a =? 4 then
            Compiler.seq (Compiler.emit (Assembler.push_m rbp (FrameMethod a)))
                         (Compiler.emit (Assembler.push_m rbp (FrameThread a)))
          else
            Compiler.seq (Compiler.emit (Assembler.mov_load a rbp (FrameMethod a) rsi))
                         (Compiler.emit (Assembler.mov_load a rbp (FrameThread a) rdi)))
      (Compiler.seq (Compiler.emit (Assembler.mov_imm a function rax))
      (Compiler.seq (Compiler.emit (Assembler.call rax)) rest))))))
      (Compiler.new tfo)
    = Some c'
    /\ Compiler.finish a address c' = Some cd
    /\ readBytes (Code.body cd) 0 (Code.codeLength cd) = Some code
    /\ Stubs.entersHelper a tfo function code st.
Proof.
  intros Hrest Hn Hap.
  destruct (StubFacts.entry_code a function rest n (Compiler.new tfo) Hrest Hn)
    as (c' & prog & callBs & bsT & Ec & Wc & Lc & Xc & Cc & Hprog & Hdec & Hcall).
  { apply BufferFacts.wf_new. lia. }
  { apply BufferFacts.contents_new. }
  { reflexivity. }
  destruct (Code_make_spec a address (Compiler.code c') (Compiler.lineNumbers c')
              (Compiler.exceptionHandlers c') Wc)
    as (cd & Em & _ & _ & Hbody & _).
  { rewrite Lc. apply BufferFacts.wf_new. lia. }
  { rewrite Xc. apply BufferFacts.wf_new. lia. }
  exists c', cd, (Buffer.contents (Compiler.code c')).
  split; [exact Ec|]. split; [exact Em|]. split; [exact Hbody|].
  destruct (StubFacts.entry_effect a tfo function st Hap)
    as (st' & Hexec & R0 & R5 & M0 & MF & A0 & A1).
  unfold Stubs.entersHelper. cbv zeta. exists st'.
  split; [|split; [exact R5|split; [exact M0|split; [exact MF|split; assumption]]]].
  rewrite <- R0.
  apply (StubFacts.run_straight a 0 callBs Hcall prog [] bsT);
    [exact Cc| exact Hdec| |].
  - rewrite Hprog. exact Hexec.
  - apply (f_equal (@List.length _)) in Hprog. rewrite length_map in Hprog.
    rewrite Hprog. destruct a; cbn; lia.
Qed.



(** ** The argument block and its size *)

Module BlockFacts.

Import ArgumentList.

Lemma store_ok {A} (l : list (option A)) i (v : A) :
  0 <= i < len l ->
  exists l', store l i v = Some l' /\ len l' = len l.
Proof.
  intros H. unfold store.
  destruct (Z.leb_spec 0 i); [|lia]. destruct (Z.ltb_spec i (len l)); [|lia].
  eexists. split; [reflexivity|].
  unfold len in *. rewrite length_app, length_firstn. cbn [List.length].
  rewrite length_skipn. lia.
Qed.

(** The block has room for [k] more words. *)
Lemma addObject_ok v l :
  0 <= position l -> position l + 1 <= len (array l) ->
  len (array l) = len (objectMask l) -> len (array l) < 2 ^ 32 ->
  exists l', addObject v l = Some l'
             /\ position l' = position l + 1
             /\ len (array l') = len (array l)
             /\ len (objectMask l') = len (objectMask l).
Proof.
  intros H0 H1 H2 H3. unfold addObject.
  destruct (store_ok (array l) (position l) v) as (ar & Ea & La); [lia|].
  destruct (store_ok (objectMask l) (position l) true) as (om & Eo & Lo); [lia|].
  rewrite Ea, Eo. eexists. split; [reflexivity|]. cbn [position array objectMask].
  rewrite BufferFacts.uint32_small by lia. auto.
Qed.

Lemma addInt_ok v l :
  0 <= position l -> position l + 1 <= len (array l) ->
  len (array l) = len (objectMask l) -> len (array l) < 2 ^ 32 ->
  exists l', addInt v l = Some l'
             /\ position l' = position l + 1
             /\ len (array l') = len (array l)
             /\ len (objectMask l') = len (objectMask l).
Proof.
  intros H0 H1 H2 H3. unfold addInt.
  destruct (store_ok (array l) (position l) (uint32 v)) as (ar & Ea & La); [lia|].
  destruct (store_ok (objectMask l) (position l) false) as (om & Eo & Lo); [lia|].
  rewrite Ea, Eo. eexists. split; [reflexivity|]. cbn [position array objectMask].
  rewrite BufferFacts.uint32_small by lia. auto.
Qed.

Lemma addLong_ok a v l :
  0 <= position l -> position l + 2 <= len (array l) ->
  len (array l) = len (objectMask l) -> len (array l) < 2 ^ 32 ->
  exists l', addLong a v l = Some l'
             /\ position l' = position l + 2
             /\ len (array l') = len (array l)
             /\ len (objectMask l') = len (objectMask l).
Proof.
  intros H0 H1 H2 H3. unfold addLong.
  assert (Ha : exists ar,
             match a with
             | x86_32 =>
                 match store (array l) (position l) (v mod 2 ^ 32) with
                 | Some ar1 => store ar1 (position l + 1) (v / 2 ^ 32 mod 2 ^ 32)
                 | None => None
                 end
             | x86_64 => store (array l) (position l) (v mod 2 ^ 64)
             end = Some ar /\ len ar = len (array l)).
  { destruct a.
    - destruct (store_ok (array l) (position l) (v mod 2 ^ 32)) as (a1 & E1 & L1); [lia|].
      destruct (store_ok a1 (position l + 1) (v / 2 ^ 32 mod 2 ^ 32))
        as (a2 & E2 & L2); [lia|].
      rewrite E1, E2. exists a2. split; [reflexivity|lia].
    - apply store_ok. lia. }
  destruct Ha as (ar & Ea & La). rewrite Ea.
  destruct (store_ok (objectMask l) (position l) false) as (o1 & Eo1 & Lo1); [lia|].
  destruct (store_ok o1 (position l) false) as (o2 & Eo2 & Lo2); [lia|].
  rewrite Eo1, Eo2. eexists. split; [reflexivity|]. cbn [position array objectMask].
  rewrite BufferFacts.uint32_small by lia. split; [reflexivity|]. split; lia.
Qed.

Lemma len_skipTo c s : len (skipTo c s) <= len s.
Proof.
  induction s as [|ch s IH]; cbn [skipTo]; [lia|].
  destruct (Ascii.eqb ch c); [lia|]. unfold len in *. cbn [List.length]. lia.
Qed.

Lemma len_skipWhile c s : len (skipWhile c s) <= len s.
Proof.
  induction s as [|ch s IH]; cbn [skipWhile]; [lia|].
  destruct (Ascii.eqb ch c); [|lia]. unfold len in *. cbn [List.length]. lia.
Qed.

Lemma len_advance s s' : advance s = Some s' -> len s' = len s - 1.
Proof.
  destruct s; [discriminate|]. intros H; injection H as <-.
  unfold len. cbn [List.length]. lia.
Qed.

Lemma len_array_step s1 s' :
  match s1 with
  | c1 :: _ =>
      if Ascii.eqb c1 "L"%char then advance (skipTo ";"%char s1) else advance s1
  | [] => advance s1
  end = Some s' ->
  len s' <= len s1 - 1.
Proof.
  destruct s1 as [|c1 r]; [discriminate|].
  destruct (Ascii.eqb c1 "L"%char); intros H; apply len_advance in H.
  - pose proof (len_skipTo ";"%char (c1 :: r)). lia.
  - lia.
Qed.

(** The footprint only grows, by at most two per character. *)
Lemma footprintLoop_grows a :
  forall fuel s f k,
    Processor.footprintLoop a fuel s f = Some k ->
    0 <= f -> f + 2 * len s < 2 ^ 32 ->
    f <= k <= f + 2 * len s.
Proof.
  induction fuel as [|fuel IH]; intros s f k H Hf Hb;
    pose proof (BufferFacts.len_nonneg s);
    cbn [Processor.footprintLoop] in H;
    destruct s as [|ch rest]; try (injection H as <-; lia);
    destruct (Ascii.eqb ch ")"%char); try (injection H as <-; lia);
    try discriminate.
  destruct (Ascii.eqb ch "L"%char).
  { destruct (advance (skipTo ";"%char (ch :: rest))) as [s'|] eqn:Ea; [|discriminate].
    apply len_advance in Ea. pose proof (len_skipTo ";"%char (ch :: rest)).
    pose proof (BufferFacts.len_nonneg s').
    rewrite BufferFacts.uint32_small in H by lia.
    apply IH in H; lia. }
  destruct (Ascii.eqb ch "["%char).
  { cbv zeta in H.
    destruct (match skipWhile "["%char (ch :: rest) with
              | [] => _ | _ :: _ => _ end) as [s'|] eqn:Ea; [|discriminate].
    apply len_array_step in Ea. pose proof (len_skipWhile "["%char (ch :: rest)).
    pose proof (BufferFacts.len_nonneg s').
    rewrite BufferFacts.uint32_small in H by lia.
    apply IH in H; lia. }
  destruct (Ascii.eqb ch "J"%char || Ascii.eqb ch "D"%char).
  { cbn [advance] in H. unfold len in *. cbn [List.length] in *.
    destruct a; cbn [BytesPerWord Z.eqb Pos.eqb] in H;
      rewrite ?(BufferFacts.uint32_small (f + 1)) in H by lia;
      rewrite ?BufferFacts.uint32_small in H by lia;
      apply IH in H; lia. }
  cbn [advance] in H. unfold len in *. cbn [List.length] in *.
  rewrite BufferFacts.uint32_small in H by lia.
  apply IH in H; lia.
Qed.

Lemma addObjectArgument_ok indirectObjects deref v rest l :
  0 <= position l -> position l + 1 <= len (array l) ->
  len (array l) = len (objectMask l) -> len (array l) < 2 ^ 32 ->
  exists l', addObjectArgument indirectObjects deref (v :: rest) l = Some (rest, l')
             /\ position l' = position l + 1
             /\ len (array l') = len (array l)
             /\ len (objectMask l') = len (objectMask l).
Proof.
  intros H0 H1 H2 H3. unfold addObjectArgument. cbn [va_arg].
  destruct indirectObjects.
  - destruct (addObject_ok (if negb (v =? 0) then deref v else 0) l H0 H1 H2 H3)
      as (l' & E & P); rewrite E; eauto.
  - destruct (addObject_ok v l H0 H1 H2 H3) as (l' & E & P); rewrite E; eauto.
Qed.

(** The constructor's loop takes one argument per parameter and fills
    as many words as the 32-bit footprint counts. *)
Lemma addArguments_fits a indirectObjects deref :
  forall fuel s arguments l f32 f64 k n,
    Processor.footprintLoop x86_32 fuel s f32 = Some k ->
    Processor.footprintLoop x86_64 fuel s f64 = Some n ->
    0 <= f32 -> f32 + 2 * len s < 2 ^ 32 ->
    0 <= f64 -> f64 + 2 * len s < 2 ^ 32 ->
    n - f64 <= len arguments ->
    0 <= position l -> position l + (k - f32) <= len (array l) ->
    len (array l) = len (objectMask l) -> len (array l) < 2 ^ 32 ->
    exists l',
      addArguments a indirectObjects deref fuel s arguments l = Some l'
      /\ position l' = position l + (k - f32).
Proof.
  induction fuel as [|fuel IH];
    intros s arguments l f32 f64 k n H32 H64 P32 B32 P64 B64 Hargs Hp Hroom Hl Hs;
    pose proof (BufferFacts.len_nonneg s);
    cbn [Processor.footprintLoop addArguments] in *;
    destruct s as [|ch rest];
    try (injection H32 as <-; exists l; split; [reflexivity|lia]);
    destruct (Ascii.eqb ch ")"%char);
    try (injection H32 as <-; exists l; split; [reflexivity|lia]);
    try discriminate.
  destruct (Ascii.eqb ch "L"%char).
  { destruct (advance (skipTo ";"%char (ch :: rest))) as [s'|] eqn:Ea; [|discriminate].
    pose proof (len_advance _ _ Ea). pose proof (len_skipTo ";"%char (ch :: rest)).
    pose proof (BufferFacts.len_nonneg s').
    rewrite BufferFacts.uint32_small in H32, H64 by lia.
    pose proof (footprintLoop_grows _ _ _ _ _ H32 ltac:(lia) ltac:(lia)).
    pose proof (footprintLoop_grows _ _ _ _ _ H64 ltac:(lia) ltac:(lia)).
    destruct arguments as [|v args]; [unfold len in Hargs; cbn in Hargs; lia|].
    destruct (addObjectArgument_ok indirectObjects deref v args l)
      as (l1 & E1 & P1 & LA & LM); try lia.
    rewrite E1.
    destruct (IH s' args l1 (f32 + 1) (f64 + 1) k n H32 H64) as (l' & E & P);
      try lia.
    { unfold len in *. cbn [List.length] in Hargs. lia. }
    exists l'. split; [exact E|lia]. }
  destruct (Ascii.eqb ch "["%char).
  { cbv zeta in *.
    destruct (match skipWhile "["%char (ch :: rest) with
              | [] => _ | _ :: _ => _ end) as [s'|] eqn:Ea; [|discriminate].
    pose proof (len_array_step _ _ Ea).
    pose proof (len_skipWhile "["%char (ch :: rest)).
    pose proof (BufferFacts.len_nonneg s').
    rewrite BufferFacts.uint32_small in H32, H64 by lia.
    pose proof (footprintLoop_grows _ _ _ _ _ H32 ltac:(lia) ltac:(lia)).
    pose proof (footprintLoop_grows _ _ _ _ _ H64 ltac:(lia) ltac:(lia)).
    destruct arguments as [|v args]; [unfold len in Hargs; cbn in Hargs; lia|].
    destruct (addObjectArgument_ok indirectObjects deref v args l)
      as (l1 & E1 & P1 & LA & LM); try lia.
    rewrite E1.
    destruct (IH s' args l1 (f32 + 1) (f64 + 1) k n H32 H64) as (l' & E & P);
      try lia.
    { unfold len in *. cbn [List.length] in Hargs. lia. }
    exists l'. split; [exact E|lia]. }
  destruct (Ascii.eqb ch "J"%char || Ascii.eqb ch "D"%char).
  { cbn [advance BytesPerWord Z.eqb Pos.eqb] in *.
    assert (Hr : len rest = len (ch :: rest) - 1)
      by (unfold len; cbn [List.length]; lia).
    pose proof (BufferFacts.len_nonneg rest).
    rewrite (BufferFacts.uint32_small (f32 + 1)) in H32 by lia.
    rewrite BufferFacts.uint32_small in H32, H64 by lia.
    pose proof (footprintLoop_grows _ _ _ _ _ H32 ltac:(lia) ltac:(lia)).
    pose proof (footprintLoop_grows _ _ _ _ _ H64 ltac:(lia) ltac:(lia)).
    destruct arguments as [|v args]; [unfold len in Hargs; cbn in Hargs; lia|].
    cbn [va_arg].
    destruct (addLong_ok a v l) as (l1 & E1 & P1 & LA & LM); try lia.
    rewrite E1.
    destruct (IH rest args l1 (f32 + 1 + 1) (f64 + 1) k n H32 H64) as (l' & E & P);
      try lia.
    { unfold len in *. cbn [List.length] in Hargs. lia. }
    exists l'. split; [exact E|lia]. }
  cbn [advance] in *.
  assert (Hr : len rest = len (ch :: rest) - 1)
    by (unfold len; cbn [List.length]; lia).
  pose proof (BufferFacts.len_nonneg rest).
  rewrite BufferFacts.uint32_small in H32, H64 by lia.
  pose proof (footprintLoop_grows _ _ _ _ _ H32 ltac:(lia) ltac:(lia)).
  pose proof (footprintLoop_grows _ _ _ _ _ H64 ltac:(lia) ltac:(lia)).
  destruct arguments as [|v args]; [unfold len in Hargs; cbn in Hargs; lia|].
  cbn [va_arg].
  destruct (addInt_ok v l) as (l1 & E1 & P1 & LA & LM); try lia.
  rewrite E1.
  destruct (IH rest args l1 (f32 + 1) (f64 + 1) k n H32 H64) as (l' & E & P);
    try lia.
  { unfold len in *. cbn [List.length] in Hargs. lia. }
  exists l'. split; [exact E|lia].
Qed.

End BlockFacts.

(** X17: the block that [invokeList] by name hands to the variadic
    [ArgumentList] constructor is large enough.  With [k] the parameter
    footprint of the spec counted as on x86 (two words for a long or a
    double) and [n] the number of parameters, given [n] arguments the
    constructor succeeds on arrays of
    [parameterFootprint(spec, false) + FrameFootprint] words and ends at
    position [3 + k], plus one for a receiver, on both targets; on
    x86-64, where the footprint counts one word per parameter, this
    needs at most 21 long or double parameters. *)
Theorem argument_block_fits :
  forall a indirectObjects deref spec this_ thread frame arguments k n,
    Processor.parameterFootprint x86_32 spec true = Some k ->
    Processor.parameterFootprint x86_64 spec true = Some n ->
    n <= len arguments ->
    len (list_ascii_of_string spec) < 2 ^ 30 ->
    (a = x86_64 -> k <= n + 21) ->
    exists size l,
      Processor.invokeListSize a spec = Some size
      /\ ArgumentList.make a indirectObjects deref size thread frame this_ spec
                           arguments = Some l
      /\ ArgumentList.position l = 3 + (if this_ =? 0 then 0 else 1) + k
      /\ ArgumentList.position l <= size.
Proof.
  intros a indirectObjects deref spec this_ thread frame arguments k n
         Hk Hn Hargs Hlen Hlong.
  unfold Processor.invokeListSize, Processor.parameterFootprint, ArgumentList.make in *.
  destruct (ArgumentList.advance (list_ascii_of_string spec)) as [s1|] eqn:Ea;
    [|discriminate].
  pose proof (BlockFacts.len_advance _ _ Ea) as Ls.
  pose proof (BufferFacts.len_nonneg s1).
  destruct (Processor.footprintLoop x86_32 (List.length s1) s1 0) as [k'|] eqn:E32;
    [|discriminate].
  destruct (Processor.footprintLoop x86_64 (List.length s1) s1 0) as [n'|] eqn:E64;
    [|discriminate].
  cbn [negb] in Hk, Hn. injection Hk as ->. injection Hn as ->.
  pose proof (BlockFacts.footprintLoop_grows _ _ _ _ _ E32 ltac:(lia) ltac:(lia)).
  pose proof (BlockFacts.footprintLoop_grows _ _ _ _ _ E64 ltac:(lia) ltac:(lia)).
  set (size := match a with x86_32 => k + 1 + 12 | x86_64 => n + 1 + 24 end).
  assert (Hsize : (do footprint <- Processor.footprintLoop a (List.length s1) s1 0;
                   Some (if negb false then uint32 (footprint + 1) else footprint))
                  = Some (size - FrameFootprint a)).
  { destruct a; [rewrite E32|rewrite E64]; cbn [negb];
      rewrite BufferFacts.uint32_small by lia; f_equal;
      [change (FrameFootprint x86_32) with 12|change (FrameFootprint x86_64) with 24];
      unfold size; lia. }
  assert (Hb : 3 + 1 + k <= size < 2 ^ 32).
  { unfold size. destruct a; [lia|]. specialize (Hlong eq_refl). lia. }
  exists size. rewrite Hsize.
  replace (uint32 (size - FrameFootprint a + FrameFootprint a)) with size
    by (rewrite BufferFacts.uint32_small; lia).
  set (l0 := ArgumentList.mk (repeat None (Z.to_nat size))
                             (repeat None (Z.to_nat size)) 0).
  assert (L0 : len (ArgumentList.array l0) = size
               /\ len (ArgumentList.objectMask l0) = size)
    by (unfold l0, len; cbn [ArgumentList.array ArgumentList.objectMask];
        rewrite !repeat_length; lia).
  destruct L0 as [LA0 LM0].
  assert (P0 : ArgumentList.position l0 = 0) by reflexivity.
  destruct (BlockFacts.addInt_ok thread l0) as (l1 & E1 & P1 & LA1 & LM1);
    try (rewrite ?P0; lia).
  destruct (BlockFacts.addObject_ok 0 l1) as (l2 & E2 & P2 & LA2 & LM2); try lia.
  destruct (BlockFacts.addInt_ok frame l2) as (l3 & E3 & P3 & LA3 & LM3); try lia.
  assert (H4 : exists l4,
             (if negb (this_ =? 0) then ArgumentList.addObject this_ l3 else Some l3)
             = Some l4
             /\ ArgumentList.position l4 = 3 + (if this_ =? 0 then 0 else 1)
             /\ len (ArgumentList.array l4) = size
             /\ len (ArgumentList.objectMask l4) = size).
  { destruct (this_ =? 0); cbn [negb].
    - exists l3. split; [reflexivity|]. split; lia.
    - destruct (BlockFacts.addObject_ok this_ l3) as (l4 & E4 & P4 & LA4 & LM4);
        try lia.
      exists l4. split; [exact E4|]. split; lia. }
  destruct H4 as (l4 & E4 & P4 & LA4 & LM4).
  destruct (BlockFacts.addArguments_fits a indirectObjects deref (List.length s1) s1
              arguments l4 0 0 k n E32 E64) as (l & E & P); try lia.
  { destruct (this_ =? 0); lia. }
  { destruct (this_ =? 0); lia. }
  exists l. fold l0. rewrite E1, E2, E3, E4.
  split; [reflexivity|]. split; [exact E|]. split; [lia|].
  destruct (this_ =? 0); lia.
Qed.

Lemma argument_block_fits_witness :
  exists size l,
    Processor.invokeListSize x86_64 "(JI[Ljava/lang/String;)V" = Some size
    /\ ArgumentList.make x86_64 false (fun _ => 0) size 100 200 9
                         "(JI[Ljava/lang/String;)V" [7; 8; 9] = Some l
    /\ ArgumentList.position l = 3 + 1 + 4
    /\ ArgumentList.position l <= size.
Proof.
  apply (argument_block_fits x86_64 false (fun _ => 0) "(JI[Ljava/lang/String;)V"
           9 100 200 [7; 8; 9] 4 3).
  - vm_compute. reflexivity.
  - vm_compute. reflexivity.
  - vm_compute. discriminate.
  - vm_compute. reflexivity.
  - intros _. lia.
Defined.

(** ** Calling a helper with a register argument *)

Module CallFacts.

Import Stubs.

Ltac byHyp :=
  match goal with
  | H : ?u <> ?v |- ?q <> ?p =>
      first [ assert (q = u) by StubFacts.modular;
              assert (p = v) by StubFacts.modular; congruence
            | assert (q = v) by StubFacts.modular;
              assert (p = u) by StubFacts.modular; congruence ]
  end.

Ltac settle :=
  repeat match goal with
         | |- context [if ?q =? ?p then _ else _] =>
             first
               [ rewrite (proj2 (Z.eqb_eq q p)) by StubFacts.modular
               | rewrite (proj2 (Z.eqb_neq q p))
                   by (first [ StubFacts.modular | byHyp ]) ]
         end.

Lemma sequence_effect a tfo function arg1 st :
  Calls.clear a tfo st = true ->
  let frame := X86.regs st (regNum rbp) in
  let thread := X86.memory st (uintptr a (frame + FrameThread a)) in
  exists st',
    execAll a (Calls.sequence a tfo function arg1) st = Some st'
    /\ X86.regs st' 0 = uintptr a function
    /\ X86.regs st' (regNum rbp) = frame
    /\ X86.memory st' (uintptr a (thread + int32 tfo)) = frame
    /\ argument a st' 0 = Some thread
    /\ argument a st' 1 = Some (X86.regs st (regNum arg1)).
Proof.
  intros Hc. cbv zeta. change (regNum rbp) with 5. destruct a.
  - unfold Calls.clear in Hc. cbv zeta in Hc. cbn [forallb] in Hc.
    rewrite !andb_true_iff, !negb_true_iff, !Z.eqb_neq in Hc.
    change (regNum rbp) with 5 in Hc. change X86.SP with 4 in Hc.
    change (FrameThread x86_32) with 8 in *.
    destruct Hc as ((T1 & F1) & (T2 & F2) & _).
    set (thread := X86.memory st (uintptr x86_32 (X86.regs st 5 + 8))) in *.
    set (F := uintptr x86_32 (thread + int32 tfo)) in *.
    set (v := X86.regs st (regNum arg1)).
    set (S1 := X86.push x86_32 v st).
    set (S2 := X86.push x86_32 thread S1).
    set (S3 := X86.setReg 0 thread S2).
    set (S4 := X86.setMem F (X86.regs st 5) S3).
    exists (X86.setReg 0 (uintptr x86_32 function) S4).
    split.
    { unfold Calls.sequence. cbn [app execAll].
      change (int32 (FrameThread x86_32)) with (int32 8).
      change (X86.exec x86_32 (X86.Push (regNum arg1)) st) with (Some S1).
      cbv beta iota.
      assert (E2 : X86.exec x86_32 (X86.PushMem 5 (int32 8)) S1 = Some S2).
      { unfold X86.exec, S2. do 2 f_equal. unfold S1, thread.
        StubFacts.reading. change (int32 8) with 8. settle. reflexivity. }
      rewrite E2.
      assert (E3 : X86.exec x86_32 (X86.Load 0 5 (int32 8)) S2 = Some S3).
      { unfold X86.exec, S3. do 2 f_equal. unfold S2, S1, thread.
        StubFacts.reading. change (int32 8) with 8. settle. reflexivity. }
      rewrite E3.
      assert (E4 : X86.exec x86_32 (X86.Store 0 (int32 tfo) 5) S3 = Some S4).
      { unfold X86.exec, S4. do 2 f_equal. }
      rewrite E4. reflexivity. }
    unfold argument, S4, S3, S2, S1.
    split; [reflexivity|]. split; [reflexivity|].
    split; [StubFacts.reading; settle; reflexivity|].
    split; f_equal; StubFacts.reading; settle; reflexivity.
  - clear Hc. change (FrameThread x86_64) with 16 in *.
    set (thread := X86.memory st (uintptr x86_64 (X86.regs st 5 + 16))) in *.
    set (F := uintptr x86_64 (thread + int32 tfo)) in *.
    set (v := X86.regs st (regNum arg1)).
    set (S1 := X86.setReg 6 v st).
    set (S2 := X86.setReg 7 thread S1).
    set (S3 := X86.setReg 0 thread S2).
    set (S4 := X86.setMem F (X86.regs st 5) S3).
    exists (X86.setReg 0 (uintptr x86_64 function) S4).
    split; [reflexivity|].
    unfold argument, gpRegister, S4, S3, S2, S1.
    split; [reflexivity|]. split; [reflexivity|].
    split; [StubFacts.reading; settle; reflexivity|].
    split; reflexivity.
Qed.

Lemma cemits_callAddress a function b7 b8 :
  emits (Assembler.mov_imm a function rax) b7 ->
  emits (Assembler.call rax) b8 ->
  cemits (Compiler.callAddress a function) (b7 ++ b8).
Proof.
  intros E7 E8 c Hwf Hlt.
  destruct (StubFacts.cemits_seq _ _ _ _ (StubFacts.cemits_emit _ _ E7)
              (StubFacts.cemits_emit _ _ E8) c Hwf Hlt)
    as (c' & E & W & C & P & T & L & X).
  unfold Compiler.callAddress. rewrite E.
  exists (Compiler.setClobbered c' true). split; [reflexivity|].
  unfold Compiler.setClobbered, Compiler.code in *.
  cbn [Compiler.asm Compiler.threadFrameOffset Compiler.lineNumbers
       Compiler.exceptionHandlers].
  split; [exact W|]. split; [exact C|]. split; [exact P|].
  split; [exact T|]. split; assumption.
Qed.

End CallFacts.


